(** * The Arrow fragment loader of libvineyard

    A shallow embedding of [modules/graph/loader/arrow_fragment_loader.h]:
    schema reconciliation ([TypeLoosen], [SyncSchema], [CastTableToSchema]),
    table acquisition ([loadEdgeTables], [loadEVTablesFromEFiles]), the label
    bookkeeping of [shuffleAndBuild] and [constructFragmentGroup].

    The column-table runtime (Arrow), the I/O adaptor, the object store and
    the collective operations are external collaborators: the parts of their
    interface the loader touches are modelled in the first modules, or taken
    as section variables. *)

From Stdlib Require Import ZArith List String Ascii Bool Arith Lia.
From Stdlib Require Import Sorting.Sorted SetoidList.
From Stdlib Require Import MSets.MSetList Structures.OrdersEx.
From Stdlib Require Import FSets.FMapList FSets.FMapFacts Structures.OrderedTypeEx.
From Stdlib Require Import Floats.SpecFloat.
From Stdlib Require Import DecimalString.
Import ListNotations.

Open Scope string_scope.
Open Scope list_scope.

(** ** Results of fallible steps

    [boost::leaf::result<T>] carries either a value or a [GSError].  The
    error codes are the ones the loader names; the macros [CHECK_OR_RAISE],
    [VY_OK_OR_RAISE] and [ARROW_OK_OR_RAISE] come from a header that is not
    part of the sources, so the errors they raise are kept apart instead of
    being given a code.  [Undefined] stands for C++ undefined behaviour (an
    index past the end of a vector) and for an exception nobody catches. *)

Inductive ErrorCode : Set :=
| kIOError
| kInvalidOperationError
| kInvalidValueError
| kDataTypeError.

Inductive GSError : Set :=
| gs_error (code : ErrorCode) (msg : string)   (* RETURN_GS_ERROR / new_error *)
| check_failed (condition : string)            (* CHECK_OR_RAISE *)
| status_failed (what : string).               (* VY_OK_OR_RAISE, ARROW_OK_OR_RAISE *)

Inductive result (A : Type) : Type :=
| Ok (a : A)
| Raise (e : GSError)
| Undefined.

Arguments Ok {A} a.
Arguments Raise {A} e.
Arguments Undefined {A}.

Definition bind {A B : Type} (r : result A) (k : A -> result B) : result B :=
  match r with
  | Ok a => k a
  | Raise e => Raise e
  | Undefined => Undefined
  end.

Declare Scope result_scope.
Delimit Scope result_scope with result.
Notation "x <- r ;; k" := (bind r (fun x => k))
  (at level 100, r at next level, right associativity) : result_scope.
Notation "' p <- r ;; k" := (bind r (fun x => match x with p => k end))
  (at level 100, p pattern, r at next level, right associativity) : result_scope.
Open Scope result_scope.



(** [for (x : xs) { BOOST_LEAF_AUTO(y, f(x)); ys.push_back(y); }] *)
Fixpoint mapM {A B : Type} (f : A -> result B) (xs : list A) : result (list B) :=
  match xs with
  | [] => Ok []
  | x :: xs' => y <- f x ;; ys <- mapM f xs' ;; Ok (y :: ys)
  end.

(** ** The column-table runtime *)

Module Arrow.

Inductive TimeUnit : Set := SECOND | MILLI | MICRO | NANO.

(** The types the CSV reader infers for a column. *)
Inductive DataType : Set :=
| na
| boolean
| int64
| float64
| utf8
| binary
| date32
| timestamp (u : TimeUnit).

Definition TimeUnit_eqb (a b : TimeUnit) : bool :=
  match a, b with
  | SECOND, SECOND | MILLI, MILLI | MICRO, MICRO | NANO, NANO => true
  | _, _ => false
  end.

(** [DataType::Equals] *)
Definition Equals (a b : DataType) : bool :=
  match a, b with
  | na, na | boolean, boolean | int64, int64 | float64, float64
  | utf8, utf8 | binary, binary | date32, date32 => true
  | timestamp u, timestamp v => TimeUnit_eqb u v
  | _, _ => false
  end.

(** [DataType::ToString] *)
Definition ToString (t : DataType) : string :=
  match t with
  | na => "null"
  | boolean => "bool"
  | int64 => "int64"
  | float64 => "double"
  | utf8 => "string"
  | binary => "binary"
  | date32 => "date32[day]"
  | timestamp SECOND => "timestamp[s]"
  | timestamp MILLI => "timestamp[ms]"
  | timestamp MICRO => "timestamp[us]"
  | timestamp NANO => "timestamp[ns]"
  end.

Record Field : Set := mkField {
  field_name : string;
  field_type : DataType;
  field_nullable : bool
}.

(** [Field::WithType]: the same field with another type. *)
Definition WithType (f : Field) (t : DataType) : Field :=
  {| field_name := field_name f;
     field_type := t;
     field_nullable := field_nullable f |}.

Definition Field_Equals (f g : Field) : bool :=
  String.eqb (field_name f) (field_name g)
  && Equals (field_type f) (field_type g)
  && Bool.eqb (field_nullable f) (field_nullable g).

Definition KeyValueMetadata : Set := list (string * string).

Record Schema : Set := mkSchema {
  fields : list Field;
  metadata : option KeyValueMetadata
}.

(** [std::make_shared<arrow::Schema>(fields)]: no metadata. *)
Definition make_schema (fs : list Field) : Schema :=
  {| fields := fs; metadata := None |}.

Definition num_fields (s : Schema) : nat := length (fields s).

(** [schema->field(i)]; [None] past the end, where the C++ is undefined. *)
Definition field (s : Schema) (i : nat) : option Field := nth_error (fields s) i.

Fixpoint Fields_Equals (fs gs : list Field) : bool :=
  match fs, gs with
  | [], [] => true
  | f :: fs', g :: gs' => Field_Equals f g && Fields_Equals fs' gs'
  | _, _ => false
  end.

(** [Schema::Equals(other)] with its default [check_metadata = false]. *)
Definition Schema_Equals (s r : Schema) : bool := Fields_Equals (fields s) (fields r).

(** An array is a sequence of slots; a slot of a fixed-width type is its
    validity bit and the value held by the data buffer. *)
Inductive Array : Set :=
| NullArray (len : nat)
| BooleanArray (slots : list (option bool))
| Int64Array (slots : list (bool * Z))
| DoubleArray (slots : list (bool * spec_float))
| StringArray (slots : list (option string))
| BinaryArray (slots : list (option string))
| Date32Array (slots : list (bool * Z))
| TimestampArray (u : TimeUnit) (slots : list (bool * Z)).

Definition Array_type (a : Array) : DataType :=
  match a with
  | NullArray _ => na
  | BooleanArray _ => boolean
  | Int64Array _ => int64
  | DoubleArray _ => float64
  | StringArray _ => utf8
  | BinaryArray _ => binary
  | Date32Array _ => date32
  | TimestampArray u _ => timestamp u
  end.

Definition Array_length (a : Array) : nat :=
  match a with
  | NullArray n => n
  | BooleanArray l => length l
  | Int64Array l => length l
  | DoubleArray l => length l
  | StringArray l => length l
  | BinaryArray l => length l
  | Date32Array l => length l
  | TimestampArray _ l => length l
  end.

(** The empty array of a type. *)
Definition empty_array (t : DataType) : Array :=
  match t with
  | na => NullArray 0
  | boolean => BooleanArray []
  | int64 => Int64Array []
  | float64 => DoubleArray []
  | utf8 => StringArray []
  | binary => BinaryArray []
  | date32 => Date32Array []
  | timestamp u => TimestampArray u []
  end.

Record ChunkedArray : Set := mkChunkedArray {
  chunks : list Array;
  chunked_type : DataType
}.

Definition num_chunks (c : ChunkedArray) : nat := length (chunks c).

Definition ChunkedArray_length (c : ChunkedArray) : nat :=
  fold_right (fun a n => Array_length a + n) 0 (chunks c).

Record Table : Set := mkTable {
  schema : Schema;
  columns : list ChunkedArray
}.

(** [Table::Make(schema, columns)] *)
Definition Table_Make (s : Schema) (cols : list ChunkedArray) : Table :=
  {| schema := s; columns := cols |}.

(** [Table::num_columns] is the number of fields of the schema. *)
Definition num_columns (t : Table) : nat := num_fields (schema t).

Definition column (t : Table) (i : nat) : option ChunkedArray := nth_error (columns t) i.

Definition Table_field (t : Table) (i : nat) : option Field := field (schema t) i.

Definition num_rows (t : Table) : nat :=
  match columns t with
  | [] => 0
  | c :: _ => ChunkedArray_length c
  end.

(** [Table::ReplaceSchemaMetadata] *)
Definition ReplaceSchemaMetadata (t : Table) (m : KeyValueMetadata) : Table :=
  {| schema := {| fields := fields (schema t); metadata := Some m |};
     columns := columns t |}.

(** A table whose columns agree with its schema, chunk by chunk. *)
Definition column_conforms (f : Field) (c : ChunkedArray) : Prop :=
  chunked_type c = field_type f /\
  Forall (fun a => Array_type a = field_type f) (chunks c).

Definition well_formed (t : Table) : Prop :=
  Forall2 column_conforms (fields (schema t)) (columns t).

End Arrow.

Import Arrow.

(** ** Schema reconciliation *)

(** The number of fields of the first schema that is not null, [0] when
    there is none (the first loop of [TypeLoosen]). *)
Fixpoint first_num_fields (schemas : list (option Schema)) : nat :=
  match schemas with
  | [] => 0
  | None :: rest => first_num_fields rest
  | Some s :: _ => num_fields s
  end.

(** [fields[i]]: the [i]-th field of every schema that is not null, in the
    order of the schemas. *)
Fixpoint gather_fields (schemas : list (option Schema)) (i : nat)
  : result (list Field) :=
  match schemas with
  | [] => Ok []
  | None :: rest => gather_fields rest i
  | Some s :: rest =>
      match field s i with
      | None => Undefined
      | Some f => fs <- gather_fields rest i ;; Ok (f :: fs)
      end
  end.

(** One pass of [for (j = 1; j < fields[i].size(); ++j)]: [res] becomes
    [wide] as soon as one of the other fields has type [wide]. *)
Definition widen_to (wide : DataType) (others : list Field) (res : DataType)
  : DataType :=
  fold_left (fun r f => if Equals (field_type f) wide then wide else r) others res.

(** The body of the last loop of [TypeLoosen], on the fields of one column. *)
Definition loosen_type (first : Field) (others : list Field) : DataType :=
  let res := field_type first in
  let res := if Equals res (timestamp SECOND) then int64 else res in
  let res := if Equals res int64 then widen_to float64 others res else res in
  let res := if Equals res float64 then widen_to utf8 others res else res in
  res.

Definition loosen_field (column_fields : list Field) : result Field :=
  match column_fields with
  | [] => Undefined                      (* fields[i][0] of an empty vector *)
  | first :: others => Ok (WithType first (loosen_type first others))
  end.

Definition TypeLoosen (schemas : list (option Schema)) : result Schema :=
  let field_num := first_num_fields schemas in
  if Nat.eqb field_num 0 then
    Raise (gs_error kInvalidOperationError "Every schema is empty")
  else
    fields <- mapM (gather_fields schemas) (seq 0 field_num) ;;
    lossen_fields <- mapM loosen_field fields ;;
    Ok (make_schema lossen_fields).

(** [static_cast<double>(int64_t)]: rounding to the nearest binary64 value,
    ties to even. *)
Definition int64_to_double (z : Z) : spec_float := binary_normalize 53 1024 z 0 false.

(** The values go through the data buffer and [DoubleBuilder::AppendValues],
    which marks every slot valid. *)
Definition CastIntToDouble (in_ : Array) (to_type : DataType) : result Array :=
  if negb (Equals (Array_type in_) int64) then
    Raise (check_failed "in->type()->Equals(arrow::int64())")
  else if negb (Equals to_type float64) then
    Raise (check_failed "to_type->Equals(arrow::float64())")
  else
    match in_ with
    | Int64Array slots =>
        Ok (DoubleArray (map (fun s => (true, int64_to_double (snd s))) slots))
    | _ => Undefined
    end.

(** The array data is copied and only its type is replaced. *)
Definition CastDateToInt (in_ : Array) (to_type : DataType) : result Array :=
  if negb (Equals (Array_type in_) (timestamp SECOND)) then
    Raise (check_failed "in->type()->Equals(arrow::timestamp(arrow::TimeUnit::SECOND))")
  else if negb (Equals to_type int64) then
    Raise (check_failed "to_type->Equals(arrow::int64())")
  else
    match in_ with
    | TimestampArray _ slots => Ok (Int64Array slots)
    | _ => Undefined
    end.

(** The body of the loop over the chunks of a column whose type differs. *)
Definition cast_chunk (from_type to_type : DataType) (array : Array) : result Array :=
  if Equals from_type int64 && Equals to_type float64 then
    CastIntToDouble array to_type
  else if Equals from_type (timestamp SECOND) && Equals to_type int64 then
    CastDateToInt array to_type
  else
    Raise (gs_error kDataTypeError
             ("Unexpected type: " ++ ToString to_type ++
              "; Origin type: " ++ ToString from_type)).

(** The body of the loop over the columns. *)
Definition cast_column (table : Table) (schema : Schema) (i : nat)
  : result ChunkedArray :=
  match column table i, Table_field table i, field schema i with
  | Some col, Some tf, Some sf =>
      if negb (Equals (field_type tf) (field_type sf)) then
        let from_type := field_type tf in
        let to_type := field_type sf in
        chunks <- mapM (cast_chunk from_type to_type) (chunks col) ;;
        Ok (mkChunkedArray chunks to_type)
      else Ok col
  | _, _, _ => Undefined
  end.

Definition CastTableToSchema (table : Table) (schema : Schema) : result Table :=
  if Schema_Equals (Arrow.schema table) schema then Ok table
  else if negb (Nat.eqb (num_columns table) (num_fields schema)) then
    Raise (check_failed "table->num_columns() == schema->num_fields()")
  else
    new_columns <- mapM (cast_column table schema) (seq 0 (num_columns table)) ;;
    Ok (Table_Make schema new_columns).

(** Modelled from the spec: [vineyard::EmptyTableBuilder::Build] is declared
    in a header that is not part of the sources.  The spec asks for "an empty
    table conforming to the reconciled schema (zero rows, correct column
    types)": one empty chunk per field, of the field's type. *)
Definition EmptyTableBuilder_Build (schema : Schema) : result Table :=
  Ok (Table_Make schema
        (map (fun f => mkChunkedArray [empty_array (field_type f)] (field_type f))
             (fields schema))).

(** [SyncSchema] on one worker; [schemas] is what [GlobalAllGatherv] hands
    back, the local schema of every worker in rank order. *)
Definition SyncSchema (table : option Table) (schemas : list (option Schema))
  : result Table :=
  normalized_schema <- TypeLoosen schemas ;;
  match table with
  | None => EmptyTableBuilder_Build normalized_schema
  | Some table => CastTableToSchema table normalized_schema
  end.

Definition local_schema (table : option Table) : option Schema :=
  match table with
  | Some t => Some (schema t)
  | None => None
  end.

(** The all-gather: every worker receives the contributions of all workers,
    ordered by rank. *)
Definition GlobalAllGatherv {A : Type} (locals : list A) : list A := locals.

(** [SyncSchema] as the worker group runs it: [tables] holds the local table
    of every worker, by rank; the result holds what each worker returns. *)
Definition SyncSchema_group (tables : list (option Table)) : list (result Table) :=
  let schemas := GlobalAllGatherv (map local_schema tables) in
  map (fun table => SyncSchema table schemas) tables.

(** *** The widening lattice of the specification *)

(** [timestamp(seconds) -> integer(64-bit) -> floating(64-bit) -> UTF-8 string] *)
Definition lattice_rank (t : DataType) : option nat :=
  match t with
  | timestamp SECOND => Some 0
  | int64 => Some 1
  | float64 => Some 2
  | utf8 => Some 3
  | _ => None
  end.

Definition in_lattice (t : DataType) : bool :=
  match lattice_rank t with Some _ => true | None => false end.

Definition rank_of (t : DataType) : nat :=
  match lattice_rank t with Some n => n | None => 0 end.

Definition lattice_le (a b : DataType) : Prop := rank_of a <= rank_of b.

Definition lub2 (a b : DataType) : DataType :=
  if Nat.leb (rank_of a) (rank_of b) then b else a.

(** The least upper bound of a non-empty sequence of types of the lattice. *)
Definition type_lub (first : DataType) (others : list DataType) : DataType :=
  fold_left lub2 others first.

(** The one combination on which [loosen_type] is not the least upper bound:
    the first type is integer or timestamp, a string is contributed and no
    floating type is. *)
Definition skips_float (first : DataType) (others : list DataType) : bool :=
  Nat.leb (rank_of first) 1
  && existsb (fun t => Equals t utf8) others
  && negb (existsb (fun t => Equals t float64) others).

Definition wide_enough (n : nat) (schemas : list (option Schema)) : Prop :=
  Forall (fun o => match o with
                   | None => True
                   | Some s => n <= num_fields s
                   end) schemas.

(** The first schema that is not null. *)
Fixpoint first_schema (schemas : list (option Schema)) : option Schema :=
  match schemas with
  | [] => None
  | None :: rest => first_schema rest
  | Some s :: _ => Some s
  end.

Definition max_rank (ts : list DataType) : nat :=
  fold_right (fun t m => Nat.max (rank_of t) m) 0 ts.

(** A schema of one nullable column. *)
Definition single_column (name : string) (t : DataType) : Schema :=
  make_schema [mkField name t true].

(** The reading of the specification: every column of the lattice is
    reconciled to the least upper bound of the contributed types, the type
    of the first schema that is not null being the starting point. *)
Definition reconciles_to_lub (schemas : list (option Schema)) : Prop :=
  forall T i first others f,
    TypeLoosen schemas = Ok T ->
    gather_fields schemas i = Ok (first :: others) ->
    forallb in_lattice (field_type first :: map field_type others) = true ->
    field T i = Some f ->
    field_type f = type_lub (field_type first) (map field_type others).

(** The reading of the specification: reconciling a schema with itself
    returns that schema. *)
Definition reconcile_is_noop (s : Schema) : Prop :=
  exists T, TypeLoosen [Some s; Some s] = Ok T /\ Schema_Equals T s = true.

Definition has_timestamp_seconds (s : Schema) : bool :=
  existsb (fun f => Equals (field_type f) (timestamp SECOND)) (fields s).

(** *** Casting, as the specification describes it *)

(** The two casts [cast_chunk] knows. *)
Definition supported_cast (from_type to_type : DataType) : bool :=
  (Equals from_type int64 && Equals to_type float64)
  || (Equals from_type (timestamp SECOND) && Equals to_type int64).

(** The message of the data-type error. *)
Definition unexpected_type (from_type to_type : DataType) : string :=
  "Unexpected type: " ++ ToString to_type ++ "; Origin type: " ++ ToString from_type.

(** What a supported cast makes of a chunk: an integer slot becomes a valid
    slot holding the integer as a double, a timestamp slot is kept as it is. *)
Definition converted_chunk (a : Array) : Array :=
  match a with
  | Int64Array slots => DoubleArray (map (fun s => (true, int64_to_double (snd s))) slots)
  | TimestampArray _ slots => Int64Array slots
  | _ => a
  end.

Definition converted_column (tf sf : Field) (col : ChunkedArray) : ChunkedArray :=
  if Equals (field_type tf) (field_type sf) then col
  else mkChunkedArray (map converted_chunk (chunks col)) (field_type sf).

(** A column whose type differs from the target by an unsupported pair. *)
Definition unsupported_mismatch (tf sf : Field) : bool :=
  negb (Equals (field_type tf) (field_type sf))
  && negb (supported_cast (field_type tf) (field_type sf)).


(** ** Containers of the loader

    [std::set<std::string>] and [std::map<std::string, T>] keep their keys
    in lexicographic order; their models are the sorted lists of the
    standard library, so that iterating them visits the keys in that
    order. *)

Module StringSet := MSetList.Make(OrdersEx.String_as_OT).
Module StringPair := OrdersEx.PairOrderedType(OrdersEx.String_as_OT)(OrdersEx.String_as_OT).
Module StringPairSet := MSetList.Make(StringPair).
Module StringMap := FMapList.Make(OrderedTypeEx.String_as_OT).
Module StringMapFacts := FMapFacts.WFacts_fun(OrderedTypeEx.String_as_OT)(StringMap).
Module NatMap := FMapList.Make(OrderedTypeEx.Nat_as_OT).
Module NatMapFacts := FMapFacts.WFacts_fun(OrderedTypeEx.Nat_as_OT)(NatMap).

(** [label_id_t]: label indices are counted up from zero. *)
Definition label_id_t : Set := nat.

(** [v[i] = x] on a vector; the caller checks the range. *)
Fixpoint vector_set {A : Type} (v : list A) (i : nat) (x : A) : list A :=
  match v, i with
  | [], _ => []
  | _ :: v', 0 => x :: v'
  | y :: v', S i' => y :: vector_set v' i' x
  end.

(** [std::to_string] of a label index or a column position. *)
Definition to_string (n : nat) : string := NilZero.string_of_uint (Nat.to_uint n).

(** [boost::split(out, s, boost::is_any_of(c))] for one separator: the
    pieces between the separators, empty pieces included. *)
Fixpoint split_on (c : ascii) (s : string) : list string :=
  match s with
  | EmptyString => [EmptyString]
  | String a rest =>
      if Ascii.eqb a c then EmptyString :: split_on c rest
      else match split_on c rest with
           | [] => [String a EmptyString]
           | piece :: pieces => String a piece :: pieces
           end
  end.

Definition split_semicolon (s : string) : list string := split_on ";" s.

(** The metadata of an I/O adaptor, a map from keys to values. *)
Definition adaptor_meta_t : Set := list (string * string).

Fixpoint meta_find (key : string) (meta : adaptor_meta_t) : option string :=
  match meta with
  | [] => None
  | (k, v) :: rest => if String.eqb k key then Some v else meta_find key rest
  end.

(** The keys in the path of a vfile or an efile. *)
Definition LABEL_TAG : string := "label".
Definition SRC_LABEL_TAG : string := "src_label".
Definition DST_LABEL_TAG : string := "dst_label".

(** The columns of a table that hold the identifiers. *)
Definition id_column : nat := 0.
Definition src_column : nat := 0.
Definition dst_column : nat := 1.

(** The fields a load session owns. *)
Record LoaderState : Type := mkLoaderState {
  vertex_label_to_index_ : StringMap.t label_id_t;
  edge_label_to_index_ : StringMap.t label_id_t;
  edge_vertex_label_ : StringMap.t StringPairSet.t;
  vertex_label_num_ : label_id_t;
  edge_label_num_ : label_id_t
}.

(** The state the constructors leave: empty maps and the label counts. *)
Definition new_loader (vertex_label_num edge_label_num : label_id_t) : LoaderState :=
  {| vertex_label_to_index_ := StringMap.empty label_id_t;
     edge_label_to_index_ := StringMap.empty label_id_t;
     edge_vertex_label_ := StringMap.empty StringPairSet.t;
     vertex_label_num_ := vertex_label_num;
     edge_label_num_ := edge_label_num |}.

Definition set_vertex_label_to_index (st : LoaderState) (m : StringMap.t label_id_t)
  : LoaderState :=
  {| vertex_label_to_index_ := m;
     edge_label_to_index_ := edge_label_to_index_ st;
     edge_vertex_label_ := edge_vertex_label_ st;
     vertex_label_num_ := vertex_label_num_ st;
     edge_label_num_ := edge_label_num_ st |}.

Definition set_edge_label_to_index (st : LoaderState) (m : StringMap.t label_id_t)
  : LoaderState :=
  {| vertex_label_to_index_ := vertex_label_to_index_ st;
     edge_label_to_index_ := m;
     edge_vertex_label_ := edge_vertex_label_ st;
     vertex_label_num_ := vertex_label_num_ st;
     edge_label_num_ := edge_label_num_ st |}.

Definition set_edge_vertex_label (st : LoaderState) (m : StringMap.t StringPairSet.t)
  : LoaderState :=
  {| vertex_label_to_index_ := vertex_label_to_index_ st;
     edge_label_to_index_ := edge_label_to_index_ st;
     edge_vertex_label_ := m;
     vertex_label_num_ := vertex_label_num_ st;
     edge_label_num_ := edge_label_num_ st |}.

Definition set_vertex_label_num (st : LoaderState) (n : label_id_t) : LoaderState :=
  {| vertex_label_to_index_ := vertex_label_to_index_ st;
     edge_label_to_index_ := edge_label_to_index_ st;
     edge_vertex_label_ := edge_vertex_label_ st;
     vertex_label_num_ := n;
     edge_label_num_ := edge_label_num_ st |}.

(** [edge_vertex_label_[label].insert(make_pair(src, dst))] *)
Definition insert_relation (m : StringMap.t StringPairSet.t) (label src dst : string)
  : StringMap.t StringPairSet.t :=
  let old := match StringMap.find label m with
             | Some pairs => pairs
             | None => StringPairSet.empty
             end in
  StringMap.add label (StringPairSet.add (src, dst) old) m.

(** ** Collective operations

    A worker is a program that runs local steps and stops at each
    collective operation with its contribution, waiting for what the
    operation hands back.  The group of workers advances in lockstep: a
    collective completes when every worker has reached the same operation,
    and a worker that returned while a peer waits leaves that peer
    blocked. *)

(** [vineyard::ObjectID] and the instance identity are 64-bit numbers. *)
Definition ObjectID : Set := Z.

Inductive Prog (R : Type) : Type :=
| Ret (r : R)
| AllGatherSchema (local : option Schema) (k : list (option Schema) -> Prog R)
| AllGatherError (local : option GSError) (k : list (option GSError) -> Prog R)
| Gather (local : Z) (k : option (list Z) -> Prog R)
| Bcast (buffer : Z) (k : Z -> Prog R).

Arguments Ret {R} r.
Arguments AllGatherSchema {R} local k.
Arguments AllGatherError {R} local k.
Arguments Gather {R} local k.
Arguments Bcast {R} buffer k.

Fixpoint bindP {A B : Type} (p : Prog A) (f : A -> Prog B) : Prog B :=
  match p with
  | Ret a => f a
  | AllGatherSchema l k => AllGatherSchema l (fun x => bindP (k x) f)
  | AllGatherError l k => AllGatherError l (fun x => bindP (k x) f)
  | Gather l k => Gather l (fun x => bindP (k x) f)
  | Bcast b k => Bcast b (fun x => bindP (k x) f)
  end.


(** The peers of a worker, when all of them have returned. *)
Fixpoint all_returned {R : Type} (peers : list (Prog R)) : option (list R) :=
  match peers with
  | [] => Some []
  | Ret r :: rest => option_map (cons r) (all_returned rest)
  | _ :: _ => None
  end.

Fixpoint at_all_gather_schema {R : Type} (peers : list (Prog R))
  : option (list (option Schema) * list (list (option Schema) -> Prog R)) :=
  match peers with
  | [] => Some ([], [])
  | AllGatherSchema l k :: rest =>
      option_map (fun '(ls, ks) => (l :: ls, k :: ks)) (at_all_gather_schema rest)
  | _ :: _ => None
  end.

Fixpoint at_all_gather_error {R : Type} (peers : list (Prog R))
  : option (list (option GSError) * list (list (option GSError) -> Prog R)) :=
  match peers with
  | [] => Some ([], [])
  | AllGatherError l k :: rest =>
      option_map (fun '(ls, ks) => (l :: ls, k :: ks)) (at_all_gather_error rest)
  | _ :: _ => None
  end.

Fixpoint at_gather {R : Type} (peers : list (Prog R))
  : option (list Z * list (option (list Z) -> Prog R)) :=
  match peers with
  | [] => Some ([], [])
  | Gather l k :: rest =>
      option_map (fun '(ls, ks) => (l :: ls, k :: ks)) (at_gather rest)
  | _ :: _ => None
  end.

Fixpoint at_bcast {R : Type} (peers : list (Prog R)) : option (list (Z -> Prog R)) :=
  match peers with
  | [] => Some []
  | Bcast _ k :: rest => option_map (cons k) (at_bcast rest)
  | _ :: _ => None
  end.

(** The group: [root] is the worker of rank 0, [peers] the workers of rank
    1, 2, ...  The result is what every worker returns, by rank, or [None]
    when some worker is left waiting in a collective operation.  An
    all-gather hands every contribution to everybody; [MPI_Gather] hands
    them to the root only; [MPI_Bcast] hands the buffer of the root to
    everybody. *)
Fixpoint run_group {R : Type} (root : Prog R) (peers : list (Prog R)) {struct root}
  : option (list R) :=
  match root with
  | Ret r => option_map (cons r) (all_returned peers)
  | AllGatherSchema l k =>
      match at_all_gather_schema peers with
      | Some (ls, ks) => run_group (k (l :: ls)) (map (fun k' => k' (l :: ls)) ks)
      | None => None
      end
  | AllGatherError l k =>
      match at_all_gather_error peers with
      | Some (ls, ks) => run_group (k (l :: ls)) (map (fun k' => k' (l :: ls)) ks)
      | None => None
      end
  | Gather l k =>
      match at_gather peers with
      | Some (ls, ks) => run_group (k (Some (l :: ls))) (map (fun k' => k' None) ks)
      | None => None
      end
  | Bcast b k =>
      match at_bcast peers with
      | Some ks => run_group (k b) (map (fun k' => k' b) ks)
      | None => None
      end
  end.

Definition run_workers {R : Type} (workers : list (Prog R)) : option (list R) :=
  match workers with
  | [] => Some []
  | root :: peers => run_group root peers
  end.

(** [returns p r]: the worker [p] returns [r] for some outcome of the
    collective operations it goes through. *)
Inductive returns {R : Type} : Prog R -> R -> Prop :=
| returns_Ret (r : R) : returns (Ret r) r
| returns_AllGatherSchema (l : option Schema) k (x : list (option Schema)) r :
    returns (k x) r -> returns (AllGatherSchema l k) r
| returns_AllGatherError (l : option GSError) k (x : list (option GSError)) r :
    returns (k x) r -> returns (AllGatherError l k) r
| returns_Gather (l : Z) k (x : option (list Z)) r :
    returns (k x) r -> returns (Gather l k) r
| returns_Bcast (b : Z) k (x : Z) r :
    returns (k x) r -> returns (Bcast b k) r.

(** Two workers are aligned when they go through the same collective
    operations whatever these hand back, as long as an all-gather hands
    back the contributions of both, and return results related by [Rel]. *)
Inductive aligned {A B : Type} (Rel : A -> B -> Prop) : Prog A -> Prog B -> Prop :=
| aligned_Ret (a : A) (b : B) :
    Rel a b -> aligned Rel (Ret a) (Ret b)
| aligned_AllGatherSchema (l l' : option Schema) k k' :
    (forall x, In l x -> In l' x -> aligned Rel (k x) (k' x)) ->
    aligned Rel (AllGatherSchema l k) (AllGatherSchema l' k')
| aligned_AllGatherError (l l' : option GSError) k k' :
    (forall x, In l x -> In l' x -> aligned Rel (k x) (k' x)) ->
    aligned Rel (AllGatherError l k) (AllGatherError l' k')
| aligned_Gather (l l' : Z) k k' :
    (forall x y, aligned Rel (k x) (k' y)) ->
    aligned Rel (Gather l k) (Gather l' k')
| aligned_Bcast (b b' : Z) k k' :
    (forall x, aligned Rel (k x) (k' x)) ->
    aligned Rel (Bcast b k) (Bcast b' k').

(** *** The monad of the loader: state, errors and collectives *)

Definition M (A : Type) : Type := LoaderState -> Prog (result A * LoaderState).

Definition retM {A : Type} (a : A) : M A := fun st => Ret (Ok a, st).

Definition liftM {A : Type} (r : result A) : M A := fun st => Ret (r, st).

Definition bindM {A B : Type} (m : M A) (f : A -> M B) : M B :=
  fun st =>
    bindP (m st) (fun '(r, st') =>
      match r with
      | Ok a => f a st'
      | Raise e => Ret (Raise e, st')
      | Undefined => Ret (Undefined, st')
      end).

Definition getM : M LoaderState := fun st => Ret (Ok st, st).

Definition putM (st : LoaderState) : M unit := fun _ => Ret (Ok tt, st).

Declare Scope loader_scope.
Delimit Scope loader_scope with loader.
Notation "x <~ m ;; k" := (bindM m (fun x => k))
  (at level 100, m at next level, right associativity) : loader_scope.
Notation "m ;;; k" := (bindM m (fun _ => k))
  (at level 100, right associativity) : loader_scope.

(** [RETURN_GS_ERROR(code, msg)] *)
Definition RETURN_GS_ERROR {A : Type} (code : ErrorCode) (msg : string) : M A :=
  liftM (Raise (gs_error code msg)).

Definition error_of {A : Type} (r : result A) : option GSError :=
  match r with Raise e => Some e | _ => None end.

Fixpoint first_error (errors : list (option GSError)) : option GSError :=
  match errors with
  | [] => None
  | Some e :: _ => Some e
  | None :: rest => first_error rest
  end.

(** Modelled from the spec: [sync_gs_error] is defined in a header that is
    not part of the sources.  The spec describes it as the combinator "try
    locally, then agree on success/failure across the group before
    proceeding": the procedure runs, the workers all-gather their errors,
    and a worker whose procedure succeeded fails all the same with the
    first error of a peer. *)
Definition sync_gs_error {A : Type} (procedure : M A) : M A :=
  fun st =>
    bindP (procedure st) (fun '(r, st') =>
      AllGatherError (error_of r) (fun errors =>
        Ret (match r with
             | Ok a => match first_error errors with
                       | Some e => Raise e
                       | None => Ok a
                       end
             | _ => r
             end, st'))).

Definition is_ok {A : Type} (r : result A) : bool :=
  match r with Ok _ => true | _ => false end.

(** Two workers leave a step in the same state, both with values related
    by [RV] or both without a value. *)
Definition same_outcome {A B : Type} (RV : A -> B -> Prop)
           (x : result A * LoaderState) (y : result B * LoaderState) : Prop :=
  snd x = snd y /\
  match fst x, fst y with
  | Ok a, Ok b => RV a b
  | Ok _, _ | _, Ok _ => False
  | _, _ => True
  end.

(** Two workers leave a local procedure in the same state, and neither
    has run into undefined behaviour while the other has a value. *)
Definition compatible {A B : Type} (RV : A -> B -> Prop)
           (x : result A * LoaderState) (y : result B * LoaderState) : Prop :=
  snd x = snd y /\
  match fst x, fst y with
  | Ok a, Ok b => RV a b
  | Ok _, Undefined | Undefined, Ok _ => False
  | _, _ => True
  end.

Definition any_values {A B : Type} (a : A) (b : B) : Prop := True.

(** A table that was read, if any, is well formed. *)
Definition read_well_formed (table : option Table) : Prop :=
  match table with
  | Some t => well_formed t
  | None => True
  end.

Definition both_well_formed (t t' : option Table) : Prop :=
  read_well_formed t /\ read_well_formed t'.

(** [SyncSchema] as a worker runs it: the all-gather, then the local part. *)
Definition SyncSchema_procedure (table : option Table) : M Table :=
  fun st =>
    AllGatherSchema (local_schema table) (fun schemas =>
      Ret (SyncSchema table schemas, st)).

(** ** The set of vertex identifiers inferred from the edges *)

(** Modelled from the spec: [OidSet] is defined in a header that is not part
    of the sources.  The spec describes "a per-vertex-label deduplicating
    OID set" into which "every endpoint OID is inserted" and which "is
    converted into a synthetic single-column vertex table".  The identifiers
    are the 64-bit integers of the default [OID_T]; a chunk of another type
    holds no identifier and is refused. *)
Definition OidSet : Set := list Z.

Definition oid_insert (oids : OidSet) (oid : Z) : OidSet :=
  if existsb (Z.eqb oid) oids then oids else oids ++ [oid].

Definition OidSet_BatchInsert_array (oids : OidSet) (arr : Array) : result OidSet :=
  match arr with
  | Int64Array slots => Ok (fold_left oid_insert (map snd slots) oids)
  | _ => Raise (gs_error kInvalidValueError "OID_T is not same with arrow::Column")
  end.

Fixpoint OidSet_BatchInsert_chunks (oids : OidSet) (chunks : list Array)
  : result OidSet :=
  match chunks with
  | [] => Ok oids
  | arr :: rest =>
      oids' <- OidSet_BatchInsert_array oids arr ;;
      OidSet_BatchInsert_chunks oids' rest
  end.

Definition OidSet_BatchInsert (oids : OidSet) (chunked_arr : ChunkedArray)
  : result OidSet :=
  OidSet_BatchInsert_chunks oids (chunks chunked_arr).

Definition OidSet_ToArrowArray (oids : OidSet) : result Array :=
  Ok (Int64Array (map (fun oid => (true, oid)) oids)).

(** The identifiers a column holds, chunk after chunk. *)
Definition array_oids (arr : Array) : list Z :=
  match arr with
  | Int64Array slots => map snd slots
  | _ => []
  end.

Definition column_oids (col : ChunkedArray) : list Z :=
  flat_map array_oids (chunks col).

(** ** Table acquisition *)

Section TableAcquisition.

(** The keys [basic_loader_t] gives to the metadata of a table; the class
    is not part of the sources. *)
Variables ID_COLUMN SRC_COLUMN DST_COLUMN SRC_LABEL_ID DST_LABEL_ID : string.

(** The I/O adaptor: the metadata comes from the descriptor alone ("we don't
    open file, just get metadata from filename"); [ReadTable path index
    total_parts] stands for [SetPartialRead], [Open] and [ReadTable] on the
    adaptor of [path], and yields no table for an empty slice. *)
Variable GetMeta : string -> adaptor_meta_t.
Variable ReadTable : string -> nat -> nat -> result (option Table).

(** [e.what()] of the [std::out_of_range] thrown by [std::map::at]. *)
Variable out_of_range_what : string.

Definition adaptor_path (file : string) : string := (file ++ "#header_row=true")%string.

Definition read_procedure (file : string) (index total_parts : nat) : M (option Table) :=
  liftM (ReadTable (adaptor_path file) index total_parts).

(** [vertex_label_to_index_.at(name)] inside the [try] block of the edge
    loaders: the exception becomes the I/O error of the [catch] clause. *)
Definition vertex_label_at (name : string) : M label_id_t :=
  fun st =>
    match StringMap.find name (vertex_label_to_index_ st) with
    | Some id => Ret (Ok id, st)
    | None => Ret (Raise (gs_error kIOError out_of_range_what), st)
    end.

(** The body of the loop of [loadVertexTables]; the table of label
    [label_id] is the [label_id]-th of the result. *)
Definition load_vertex_table (index total_parts : nat) (label_id : label_id_t)
           (file : string) : M Table :=
  (table <~ sync_gs_error (read_procedure file index total_parts) ;;
   normalized_table <~ sync_gs_error (SyncSchema_procedure table) ;;
   let adaptor_meta := GetMeta (adaptor_path file) in
   let meta := [("type", "VERTEX"); (ID_COLUMN, to_string id_column)] ++ adaptor_meta in
   match meta_find LABEL_TAG adaptor_meta with
   | None =>
       RETURN_GS_ERROR kIOError
         "Metadata of input vertex files should contain label name"
   | Some v_label_name =>
       let meta := meta ++ [("label", v_label_name)] in
       st <~ getM ;;
       putM (set_vertex_label_to_index st
               (StringMap.add v_label_name label_id (vertex_label_to_index_ st))) ;;;
       retM (ReplaceSchemaMetadata normalized_table meta)
   end)%loader.

Fixpoint loadVertexTables_from (index total_parts : nat) (label_id : label_id_t)
         (files : list string) : M (list Table) :=
  match files with
  | [] => retM []
  | file :: rest =>
      (table <~ load_vertex_table index total_parts label_id file ;;
       tables <~ loadVertexTables_from index total_parts (S label_id) rest ;;
       retM (table :: tables))%loader
  end.

Definition loadVertexTables (files : list string) (index total_parts : nat)
  : M (list Table) :=
  loadVertexTables_from index total_parts 0 files.

(** The body of the inner loop of [loadEdgeTables]. *)
Definition load_edge_table (index total_parts : nat) (label_id : label_id_t)
           (sub_label_num : nat) (sub_file : string) : M Table :=
  (table <~ sync_gs_error (read_procedure sub_file index total_parts) ;;
   normalized_table <~ sync_gs_error (SyncSchema_procedure table) ;;
   let meta := [("type", "EDGE");
                (SRC_COLUMN, to_string src_column);
                (DST_COLUMN, to_string dst_column);
                ("sub_label_num", to_string sub_label_num)] in
   let adaptor_meta := GetMeta (adaptor_path sub_file) in
   match meta_find LABEL_TAG adaptor_meta with
   | None =>
       RETURN_GS_ERROR kIOError
         "Metadata of input edge files should contain label name"
   | Some edge_label_name =>
       let meta := meta ++ [("label", edge_label_name)] in
       match meta_find SRC_LABEL_TAG adaptor_meta with
       | None =>
           RETURN_GS_ERROR kIOError
             "Metadata of input edge files should contain src label name"
       | Some src_label_name =>
           src_label_id <~ vertex_label_at src_label_name ;;
           let meta := meta ++ [(SRC_LABEL_ID, to_string src_label_id)] in
           match meta_find DST_LABEL_TAG adaptor_meta with
           | None =>
               RETURN_GS_ERROR kIOError
                 "Metadata of input edge files should contain dst label name"
           | Some dst_label_name =>
               dst_label_id <~ vertex_label_at dst_label_name ;;
               let meta := meta ++ [(DST_LABEL_ID, to_string dst_label_id)] in
               st <~ getM ;;
               putM (set_edge_label_to_index
                       (set_edge_vertex_label st
                          (insert_relation (edge_vertex_label_ st) edge_label_name
                             src_label_name dst_label_name))
                       (StringMap.add edge_label_name label_id
                          (edge_label_to_index_ st))) ;;;
               retM (ReplaceSchemaMetadata normalized_table meta)
           end
       end
   end)%loader.

(** A loop that collects what its body returns. *)
Fixpoint for_each {A B : Type} (body : A -> M B) (xs : list A) : M (list B) :=
  match xs with
  | [] => retM []
  | x :: rest =>
      (y <~ body x ;; ys <~ for_each body rest ;; retM (y :: ys))%loader
  end.

Fixpoint loadEdgeTables_from (index total_parts : nat) (label_id : label_id_t)
         (files : list string) : M (list (list Table)) :=
  match files with
  | [] => retM []
  | file :: rest =>
      let sub_label_files := split_semicolon file in
      (sub_tables <~ for_each (load_edge_table index total_parts label_id
                                 (length sub_label_files)) sub_label_files ;;
       tables <~ loadEdgeTables_from index total_parts (S label_id) rest ;;
       retM (sub_tables :: tables))%loader
  end.

Definition loadEdgeTables (files : list string) (index total_parts : nat)
  : M (list (list Table)) :=
  loadEdgeTables_from index total_parts 0 files.

(** *** Vertex tables inferred from the edge files *)

(** The first loop of [loadEVTablesFromEFiles]: the names of the vertex
    labels, from the metadata of every sub-source. *)
Fixpoint scan_sub_files (sub_label_files : list string) (names : StringSet.t)
  : result StringSet.t :=
  match sub_label_files with
  | [] => Ok names
  | sub_efile :: rest =>
      let meta := GetMeta (adaptor_path sub_efile) in
      match meta_find SRC_LABEL_TAG meta, meta_find DST_LABEL_TAG meta with
      | Some src_label_name, Some dst_label_name =>
          scan_sub_files rest
            (StringSet.add dst_label_name (StringSet.add src_label_name names))
      | _, _ =>
          Raise (gs_error kIOError
                   "Metadata of input edge files should contain label name")
      end
  end.

Fixpoint scan_efiles (efiles : list string) (names : StringSet.t)
  : result StringSet.t :=
  match efiles with
  | [] => Ok names
  | efile :: rest =>
      names' <- scan_sub_files (split_semicolon efile) names ;;
      scan_efiles rest names'
  end.

(** "number label id": the names get their indices in the order of the
    set. *)
Fixpoint number_labels (names : list string) (v_label_id : label_id_t)
         (m : StringMap.t label_id_t) : StringMap.t label_id_t :=
  match names with
  | [] => m
  | vertex_name :: rest =>
      number_labels rest (S v_label_id) (StringMap.add vertex_name v_label_id m)
  end.

(** [oids[label_id].BatchInsert(e_table->column(c))] *)
Definition insert_endpoints (oids : list OidSet) (label_id : label_id_t)
           (e_table : Table) (c : nat) : result (list OidSet) :=
  match nth_error oids label_id, column e_table c with
  | Some set, Some col =>
      set' <- OidSet_BatchInsert set col ;;
      Ok (vector_set oids label_id set')
  | _, _ => Undefined
  end.

(** The body of the inner loop of the second part. *)
Definition load_ev_table (index total_parts : nat) (e_label_id : label_id_t)
           (sub_label_num : nat) (oids : list OidSet) (sub_efile : string)
  : M (Table * list OidSet) :=
  (table <~ sync_gs_error (read_procedure sub_efile index total_parts) ;;
   normalized_table <~ sync_gs_error (SyncSchema_procedure table) ;;
   let adaptor_meta := GetMeta (adaptor_path sub_efile) in
   match meta_find LABEL_TAG adaptor_meta with
   | None =>
       RETURN_GS_ERROR kIOError
         "Metadata of input edge files should contain label name"
   | Some edge_label_name =>
       let meta := [("type", "EDGE");
                    (SRC_COLUMN, to_string src_column);
                    (DST_COLUMN, to_string dst_column);
                    ("sub_label_num", to_string sub_label_num);
                    ("label", edge_label_name)] in
       match meta_find SRC_LABEL_TAG adaptor_meta with
       | None =>
           RETURN_GS_ERROR kIOError
             "Metadata of input edge files should contain src label name"
       | Some src_label_name =>
           src_label_id <~ vertex_label_at src_label_name ;;
           let meta := meta ++ [(SRC_LABEL_ID, to_string src_label_id)] in
           match meta_find DST_LABEL_TAG adaptor_meta with
           | None =>
               RETURN_GS_ERROR kIOError
                 "Metadata of input edge files should contain dst label name"
           | Some dst_label_name =>
               dst_label_id <~ vertex_label_at dst_label_name ;;
               let meta := meta ++ [(DST_LABEL_ID, to_string dst_label_id)] in
               let e_table := ReplaceSchemaMetadata normalized_table meta in
               st <~ getM ;;
               let st := set_edge_vertex_label st
                           (insert_relation (edge_vertex_label_ st) edge_label_name
                              src_label_name dst_label_name) in
               putM st ;;;
               match StringMap.find edge_label_name (edge_label_to_index_ st) with
               | None =>
                   putM (set_edge_label_to_index st
                           (StringMap.add edge_label_name e_label_id
                              (edge_label_to_index_ st)))
               | Some known =>
                   if negb (Nat.eqb known e_label_id) then
                     RETURN_GS_ERROR kInvalidValueError
                       ("Edge label is not consistent, " ++ edge_label_name ++ ": " ++
                        to_string e_label_id ++ " vs " ++ to_string known)
                   else retM tt
               end ;;;
               oids <~ liftM (insert_endpoints oids src_label_id e_table src_column) ;;
               oids <~ liftM (insert_endpoints oids dst_label_id e_table dst_column) ;;
               retM (e_table, oids)
           end
       end
   end)%loader.

Fixpoint load_ev_sub_files (index total_parts : nat) (e_label_id : label_id_t)
         (sub_label_num : nat) (sub_label_files : list string) (oids : list OidSet)
  : M (list Table * list OidSet) :=
  match sub_label_files with
  | [] => retM ([], oids)
  | sub_efile :: rest =>
      (r <~ load_ev_table index total_parts e_label_id sub_label_num oids sub_efile ;;
       r' <~ load_ev_sub_files index total_parts e_label_id sub_label_num rest (snd r) ;;
       retM (fst r :: fst r', snd r'))%loader
  end.

(** The loop over [e_label_id < edge_label_num_]; [e_label_ids] holds the
    indices still to visit. *)
Fixpoint load_ev_labels (index total_parts : nat) (efiles : list string)
         (e_label_ids : list label_id_t) (oids : list OidSet)
  : M (list (list Table) * list OidSet) :=
  match e_label_ids with
  | [] => retM ([], oids)
  | e_label_id :: rest =>
      match nth_error efiles e_label_id with
      | None => liftM Undefined
      | Some efile =>
          let sub_label_files := split_semicolon efile in
          (r <~ load_ev_sub_files index total_parts e_label_id
                  (length sub_label_files) sub_label_files oids ;;
           r' <~ load_ev_labels index total_parts efiles rest (snd r) ;;
           retM (fst r :: fst r', snd r'))%loader
      end
  end.

(** The body of the last loop: the vertex table of one label. *)
Definition make_vertex_table (v_label_id : label_id_t) (label_name : string)
           (oids : OidSet) : result Table :=
  oid_array <- OidSet_ToArrowArray oids ;;
  let schema := make_schema [mkField label_name int64 true] in
  let v_table := Table_Make schema [mkChunkedArray [oid_array] int64] in
  Ok (ReplaceSchemaMetadata v_table
        [("type", "VERTEX");
         ("label_index", to_string v_label_id);
         ("label", label_name);
         (ID_COLUMN, to_string id_column)]).

Fixpoint make_vertex_tables (v_label_id : label_id_t) (vertex_label_names : list string)
         (oids : list OidSet) : result (list Table) :=
  match vertex_label_names with
  | [] => Ok []
  | label_name :: names =>
      match nth_error oids v_label_id with
      | None => Undefined
      | Some set =>
          v_table <- make_vertex_table v_label_id label_name set ;;
          v_tables <- make_vertex_tables (S v_label_id) names oids ;;
          Ok (v_table :: v_tables)
      end
  end.

Definition loadEVTablesFromEFiles (efiles : list string) (index total_parts : nat)
  : M (list Table * list (list Table)) :=
  (vertex_label_name_set <~ liftM (scan_efiles efiles StringSet.empty) ;;
   let vertex_label_names := StringSet.elements vertex_label_name_set in
   st <~ getM ;;
   putM (set_vertex_label_to_index
           (set_vertex_label_num st (StringSet.cardinal vertex_label_name_set))
           (number_labels vertex_label_names 0 (vertex_label_to_index_ st))) ;;;
   st <~ getM ;;
   let oids := repeat ([] : OidSet) (vertex_label_num_ st) in
   r <~ load_ev_labels index total_parts efiles (seq 0 (edge_label_num_ st)) oids ;;
   vtables <~ liftM (make_vertex_tables 0 vertex_label_names (snd r)) ;;
   retM (vtables, fst r))%loader.

(** The vertex labels a sub-source declares, and the identifiers its
    table contributes to a vertex label. *)
Definition src_label_of (sub_efile : string) : option string :=
  meta_find SRC_LABEL_TAG (GetMeta (adaptor_path sub_efile)).

Definition dst_label_of (sub_efile : string) : option string :=
  meta_find DST_LABEL_TAG (GetMeta (adaptor_path sub_efile)).

Definition declares_vertex_label (label_name sub_efile : string) : Prop :=
  src_label_of sub_efile = Some label_name \/ dst_label_of sub_efile = Some label_name.

Definition endpoint_of (label_name : string) (oid : Z) (source : string * Table)
  : Prop :=
  (src_label_of (fst source) = Some label_name /\
   exists col, column (snd source) src_column = Some col /\ In oid (column_oids col))
  \/ (dst_label_of (fst source) = Some label_name /\
      exists col, column (snd source) dst_column = Some col /\ In oid (column_oids col)).

(** The sub-sources of the edge files with the tables loaded from them:
    the [j]-th sub-source of the [e]-th file goes with the [j]-th table of
    the [e]-th edge label. *)
Definition loaded_from (efiles : list string) (etables : list (list Table))
           (source : string * Table) : Prop :=
  exists e j efile sub_tables,
    nth_error efiles e = Some efile /\
    nth_error (split_semicolon efile) j = Some (fst source) /\
    nth_error etables e = Some sub_tables /\
    nth_error sub_tables j = Some (snd source).

(** The table the loader keeps for the sub-source [sub_efile] of an edge
    file with [sub_label_num] sub-sources: what [SyncSchema] made of the
    table read from the sub-source, under the metadata of an edge table;
    [names] are the vertex labels, by index. *)
Definition synchronized_from (index total_parts : nat) (names : list string)
           (sub_label_num : nat) (sub_efile : string) (e_table : Table) : Prop :=
  exists table schemas normalized_table edge_label_name src_label_name dst_label_name
         src_label_id dst_label_id,
    ReadTable (adaptor_path sub_efile) index total_parts = Ok table /\
    SyncSchema table schemas = Ok normalized_table /\
    meta_find LABEL_TAG (GetMeta (adaptor_path sub_efile)) = Some edge_label_name /\
    src_label_of sub_efile = Some src_label_name /\
    dst_label_of sub_efile = Some dst_label_name /\
    nth_error names src_label_id = Some src_label_name /\
    nth_error names dst_label_id = Some dst_label_name /\
    e_table
    = ReplaceSchemaMetadata normalized_table
        [("type", "EDGE");
         (SRC_COLUMN, to_string src_column);
         (DST_COLUMN, to_string dst_column);
         ("sub_label_num", to_string sub_label_num);
         ("label", edge_label_name);
         (SRC_LABEL_ID, to_string src_label_id);
         (DST_LABEL_ID, to_string dst_label_id)].

(** The identifier sets hold, label by label, the identifiers [holds]
    describes, each of them once. *)
Definition tracked (names : list string) (oids : list OidSet)
           (holds : string -> Z -> Prop) : Prop :=
  length oids = length names /\
  forall v name, nth_error names v = Some name ->
    exists set,
      nth_error oids v = Some set /\
      NoDup set /\
      forall oid, In oid set <-> holds name oid.

(** ... the endpoints of the sources scanned so far. *)
Definition collected (names : list string) (oids : list OidSet)
           (sources : list (string * Table)) : Prop :=
  tracked names oids
    (fun name oid => exists source, In source sources /\ endpoint_of name oid source).

(** The sources visited by the loop over the edge labels. *)
Definition visited_sources (efiles : list string) (e_label_ids : list label_id_t)
           (etables : list (list Table)) : list (string * Table) :=
  flat_map (fun '(e_label_id, sub_tables) =>
              match nth_error efiles e_label_id with
              | Some efile => combine (split_semicolon efile) sub_tables
              | None => []
              end)
           (combine e_label_ids etables).

(** The synthetic vertex table of a label. *)
Definition is_vertex_table (v_label_id : label_id_t) (label_name : string)
           (oids : list Z) (v_table : Table) : Prop :=
  fields (schema v_table) = [mkField label_name int64 true] /\
  metadata (schema v_table)
  = Some [("type", "VERTEX"); ("label_index", to_string v_label_id);
          ("label", label_name); (ID_COLUMN, to_string id_column)] /\
  columns v_table = [mkChunkedArray [Int64Array (map (fun oid => (true, oid)) oids)] int64].


(** [initBasicLoader], up to the tables it hands to the basic loader. *)
Definition initBasicLoader (efiles vfiles : list string)
           (partial_v_tables_ : list Table) (partial_e_tables_ : list (list Table))
           (worker_id worker_num : nat)
  : M (list Table * list (list Table)) :=
  match partial_v_tables_, partial_e_tables_ with
  | _ :: _, _ :: _ => retM (partial_v_tables_, partial_e_tables_)
  | _, _ =>
      match vfiles with
      | [] => sync_gs_error (loadEVTablesFromEFiles efiles worker_id worker_num)
      | _ :: _ =>
          (tmp_v <~ sync_gs_error (loadVertexTables vfiles worker_id worker_num) ;;
           tmp_e <~ sync_gs_error (loadEdgeTables efiles worker_id worker_num) ;;
           retM (tmp_v, tmp_e))%loader
      end
  end.

End TableAcquisition.

(** ** The property-graph schema of [shuffleAndBuild] *)

(** Modelled from the spec: [PropertyGraphSchema] is defined in a header
    that is not part of the sources.  The spec describes it as the
    "partition count, per-vertex-label entry (name, primary key columns,
    property columns with types), per-edge-label entry (name, set of allowed
    (src-label,dst-label) relation pairs, property columns with types)". *)
Record Entry : Set := mkEntry {
  entry_label : string;
  entry_type : string;
  primary_keys : list string;
  relations : list (string * string);
  properties : list (string * DataType)
}.

Record PropertyGraphSchema : Set := mkPropertyGraphSchema {
  schema_fnum : nat;
  vertex_entries : list Entry;
  edge_entries : list Entry
}.

(** The loop over a label-to-index map: every label is stored at its index,
    an index above the number of labels or an index taken twice is an
    error.  The index equal to the number of labels passes the comparison
    and is past the end of both vectors. *)
Fixpoint assign_labels (failed_msg multiple_msg : string) (label_num : label_id_t)
         (pairs : list (string * label_id_t))
         (label_list : list string) (label_bitset : list bool)
  : result (list string) :=
  match pairs with
  | [] => Ok label_list
  | (label, index) :: rest =>
      if Nat.ltb label_num index then
        Raise (gs_error kIOError failed_msg)
      else
        match nth_error label_bitset index with
        | None => Undefined
        | Some true => Raise (gs_error kIOError multiple_msg)
        | Some false =>
            assign_labels failed_msg multiple_msg label_num rest
              (vector_set label_list index label)
              (vector_set label_bitset index true)
        end
  end.

Definition label_list_of (failed_msg multiple_msg : string) (label_num : label_id_t)
           (label_to_index : StringMap.t label_id_t) : result (list string) :=
  assign_labels failed_msg multiple_msg label_num (StringMap.elements label_to_index)
    (repeat EmptyString label_num) (repeat false label_num).

Definition vertex_label_list (st : LoaderState) : result (list string) :=
  label_list_of "Failed to map vertex label to index"
                "Multiple vertex labels are mapped to one index."
                (vertex_label_num_ st) (vertex_label_to_index_ st).

Definition edge_label_list (st : LoaderState) : result (list string) :=
  label_list_of "Failed to map edge label to index"
                "Multiple edge labels are mapped to one index."
                (edge_label_num_ st) (edge_label_to_index_ st).

Definition table_properties (from : nat) (table : Table) : list (string * DataType) :=
  map (fun f => (field_name f, field_type f)) (skipn from (fields (schema table))).

(** The entry of one vertex label.  The identifier column is kept among the
    properties; a table without metadata is dereferenced all the same. *)
Definition vertex_entry (local_v_tables : list Table) (v_label : label_id_t)
           (vertex_label : string) : result Entry :=
  match nth_error local_v_tables v_label with
  | None => Undefined
  | Some table =>
      match metadata (schema table) with
      | None => Undefined
      | Some kvs =>
          let primary_key := match meta_find "primary_key" kvs with
                             | Some key => key
                             | None => EmptyString
                             end in
          Ok {| entry_label := vertex_label;
                entry_type := "VERTEX";
                primary_keys := [primary_key];
                relations := [];
                properties := table_properties 0 table |}
      end
  end.

(** The entry of one edge label; [std::map::at] and [std::vector::at] throw
    where the label or the table is missing, and nothing catches. *)
Definition edge_entry (st : LoaderState) (local_e_tables : list Table)
           (e_label : label_id_t) (edge_label : string) : result Entry :=
  match StringMap.find edge_label (edge_vertex_label_ st) with
  | None => Undefined
  | Some pairs =>
      match nth_error local_e_tables e_label with
      | None => Undefined
      | Some table =>
          Ok {| entry_label := edge_label;
                entry_type := "EDGE";
                primary_keys := [];
                relations := StringPairSet.elements pairs;
                properties := table_properties 2 table |}
      end
  end.

Fixpoint entries_from (entry : label_id_t -> string -> result Entry)
         (label : label_id_t) (labels : list string) : result (list Entry) :=
  match labels with
  | [] => Ok []
  | name :: rest =>
      e <- entry label name ;;
      es <- entries_from entry (S label) rest ;;
      Ok (e :: es)
  end.

Definition vertex_schema_entries (st : LoaderState) (local_v_tables : list Table)
  : result (list Entry) :=
  vertex_label_list <- vertex_label_list st ;;
  entries_from (vertex_entry local_v_tables) 0 vertex_label_list.

Definition edge_schema_entries (st : LoaderState) (local_e_tables : list Table)
  : result (list Entry) :=
  edge_label_list <- edge_label_list st ;;
  entries_from (edge_entry st local_e_tables) 0 edge_label_list.

(** The part of [shuffleAndBuild] between the shuffle of the edge tables
    and the fragment builder. *)
Definition shuffleAndBuild_schema (st : LoaderState) (fnum : nat)
           (local_v_tables local_e_tables : list Table)
  : result PropertyGraphSchema :=
  vertex_entries <- vertex_schema_entries st local_v_tables ;;
  edge_entries <- edge_schema_entries st local_e_tables ;;
  Ok {| schema_fnum := fnum;
        vertex_entries := vertex_entries;
        edge_entries := edge_entries |}.

(** Two labels of one index, and a label outside [0, label_num). *)
Definition conflicting (pairs : list (string * label_id_t)) : Prop :=
  exists label1 label2 index,
    label1 <> label2 /\ In (label1, index) pairs /\ In (label2, index) pairs.

Definition above_range (label_num : label_id_t) (pairs : list (string * label_id_t))
  : Prop :=
  exists label index, In (label, index) pairs /\ label_num < index.

Definition outside_range (label_num : label_id_t) (pairs : list (string * label_id_t))
  : Prop :=
  exists label index, In (label, index) pairs /\ label_num <= index.

(** Modelled from the spec: the taxonomy of errors, "InputError (missing
    required label metadata, inconsistent label->index across sources),
    DataTypeError (unsupported/lossy cast required by reconciliation),
    InvalidOperationError (segmented partitioning requested with no vertex
    source), IOError (read/open failures, corrupt vertex/edge label
    bookkeeping), InternalConsistencyError (GID lookup failure for a
    supposedly-registered OID; duplicate/conflicting label-to-index
    mapping)".  The kind of an error code of the loader is the kind of its
    name; the taxonomy has no kind named after [kInvalidValueError]. *)
Inductive ErrorKind : Set :=
| InputError
| DataTypeError
| InvalidOperationError
| IOError
| InternalConsistencyError.

Definition kind_of_code (code : ErrorCode) : option ErrorKind :=
  match code with
  | kIOError => Some IOError
  | kInvalidOperationError => Some InvalidOperationError
  | kDataTypeError => Some DataTypeError
  | kInvalidValueError => None
  end.

Definition fails_with {A : Type} (kind : ErrorKind) (r : result A) : Prop :=
  exists code msg, r = Raise (gs_error code msg) /\ kind_of_code code = Some kind.

(** The reading of the specification: a map with a conflict or with an
    index outside the range of the labels makes the schema fail with
    InternalConsistencyError. *)
Definition rejects_bad_vertex_labels (st : LoaderState) : Prop :=
  let pairs := StringMap.elements (vertex_label_to_index_ st) in
  conflicting pairs \/ outside_range (vertex_label_num_ st) pairs ->
  forall fnum local_v_tables local_e_tables,
    fails_with InternalConsistencyError
      (shuffleAndBuild_schema st fnum local_v_tables local_e_tables).

(** ** The fragment group *)

(** The part of [grape::CommSpec] the loader reads. *)
Record CommSpec : Set := mkCommSpec {
  worker_id : nat;
  worker_num : nat;
  comm_fnum : nat;
  FragToWorker : nat -> nat
}.

(** Modelled from the spec: [ArrowFragmentGroupBuilder] is defined in a
    header that is not part of the sources.  The spec describes the group
    as "a registry mapping partition id -> (handle of that partition's
    Fragment, owning worker/process identity), covering all partitions". *)
Record ArrowFragmentGroup : Type := mkArrowFragmentGroup {
  total_frag_num : nat;
  group_vertex_label_num : label_id_t;
  group_edge_label_num : label_id_t;
  fragments : NatMap.t (ObjectID * Z)
}.

Definition AddFragmentObject (builder : ArrowFragmentGroup) (fid : nat)
           (object_id : ObjectID) (instance_id : Z) : ArrowFragmentGroup :=
  {| total_frag_num := total_frag_num builder;
     group_vertex_label_num := group_vertex_label_num builder;
     group_edge_label_num := group_edge_label_num builder;
     fragments := NatMap.add fid (object_id, instance_id) (fragments builder) |}.

(** The loop [for (fid_t i = 0; i < comm_spec.fnum(); ++i)] over the
    gathered vectors. *)
Fixpoint add_fragments (comm_spec : CommSpec)
         (gathered_object_ids gathered_instance_ids : list Z)
         (fids : list nat) (builder : ArrowFragmentGroup)
  : result ArrowFragmentGroup :=
  match fids with
  | [] => Ok builder
  | i :: rest =>
      match nth_error gathered_object_ids (FragToWorker comm_spec i),
            nth_error gathered_instance_ids (FragToWorker comm_spec i) with
      | Some object_id, Some instance_id =>
          add_fragments comm_spec gathered_object_ids gathered_instance_ids rest
            (AddFragmentObject builder i object_id instance_id)
      | _, _ => Undefined
      end
  end.

Section FragmentGroup.

(** The object store: [Seal] gives the sealed group its identifier, and
    [Persist] tells whether persisting an object succeeds. *)
Variable Seal : ArrowFragmentGroup -> ObjectID.
Variable Persist : ObjectID -> bool.

(** What the buffer of a worker other than the root holds before the
    broadcast. *)
Variable uninitialized : ObjectID.

Definition constructFragmentGroup (instance_id : Z) (frag_id : ObjectID)
           (comm_spec : CommSpec) (v_label_num e_label_num : label_id_t)
  : Prog (result ObjectID) :=
  if Nat.eqb (worker_id comm_spec) 0 then
    Gather instance_id (fun gathered_instance_ids =>
    Gather frag_id (fun gathered_object_ids =>
      match gathered_instance_ids, gathered_object_ids with
      | Some gathered_instance_ids, Some gathered_object_ids =>
          let builder :=
            {| total_frag_num := comm_fnum comm_spec;
               group_vertex_label_num := v_label_num;
               group_edge_label_num := e_label_num;
               fragments := NatMap.empty (ObjectID * Z) |} in
          match add_fragments comm_spec gathered_object_ids gathered_instance_ids
                  (seq 0 (comm_fnum comm_spec)) builder with
          | Ok group_object =>
              let group_object_id := Seal group_object in
              if Persist group_object_id then
                Bcast group_object_id (fun group_object_id => Ret (Ok group_object_id))
              else
                Ret (Raise (status_failed "client.Persist(group_object_id)"))
          | Raise e => Ret (Raise e)
          | Undefined => Ret Undefined
          end
      | _, _ => Ret Undefined
      end))
  else
    Gather instance_id (fun _ =>
    Gather frag_id (fun _ =>
    Bcast uninitialized (fun group_object_id => Ret (Ok group_object_id)))).

(** The group the root builds from what it gathered. *)
Definition gathered_group (comm_spec : CommSpec) (v_label_num e_label_num : label_id_t)
           (object_ids instance_ids : list Z) : result ArrowFragmentGroup :=
  add_fragments comm_spec object_ids instance_ids (seq 0 (comm_fnum comm_spec))
    {| total_frag_num := comm_fnum comm_spec;
       group_vertex_label_num := v_label_num;
       group_edge_label_num := e_label_num;
       fragments := NatMap.empty (ObjectID * Z) |}.

(** The branch of a worker that is not the root. *)
Definition peer_program (l : Z * ObjectID) : Prog (result ObjectID) :=
  Gather (fst l) (fun _ =>
  Gather (snd l) (fun _ =>
  Bcast uninitialized (fun group_object_id => Ret (Ok group_object_id)))).

(** The worker group of [constructFragmentGroup]: [locals] holds the
    instance identity and the fragment of every worker, by rank; every
    worker has the same number of fragments and the same placement. *)
Definition fragment_group_workers (fnum : nat) (frag_to_worker : nat -> nat)
           (v_label_num e_label_num : label_id_t) (locals : list (Z * ObjectID))
  : list (Prog (result ObjectID)) :=
  map (fun '(rank, (instance_id, frag_id)) =>
         constructFragmentGroup instance_id frag_id
           (mkCommSpec rank (length locals) fnum frag_to_worker)
           v_label_num e_label_num)
      (combine (seq 0 (length locals)) locals).


End FragmentGroup.

(** ** A small cluster to run the loader on *)

(** Modelled from the spec: the source descriptor is "a path-like string
    optionally suffixed with #key=value&key=value... fragments"; the
    adaptor that parses it is not part of the sources. *)
Definition key_value (piece : string) : list (string * string) :=
  match split_on "=" piece with
  | [key; value] => [(key, value)]
  | _ => []
  end.

Definition descriptor_meta (path : string) : adaptor_meta_t :=
  match split_on "#" path with
  | [] => []
  | _ :: suffixes => flat_map (fun suffix => flat_map key_value (split_on "&" suffix)) suffixes
  end.

Definition edge_schema : Schema :=
  make_schema [mkField "src" int64 true; mkField "dst" int64 true].

Definition edge_table (edges : list (Z * Z)) : Table :=
  Table_Make edge_schema
    [mkChunkedArray [Int64Array (map (fun e => (true, fst e)) edges)] int64;
     mkChunkedArray [Int64Array (map (fun e => (true, snd e)) edges)] int64].

(** Every worker reads the same two edges from whatever file it opens. *)
Definition same_edges_everywhere (path : string) (index total_parts : nat)
  : result (option Table) :=
  Ok (Some (edge_table [(10, 20); (20, 30)]%Z)).

(** What a worker returned, without the tables: the status and the edge
    labels with their indices. *)
Definition status {A : Type} (r : result A) : result unit :=
  match r with
  | Ok _ => Ok tt
  | Raise e => Raise e
  | Undefined => Undefined
  end.

Definition edge_labels_after {A : Type} (r : result A * LoaderState)
  : result unit * list (string * label_id_t) :=
  (status (fst r), StringMap.elements (edge_label_to_index_ (snd r))).

(** Two edge files that declare the same edge label. *)
Definition knows_twice : list string :=
  ["a#label=knows&src_label=person&dst_label=person";
   "b#label=knows&src_label=person&dst_label=person"].

Definition person_loader : LoaderState :=
  set_vertex_label_to_index (new_loader 1 2)
    (StringMap.add "person" 0 (StringMap.empty label_id_t)).

(** One edge label with two sub-sources. *)
Definition knows_people_and_cities : list string :=
  ["a#label=knows&src_label=person&dst_label=person;b#label=knows&src_label=person&dst_label=city"].


(** An edge file whose descriptor has no source label. *)
Definition knows_without_src_label : list string :=
  ["e#label=knows&dst_label=person"].

(** ** The type of a reconciled column

    What [loosen_type] computes, as a function of the type of the first
    field and of the types the other schemas contribute. *)

Definition reconciled_type (first : DataType) (others : list DataType) : DataType :=
  let has := fun t => existsb (fun x => Equals x t) others in
  match first with
  | timestamp SECOND | int64 =>
      if has float64 then if has utf8 then utf8 else float64 else int64
  | float64 => if has utf8 then utf8 else float64
  | t => t
  end.

(** ** Null slots *)

(** [Array::null_count]: the slots whose validity bit is not set. *)
Definition invalid_slots {A : Type} (slots : list (bool * A)) : nat :=
  length (filter (fun s => negb (fst s)) slots).

Definition missing_slots {A : Type} (slots : list (option A)) : nat :=
  length (filter (fun s => match s with None => true | Some _ => false end) slots).

Definition Array_null_count (a : Array) : nat :=
  match a with
  | NullArray n => n
  | BooleanArray l => missing_slots l
  | Int64Array l => invalid_slots l
  | DoubleArray l => invalid_slots l
  | StringArray l => missing_slots l
  | BinaryArray l => missing_slots l
  | Date32Array l => invalid_slots l
  | TimestampArray _ l => invalid_slots l
  end.

Definition ChunkedArray_null_count (c : ChunkedArray) : nat :=
  fold_right (fun a n => Array_null_count a + n) 0 (chunks c).

(** ** The integers doubles denote *)

(** The integer a binary64 value denotes, when it denotes one. *)
Definition double_to_integer (x : spec_float) : option Z :=
  match x with
  | S754_zero _ => Some 0%Z
  | S754_finite s m e =>
      let sign := fun v : Z => if s then Z.opp v else v in
      if (0 <=? e)%Z then Some (sign (Z.pos m * 2 ^ e)%Z)
      else if (Z.pos m mod 2 ^ (- e) =? 0)%Z then Some (sign (Z.pos m / 2 ^ (- e))%Z)
      else None
  | _ => None
  end.

(** ** What the files declare *)

Section DeclaredLabels.

Variable GetMeta : string -> adaptor_meta_t.

(** The label a vertex file or an edge sub-source declares. *)
Definition label_of (file : string) : option string :=
  meta_find LABEL_TAG (GetMeta (adaptor_path file)).

End DeclaredLabels.

(** [name] is the label of position [i] and of no later position. *)
Definition last_position (labels : list string) (name : string) (i : nat) : Prop :=
  nth_error labels i = Some name /\
  forall j, i < j -> nth_error labels j <> Some name.

(** The pair [(src, dst)] is recorded among the relations of an edge label. *)
Definition relation_in (st : LoaderState) (label src dst : string) : Prop :=
  exists pairs,
    StringMap.find label (edge_vertex_label_ st) = Some pairs /\
    StringPairSet.In (src, dst) pairs.

Section DeclaredEdgeLabels.

Variable GetMeta : string -> adaptor_meta_t.

(** The [e]-th edge file has a sub-source that declares the edge label. *)
Definition declares_edge_label (files : list string) (label : string) (e : nat) : Prop :=
  exists efile sub,
    nth_error files e = Some efile /\
    In sub (split_semicolon efile) /\
    label_of GetMeta sub = Some label.

End DeclaredEdgeLabels.

Section LoadedEdgeTable.

Variables SRC_COLUMN DST_COLUMN SRC_LABEL_ID DST_LABEL_ID : string.
Variable GetMeta : string -> adaptor_meta_t.

(** What a table loaded from the sub-source [sub] of an edge file with
    [sub_label_num] sub-sources looks like, for the vertex labels of [st]. *)
Definition loaded_edge_table (st : LoaderState) (sub_label_num : nat) (sub : string)
           (t : Table) : Prop :=
  exists label src dst src_id dst_id,
    label_of GetMeta sub = Some label /\
    src_label_of GetMeta sub = Some src /\
    dst_label_of GetMeta sub = Some dst /\
    StringMap.find src (vertex_label_to_index_ st) = Some src_id /\
    StringMap.find dst (vertex_label_to_index_ st) = Some dst_id /\
    fields (schema t) <> [] /\
    metadata (schema t)
    = Some [("type", "EDGE");
            (SRC_COLUMN, to_string src_column);
            (DST_COLUMN, to_string dst_column);
            ("sub_label_num", to_string sub_label_num);
            ("label", label);
            (SRC_LABEL_ID, to_string src_id);
            (DST_LABEL_ID, to_string dst_id)].

End LoadedEdgeTable.

(** The edge labels after a step that visited [visited]: the labels known
    before keep their index, the labels of the visited sub-sources have the
    index of their file, and nothing else was added. *)
Definition edge_labels_extend (st st' : LoaderState)
           (visited : string -> label_id_t -> Prop) : Prop :=
  (forall l k, StringMap.find l (edge_label_to_index_ st) = Some k ->
               StringMap.find l (edge_label_to_index_ st') = Some k) /\
  (forall l k, visited l k -> StringMap.find l (edge_label_to_index_ st') = Some k) /\
  (forall l k, StringMap.find l (edge_label_to_index_ st') = Some k ->
               StringMap.find l (edge_label_to_index_ st) = Some k \/ visited l k).

(** ** Tables gathered from streams *)

(** [vineyard::Status], as far as the loader tells its values apart. *)
Inductive Status : Set :=
| Status_OK
| Status_AssertionFailed (msg : string)
| Status_Error (what : string).

Definition Status_ok (s : Status) : bool :=
  match s with Status_OK => true | _ => false end.

(** [table->schema()->metadata()->Copy()], or a fresh metadata when the
    schema has none. *)
Definition metadata_or_empty (table : Table) : KeyValueMetadata :=
  match metadata (schema table) with
  | Some meta => meta
  | None => []
  end.

Section StreamTables.

Variables ID_COLUMN SRC_COLUMN DST_COLUMN SRC_LABEL_ID DST_LABEL_ID : string.

(** The object store and the streams it holds: the parallel stream behind
    an identifier, the number of streams in it, its [index]-th stream when
    that is a dataframe stream, and what the reader of a dataframe stream
    reads (a status and the table it leaves). *)
Variables ParallelStream DataframeStream : Type.
Variable GetObject : ObjectID -> option ParallelStream.
Variable GetStreamSize : ParallelStream -> nat.
Variable GetStream : ParallelStream -> nat -> option DataframeStream.
Variable ReadStream : DataframeStream -> Status * option Table.
Variable VYObjectIDToString : ObjectID -> string.

(** The metadata [gatherVTables] and [gatherETables] give to a table. *)
Definition vertex_stream_metadata (table : Table) : KeyValueMetadata :=
  metadata_or_empty table ++ [("type", "VERTEX"); (ID_COLUMN, to_string id_column)].

Definition edge_stream_metadata (sub_label_num : nat) (table : Table) : KeyValueMetadata :=
  metadata_or_empty table
  ++ [("type", "EDGE");
      (SRC_COLUMN, to_string src_column);
      (DST_COLUMN, to_string dst_column);
      ("sub_label_num", to_string sub_label_num)].

(** [readTableFromVineyard] on the worker [index] of [total_parts]: the
    status, and the table the call leaves behind. *)
Definition readTableFromVineyard (index total_parts : nat) (object_id : ObjectID)
  : Status * option Table :=
  match GetObject object_id with
  | None =>
      (Status_AssertionFailed ("Object not exists: " ++ VYObjectIDToString object_id),
       None)
  | Some pstream =>
      if negb (Nat.eqb total_parts (GetStreamSize pstream) && Nat.ltb index total_parts)
      then
        (Status_AssertionFailed
           ("read " ++ to_string index ++ " from " ++ to_string total_parts ++
            ", but totally has " ++ to_string (GetStreamSize pstream)),
         None)
      else
        match GetStream pstream index with
        | None => (Status_AssertionFailed "The stream must be a dataframe stream", None)
        | Some dataframe_stream =>
            ReadStream dataframe_stream
        end
  end.

(** The loop of [gatherVTables]: a stream that cannot be read is logged and
    skipped; [VINEYARD_ASSERT] throws when the label is missing. *)
Fixpoint gatherVTables_from (index total_parts : nat) (label_id : label_id_t)
         (vstreams : list ObjectID) (st : LoaderState)
  : result (list Table * LoaderState) :=
  match vstreams with
  | [] => Ok ([], st)
  | vstream :: rest =>
      match readTableFromVineyard index total_parts vstream with
      | (Status_OK, Some table) =>
          let meta := vertex_stream_metadata table in
          match meta_find LABEL_TAG meta with
          | None => Undefined
          | Some label =>
              let st := set_vertex_label_to_index st
                          (StringMap.add label label_id (vertex_label_to_index_ st)) in
              '(tables, st') <- gatherVTables_from index total_parts (S label_id) rest st ;;
              Ok (ReplaceSchemaMetadata table meta :: tables, st')
          end
      | (Status_OK, None) => Undefined
      | (_, _) => gatherVTables_from index total_parts (S label_id) rest st
      end
  end.

Definition gatherVTables (index total_parts : nat) (vstreams : list ObjectID)
           (st : LoaderState) : result (list Table * LoaderState) :=
  gatherVTables_from index total_parts 0 vstreams st.

(** The inner loop of [gatherETables], over the streams of one edge label;
    [std::map::at] throws when an endpoint label is unknown. *)
Fixpoint gather_sub_tables (index total_parts : nat) (label_id : label_id_t)
         (sub_label_num : nat) (esubstreams : list ObjectID) (st : LoaderState)
  : result (list Table * LoaderState) :=
  match esubstreams with
  | [] => Ok ([], st)
  | estream :: rest =>
      match readTableFromVineyard index total_parts estream with
      | (Status_OK, Some table) =>
          let meta := edge_stream_metadata sub_label_num table in
          match meta_find LABEL_TAG meta, meta_find SRC_LABEL_TAG meta,
                meta_find DST_LABEL_TAG meta with
          | Some edge_label_name, Some src_label_name, Some dst_label_name =>
              match StringMap.find src_label_name (vertex_label_to_index_ st),
                    StringMap.find dst_label_name (vertex_label_to_index_ st) with
              | Some src_label_id, Some dst_label_id =>
                  let meta := meta ++ [(SRC_LABEL_ID, to_string src_label_id);
                                       (DST_LABEL_ID, to_string dst_label_id)] in
                  let st := set_edge_label_to_index
                              (set_edge_vertex_label st
                                 (insert_relation (edge_vertex_label_ st) edge_label_name
                                    src_label_name dst_label_name))
                              (StringMap.add edge_label_name label_id
                                 (edge_label_to_index_ st)) in
                  '(subtables, st') <-
                    gather_sub_tables index total_parts label_id sub_label_num rest st ;;
                  Ok (ReplaceSchemaMetadata table meta :: subtables, st')
              | _, _ => Undefined
              end
          | _, _, _ => Undefined
          end
      | (Status_OK, None) => Undefined
      | (_, _) => gather_sub_tables index total_parts label_id sub_label_num rest st
      end
  end.

(** The outer loop: an edge label none of whose streams could be read
    leaves no entry. *)
Fixpoint gatherETables_from (index total_parts : nat) (label_id : label_id_t)
         (estreams : list (list ObjectID)) (st : LoaderState)
  : result (list (list Table) * LoaderState) :=
  match estreams with
  | [] => Ok ([], st)
  | esubstreams :: rest =>
      '(subtables, st) <-
        gather_sub_tables index total_parts label_id (length esubstreams) esubstreams st ;;
      '(tables, st') <- gatherETables_from index total_parts (S label_id) rest st ;;
      Ok (match subtables with
          | [] => tables
          | _ :: _ => subtables :: tables
          end, st')
  end.

Definition gatherETables (index total_parts : nat) (estreams : list (list ObjectID))
           (st : LoaderState) : result (list (list Table) * LoaderState) :=
  gatherETables_from index total_parts 0 estreams st.

(** The streams of a list that the worker could read. *)
Definition readable (index total_parts : nat) (stream : ObjectID) : bool :=
  Status_ok (fst (readTableFromVineyard index total_parts stream)).

(** The label of the table a worker reads from a vertex stream. *)
Definition vertex_stream_label (index total_parts : nat) (vstream : ObjectID)
  : option string :=
  match readTableFromVineyard index total_parts vstream with
  | (Status_OK, Some table) => meta_find LABEL_TAG (vertex_stream_metadata table)
  | _ => None
  end.

(** The label of the table a worker reads from an edge stream. *)
Definition edge_stream_label (sub_label_num index total_parts : nat)
           (estream : ObjectID) : option string :=
  match readTableFromVineyard index total_parts estream with
  | (Status_OK, Some table) =>
      meta_find LABEL_TAG (edge_stream_metadata sub_label_num table)
  | _ => None
  end.

End StreamTables.

Section GatheredEdgeTable.

Variables SRC_COLUMN DST_COLUMN SRC_LABEL_ID DST_LABEL_ID : string.
Variables ParallelStream DataframeStream : Type.
Variable GetObject : ObjectID -> option ParallelStream.
Variable GetStreamSize : ParallelStream -> nat.
Variable GetStream : ParallelStream -> nat -> option DataframeStream.
Variable ReadStream : DataframeStream -> Status * option Table.
Variable VYObjectIDToString : ObjectID -> string.

(** The table [gatherETables] makes of the table read from [estream], one
    of the [sub_label_num] streams of an edge label, for the vertex labels
    of [st]. *)
Definition gathered_edge_table (st : LoaderState) (index total_parts : nat)
           (sub_label_num : nat) (estream : ObjectID) (t : Table) : Prop :=
  exists table label src dst src_id dst_id,
    readTableFromVineyard ParallelStream DataframeStream GetObject GetStreamSize
      GetStream ReadStream VYObjectIDToString index total_parts estream
    = (Status_OK, Some table) /\
    meta_find LABEL_TAG (edge_stream_metadata SRC_COLUMN DST_COLUMN sub_label_num table)
    = Some label /\
    meta_find SRC_LABEL_TAG (edge_stream_metadata SRC_COLUMN DST_COLUMN sub_label_num table)
    = Some src /\
    meta_find DST_LABEL_TAG (edge_stream_metadata SRC_COLUMN DST_COLUMN sub_label_num table)
    = Some dst /\
    StringMap.find src (vertex_label_to_index_ st) = Some src_id /\
    StringMap.find dst (vertex_label_to_index_ st) = Some dst_id /\
    t = ReplaceSchemaMetadata table
          (edge_stream_metadata SRC_COLUMN DST_COLUMN sub_label_num table
           ++ [(SRC_LABEL_ID, to_string src_id); (DST_LABEL_ID, to_string dst_id)]).

(** The edge label has a stream the worker can read. *)
Definition some_readable (index total_parts : nat) (esubstreams : list ObjectID) : bool :=
  existsb (readable ParallelStream DataframeStream GetObject GetStreamSize GetStream
             ReadStream VYObjectIDToString index total_parts) esubstreams.

End GatheredEdgeTable.

(** ** Moving a column *)

(** [arrow::Status], as far as [swapColumn] tells its values apart. *)
Inductive ArrowStatus : Set :=
| StatusOK
| StatusInvalid (msg : string).

(** [internal::DeleteVectorElement] and [internal::AddVectorElement] *)
Definition DeleteVectorElement {A : Type} (values : list A) (index : nat) : list A :=
  firstn index values ++ skipn (S index) values.

Definition AddVectorElement {A : Type} (values : list A) (index : nat) (new_element : A)
  : list A :=
  firstn index values ++ new_element :: skipn index values.

(** An element of a vector at a signed index, without range check. *)
Definition at_index {A : Type} (values : list A) (i : Z) : option A :=
  if (i <? 0)%Z then None else nth_error values (Z.to_nat i).

(** [Table::RemoveColumn(i)]: [Schema::RemoveField] refuses an index outside
    the fields; the metadata of the schema stays.  [None] stands for the
    error status. *)
Definition Table_RemoveColumn (t : Table) (i : Z) : option Table :=
  if ((i <? 0) || (Z.of_nat (num_fields (schema t)) <=? i))%Z then None
  else
    Some {| schema := {| fields := DeleteVectorElement (fields (schema t)) (Z.to_nat i);
                         metadata := metadata (schema t) |};
            columns := DeleteVectorElement (columns t) (Z.to_nat i) |}.

(** [Table::AddColumn(i, field, column)] on a table of [rows] rows: the
    column must have as many rows as the table and the type of the field,
    and [Schema::AddField] refuses an index outside [0, num_fields]. *)
Definition Table_AddColumn (rows : nat) (t : Table) (i : Z) (field_arg : Field)
           (col : ChunkedArray) : option Table :=
  if negb (Nat.eqb (ChunkedArray_length col) rows) then None
  else if negb (Equals (field_type field_arg) (chunked_type col)) then None
  else if ((i <? 0) || (Z.of_nat (num_fields (schema t)) <? i))%Z then None
  else
    Some {| schema := {| fields := AddVectorElement (fields (schema t)) (Z.to_nat i) field_arg;
                         metadata := metadata (schema t) |};
            columns := AddVectorElement (columns t) (Z.to_nat i) col |}.

(** [swapColumn(in, lhs_index, rhs_index, out)]; the second component of the
    result is what the caller finds in [*out] afterwards.  With equal
    indices the assignment [out = &in] changes the parameter only.  The
    field and the column at [rhs_index] are read without a range check, and
    a failure of [RemoveColumn] or [AddColumn] is handed to
    [CHECK_ARROW_ERROR], which does not return. *)
Definition swapColumn (in_ : Table) (lhs_index rhs_index : Z) (out : option Table)
  : result (ArrowStatus * option Table) :=
  if (lhs_index =? rhs_index)%Z then Ok (StatusOK, out)
  else if (rhs_index <? lhs_index)%Z then
    Ok (StatusInvalid "lhs index must smaller than rhs index.", out)
  else
    match at_index (fields (schema in_)) rhs_index, at_index (columns in_) rhs_index with
    | Some field, Some column =>
        match Table_RemoveColumn in_ rhs_index with
        | None => Undefined
        | Some removed =>
            match Table_AddColumn (num_rows in_) removed lhs_index field column with
            | None => Undefined
            | Some added => Ok (StatusOK, Some added)
            end
        end
    | _, _ => Undefined
    end.

(** Every column has the number of rows of the table. *)
Definition uniform_rows (t : Table) : Prop :=
  Forall (fun c => ChunkedArray_length c = num_rows t) (columns t).

(** The position in [in] of what [swapColumn] leaves at position [i]. *)
Definition moved_from (lhs rhs i : nat) : nat :=
  if Nat.eqb i lhs then rhs
  else if Nat.ltb lhs i && Nat.leb i rhs then i - 1
  else i.

(** ** Tables for the worked examples *)

(** Edges with a weight: the second column holds doubles. *)
Definition weight_schema : Schema :=
  make_schema [mkField "src" int64 true; mkField "dst" float64 true].

Definition weight_table : Table :=
  Table_Make weight_schema
    [mkChunkedArray [Int64Array [(true, 10%Z)]] int64;
     mkChunkedArray [DoubleArray [(true, int64_to_double 5)]] float64].

(** Two edges; the destination of the first one is null. *)
Definition sparse_edge_table : Table :=
  Table_Make edge_schema
    [mkChunkedArray [Int64Array [(true, 10%Z); (true, 20%Z)]] int64;
     mkChunkedArray [Int64Array [(false, 0%Z); (true, 30%Z)]] int64].

(** A table with the identifier column only. *)
Definition id_table : Table :=
  Table_Make (single_column "id" int64) [mkChunkedArray [Int64Array [(true, 1%Z)]] int64].

(** Three columns of one row each. *)
Definition three_columns : Table :=
  Table_Make
    (make_schema [mkField "a" int64 true; mkField "b" utf8 true; mkField "c" float64 true])
    [mkChunkedArray [Int64Array [(true, 1%Z)]] int64;
     mkChunkedArray [StringArray [Some "x"]] utf8;
     mkChunkedArray [DoubleArray [(true, int64_to_double 3)]] float64].

(** Vertex files of people and of cities, and a loader that knows both
    labels. *)
Definition people_and_cities : list string := ["p#label=person"; "c#label=city"].

Definition people_and_cities_loader : LoaderState :=
  set_vertex_label_to_index (new_loader 2 1)
    (StringMap.add "city" 1 (StringMap.add "person" 0 (StringMap.empty label_id_t))).

(** An object store of parallel streams with one part each: the people,
    a stream whose reader fails, the cities, and the edges between them. *)
Definition example_store (id : ObjectID) : option (list (Status * option Table)) :=
  match id with
  | 1%Z => Some [(Status_OK, Some (ReplaceSchemaMetadata id_table [("label", "person")]))]
  | 2%Z => Some [(Status_Error "broken stream", None)]
  | 3%Z => Some [(Status_OK, Some (ReplaceSchemaMetadata id_table [("label", "city")]))]
  | 4%Z => Some [(Status_OK,
                  Some (ReplaceSchemaMetadata (edge_table [(10, 20)]%Z)
                          [("label", "lives_in"); ("src_label", "person");
                           ("dst_label", "city")]))]
  | _ => None
  end.

Definition example_stream_size (pstream : list (Status * option Table)) : nat :=
  length pstream.

Definition example_stream (pstream : list (Status * option Table)) (index : nat)
  : option (Status * option Table) :=
  nth_error pstream index.

Definition example_reader (stream : Status * option Table) : Status * option Table :=
  stream.

Definition example_object_name (id : ObjectID) : string :=
  NilZero.string_of_int (Z.to_int id).

(** A loader after one vertex label and one edge label were loaded. *)
Definition knows_loader : LoaderState :=
  set_edge_vertex_label
    (set_edge_label_to_index
       (set_vertex_label_to_index (new_loader 1 1)
          (StringMap.add "person" 0 (StringMap.empty label_id_t)))
       (StringMap.add "knows" 0 (StringMap.empty label_id_t)))
    (insert_relation (StringMap.empty StringPairSet.t) "knows" "person" "person").

(* ===================================================================== *)
(** * Properties *)
(* ===================================================================== *)

(** ** Results and lists *)

Lemma mapM_length {A B : Type} (f : A -> result B) (xs : list A) (ys : list B) :
  mapM f xs = Ok ys -> length ys = length xs.
Proof.
  revert ys; induction xs as [|x xs IH]; simpl; intros ys H.
  - now inversion H.
  - destruct (f x); simpl in H; try discriminate.
    destruct (mapM f xs); simpl in H; try discriminate.
    inversion H; subst; simpl; f_equal; now apply IH.
Qed.

Lemma mapM_nth_error {A B : Type} (f : A -> result B) (xs : list A) (ys : list B) :
  mapM f xs = Ok ys ->
  forall i x, nth_error xs i = Some x ->
  exists y, nth_error ys i = Some y /\ f x = Ok y.
Proof.
  revert ys; induction xs as [|x xs IH]; simpl; intros ys H i x0 Hi.
  - destruct i; discriminate.
  - destruct (f x) eqn:Hf; simpl in H; try discriminate.
    destruct (mapM f xs) eqn:Hm; simpl in H; try discriminate.
    inversion H; subst.
    destruct i; simpl in *.
    + inversion Hi; subst; eauto.
    + eapply IH; eauto.
Qed.

Lemma mapM_total {A B : Type} (f : A -> result B) (xs : list A) :
  (forall x, In x xs -> exists y, f x = Ok y) ->
  exists ys, mapM f xs = Ok ys.
Proof.
  induction xs as [|x xs IH]; simpl; intros H.
  - eauto.
  - destruct (H x) as [y Hy]; [now left|].
    destruct IH as [ys Hys]; [intros; apply H; now right|].
    rewrite Hy, Hys; simpl; eauto.
Qed.

Lemma mapM_ext {A B : Type} (f g : A -> result B) (xs : list A) :
  (forall x, In x xs -> f x = g x) -> mapM f xs = mapM g xs.
Proof.
  induction xs as [|x xs IH]; simpl; intros H; [reflexivity|].
  rewrite (H x) by now left. rewrite IH; [reflexivity|].
  intros; apply H; now right.
Qed.

(** ** The type lattice *)

Lemma Equals_eq (a b : DataType) : Equals a b = true <-> a = b.
Proof.
  split.
  - destruct a as [| | | | | | |u], b as [| | | | | | |v]; simpl;
      try discriminate; try reflexivity.
    destruct u, v; simpl; try discriminate; reflexivity.
  - intros ->. destruct b as [| | | | | | |u]; simpl; try reflexivity.
    destruct u; reflexivity.
Qed.

Lemma Equals_refl (a : DataType) : Equals a a = true.
Proof. now apply Equals_eq. Qed.


Lemma rank_of_inj (a b : DataType) :
  in_lattice a = true -> in_lattice b = true -> rank_of a = rank_of b -> a = b.
Proof.
  destruct a as [| | | | | | |[]], b as [| | | | | | |[]];
    cbv; intros; try discriminate; reflexivity.
Qed.

Lemma rank_of_type_lub (a : DataType) (l : list DataType) :
  rank_of (type_lub a l) = Nat.max (rank_of a) (max_rank l).
Proof.
  unfold type_lub. revert a; induction l as [|t l IH]; intros a; simpl.
  - lia.
  - rewrite IH. unfold lub2.
    destruct (Nat.leb (rank_of a) (rank_of t)) eqn:E;
      [apply Nat.leb_le in E | apply Nat.leb_gt in E]; lia.
Qed.

Lemma type_lub_In (a : DataType) (l : list DataType) : In (type_lub a l) (a :: l).
Proof.
  unfold type_lub. revert a; induction l as [|t l IH]; intros a; simpl.
  - now left.
  - assert (Hc : lub2 a t = a \/ lub2 a t = t).
    { unfold lub2. destruct (Nat.leb (rank_of a) (rank_of t)); auto. }
    destruct (IH (lub2 a t)) as [H|H]; [|auto].
    destruct Hc as [Hc|Hc]; rewrite Hc in H at 1; auto.
Qed.

Lemma max_rank_ge (l : list DataType) (t : DataType) :
  In t l -> rank_of t <= max_rank l.
Proof.
  induction l as [|x l IH]; simpl; intros H; [contradiction|].
  destruct H as [->|H]; [lia|]. specialize (IH H). lia.
Qed.

(** [type_lub] is an upper bound of the types it is given, and it is one
    of them: it is their least upper bound in the lattice order. *)
Lemma type_lub_is_lub (a : DataType) (l : list DataType) :
  (forall t, In t (a :: l) -> lattice_le t (type_lub a l)) /\
  In (type_lub a l) (a :: l).
Proof.
  split; [|apply type_lub_In].
  intros t H. unfold lattice_le. rewrite rank_of_type_lub.
  destruct H as [->|H]; [lia|]. apply max_rank_ge in H. lia.
Qed.

Lemma max_rank_lattice (l : list DataType) :
  forallb in_lattice l = true ->
  max_rank l =
    if existsb (fun t => Equals t utf8) l then 3
    else if existsb (fun t => Equals t float64) l then 2
    else if existsb (fun t => Equals t int64) l then 1
    else 0.
Proof.
  induction l as [|t l IH]; simpl; intros H; [reflexivity|].
  apply andb_prop in H as [Ht Hl]. rewrite (IH Hl).
  destruct t as [| | | | | | |[]]; try discriminate Ht; simpl;
    destruct (existsb (fun t => Equals t utf8) l),
             (existsb (fun t => Equals t float64) l),
             (existsb (fun t => Equals t int64) l); reflexivity.
Qed.

Lemma widen_to_spec (wide : DataType) (others : list Field) (res : DataType) :
  widen_to wide others res =
    if existsb (fun t => Equals t wide) (map field_type others) then wide else res.
Proof.
  unfold widen_to. revert res; induction others as [|f fs IH]; intros res; simpl.
  - reflexivity.
  - rewrite IH. destruct (Equals (field_type f) wide); simpl; [|reflexivity].
    now destruct (existsb _ _).
Qed.

(** On columns of the lattice, [loosen_type] is the least upper bound of
    [int64] and the contributed types, unless a string meets an integer or a
    timestamp with no floating type in between. *)
Lemma loosen_type_lub (first : Field) (others : list Field) :
  forallb in_lattice (field_type first :: map field_type others) = true ->
  skips_float (field_type first) (map field_type others) = false ->
  loosen_type first others =
    type_lub int64 (field_type first :: map field_type others).
Proof.
  intros Hl Hs.
  pose proof (type_lub_In int64 (field_type first :: map field_type others)) as Hin.
  assert (Hlat : in_lattice (type_lub int64 (field_type first :: map field_type others)) = true).
  { destruct Hin as [<-|Hin]; [reflexivity|].
    rewrite forallb_forall in Hl. now apply Hl. }
  assert (Hr : rank_of (loosen_type first others) =
               rank_of (type_lub int64 (field_type first :: map field_type others))
               /\ in_lattice (loosen_type first others) = true).
  { rewrite rank_of_type_lub. simpl in Hl. apply andb_prop in Hl as [H0 Hl].
    simpl max_rank. rewrite (max_rank_lattice _ Hl).
    unfold loosen_type, skips_float in *. rewrite !widen_to_spec.
    destruct (field_type first) as [| | | | | | |[]]; try discriminate H0; simpl in *;
      destruct (existsb (fun t => Equals t utf8) (map field_type others)),
               (existsb (fun t => Equals t float64) (map field_type others)),
               (existsb (fun t => Equals t int64) (map field_type others));
      simpl in *; try discriminate Hs; split; reflexivity. }
  destruct Hr as [Hr Hl']. now apply rank_of_inj.
Qed.

(** ** Reconciliation of the gathered schemas *)

Lemma first_schema_num_fields (schemas : list (option Schema)) :
  first_num_fields schemas =
    match first_schema schemas with Some s => num_fields s | None => 0 end.
Proof.
  induction schemas as [|[s|] rest IH]; simpl; auto.
Qed.

Lemma gather_fields_first (schemas : list (option Schema)) (i : nat) (s0 : Schema)
      (f0 : Field) :
  first_schema schemas = Some s0 ->
  field s0 i = Some f0 ->
  wide_enough (S i) schemas ->
  exists others, gather_fields schemas i = Ok (f0 :: others).
Proof.
  induction schemas as [|[s|] rest IH]; simpl; intros Hs Hf Hw.
  - discriminate.
  - inversion Hs; subst s0. rewrite Hf.
    inversion Hw as [|? ? _ Hw']; subst.
    assert (Hrest : exists fs, gather_fields rest i = Ok fs).
    { clear -Hw'. induction rest as [|[s|] rest IH]; simpl.
      - eauto.
      - inversion Hw' as [|? ? Hn Hw'']; subst.
        destruct (field s i) eqn:E.
        + destruct (IH Hw'') as [fs ->]. simpl; eauto.
        + apply nth_error_None in E. unfold num_fields in Hn. lia.
      - inversion Hw'; subst; auto. }
    destruct Hrest as [fs ->]. simpl; eauto.
  - inversion Hw; subst. auto.
Qed.

Lemma wide_enough_le (n m : nat) (schemas : list (option Schema)) :
  m <= n -> wide_enough n schemas -> wide_enough m schemas.
Proof.
  intros Hle H. unfold wide_enough in *.
  eapply Forall_impl; [|exact H]. intros [s|]; simpl; auto. lia.
Qed.

(** What [TypeLoosen] returns when no schema is narrower than the first. *)
Lemma TypeLoosen_columns (schemas : list (option Schema)) :
  0 < first_num_fields schemas ->
  wide_enough (first_num_fields schemas) schemas ->
  exists T s0,
    TypeLoosen schemas = Ok T /\
    first_schema schemas = Some s0 /\
    num_fields T = num_fields s0 /\
    metadata T = None /\
    forall i first, field s0 i = Some first ->
      exists others,
        gather_fields schemas i = Ok (first :: others) /\
        field T i = Some (WithType first (loosen_type first others)).
Proof.
  intros Hn Hw. pose proof (first_schema_num_fields schemas) as Hfs.
  destruct (first_schema schemas) as [s0|] eqn:Hs0; [|lia].
  assert (Hcol : forall i, In i (seq 0 (first_num_fields schemas)) ->
            exists fs, gather_fields schemas i = Ok fs /\ fs <> []).
  { intros i Hi. apply in_seq in Hi.
    destruct (field s0 i) as [f0|] eqn:Hf.
    - destruct (gather_fields_first schemas i s0 f0 Hs0 Hf) as [others Ho].
      + eapply wide_enough_le; [|exact Hw]. lia.
      + exists (f0 :: others). split; [assumption|discriminate].
    - apply nth_error_None in Hf. unfold num_fields in Hfs. lia. }
  destruct (mapM_total (gather_fields schemas) (seq 0 (first_num_fields schemas)))
    as [cols Hcols].
  { intros i Hi. destruct (Hcol i Hi) as [fs [H _]]. eauto. }
  destruct (mapM_total loosen_field cols) as [out Hout].
  { intros fs Hfs'. apply In_nth_error in Hfs' as [i Hi].
    assert (Hlt : i < length cols) by (apply nth_error_Some; congruence).
    rewrite (mapM_length _ _ _ Hcols), length_seq in Hlt.
    destruct (mapM_nth_error _ _ _ Hcols i i) as [fs' [Hfs1 Hfs2]].
    { rewrite nth_error_nth' with (d := 0) by (rewrite length_seq; lia).
      now rewrite seq_nth. }
    rewrite Hi in Hfs1. inversion Hfs1; subst fs'.
    destruct (Hcol i) as [fs'' [Hg Hne]]; [apply in_seq; lia|].
    rewrite Hg in Hfs2. inversion Hfs2; subst fs''.
    destruct fs; [congruence|]. simpl; eauto. }
  exists (make_schema out), s0. split; [|split; [reflexivity|split; [|split]]].
  - unfold TypeLoosen. destruct (Nat.eqb_spec (first_num_fields schemas) 0); [lia|].
    rewrite Hcols. simpl. rewrite Hout. reflexivity.
  - unfold num_fields at 1; simpl. rewrite (mapM_length _ _ _ Hout).
    rewrite (mapM_length _ _ _ Hcols), length_seq. exact Hfs.
  - reflexivity.
  - intros i first Hf.
    assert (Hlt : i < first_num_fields schemas).
    { rewrite Hfs. unfold num_fields. apply nth_error_Some. unfold field in Hf. congruence. }
    destruct (gather_fields_first schemas i s0 first Hs0 Hf) as [others Ho].
    { eapply wide_enough_le; [|exact Hw]. lia. }
    exists others. split; [assumption|].
    destruct (mapM_nth_error _ _ _ Hcols i i) as [fs [Hfs1 Hfs2]].
    { rewrite nth_error_nth' with (d := 0) by (rewrite length_seq; lia).
      now rewrite seq_nth. }
    rewrite Ho in Hfs2. inversion Hfs2; subst fs.
    destruct (mapM_nth_error _ _ _ Hout i _ Hfs1) as [g [Hg1 Hg2]].
    simpl in Hg2. inversion Hg2; subst g. exact Hg1.
Qed.

(** C1 (as amended).  When the first schema that is not null has at least
    one column and no contributed schema is narrower, [TypeLoosen] returns a
    schema with the columns of that first schema; each column keeps the name
    of its first field and, on the lattice
    timestamp(seconds) -> int64 -> float64 -> utf8, its type is the least
    upper bound of int64 and every contributed type (a timestamp column
    always becomes int64), as long as a string does not meet an integer or
    timestamp first type with no floating type contributed.  In particular
    integer and floating reconcile to floating, timestamp and integer to
    integer, and integer, floating and string to string, in any order. *)
Theorem TypeLoosen_widens_along_lattice :
  (forall schemas : list (option Schema),
     0 < first_num_fields schemas ->
     wide_enough (first_num_fields schemas) schemas ->
     exists T s0,
       TypeLoosen schemas = Ok T /\
       first_schema schemas = Some s0 /\
       num_fields T = num_fields s0 /\
       forall i first, field s0 i = Some first ->
         exists others f,
           gather_fields schemas i = Ok (first :: others) /\
           field T i = Some f /\
           field_name f = field_name first /\
           (forallb in_lattice (field_type first :: map field_type others) = true ->
            skips_float (field_type first) (map field_type others) = false ->
            field_type f = type_lub int64 (field_type first :: map field_type others)))
  /\ (forall name ts,
        In ts [[int64; float64]; [float64; int64]] ->
        TypeLoosen (map (fun t => Some (single_column name t)) ts)
        = Ok (single_column name float64))
  /\ (forall name ts,
        In ts [[timestamp SECOND; int64]; [int64; timestamp SECOND]] ->
        TypeLoosen (map (fun t => Some (single_column name t)) ts)
        = Ok (single_column name int64))
  /\ (forall name ts,
        In ts [[int64; float64; utf8]; [int64; utf8; float64];
               [float64; int64; utf8]; [float64; utf8; int64];
               [utf8; int64; float64]; [utf8; float64; int64]] ->
        TypeLoosen (map (fun t => Some (single_column name t)) ts)
        = Ok (single_column name utf8)).
Proof.
  split; [|repeat split; intros name ts H; simpl in H;
            repeat (destruct H as [<-|H]; [reflexivity|]); contradiction].
  intros schemas Hn Hw.
  destruct (TypeLoosen_columns schemas Hn Hw) as (T & s0 & HT & Hs0 & Hnum & _ & Hcols).
  exists T, s0. repeat split; try assumption.
  intros i first Hf. destruct (Hcols i first Hf) as (others & Hg & HTi).
  exists others, (WithType first (loosen_type first others)).
  repeat split; try assumption.
  intros Hl Hs. simpl. now apply loosen_type_lub.
Qed.

Lemma TypeLoosen_widens_along_lattice_witness :
  let schemas :=
    [None;
     Some (make_schema [mkField "id" int64 false; mkField "score" int64 true]);
     Some (make_schema [mkField "id" int64 false; mkField "score" float64 true]);
     Some (make_schema [mkField "id" int64 false; mkField "score" utf8 true])] in
  0 < first_num_fields schemas /\
  wide_enough (first_num_fields schemas) schemas /\
  exists T s0,
    TypeLoosen schemas = Ok T /\
    first_schema schemas = Some s0 /\
    num_fields T = num_fields s0 /\
    forall i first, field s0 i = Some first ->
      exists others f,
        gather_fields schemas i = Ok (first :: others) /\
        field T i = Some f /\
        field_name f = field_name first /\
        (forallb in_lattice (field_type first :: map field_type others) = true ->
         skips_float (field_type first) (map field_type others) = false ->
         field_type f = type_lub int64 (field_type first :: map field_type others)).
Proof.
  intros schemas.
  assert (Hn : 0 < first_num_fields schemas) by (unfold schemas; cbv; lia).
  assert (Hw : wide_enough (first_num_fields schemas) schemas).
  { unfold schemas; repeat constructor. }
  split; [exact Hn|split; [exact Hw|]].
  exact (proj1 TypeLoosen_widens_along_lattice schemas Hn Hw).
Defined.

(** C1 (as stated) fails: a timestamp(seconds) column that meets no other
    type is reconciled to int64, as the rule "timestamp -> int64" of
    [TypeLoosen] wants it, while the least upper bound of the contributed
    types is timestamp(seconds) itself. *)
Lemma TypeLoosen_lone_timestamp_counterexample :
  ~ reconciles_to_lub [Some (single_column "when" (timestamp SECOND)); None].
Proof.
  intros H.
  specialize (H (single_column "when" int64) 0 (mkField "when" (timestamp SECOND) true)
                [] (mkField "when" int64 true)
                eq_refl eq_refl eq_refl eq_refl).
  discriminate H.
Qed.

(** The combination the amended claim leaves out: an integer column and a
    string column reconcile to integer, since the pass to utf8 starts from
    float64 only; with the schemas in the other order the result is utf8. *)
Example TypeLoosen_integer_string_stays_integer :
  TypeLoosen [Some (single_column "c" int64); Some (single_column "c" utf8)]
  = Ok (single_column "c" int64)
  /\ TypeLoosen [Some (single_column "c" utf8); Some (single_column "c" int64)]
     = Ok (single_column "c" utf8).
Proof. split; reflexivity. Qed.

(** ** Idempotence of the reconciliation *)

Lemma mapM_Forall {A B : Type} (f : A -> result B) (P : B -> Prop) (xs : list A)
      (ys : list B) :
  (forall x y, f x = Ok y -> P y) -> mapM f xs = Ok ys -> Forall P ys.
Proof.
  intros HP. revert ys; induction xs as [|x xs IH]; simpl; intros ys H.
  - inversion H; constructor.
  - destruct (f x) eqn:Hf; simpl in H; try discriminate.
    destruct (mapM f xs) eqn:Hm; simpl in H; try discriminate.
    inversion H; subst. constructor; eauto.
Qed.

Lemma mapM_Ok {A B : Type} (g : A -> B) (xs : list A) :
  mapM (fun x => Ok (g x)) xs = Ok (map g xs).
Proof.
  induction xs as [|x xs IH]; simpl; [reflexivity|]. now rewrite IH.
Qed.

Lemma mapM_seq_nth_error {A B : Type} (h : option A -> result B) (l pre : list A) :
  mapM (fun i => h (nth_error (pre ++ l) i)) (seq (length pre) (length l))
  = mapM (fun x => h (Some x)) l.
Proof.
  revert pre; induction l as [|x l IH]; intros pre; simpl; [reflexivity|].
  rewrite nth_error_app2 by lia. rewrite Nat.sub_diag. simpl.
  specialize (IH (pre ++ [x])). rewrite <- app_assoc in IH. simpl in IH.
  rewrite length_app in IH. simpl in IH. rewrite Nat.add_1_r in IH.
  now rewrite IH.
Qed.

Lemma WithType_same (f : Field) : WithType f (field_type f) = f.
Proof. now destruct f. Qed.

Lemma loosen_type_not_timestamp (first : Field) (others : list Field) :
  Equals (loosen_type first others) (timestamp SECOND) = false.
Proof.
  unfold loosen_type. rewrite !widen_to_spec.
  destruct (field_type first) as [| | | | | | |[]]; simpl;
    destruct (existsb (fun t => Equals t float64) (map field_type others)); simpl;
    destruct (existsb (fun t => Equals t utf8) (map field_type others)); reflexivity.
Qed.

Lemma loosen_type_alone (f : Field) :
  Equals (field_type f) (timestamp SECOND) = false ->
  loosen_type f [] = field_type f /\ loosen_type f [f] = field_type f.
Proof.
  unfold loosen_type, widen_to.
  destruct (field_type f) as [| | | | | | |[]] eqn:E; simpl; rewrite ?E; simpl;
    intros H; try discriminate H; split; reflexivity.
Qed.

(** [TypeLoosen] on one schema, and on a schema gathered twice. *)
Lemma TypeLoosen_single (s : Schema) :
  fields s <> [] ->
  TypeLoosen [Some s]
  = Ok (make_schema (map (fun f => WithType f (loosen_type f [])) (fields s)))
  /\ TypeLoosen [Some s; Some s]
     = Ok (make_schema (map (fun f => WithType f (loosen_type f [f])) (fields s))).
Proof.
  intros Hne. unfold TypeLoosen. simpl first_num_fields.
  destruct (Nat.eqb_spec (num_fields s) 0) as [E|_].
  { unfold num_fields in E. destruct (fields s); [congruence|discriminate]. }
  unfold num_fields. split.
  - rewrite mapM_ext with
      (g := fun i => match nth_error (fields s) i with
                     | None => Undefined
                     | Some f => Ok [f]
                     end).
    2:{ intros i _. simpl. unfold field. now destruct (nth_error (fields s) i). }
    pose proof (mapM_seq_nth_error
                  (fun o => match o with None => Undefined | Some f => Ok [f] end)
                  (fields s) []) as E.
    simpl in E. rewrite E. clear E.
    rewrite (mapM_Ok (fun f => [f])). simpl.
    rewrite mapM_ext with
      (g := fun fs => Ok (match fs with
                          | [] => mkField "" na false
                          | f :: o => WithType f (loosen_type f o)
                          end)).
    2:{ intros fs Hin. apply in_map_iff in Hin as (f & <- & _). reflexivity. }
    rewrite mapM_Ok. simpl. now rewrite map_map.
  - rewrite mapM_ext with
      (g := fun i => match nth_error (fields s) i with
                     | None => Undefined
                     | Some f => Ok [f; f]
                     end).
    2:{ intros i _. simpl. unfold field. now destruct (nth_error (fields s) i). }
    pose proof (mapM_seq_nth_error
                  (fun o => match o with None => Undefined | Some f => Ok [f; f] end)
                  (fields s) []) as E.
    simpl in E. rewrite E. clear E.
    rewrite (mapM_Ok (fun f => [f; f])). simpl.
    rewrite mapM_ext with
      (g := fun fs => Ok (match fs with
                          | [] => mkField "" na false
                          | f :: o => WithType f (loosen_type f o)
                          end)).
    2:{ intros fs Hin. apply in_map_iff in Hin as (f & <- & _). reflexivity. }
    rewrite mapM_Ok. simpl. now rewrite map_map.
Qed.

(** Whatever [TypeLoosen] returns has at least one column, no metadata and
    no timestamp(seconds) column. *)
Lemma TypeLoosen_output (schemas : list (option Schema)) (T : Schema) :
  TypeLoosen schemas = Ok T ->
  fields T <> [] /\ metadata T = None /\ has_timestamp_seconds T = false.
Proof.
  unfold TypeLoosen. destruct (Nat.eqb_spec (first_num_fields schemas) 0) as [|Hn];
    [discriminate|].
  destruct (mapM (gather_fields schemas) _) as [cols| |] eqn:Hc; simpl; try discriminate.
  destruct (mapM loosen_field cols) as [out| |] eqn:Ho; simpl; try discriminate.
  intros H; inversion H; subst T; clear H. simpl. repeat split.
  - apply mapM_length in Ho, Hc. rewrite length_seq in Hc.
    destruct out; [simpl in Ho; lia|discriminate].
  - unfold has_timestamp_seconds. simpl.
    assert (HF : Forall (fun f => Equals (field_type f) (timestamp SECOND) = false) out).
    { eapply mapM_Forall; [|exact Ho]. intros [|first others] y Hy; simpl in Hy;
        [discriminate|]. inversion Hy; subst. simpl. apply loosen_type_not_timestamp. }
    clear -HF. induction HF; simpl; [reflexivity|]. now rewrite H, IHHF.
Qed.

Lemma no_timestamp_map (fs : list Field) (others : Field -> list Field) :
  existsb (fun f => Equals (field_type f) (timestamp SECOND)) fs = false ->
  (forall f, Equals (field_type f) (timestamp SECOND) = false ->
             loosen_type f (others f) = field_type f) ->
  map (fun f => WithType f (loosen_type f (others f))) fs = fs.
Proof.
  intros H Ho. induction fs as [|f fs IH]; simpl in *; [reflexivity|].
  apply orb_false_iff in H as [Hf Hfs].
  rewrite (Ho f Hf), WithType_same, (IH Hfs). reflexivity.
Qed.

Lemma Fields_Equals_refl (fs : list Field) : Fields_Equals fs fs = true.
Proof.
  induction fs as [|f fs IH]; simpl; [reflexivity|].
  unfold Field_Equals. rewrite String.eqb_refl, Equals_refl, Bool.eqb_reflx, IH.
  reflexivity.
Qed.

(** C9 (as amended).  Schema reconciliation is idempotent: whenever
    [TypeLoosen] returns a schema, reconciling that schema alone, or with
    itself, returns it again.  Reconciling any single schema with itself is
    a no-op (the same fields) when it has at least one column and no
    timestamp(seconds) column. *)
Theorem TypeLoosen_idempotent :
  (forall schemas T,
     TypeLoosen schemas = Ok T ->
     TypeLoosen [Some T] = Ok T /\ TypeLoosen [Some T; Some T] = Ok T)
  /\ (forall s,
        fields s <> [] ->
        has_timestamp_seconds s = false ->
        exists T,
          TypeLoosen [Some s] = Ok T /\ TypeLoosen [Some s; Some s] = Ok T /\
          fields T = fields s /\ Schema_Equals T s = true).
Proof.
  assert (Hsingle : forall s,
            fields s <> [] -> has_timestamp_seconds s = false ->
            TypeLoosen [Some s] = Ok (make_schema (fields s)) /\
            TypeLoosen [Some s; Some s] = Ok (make_schema (fields s))).
  { intros s Hne Hts. destruct (TypeLoosen_single s Hne) as [H1 H2].
    rewrite H1, H2.
    rewrite (no_timestamp_map (fields s) (fun _ => []) Hts)
      by (intros f Hf; apply (loosen_type_alone f Hf)).
    rewrite (no_timestamp_map (fields s) (fun f => [f]) Hts)
      by (intros f Hf; apply (loosen_type_alone f Hf)).
    split; reflexivity. }
  split.
  - intros schemas T HT.
    destruct (TypeLoosen_output schemas T HT) as (Hne & Hmeta & Hts).
    destruct (Hsingle T Hne Hts) as [H1 H2]. rewrite H1, H2.
    destruct T as [fs m]; simpl in *; subst m. split; reflexivity.
  - intros s Hne Hts. destruct (Hsingle s Hne Hts) as [H1 H2].
    exists (make_schema (fields s)). repeat split; try assumption.
    unfold Schema_Equals; simpl. apply Fields_Equals_refl.
Qed.

Lemma TypeLoosen_idempotent_witness :
  let schemas :=
    [Some (make_schema [mkField "when" (timestamp SECOND) true; mkField "w" int64 true]);
     None;
     Some (make_schema [mkField "when" int64 true; mkField "w" float64 true])] in
  let T := make_schema [mkField "when" int64 true; mkField "w" float64 true] in
  TypeLoosen schemas = Ok T /\
  TypeLoosen [Some T] = Ok T /\ TypeLoosen [Some T; Some T] = Ok T.
Proof.
  intros schemas T.
  assert (H : TypeLoosen schemas = Ok T) by reflexivity.
  split; [exact H|].
  exact (proj1 TypeLoosen_idempotent schemas T H).
Defined.

(** C9 (as stated) fails in its last clause: a schema with a
    timestamp(seconds) column, reconciled with itself, comes back with an
    int64 column. *)
Lemma TypeLoosen_timestamp_not_noop_counterexample :
  ~ reconcile_is_noop (single_column "when" (timestamp SECOND)).
Proof.
  intros (T & HT & HE). vm_compute in HT. inversion HT; subst T.
  vm_compute in HE. discriminate HE.
Qed.

(** ** Absent tables *)

Lemma first_num_fields_all_null (schemas : list (option Schema)) :
  (forall s, In s schemas -> s = None) -> first_num_fields schemas = 0.
Proof.
  induction schemas as [|[s|] rest IH]; simpl; intros H.
  - reflexivity.
  - specialize (H (Some s) (or_introl eq_refl)). discriminate.
  - apply IH. intros; apply H; now right.
Qed.

(** C10.  When every gathered schema is null, [TypeLoosen] fails with the
    invalid-operation error "Every schema is empty", and so does
    [SyncSchema] whatever the local table is; when no worker of the group
    has a table, every worker gets that error. *)
Theorem TypeLoosen_every_schema_empty (schemas : list (option Schema)) :
  (forall s, In s schemas -> s = None) ->
  TypeLoosen schemas = Raise (gs_error kInvalidOperationError "Every schema is empty")
  /\ (forall table,
        SyncSchema table schemas
        = Raise (gs_error kInvalidOperationError "Every schema is empty"))
  /\ (forall tables,
        map local_schema tables = schemas ->
        SyncSchema_group tables
        = map (fun _ => Raise (gs_error kInvalidOperationError "Every schema is empty"))
              tables).
Proof.
  intros H.
  assert (HT : TypeLoosen schemas
               = Raise (gs_error kInvalidOperationError "Every schema is empty")).
  { unfold TypeLoosen. now rewrite (first_num_fields_all_null schemas H). }
  split; [exact HT|split].
  - intros table. unfold SyncSchema. now rewrite HT.
  - intros tables <-. unfold SyncSchema_group, GlobalAllGatherv.
    apply map_ext. intros table. unfold SyncSchema. now rewrite HT.
Qed.

Lemma TypeLoosen_every_schema_empty_witness :
  let schemas : list (option Schema) := [None; None; None] in
  (forall s, In s schemas -> s = None) /\
  TypeLoosen schemas = Raise (gs_error kInvalidOperationError "Every schema is empty")
  /\ (forall table,
        SyncSchema table schemas
        = Raise (gs_error kInvalidOperationError "Every schema is empty"))
  /\ (forall tables,
        map local_schema tables = schemas ->
        SyncSchema_group tables
        = map (fun _ => Raise (gs_error kInvalidOperationError "Every schema is empty"))
              tables).
Proof.
  intros schemas.
  assert (H : forall s, In s schemas -> s = None).
  { unfold schemas; simpl; intros s [<-|[<-|[<-|[]]]]; reflexivity. }
  split; [exact H|].
  exact (TypeLoosen_every_schema_empty schemas H).
Defined.

Lemma empty_array_length (t : DataType) :
  Array_length (empty_array t) = 0 /\ Array_type (empty_array t) = t.
Proof. destruct t; split; reflexivity. Qed.

Lemma EmptyTableBuilder_Build_spec (s : Schema) :
  exists t,
    EmptyTableBuilder_Build s = Ok t /\
    schema t = s /\
    well_formed t /\
    Forall (fun c => ChunkedArray_length c = 0) (columns t).
Proof.
  eexists; split; [reflexivity|]. simpl. split; [reflexivity|].
  unfold well_formed; simpl. induction (fields s) as [|f fs [IH1 IH2]]; simpl.
  - split; constructor.
  - split; constructor; auto.
    + split; simpl; [reflexivity|]. constructor; [|constructor].
      apply empty_array_length.
    + unfold ChunkedArray_length; simpl.
      now rewrite (proj1 (empty_array_length (field_type f))).
Qed.

(** C3 (as amended).  Whenever the first schema that is not null has at
    least one column and no contributed schema is narrower, every worker
    whose local table is absent obtains from [SyncSchema] a table whose
    schema is the reconciled schema and whose columns, of the reconciled
    types, hold no row. *)
Theorem SyncSchema_synthesizes_empty_table (tables : list (option Table)) :
  let schemas := map local_schema tables in
  0 < first_num_fields schemas ->
  wide_enough (first_num_fields schemas) schemas ->
  exists T,
    TypeLoosen schemas = Ok T /\
    forall w, nth_error tables w = Some None ->
      exists t,
        nth_error (SyncSchema_group tables) w = Some (Ok t) /\
        schema t = T /\
        num_rows t = 0 /\
        well_formed t /\
        Forall (fun c => ChunkedArray_length c = 0) (columns t).
Proof.
  intros schemas Hn Hw.
  destruct (TypeLoosen_columns schemas Hn Hw) as (T & s0 & HT & _).
  exists T. split; [exact HT|]. intros w Hw0.
  destruct (EmptyTableBuilder_Build_spec T) as (t & Ht & Hs & Hwf & Hz).
  exists t. repeat split; try assumption.
  - unfold SyncSchema_group, GlobalAllGatherv. fold schemas.
    rewrite nth_error_map, Hw0. simpl. unfold SyncSchema. rewrite HT. simpl.
    now rewrite <- Ht.
  - unfold num_rows. destruct Hz; [reflexivity|assumption].
Qed.

Lemma SyncSchema_synthesizes_empty_table_witness :
  let price := mkField "price" float64 true in
  let tables :=
    [None;
     Some (Table_Make (make_schema [price])
             [mkChunkedArray [DoubleArray [(true, int64_to_double 3)]] float64])] in
  let schemas := map local_schema tables in
  0 < first_num_fields schemas /\
  wide_enough (first_num_fields schemas) schemas /\
  TypeLoosen schemas = Ok (make_schema [price]) /\
  exists T,
    TypeLoosen schemas = Ok T /\
    forall w, nth_error tables w = Some None ->
      exists t,
        nth_error (SyncSchema_group tables) w = Some (Ok t) /\
        schema t = T /\
        num_rows t = 0 /\
        well_formed t /\
        Forall (fun c => ChunkedArray_length c = 0) (columns t).
Proof.
  intros price tables schemas.
  assert (Hn : 0 < first_num_fields schemas) by (unfold schemas; cbv; lia).
  assert (Hw : wide_enough (first_num_fields schemas) schemas).
  { unfold schemas; repeat constructor. }
  split; [exact Hn|split; [exact Hw|split; [reflexivity|]]].
  exact (SyncSchema_synthesizes_empty_table tables Hn Hw).
Defined.

(** C3 (as stated) fails: a worker contributes a schema that is not null
    but has no column, and the worker without a table gets an error. *)
Lemma SyncSchema_no_column_counterexample :
  let tables := [Some (Table_Make (make_schema []) []); None] in
  first_schema (map local_schema tables) = Some (make_schema []) /\
  nth_error tables 1 = Some None /\
  nth_error (SyncSchema_group tables) 1
  = Some (Raise (gs_error kInvalidOperationError "Every schema is empty")).
Proof. repeat split. Qed.

(** ** Casting a table to the reconciled schema *)


Lemma cast_chunk_supported (from_type to_type : DataType) (a : Array) :
  Array_type a = from_type ->
  supported_cast from_type to_type = true ->
  cast_chunk from_type to_type a = Ok (converted_chunk a)
  /\ Array_type (converted_chunk a) = to_type
  /\ Array_length (converted_chunk a) = Array_length a.
Proof.
  intros <- Hs. unfold supported_cast in Hs. unfold cast_chunk.
  destruct a as [n|l|l|l|l|l|l|u l]; simpl in *;
    try (rewrite ?andb_false_r in Hs; discriminate Hs).
  - destruct (Equals to_type float64) eqn:E; simpl in *.
    + apply Equals_eq in E; subst. unfold CastIntToDouble; simpl.
      repeat split. now rewrite length_map.
    + destruct to_type; discriminate.
  - destruct u; simpl in *; try discriminate Hs.
    destruct (Equals to_type int64) eqn:E; simpl in *; [|discriminate].
    apply Equals_eq in E; subst. unfold CastDateToInt; simpl. repeat split.
Qed.

Lemma cast_chunk_unsupported (from_type to_type : DataType) (a : Array) :
  supported_cast from_type to_type = false ->
  cast_chunk from_type to_type a
  = Raise (gs_error kDataTypeError (unexpected_type from_type to_type)).
Proof.
  unfold supported_cast, cast_chunk. intros H.
  apply orb_false_iff in H as [-> ->]. reflexivity.
Qed.

Lemma mapM_cast_chunk_supported (from_type to_type : DataType) (l : list Array) :
  Forall (fun a => Array_type a = from_type) l ->
  supported_cast from_type to_type = true ->
  mapM (cast_chunk from_type to_type) l = Ok (map converted_chunk l).
Proof.
  intros HF Hs. induction HF as [|a l Ha _ IH]; simpl; [reflexivity|].
  rewrite (proj1 (cast_chunk_supported _ _ a Ha Hs)). simpl. now rewrite IH.
Qed.

(** The columns of a well-formed table, looked up by position. *)
Lemma well_formed_lookup (t : Table) (i : nat) (tf : Field) :
  well_formed t -> Table_field t i = Some tf ->
  exists col, column t i = Some col /\ column_conforms tf col.
Proof.
  unfold well_formed, Table_field, field, column.
  generalize (fields (schema t)) (columns t). intros fs cs H. revert i.
  induction H as [|f c fs cs Hfc _ IH]; intros [|i]; simpl; intros E; try discriminate.
  - inversion E; subst. eauto.
  - auto.
Qed.

(** One column of a well-formed table: a data-type error exactly when the
    mismatch is unsupported and there is a chunk to cast. *)
Lemma cast_column_spec (table : Table) (schema : Schema) (i : nat) (tf sf : Field) :
  well_formed table ->
  Table_field table i = Some tf ->
  field schema i = Some sf ->
  exists col,
    column table i = Some col /\
    cast_column table schema i =
      if unsupported_mismatch tf sf && negb (Nat.eqb (num_chunks col) 0)
      then Raise (gs_error kDataTypeError
                    (unexpected_type (field_type tf) (field_type sf)))
      else Ok (converted_column tf sf col).
Proof.
  intros Hwf Htf Hsf.
  destruct (well_formed_lookup table i tf Hwf Htf) as (col & Hcol & Hty & Hch).
  exists col. split; [exact Hcol|].
  unfold cast_column, unsupported_mismatch, converted_column.
  rewrite Hcol, Htf, Hsf.
  destruct (Equals (field_type tf) (field_type sf)) eqn:E; simpl; [reflexivity|].
  destruct (supported_cast (field_type tf) (field_type sf)) eqn:S; simpl.
  - now rewrite (mapM_cast_chunk_supported _ _ _ Hch S).
  - unfold num_chunks. destruct (chunks col) as [|a l] eqn:C; simpl; [reflexivity|].
    now rewrite (cast_chunk_unsupported _ _ a S).
Qed.

Lemma seq_lookup (n i : nat) : i < n -> nth_error (seq 0 n) i = Some i.
Proof.
  intros H. rewrite nth_error_nth' with (d := 0) by (rewrite length_seq; lia).
  now rewrite seq_nth.
Qed.

Lemma fields_lookup (table : Table) (schema : Schema) (i : nat) :
  num_columns table = num_fields schema ->
  i < num_columns table ->
  exists tf sf, Table_field table i = Some tf /\ field schema i = Some sf.
Proof.
  unfold num_columns, num_fields, Table_field, field. intros Hn Hi.
  destruct (nth_error (fields (Arrow.schema table)) i) eqn:E1.
  - destruct (nth_error (fields schema) i) eqn:E2; eauto.
    apply nth_error_None in E2. lia.
  - apply nth_error_None in E1. lia.
Qed.




(** The conversion to double rounds: beyond 2^53 two integers can share a
    double. *)
Example int64_to_double_rounds :
  int64_to_double (2 ^ 53 + 1) = int64_to_double (2 ^ 53)
  /\ int64_to_double 3 = S754_finite false 6755399441055744 (-51).
Proof. split; reflexivity. Qed.

(** ** The label maps of [shuffleAndBuild] *)

Lemma vector_set_length {A : Type} (v : list A) (i : nat) (x : A) :
  length (vector_set v i x) = length v.
Proof.
  revert i; induction v as [|y v IH]; intros [|i]; simpl; auto.
Qed.

Lemma vector_set_lookup {A : Type} (v : list A) (i j : nat) (x : A) :
  i < length v ->
  nth_error (vector_set v i x) j = if Nat.eqb j i then Some x else nth_error v j.
Proof.
  revert i j; induction v as [|y v IH]; intros [|i] [|j]; simpl; intros H;
    try lia; try reflexivity.
  apply IH. lia.
Qed.

Lemma assign_labels_rejects (failed_msg multiple_msg : string) (label_num : label_id_t)
      (pairs : list (string * label_id_t)) :
  forall label_list label_bitset,
    length label_bitset = label_num ->
    (forall label, ~ In (label, label_num) pairs) ->
    above_range label_num pairs
    \/ (exists label index,
          In (label, index) pairs /\ nth_error label_bitset index = Some true)
    \/ conflicting pairs ->
    exists msg,
      assign_labels failed_msg multiple_msg label_num pairs label_list label_bitset
      = Raise (gs_error kIOError msg).
Proof.
  induction pairs as [|[label0 index0] rest IH]; intros label_list bitset Hlen Hno Hbad.
  - exfalso. destruct Hbad as [(l & i & [] & _)|[(l & i & [] & _)|(l1 & l2 & i & _ & [] & _)]].
  - simpl. destruct (Nat.ltb_spec label_num index0) as [Hgt|Hle]; [eauto|].
    assert (Hlt : index0 < label_num).
    { destruct (Nat.eq_dec index0 label_num) as [->|]; [|lia].
      exfalso. apply (Hno label0). now left. }
    destruct (nth_error bitset index0) as [[|]|] eqn:Hb; [eauto| |].
    2:{ apply nth_error_None in Hb. lia. }
    apply IH.
    + now rewrite vector_set_length.
    + intros l Hin. apply (Hno l). now right.
    + assert (Hkeep : forall i, nth_error bitset i = Some true ->
                nth_error (vector_set bitset index0 true) i = Some true).
      { intros i Hi. rewrite vector_set_lookup by lia.
        now destruct (Nat.eqb i index0). }
      assert (Hset : nth_error (vector_set bitset index0 true) index0 = Some true).
      { rewrite vector_set_lookup by lia. now rewrite Nat.eqb_refl. }
      destruct Hbad as [(l & i & Hin & Hi)|[(l & i & Hin & Hi)|(l1 & l2 & i & Hne & H1 & H2)]].
      * left. exists l, i. split; [|exact Hi].
        destruct Hin as [E|Hin]; [inversion E; subst; lia|exact Hin].
      * right; left. exists l, i. split; [|now apply Hkeep].
        destruct Hin as [E|Hin]; [inversion E; subst; congruence|exact Hin].
      * destruct H1 as [E1|H1], H2 as [E2|H2].
        -- inversion E1; inversion E2; subst. congruence.
        -- inversion E1; subst. right; left. eauto.
        -- inversion E2; subst. right; left. eauto.
        -- right; right. exists l1, l2, i. auto.
Qed.

Lemma label_list_of_rejects (failed_msg multiple_msg : string) (label_num : label_id_t)
      (m : StringMap.t label_id_t) :
  conflicting (StringMap.elements m) \/ above_range label_num (StringMap.elements m) ->
  (forall label, ~ In (label, label_num) (StringMap.elements m)) ->
  exists msg,
    label_list_of failed_msg multiple_msg label_num m = Raise (gs_error kIOError msg).
Proof.
  intros Hbad Hno. unfold label_list_of. apply assign_labels_rejects.
  - apply repeat_length.
  - exact Hno.
  - destruct Hbad; auto.
Qed.

(** C7 (as amended).  When two distinct vertex labels are mapped to one
    index, or a vertex label is mapped to an index above the number of
    vertex labels, and no label is mapped to that number itself, building
    the schema in [shuffleAndBuild] fails with the I/O error of the loader;
    the same holds for the edge labels once the vertex entries are built. *)
Theorem shuffleAndBuild_rejects_bad_label_maps
        (st : LoaderState) (fnum : nat) (local_v_tables local_e_tables : list Table) :
  let vertex_pairs := StringMap.elements (vertex_label_to_index_ st) in
  let edge_pairs := StringMap.elements (edge_label_to_index_ st) in
  (conflicting vertex_pairs \/ above_range (vertex_label_num_ st) vertex_pairs ->
   (forall label, ~ In (label, vertex_label_num_ st) vertex_pairs) ->
   exists msg,
     shuffleAndBuild_schema st fnum local_v_tables local_e_tables
     = Raise (gs_error kIOError msg))
  /\ (conflicting edge_pairs \/ above_range (edge_label_num_ st) edge_pairs ->
      (forall label, ~ In (label, edge_label_num_ st) edge_pairs) ->
      forall vertex_entries,
        vertex_schema_entries st local_v_tables = Ok vertex_entries ->
        exists msg,
          shuffleAndBuild_schema st fnum local_v_tables local_e_tables
          = Raise (gs_error kIOError msg)).
Proof.
  intros vertex_pairs edge_pairs. split.
  - intros Hbad Hno.
    destruct (label_list_of_rejects "Failed to map vertex label to index"
                "Multiple vertex labels are mapped to one index."
                _ _ Hbad Hno) as [msg Hmsg].
    exists msg. unfold shuffleAndBuild_schema, vertex_schema_entries, vertex_label_list.
    now rewrite Hmsg.
  - intros Hbad Hno vertex_entries Hv.
    destruct (label_list_of_rejects "Failed to map edge label to index"
                "Multiple edge labels are mapped to one index."
                _ _ Hbad Hno) as [msg Hmsg].
    exists msg. unfold shuffleAndBuild_schema. rewrite Hv. simpl.
    unfold edge_schema_entries, edge_label_list. now rewrite Hmsg.
Qed.

Lemma shuffleAndBuild_rejects_bad_label_maps_witness :
  let person := Table_Make {| fields := [mkField "id" int64 true];
                              metadata := Some [("primary_key", "id")] |}
                           [mkChunkedArray [] int64] in
  let twice :=
    set_vertex_label_to_index (new_loader 2 0)
      (StringMap.add "a" 0 (StringMap.add "b" 0 (StringMap.empty label_id_t))) in
  let edges :=
    set_edge_label_to_index
      (set_vertex_label_to_index (new_loader 1 2)
         (StringMap.add "person" 0 (StringMap.empty label_id_t)))
      (StringMap.add "knows" 0 (StringMap.add "likes" 3 (StringMap.empty label_id_t))) in
  (conflicting (StringMap.elements (vertex_label_to_index_ twice)) /\
   (forall label,
      ~ In (label, vertex_label_num_ twice)
           (StringMap.elements (vertex_label_to_index_ twice))) /\
   exists msg,
     shuffleAndBuild_schema twice 2 [] [] = Raise (gs_error kIOError msg))
  /\ (above_range (edge_label_num_ edges)
                  (StringMap.elements (edge_label_to_index_ edges)) /\
      (forall label,
         ~ In (label, edge_label_num_ edges)
              (StringMap.elements (edge_label_to_index_ edges))) /\
      (exists vertex_entries, vertex_schema_entries edges [person] = Ok vertex_entries) /\
      exists msg,
        shuffleAndBuild_schema edges 2 [person] [] = Raise (gs_error kIOError msg)).
Proof.
  intros person twice edges. split.
  - assert (Hc : conflicting (StringMap.elements (vertex_label_to_index_ twice))).
    { exists "a", "b", 0. split; [discriminate|]. split; [now left|right; now left]. }
    assert (Hno : forall label,
               ~ In (label, vertex_label_num_ twice)
                    (StringMap.elements (vertex_label_to_index_ twice))).
    { intros label [E|[E|[]]]; inversion E. }
    split; [exact Hc|]. split; [exact Hno|].
    exact (proj1 (shuffleAndBuild_rejects_bad_label_maps twice 2 [] [])
                 (or_introl Hc) Hno).
  - assert (Ha : above_range (edge_label_num_ edges)
                   (StringMap.elements (edge_label_to_index_ edges))).
    { exists "likes", 3. split; [right; now left|]. simpl. lia. }
    assert (Hno : forall label,
               ~ In (label, edge_label_num_ edges)
                    (StringMap.elements (edge_label_to_index_ edges))).
    { intros label [E|[E|[]]]; inversion E. }
    assert (Hv : vertex_schema_entries edges [person]
                 = Ok [mkEntry "person" "VERTEX" ["id"] [] [("id", int64)]])
      by reflexivity.
    split; [exact Ha|]. split; [exact Hno|]. split; [eauto|].
    exact (proj2 (shuffleAndBuild_rejects_bad_label_maps edges 2 [person] [])
                 (or_intror Ha) Hno _ Hv).
Defined.

(** C7 (as stated) fails: two vertex labels mapped to one index make the
    schema fail, but with the error code the loader chose for its label
    bookkeeping, [kIOError], which is the IOError of the taxonomy and not
    InternalConsistencyError. *)
Lemma shuffleAndBuild_conflict_is_io_error_counterexample :
  ~ rejects_bad_vertex_labels
      (set_vertex_label_to_index (new_loader 2 0)
         (StringMap.add "a" 0 (StringMap.add "b" 0 (StringMap.empty label_id_t)))).
Proof.
  intros H.
  assert (Hc : conflicting [("a", 0); ("b", 0)]).
  { exists "a", "b", 0. split; [discriminate|]. split; [now left|right; now left]. }
  destruct (H (or_introl Hc) 2 [] []) as (code & msg & Hr & Hk).
  vm_compute in Hr. injection Hr as <- _. discriminate Hk.
Qed.

(** On that map the schema does fail, with the IOError of the taxonomy. *)
Example shuffleAndBuild_conflict_fails_with_io_error :
  fails_with IOError
    (shuffleAndBuild_schema
       (set_vertex_label_to_index (new_loader 2 0)
          (StringMap.add "a" 0 (StringMap.add "b" 0 (StringMap.empty label_id_t))))
       2 [] []).
Proof.
  exists kIOError, "Multiple vertex labels are mapped to one index.".
  split; reflexivity.
Qed.

(** The index the amended claim leaves out: with one vertex label, a label
    mapped to index 1 passes the comparison [pair.second > vertex_label_num_]
    and is written past the end of the label list. *)
Example shuffleAndBuild_index_equal_to_count :
  vertex_label_list
    (set_vertex_label_to_index (new_loader 1 0)
       (StringMap.add "a" 1 (StringMap.empty label_id_t)))
  = Undefined.
Proof. reflexivity. Qed.

(** ** The fragment group *)


Section FragmentGroupProperties.

Variable Seal : ArrowFragmentGroup -> ObjectID.
Variable Persist : ObjectID -> bool.
Variable uninitialized : ObjectID.

Lemma at_gather_map {X R : Type} (local : X -> Z)
      (k : X -> option (list Z) -> Prog R) (xs : list X) :
  at_gather (map (fun x => Gather (local x) (k x)) xs)
  = Some (map local xs, map k xs).
Proof.
  induction xs as [|x xs IH]; simpl; [reflexivity|]. now rewrite IH.
Qed.


Lemma all_returned_map {X R : Type} (r : X -> R) (xs : list X) :
  all_returned (map (fun x => Ret (r x)) xs) = Some (map r xs).
Proof.
  induction xs as [|x xs IH]; simpl; [reflexivity|]. now rewrite IH.
Qed.

(** The workers of rank 1 and more run the second branch. *)
Lemma peers_of_group (fnum n : nat) (frag_to_worker : nat -> nat)
      (v_label_num e_label_num : label_id_t) (locals : list (Z * ObjectID)) (first : nat) :
  map (fun '(rank, (instance_id, frag_id)) =>
         constructFragmentGroup Seal Persist uninitialized instance_id frag_id
           (mkCommSpec rank n fnum frag_to_worker) v_label_num e_label_num)
      (combine (seq (S first) (length locals)) locals)
  = map (fun l : Z * ObjectID =>
           Gather (fst l) (fun _ =>
           Gather (snd l) (fun _ =>
           Bcast uninitialized (fun group_object_id => Ret (Ok group_object_id)))))
        locals.
Proof.
  revert first; induction locals as [|[inst frag] rest IH]; intros first; simpl;
    [reflexivity|].
  rewrite IH. reflexivity.
Qed.

Lemma peers_of_group' (fnum n : nat) (frag_to_worker : nat -> nat)
      (v_label_num e_label_num : label_id_t) (locals : list (Z * ObjectID)) (first : nat) :
  map (fun '(rank, (instance_id, frag_id)) =>
         constructFragmentGroup Seal Persist uninitialized instance_id frag_id
           (mkCommSpec rank n fnum frag_to_worker) v_label_num e_label_num)
      (combine (seq (S first) (length locals)) locals)
  = map (peer_program uninitialized) locals.
Proof. apply peers_of_group. Qed.


End FragmentGroupProperties.



(** ** Edge labels declared by several edge files *)

(** C6 (the code departs from it).  Two edge files declare the edge label
    "knows".  [loadEVTablesFromEFiles] refuses them with the invalid-value
    error; [loadEdgeTables] loads both and leaves "knows" at index 1, the
    index 0 it had first being overwritten, so that [shuffleAndBuild] later
    finds no label at index 0 and looks up the relations of the empty
    name. *)
Theorem loadEdgeTables_overwrites_label_index :
  option_map (map edge_labels_after)
    (run_workers
       [loadEdgeTables "src_column" "dst_column" "src_label_id" "dst_label_id"
          descriptor_meta same_edges_everywhere "map::at"
          knows_twice 0 1 person_loader])
  = Some [(Ok tt, [("knows", 1)])]
  /\ option_map
       (map (fun r : result (list (list Table)) * LoaderState =>
               (edge_label_list (snd r), status (edge_schema_entries (snd r) []))))
       (run_workers
          [loadEdgeTables "src_column" "dst_column" "src_label_id" "dst_label_id"
             descriptor_meta same_edges_everywhere "map::at"
             knows_twice 0 1 person_loader])
     = Some [(Ok [""; "knows"], Undefined)]
  /\ option_map (map edge_labels_after)
       (run_workers
          [loadEVTablesFromEFiles "id_column" "src_column" "dst_column"
             "src_label_id" "dst_label_id"
             descriptor_meta same_edges_everywhere "map::at"
             knows_twice 0 1 (new_loader 0 2)])
     = Some [(Raise (gs_error kInvalidValueError
                       "Edge label is not consistent, knows: 1 vs 0"),
              [("knows", 0)])].
Proof. repeat split; vm_compute; reflexivity. Qed.

(** ** What a worker can return *)

Lemma returns_Ret_inv {R : Type} (x r : R) : returns (Ret x) r -> r = x.
Proof. intros H. now inversion H. Qed.

Lemma returns_AllGatherSchema_inv {R : Type} l (k : _ -> Prog R) r :
  returns (AllGatherSchema l k) r -> exists x, returns (k x) r.
Proof. intros H. inversion H; subst. eauto. Qed.

Lemma returns_AllGatherError_inv {R : Type} l (k : _ -> Prog R) r :
  returns (AllGatherError l k) r -> exists x, returns (k x) r.
Proof. intros H. inversion H; subst. eauto. Qed.

Lemma returns_Gather_inv {R : Type} l (k : _ -> Prog R) r :
  returns (Gather l k) r -> exists x, returns (k x) r.
Proof. intros H. inversion H; subst. eauto. Qed.

Lemma returns_Bcast_inv {R : Type} b (k : _ -> Prog R) r :
  returns (Bcast b k) r -> exists x, returns (k x) r.
Proof. intros H. inversion H; subst. eauto. Qed.

Lemma returns_bindP {A B : Type} (p : Prog A) (f : A -> Prog B) (r : B) :
  returns (bindP p f) r -> exists a, returns p a /\ returns (f a) r.
Proof.
  induction p as [a|l k IH|l k IH|l k IH|b k IH]; simpl; intros H.
  - exists a. split; [constructor|exact H].
  - apply returns_AllGatherSchema_inv in H as [x H].
    destruct (IH _ H) as (a & Ha & Hr).
    exists a. split; [econstructor; eassumption|exact Hr].
  - apply returns_AllGatherError_inv in H as [x H].
    destruct (IH _ H) as (a & Ha & Hr).
    exists a. split; [econstructor; eassumption|exact Hr].
  - apply returns_Gather_inv in H as [x H].
    destruct (IH _ H) as (a & Ha & Hr).
    exists a. split; [econstructor; eassumption|exact Hr].
  - apply returns_Bcast_inv in H as [x H].
    destruct (IH _ H) as (a & Ha & Hr).
    exists a. split; [econstructor; eassumption|exact Hr].
Qed.

Lemma returns_bindM_Ok {A B : Type} (m : M A) (f : A -> M B) (st st2 : LoaderState)
      (b : B) :
  returns (bindM m f st) (Ok b, st2) ->
  exists a st1, returns (m st) (Ok a, st1) /\ returns (f a st1) (Ok b, st2).
Proof.
  unfold bindM. intros H. apply returns_bindP in H as ([r st1] & Hm & Hf).
  destruct r as [a|e|].
  - eauto.
  - apply returns_Ret_inv in Hf. discriminate.
  - apply returns_Ret_inv in Hf. discriminate.
Qed.

Lemma returns_liftM {A : Type} (r : result A) (st : LoaderState) x :
  returns (liftM r st) x -> x = (r, st).
Proof. apply returns_Ret_inv. Qed.

Lemma returns_sync_Ok {A : Type} (m : M A) (st st' : LoaderState) (a : A) :
  returns (sync_gs_error m st) (Ok a, st') -> returns (m st) (Ok a, st').
Proof.
  unfold sync_gs_error. intros H. apply returns_bindP in H as ([r st1] & Hm & Hf).
  apply returns_AllGatherError_inv in Hf as [x Hf].
  apply returns_Ret_inv in Hf.
  destruct r as [a'|e|]; try discriminate.
  destruct (first_error x); inversion Hf; subst. exact Hm.
Qed.

Lemma returns_SyncSchema_procedure (table : option Table) (st st' : LoaderState)
      (normalized : Table) :
  returns (SyncSchema_procedure table st) (Ok normalized, st') ->
  st' = st /\ exists schemas, SyncSchema table schemas = Ok normalized.
Proof.
  unfold SyncSchema_procedure. intros H.
  apply returns_AllGatherSchema_inv in H as [x H].
  apply returns_Ret_inv in H. inversion H; subst. eauto.
Qed.

(** ** Vertex tables inferred from the edge files *)

Lemma oid_insert_spec (oids : OidSet) (oid : Z) :
  (forall x, In x (oid_insert oids oid) <-> In x oids \/ x = oid) /\
  (NoDup oids -> NoDup (oid_insert oids oid)).
Proof.
  unfold oid_insert. destruct (existsb (Z.eqb oid) oids) eqn:E.
  - apply existsb_exists in E as (y & Hy & Heq). apply Z.eqb_eq in Heq. subst y.
    split; [|auto]. intros x. split; [auto|]. intros [H| ->]; assumption.
  - assert (Hnot : ~ In oid oids).
    { intros Hin. assert (existsb (Z.eqb oid) oids = true).
      { apply existsb_exists. exists oid. split; [assumption|apply Z.eqb_refl]. }
      congruence. }
    split.
    + intros x. rewrite in_app_iff. simpl. intuition.
    + intros Hnd. apply NoDup_app; [assumption|repeat constructor; auto|].
      intros x Hx [<-|[]]. contradiction.
Qed.

Lemma fold_oid_insert_spec (new : list Z) :
  forall oids,
    (forall x, In x (fold_left oid_insert new oids) <-> In x oids \/ In x new) /\
    (NoDup oids -> NoDup (fold_left oid_insert new oids)).
Proof.
  induction new as [|o new IH]; intros oids; simpl.
  - split; [intuition|auto].
  - destruct (IH (oid_insert oids o)) as [Hin Hnd].
    destruct (oid_insert_spec oids o) as [Hin' Hnd'].
    split.
    + intros x. rewrite Hin, Hin'. intuition.
    + auto.
Qed.

Lemma OidSet_BatchInsert_chunks_spec (chunks : list Array) :
  forall oids oids',
    OidSet_BatchInsert_chunks oids chunks = Ok oids' ->
    (forall x, In x oids' <-> In x oids \/ In x (flat_map array_oids chunks)) /\
    (NoDup oids -> NoDup oids').
Proof.
  induction chunks as [|arr rest IH]; intros oids oids'; simpl; intros H.
  - inversion H; subst. split; [intuition|auto].
  - destruct arr; simpl in H; try discriminate.
    destruct (IH _ _ H) as [Hin Hnd].
    destruct (fold_oid_insert_spec (map snd slots) oids) as [Hin' Hnd'].
    split.
    + intros x. rewrite Hin, Hin', in_app_iff. simpl. intuition.
    + auto.
Qed.

Lemma insert_endpoints_spec (oids oids' : list OidSet) (label_id : label_id_t)
      (e_table : Table) (c : nat) :
  insert_endpoints oids label_id e_table c = Ok oids' ->
  exists set col set',
    nth_error oids label_id = Some set /\
    column e_table c = Some col /\
    oids' = vector_set oids label_id set' /\
    (forall x, In x set' <-> In x set \/ In x (column_oids col)) /\
    (NoDup set -> NoDup set').
Proof.
  unfold insert_endpoints.
  destruct (nth_error oids label_id) as [set|] eqn:Es; [|discriminate].
  destruct (column e_table c) as [col|] eqn:Ec; [|discriminate].
  unfold OidSet_BatchInsert.
  destruct (OidSet_BatchInsert_chunks set (chunks col)) as [set'| |] eqn:Eb;
    simpl; try discriminate.
  intros H; inversion H; subst.
  destruct (OidSet_BatchInsert_chunks_spec _ _ _ Eb) as [Hin Hnd].
  exists set, col, set'. repeat split; auto; apply Hin.
Qed.

Lemma NoDupA_eq_NoDup {A : Type} (l : list A) : NoDupA eq l -> NoDup l.
Proof.
  induction 1 as [|x l Hx _ IH]; constructor; [|assumption].
  intros Hin. apply Hx. apply InA_alt. eauto.
Qed.

Lemma StringSet_elements_In (s : StringSet.t) (name : string) :
  In name (StringSet.elements s) <-> StringSet.In name s.
Proof.
  rewrite <- StringSet.elements_spec1. rewrite InA_alt. split.
  - intros H. exists name. auto.
  - intros (y & -> & H). exact H.
Qed.

Lemma number_labels_other (names : list string) :
  forall k m name,
    ~ In name names ->
    StringMap.find name (number_labels names k m) = StringMap.find name m.
Proof.
  induction names as [|x names IH]; intros k m name Hn; simpl; [reflexivity|].
  rewrite IH by (intros H; apply Hn; now right).
  apply StringMapFacts.add_neq_o. intros E. apply Hn. now left.
Qed.

Lemma number_labels_find (names : list string) :
  forall k m pos name,
    NoDup names ->
    nth_error names pos = Some name ->
    StringMap.find name (number_labels names k m) = Some (k + pos).
Proof.
  induction names as [|x names IH]; intros k m pos name Hnd Hp.
  - destruct pos; discriminate.
  - inversion Hnd as [|? ? Hx Hnd']; subst. destruct pos as [|pos]; simpl in *.
    + inversion Hp; subst. rewrite number_labels_other by assumption.
      rewrite StringMapFacts.add_eq_o by reflexivity. f_equal. lia.
    + rewrite (IH (S k) _ pos name Hnd' Hp). f_equal. lia.
Qed.

Lemma number_labels_position (names : list string) (name : string) (v : label_id_t) :
  NoDup names ->
  StringMap.find name (number_labels names 0 (StringMap.empty label_id_t)) = Some v ->
  nth_error names v = Some name.
Proof.
  intros Hnd Hf. destruct (in_dec string_dec name names) as [Hin|Hout].
  - apply In_nth_error in Hin as [pos Hpos].
    rewrite (number_labels_find names 0 _ pos name Hnd Hpos) in Hf.
    inversion Hf; subst. exact Hpos.
  - rewrite number_labels_other in Hf by assumption.
    rewrite StringMapFacts.empty_o in Hf. discriminate.
Qed.

Lemma returns_retM {A : Type} (a b : A) (st st' : LoaderState) :
  returns (retM a st) (Ok b, st') -> b = a /\ st' = st.
Proof. intros H. apply returns_Ret_inv in H. now inversion H. Qed.

Lemma returns_getM (st st' a : LoaderState) :
  returns (getM st) (Ok a, st') -> a = st /\ st' = st.
Proof. intros H. apply returns_Ret_inv in H. now inversion H. Qed.

Lemma returns_putM (s st st' : LoaderState) (u : unit) :
  returns (putM s st) (Ok u, st') -> st' = s.
Proof. intros H. apply returns_Ret_inv in H. now inversion H. Qed.

Lemma returns_RETURN_GS_ERROR {A : Type} code msg (st st' : LoaderState) (a : A) :
  ~ returns (RETURN_GS_ERROR code msg st) (Ok a, st').
Proof. intros H. apply returns_Ret_inv in H. discriminate. Qed.

Section InferredVertexTables.

Variables ID_COLUMN SRC_COLUMN DST_COLUMN SRC_LABEL_ID DST_LABEL_ID : string.
Variable GetMeta : string -> adaptor_meta_t.
Variable ReadTable : string -> nat -> nat -> result (option Table).
Variable out_of_range_what : string.

Local Abbreviation src_of := (src_label_of GetMeta).
Local Abbreviation dst_of := (dst_label_of GetMeta).
Local Abbreviation declares := (declares_vertex_label GetMeta).
Local Abbreviation endpoint := (endpoint_of GetMeta).
Local Abbreviation gathered_in := (collected GetMeta).
Local Abbreviation synchronized :=
  (synchronized_from SRC_COLUMN DST_COLUMN SRC_LABEL_ID DST_LABEL_ID GetMeta ReadTable).
Local Abbreviation scan_subs := (scan_sub_files GetMeta).
Local Abbreviation scan := (scan_efiles GetMeta).
Local Abbreviation label_at := (vertex_label_at out_of_range_what).
Local Abbreviation ev_table :=
  (load_ev_table SRC_COLUMN DST_COLUMN SRC_LABEL_ID DST_LABEL_ID GetMeta ReadTable
     out_of_range_what).
Local Abbreviation ev_sub_files :=
  (load_ev_sub_files SRC_COLUMN DST_COLUMN SRC_LABEL_ID DST_LABEL_ID GetMeta ReadTable
     out_of_range_what).
Local Abbreviation ev_labels :=
  (load_ev_labels SRC_COLUMN DST_COLUMN SRC_LABEL_ID DST_LABEL_ID GetMeta ReadTable
     out_of_range_what).
Local Abbreviation loadEV :=
  (loadEVTablesFromEFiles ID_COLUMN SRC_COLUMN DST_COLUMN SRC_LABEL_ID DST_LABEL_ID
     GetMeta ReadTable out_of_range_what).

Lemma scan_sub_files_spec (subs : list string) :
  forall names names',
    scan_subs subs names = Ok names' ->
    forall name,
      StringSet.In name names' <->
      StringSet.In name names \/ exists sub, In sub subs /\ declares name sub.
Proof.
  induction subs as [|sub subs IH]; intros names names'; simpl; intros H name.
  - inversion H; subst. split; [auto|]. intros [H'|(s & [] & _)]. exact H'.
  - destruct (meta_find SRC_LABEL_TAG (GetMeta (adaptor_path sub))) as [src|] eqn:Es;
      [|discriminate].
    destruct (meta_find DST_LABEL_TAG (GetMeta (adaptor_path sub))) as [dst|] eqn:Ed;
      [|discriminate].
    rewrite (IH _ _ H name). rewrite !StringSet.add_spec.
    unfold declares, src_label_of, dst_label_of.
    split.
    + intros [[->|[->|Hin]]|(s & Hs & Hd)].
      * right. exists sub. split; [now left|now right].
      * right. exists sub. split; [now left|now left].
      * now left.
      * right. exists s. split; [now right|exact Hd].
    + intros [Hin|(s & [<-|Hs] & Hd)].
      * left. auto.
      * left. rewrite Es, Ed in Hd. destruct Hd as [E|E]; inversion E; auto.
      * right. eauto.
Qed.

Lemma scan_efiles_spec (efiles : list string) :
  forall names names',
    scan efiles names = Ok names' ->
    forall name,
      StringSet.In name names' <->
      StringSet.In name names \/
      exists efile sub,
        In efile efiles /\ In sub (split_semicolon efile) /\ declares name sub.
Proof.
  induction efiles as [|efile efiles IH]; intros names names'; simpl; intros H name.
  - inversion H; subst. split; [auto|]. intros [H'|(e & s & [] & _)]. exact H'.
  - destruct (scan_subs (split_semicolon efile) names) as [names1| |] eqn:E1;
      simpl in H; try discriminate.
    rewrite (IH _ _ H name). rewrite (scan_sub_files_spec _ _ _ E1 name). split.
    + intros [[Hin|(s & Hs & Hd)]|(e & s & He & Hs & Hd)].
      * now left.
      * right. exists efile, s. auto.
      * right. exists e, s. auto.
    + intros [Hin|(e & s & [<-|He] & Hs & Hd)].
      * left. now left.
      * left. right. eauto.
      * right. eauto.
Qed.



Lemma returns_vertex_label_at (name : string) (st st' : LoaderState) (id : label_id_t) :
  returns (label_at name st) (Ok id, st') ->
  st' = st /\ StringMap.find name (vertex_label_to_index_ st) = Some id.
Proof.
  unfold vertex_label_at.
  destruct (StringMap.find name (vertex_label_to_index_ st)) as [v|]; intros H;
    apply returns_Ret_inv in H; inversion H; subst; auto.
Qed.

(** What one pass of the inner loop leaves: the table, the identifier sets
    with the endpoints of the table added, the vertex labels untouched. *)
Lemma returns_load_ev_table (index total_parts : nat) (e_label_id : label_id_t)
      (sub_label_num : nat) (oids oids' : list OidSet) (sub_efile : string)
      (st st' : LoaderState) (e_table : Table) :
  returns (ev_table index total_parts e_label_id sub_label_num oids sub_efile st)
          (Ok (e_table, oids'), st') ->
  vertex_label_to_index_ st' = vertex_label_to_index_ st /\
  vertex_label_num_ st' = vertex_label_num_ st /\
  edge_label_num_ st' = edge_label_num_ st /\
  exists src dst src_id dst_id oids1,
    src_of sub_efile = Some src /\
    dst_of sub_efile = Some dst /\
    StringMap.find src (vertex_label_to_index_ st) = Some src_id /\
    StringMap.find dst (vertex_label_to_index_ st) = Some dst_id /\
    insert_endpoints oids src_id e_table src_column = Ok oids1 /\
    insert_endpoints oids1 dst_id e_table dst_column = Ok oids'.
Proof.
  unfold load_ev_table. intros H.
  apply returns_bindM_Ok in H as (table & st1 & Hread & H).
  apply returns_sync_Ok in Hread. apply returns_liftM in Hread.
  injection Hread as _ ->.
  apply returns_bindM_Ok in H as (normalized & st2 & Hsync & H).
  apply returns_sync_Ok in Hsync.
  apply returns_SyncSchema_procedure in Hsync as [-> _].
  destruct (meta_find LABEL_TAG (GetMeta (adaptor_path sub_efile))) as [label|];
    [|now apply returns_RETURN_GS_ERROR in H].
  unfold src_label_of, dst_label_of.
  destruct (meta_find SRC_LABEL_TAG (GetMeta (adaptor_path sub_efile))) as [src|];
    [|now apply returns_RETURN_GS_ERROR in H].
  apply returns_bindM_Ok in H as (src_id & st3 & Hsrc & H).
  apply returns_vertex_label_at in Hsrc as [-> Hsrc].
  destruct (meta_find DST_LABEL_TAG (GetMeta (adaptor_path sub_efile))) as [dst|];
    [|now apply returns_RETURN_GS_ERROR in H].
  apply returns_bindM_Ok in H as (dst_id & st4 & Hdst & H).
  apply returns_vertex_label_at in Hdst as [-> Hdst].
  apply returns_bindM_Ok in H as (s & st5 & Hget & H).
  apply returns_getM in Hget as [-> ->].
  apply returns_bindM_Ok in H as (u & st6 & Hput & H).
  apply returns_putM in Hput. subst st6.
  apply returns_bindM_Ok in H as (u' & st7 & Hedge & H).
  assert (Hst7 : vertex_label_to_index_ st7 = vertex_label_to_index_ st /\
                 vertex_label_num_ st7 = vertex_label_num_ st /\
                 edge_label_num_ st7 = edge_label_num_ st).
  { simpl in Hedge.
    destruct (StringMap.find label (edge_label_to_index_ st)) as [known|].
    - destruct (negb (Nat.eqb known e_label_id)).
      + now apply returns_RETURN_GS_ERROR in Hedge.
      + apply returns_retM in Hedge as [_ ->]. auto.
    - apply returns_putM in Hedge. subst st7. auto. }
  apply returns_bindM_Ok in H as (oids1 & st8 & Hin1 & H).
  apply returns_liftM in Hin1. injection Hin1 as Hin1 ->. symmetry in Hin1.
  apply returns_bindM_Ok in H as (oids2 & st9 & Hin2 & H).
  apply returns_liftM in Hin2. injection Hin2 as Hin2 ->. symmetry in Hin2.
  apply returns_retM in H as [E ->]. injection E as -> ->.
  destruct Hst7 as (Ha & Hb & Hc). repeat split; try assumption.
  exists src, dst, src_id, dst_id, oids1. repeat split; auto.
Qed.

Lemma tracked_ext (names : list string) (oids : list OidSet)
      (P Q : string -> Z -> Prop) :
  (forall name oid, P name oid <-> Q name oid) ->
  tracked names oids P -> tracked names oids Q.
Proof.
  intros HPQ [Hlen H]. split; [exact Hlen|].
  intros v name Hv. destruct (H v name Hv) as (set & Hs & Hnd & Hin).
  exists set. repeat split; try assumption; intros Ho.
  - apply HPQ, Hin, Ho.
  - apply Hin, HPQ, Ho.
Qed.

(** One [BatchInsert] adds the identifiers of a column to the set of one
    label and leaves the other sets alone. *)
Lemma tracked_insert (names : list string) (oids oids' : list OidSet)
      (P : string -> Z -> Prop) (label_id : label_id_t) (label_name : string)
      (e_table : Table) (c : nat) :
  NoDup names ->
  nth_error names label_id = Some label_name ->
  tracked names oids P ->
  insert_endpoints oids label_id e_table c = Ok oids' ->
  exists col,
    column e_table c = Some col /\
    tracked names oids'
      (fun name oid => P name oid \/ (name = label_name /\ In oid (column_oids col))).
Proof.
  intros Hnd Hl [Hlen H] Hins.
  apply insert_endpoints_spec in Hins
    as (set & col & set' & Hset & Hcol & -> & Hin' & Hnd').
  exists col. split; [exact Hcol|]. split.
  - now rewrite vector_set_length.
  - intros v name Hv.
    assert (Hlt : label_id < length oids).
    { apply nth_error_Some. congruence. }
    rewrite vector_set_lookup by exact Hlt.
    destruct (Nat.eqb_spec v label_id) as [->|Hne].
    + rewrite Hl in Hv. injection Hv as <-.
      destruct (H label_id label_name Hl) as (set0 & Hs0 & Hnd0 & Hin0).
      rewrite Hset in Hs0. injection Hs0 as <-.
      exists set'. repeat split; auto.
      * intros Ho. apply Hin' in Ho as [Ho|Ho]; [left; now apply Hin0|right; auto].
      * intros [Ho|[_ Ho]]; apply Hin'; [left; now apply Hin0|now right].
    + destruct (H v name Hv) as (set0 & Hs0 & Hnd0 & Hin0).
      exists set0. repeat split; auto.
      * intros Ho. left. now apply Hin0.
      * intros [Ho|[-> Ho]]; [now apply Hin0|].
        exfalso. apply Hne.
        apply (proj1 (NoDup_nth_error names) Hnd v label_id); [|congruence].
        apply nth_error_Some. congruence.
Qed.

(** One pass of the inner loop adds the endpoints of its table. *)
Lemma collected_step (names : list string) (vmap : StringMap.t label_id_t)
      (oids oids1 oids' : list OidSet) (sources : list (string * Table))
      (sub : string) (e_table : Table) (src dst : string) (src_id dst_id : label_id_t) :
  NoDup names ->
  (forall name v, StringMap.find name vmap = Some v -> nth_error names v = Some name) ->
  gathered_in names oids sources ->
  src_of sub = Some src ->
  dst_of sub = Some dst ->
  StringMap.find src vmap = Some src_id ->
  StringMap.find dst vmap = Some dst_id ->
  insert_endpoints oids src_id e_table src_column = Ok oids1 ->
  insert_endpoints oids1 dst_id e_table dst_column = Ok oids' ->
  gathered_in names oids' (sources ++ [(sub, e_table)]).
Proof.
  intros Hnd Hnum Hc Hsrc Hdst Hfs Hfd H1 H2.
  destruct (tracked_insert _ _ _ _ _ _ _ _ Hnd (Hnum _ _ Hfs) Hc H1) as (col0 & Hc0 & Ht1).
  destruct (tracked_insert _ _ _ _ _ _ _ _ Hnd (Hnum _ _ Hfd) Ht1 H2) as (col1 & Hc1 & Ht2).
  eapply tracked_ext; [|exact Ht2].
  intros name oid. unfold endpoint_of. simpl. split.
  - intros [[(source & Hin & He)|[-> Ho]]|[-> Ho]].
    + exists source. split; [apply in_or_app; now left|exact He].
    + exists (sub, e_table). split; [apply in_or_app; right; now left|].
      left. simpl. eauto.
    + exists (sub, e_table). split; [apply in_or_app; right; now left|].
      right. simpl. eauto.
  - intros (source & Hin & He). apply in_app_or in Hin as [Hin|[<-|[]]].
    + left; left. eauto.
    + simpl in He. destruct He as [[Hs (col & Hcol & Ho)]|[Hd (col & Hcol & Ho)]].
      * left; right. rewrite Hsrc in Hs. injection Hs as <-.
        rewrite Hc0 in Hcol. injection Hcol as <-. auto.
      * right. rewrite Hdst in Hd. injection Hd as <-.
        rewrite Hc1 in Hcol. injection Hcol as <-. auto.
Qed.

Lemma returns_load_ev_sub_files (names : list string) (index total_parts : nat)
      (e_label_id : label_id_t) (sub_label_num : nat) (subs : list string) :
  forall oids sources st tables oids' st',
    NoDup names ->
    (forall name v, StringMap.find name (vertex_label_to_index_ st) = Some v ->
                    nth_error names v = Some name) ->
    gathered_in names oids sources ->
    returns (ev_sub_files index total_parts e_label_id sub_label_num subs oids st)
            (Ok (tables, oids'), st') ->
    vertex_label_to_index_ st' = vertex_label_to_index_ st /\
    vertex_label_num_ st' = vertex_label_num_ st /\
    edge_label_num_ st' = edge_label_num_ st /\
    length tables = length subs /\
    gathered_in names oids' (sources ++ combine subs tables).
Proof.
  induction subs as [|sub subs IH]; intros oids sources st tables oids' st' Hnd Hnum Hc H;
    simpl in H.
  - apply returns_retM in H as [E ->]. injection E as -> ->.
    simpl. rewrite app_nil_r. auto.
  - apply returns_bindM_Ok in H as ([e_table oids1] & st1 & Hbody & H).
    apply returns_load_ev_table in Hbody
      as (Hv1 & Hn1 & He1 & src & dst & src_id & dst_id & oids0 & Hsrc & Hdst & Hfs & Hfd & Hi1 & Hi2).
    apply returns_bindM_Ok in H as ([tables' oids2] & st2 & Hrest & H).
    apply returns_retM in H as [E ->]. injection E as -> ->. simpl in *.
    pose proof (collected_step names _ _ _ _ _ _ _ _ _ _ _ Hnd Hnum Hc Hsrc Hdst Hfs Hfd Hi1 Hi2)
      as Hc1.
    destruct (IH oids1 (sources ++ [(sub, e_table)]) st1 tables' oids2 st2 Hnd)
      as (Hv2 & Hn2 & He2 & Hlen & Hc2); try assumption.
    { intros name v. rewrite Hv1. apply Hnum. }
    rewrite <- app_assoc in Hc2. simpl in Hc2.
    split; [congruence|]. split; [congruence|]. split; [congruence|].
    split; [congruence|exact Hc2].
Qed.

Lemma returns_load_ev_labels (names : list string) (index total_parts : nat)
      (efiles : list string) (e_label_ids : list label_id_t) :
  forall oids sources st etables oids' st',
    NoDup names ->
    (forall name v, StringMap.find name (vertex_label_to_index_ st) = Some v ->
                    nth_error names v = Some name) ->
    gathered_in names oids sources ->
    returns (ev_labels index total_parts efiles e_label_ids oids st)
            (Ok (etables, oids'), st') ->
    vertex_label_to_index_ st' = vertex_label_to_index_ st /\
    vertex_label_num_ st' = vertex_label_num_ st /\
    length etables = length e_label_ids /\
    gathered_in names oids' (sources ++ visited_sources efiles e_label_ids etables).
Proof.
  induction e_label_ids as [|e ids IH];
    intros oids sources st etables oids' st' Hnd Hnum Hc H; simpl in H.
  - apply returns_retM in H as [E ->]. injection E as -> ->.
    unfold visited_sources. simpl. rewrite app_nil_r. auto.
  - destruct (nth_error efiles e) as [efile|] eqn:Ee.
    2:{ apply returns_liftM in H. discriminate. }
    apply returns_bindM_Ok in H as ([tables oids1] & st1 & Hsubs & H).
    apply returns_bindM_Ok in H as ([etables' oids2] & st2 & Hrest & H).
    apply returns_retM in H as [E ->]. injection E as -> ->. simpl in *.
    destruct (returns_load_ev_sub_files names _ _ _ _ _ _ _ _ _ _ _ Hnd Hnum Hc Hsubs)
      as (Hv1 & Hn1 & He1 & Hlen1 & Hc1).
    destruct (IH oids1 (sources ++ combine (split_semicolon efile) tables) st1
                 etables' oids2 st2 Hnd) as (Hv2 & Hn2 & Hlen2 & Hc2);
      try assumption.
    { intros name v. rewrite Hv1. apply Hnum. }
    split; [congruence|]. split; [congruence|]. split; [congruence|].
    unfold visited_sources in *. simpl. rewrite Ee.
    rewrite <- app_assoc in Hc2. exact Hc2.
Qed.

Lemma in_combine_nth_error {A B : Type} (xs : list A) (ys : list B) (x : A) (y : B) :
  In (x, y) (combine xs ys) <->
  exists j, nth_error xs j = Some x /\ nth_error ys j = Some y.
Proof.
  revert ys; induction xs as [|a xs IH]; intros [|b ys]; simpl.
  - split; [contradiction|]. intros ([|j] & H & _); discriminate.
  - split; [contradiction|]. intros ([|j] & H & _); discriminate.
  - split; [contradiction|]. intros ([|j] & _ & H); discriminate.
  - rewrite IH. split.
    + intros [E|(j & Hx & Hy)].
      * injection E as -> ->. exists 0. auto.
      * exists (S j). auto.
    + intros ([|j] & Hx & Hy); simpl in *.
      * left. congruence.
      * right. eauto.
Qed.

Lemma in_combine_seq {B : Type} (ys : list B) (e : nat) (y : B) (first : nat) :
  In (e, y) (combine (seq first (length ys)) ys) <->
  first <= e /\ nth_error ys (e - first) = Some y.
Proof.
  rewrite in_combine_nth_error. split.
  - intros (j & Hj & Hy).
    assert (Hlt : j < length ys) by (apply nth_error_Some; congruence).
    rewrite nth_error_nth' with (d := 0) in Hj by (rewrite length_seq; exact Hlt).
    rewrite seq_nth in Hj by exact Hlt. injection Hj as <-.
    split; [lia|]. now replace (first + j - first) with j by lia.
  - intros [Hle Hy]. exists (e - first).
    assert (Hlt : e - first < length ys) by (apply nth_error_Some; congruence).
    split; [|exact Hy].
    rewrite nth_error_nth' with (d := 0) by (rewrite length_seq; exact Hlt).
    rewrite seq_nth by exact Hlt. f_equal. lia.
Qed.

(** The sources visited are the sub-sources of the files with their
    tables. *)
Lemma visited_sources_loaded_from (efiles : list string) (etables : list (list Table))
      (source : string * Table) :
  length etables = length efiles ->
  In source (visited_sources efiles (seq 0 (length efiles)) etables) <->
  loaded_from efiles etables source.
Proof.
  intros Hlen. unfold visited_sources, loaded_from. rewrite in_flat_map.
  rewrite <- Hlen. destruct source as [sub e_table]. simpl. split.
  - intros ([e tables] & Hin & Hs). apply in_combine_seq in Hin as [_ Hin].
    rewrite Nat.sub_0_r in Hin.
    destruct (nth_error efiles e) as [efile|] eqn:Ee; [|contradiction].
    apply in_combine_nth_error in Hs as (j & Hj & Ht).
    exists e, j, efile, tables. auto.
  - intros (e & j & efile & tables & He & Hj & Ht & Hjt).
    exists (e, tables). split.
    + apply in_combine_seq. split; [lia|]. now rewrite Nat.sub_0_r.
    + rewrite He. apply in_combine_nth_error. eauto.
Qed.

Lemma make_vertex_tables_spec (names : list string) (oids : list OidSet) :
  forall first v_tables,
    make_vertex_tables ID_COLUMN first names oids = Ok v_tables ->
    length v_tables = length names /\
    forall v name, nth_error names v = Some name ->
      exists set v_table,
        nth_error oids (first + v) = Some set /\
        nth_error v_tables v = Some v_table /\
        is_vertex_table ID_COLUMN (first + v) name set v_table.
Proof.
  induction names as [|name0 names IH]; intros first v_tables H; simpl in H.
  - injection H as <-. split; [reflexivity|]. intros [|v] name Hv; discriminate.
  - destruct (nth_error oids first) as [set|] eqn:Es; [|discriminate].
    simpl in H.
    destruct (make_vertex_tables ID_COLUMN (S first) names oids) as [rest| |] eqn:Er;
      simpl in H; try discriminate.
    injection H as <-. destruct (IH _ _ Er) as [Hlen Hrest].
    split; [simpl; now rewrite Hlen|].
    intros [|v] name Hv; simpl in Hv.
    + injection Hv as <-. rewrite Nat.add_0_r.
      eexists; eexists. split; [exact Es|]. split; [reflexivity|].
      repeat split.
    + destruct (Hrest v name Hv) as (set' & vt & Hs & Hvt & Hi).
      replace (first + S v) with (S first + v) by lia.
      exists set', vt. auto.
Qed.

Lemma collected_nothing (names : list string) :
  gathered_in names (repeat ([] : OidSet) (length names)) [].
Proof.
  split; [apply repeat_length|].
  intros v name Hv. exists []. split; [|split].
  - assert (Hlt : v < length names) by (apply nth_error_Some; congruence).
    clear Hv. revert v Hlt. induction (length names) as [|n IH]; intros v Hlt; [lia|].
    destruct v; simpl; [reflexivity|]. apply IH. lia.
  - constructor.
  - intros oid. split; [contradiction|]. intros (source & [] & _).
Qed.

(** The table one pass of the inner loop returns is the table read from
    the sub-source, as [SyncSchema] returned it, with its metadata. *)
Lemma returns_load_ev_table_read (names : list string) (index total_parts : nat)
      (e_label_id : label_id_t) (sub_label_num : nat) (oids oids' : list OidSet)
      (sub_efile : string) (st st' : LoaderState) (e_table : Table) :
  (forall name v, StringMap.find name (vertex_label_to_index_ st) = Some v ->
                  nth_error names v = Some name) ->
  returns (ev_table index total_parts e_label_id sub_label_num oids sub_efile st)
          (Ok (e_table, oids'), st') ->
  synchronized index total_parts names sub_label_num sub_efile e_table.
Proof.
  intros Hnum H. unfold load_ev_table in H.
  apply returns_bindM_Ok in H as (table & st1 & Hread & H).
  apply returns_sync_Ok in Hread. apply returns_liftM in Hread.
  injection Hread as Hread ->. symmetry in Hread.
  apply returns_bindM_Ok in H as (normalized & st2 & Hsync & H).
  apply returns_sync_Ok in Hsync.
  apply returns_SyncSchema_procedure in Hsync as [-> [schemas Hsync]].
  unfold synchronized_from, src_label_of, dst_label_of.
  destruct (meta_find LABEL_TAG (GetMeta (adaptor_path sub_efile))) as [label|];
    [|now apply returns_RETURN_GS_ERROR in H].
  destruct (meta_find SRC_LABEL_TAG (GetMeta (adaptor_path sub_efile))) as [src|];
    [|now apply returns_RETURN_GS_ERROR in H].
  apply returns_bindM_Ok in H as (src_id & st3 & Hsrc & H).
  apply returns_vertex_label_at in Hsrc as [-> Hsrc].
  destruct (meta_find DST_LABEL_TAG (GetMeta (adaptor_path sub_efile))) as [dst|];
    [|now apply returns_RETURN_GS_ERROR in H].
  apply returns_bindM_Ok in H as (dst_id & st4 & Hdst & H).
  apply returns_vertex_label_at in Hdst as [-> Hdst].
  apply returns_bindM_Ok in H as (s & st5 & Hget & H).
  apply returns_getM in Hget as [-> ->].
  apply returns_bindM_Ok in H as (u & st6 & Hput & H).
  apply returns_bindM_Ok in H as (u' & st7 & Hedge & H).
  apply returns_bindM_Ok in H as (oids1 & st8 & Hin1 & H).
  apply returns_bindM_Ok in H as (oids2 & st9 & Hin2 & H).
  apply returns_retM in H as [E _]. injection E as -> _.
  exists table, schemas, normalized, label, src, dst, src_id, dst_id.
  repeat split; auto.
Qed.

Lemma returns_load_ev_sub_files_read (names : list string) (index total_parts : nat)
      (e_label_id : label_id_t) (sub_label_num : nat) (subs : list string) :
  forall oids st tables oids' st',
    (forall name v, StringMap.find name (vertex_label_to_index_ st) = Some v ->
                    nth_error names v = Some name) ->
    returns (ev_sub_files index total_parts e_label_id sub_label_num subs oids st)
            (Ok (tables, oids'), st') ->
    Forall2 (synchronized index total_parts names sub_label_num) subs tables.
Proof.
  induction subs as [|sub subs IH]; intros oids st tables oids' st' Hnum H; simpl in H.
  - apply returns_retM in H as [E _]. injection E as -> _. constructor.
  - apply returns_bindM_Ok in H as ([e_table oids1] & st1 & Hbody & H).
    apply returns_bindM_Ok in H as ([tables' oids2] & st2 & Hrest & H).
    apply returns_retM in H as [E _]. injection E as -> _. simpl.
    constructor.
    + eapply returns_load_ev_table_read; eassumption.
    + apply returns_load_ev_table in Hbody as (Hv1 & _).
      eapply IH; [|exact Hrest].
      intros name v. rewrite Hv1. apply Hnum.
Qed.

Lemma returns_load_ev_labels_read (names : list string) (index total_parts : nat)
      (efiles : list string) (e_label_ids : list label_id_t) :
  forall oids sources st etables oids' st',
    NoDup names ->
    (forall name v, StringMap.find name (vertex_label_to_index_ st) = Some v ->
                    nth_error names v = Some name) ->
    gathered_in names oids sources ->
    returns (ev_labels index total_parts efiles e_label_ids oids st)
            (Ok (etables, oids'), st') ->
    Forall2 (fun e_label_id sub_tables =>
               exists efile,
                 nth_error efiles e_label_id = Some efile /\
                 Forall2 (synchronized index total_parts names
                            (length (split_semicolon efile)))
                         (split_semicolon efile) sub_tables)
            e_label_ids etables.
Proof.
  induction e_label_ids as [|e ids IH];
    intros oids sources st etables oids' st' Hnd Hnum Hc H; simpl in H.
  - apply returns_retM in H as [E _]. injection E as -> _. constructor.
  - destruct (nth_error efiles e) as [efile|] eqn:Ee.
    2:{ apply returns_liftM in H. discriminate. }
    apply returns_bindM_Ok in H as ([tables oids1] & st1 & Hsubs & H).
    apply returns_bindM_Ok in H as ([etables' oids2] & st2 & Hrest & H).
    apply returns_retM in H as [E _]. injection E as -> _. simpl in *.
    constructor.
    + exists efile. split; [exact Ee|].
      eapply returns_load_ev_sub_files_read; eassumption.
    + destruct (returns_load_ev_sub_files names _ _ _ _ _ _ _ _ _ _ _ Hnd Hnum Hc Hsubs)
        as (Hv1 & _ & _ & _ & Hc1).
      eapply IH; [exact Hnd| |exact Hc1|exact Hrest].
      intros name v. rewrite Hv1. apply Hnum.
Qed.

Lemma Forall2_at {A B : Type} (R : A -> B -> Prop) (xs : list A) (ys : list B) :
  Forall2 R xs ys ->
  forall i x, nth_error xs i = Some x -> exists y, nth_error ys i = Some y /\ R x y.
Proof.
  induction 1 as [|x0 y0 xs ys H0 _ IH]; intros [|i] x Hx; simpl in *; try discriminate.
  - injection Hx as <-. eauto.
  - eauto.
Qed.

(** C5.  Whenever [loadEVTablesFromEFiles], started by the constructor
    without vertex files, returns tables, the vertex labels are the names
    the sub-sources declare as source or destination label, numbered in
    lexicographic order; the numbering depends on the edge files alone, so
    it is the same on every worker.  Every sub-source of every edge file
    was read, and its table, as [SyncSchema] returned it, is kept in the
    place of the sub-source.  The vertex table of a label has one int64
    column named after the label, which holds each identifier found under
    that label in the source or destination column of one of these tables
    exactly once, and nothing else. *)
Theorem loadEVTablesFromEFiles_induced_vertex_tables
        (efiles : list string) (index total_parts : nat)
        (v_tables : list Table) (etables : list (list Table)) (st' : LoaderState) :
  returns (loadEV efiles index total_parts (new_loader 0 (length efiles)))
          (Ok (v_tables, etables), st') ->
  exists label_name_set,
    scan efiles StringSet.empty = Ok label_name_set /\
    let names := StringSet.elements label_name_set in
    (forall name,
       In name names <->
       exists efile sub,
         In efile efiles /\ In sub (split_semicolon efile) /\ declares name sub) /\
    Sorted (fun a b => String.compare a b = Lt) names /\
    (forall name v,
       StringMap.find name (vertex_label_to_index_ st') = Some v <->
       nth_error names v = Some name) /\
    vertex_label_num_ st' = length names /\
    length v_tables = length names /\
    length etables = length efiles /\
    (forall e efile,
       nth_error efiles e = Some efile ->
       exists sub_tables,
         nth_error etables e = Some sub_tables /\
         length sub_tables = length (split_semicolon efile) /\
         forall j sub_efile,
           nth_error (split_semicolon efile) j = Some sub_efile ->
           exists e_table,
             nth_error sub_tables j = Some e_table /\
             synchronized index total_parts names (length (split_semicolon efile))
               sub_efile e_table) /\
    forall v name, nth_error names v = Some name ->
      exists oids v_table,
        nth_error v_tables v = Some v_table /\
        is_vertex_table ID_COLUMN v name oids v_table /\
        NoDup oids /\
        forall oid,
          In oid oids <->
          exists source, loaded_from efiles etables source /\ endpoint name oid source.
Proof.
  unfold loadEVTablesFromEFiles. intros H.
  apply returns_bindM_Ok in H as (label_name_set & st1 & Hscan & H).
  apply returns_liftM in Hscan. injection Hscan as Hscan ->. symmetry in Hscan.
  apply returns_bindM_Ok in H as (s & st2 & Hget & H).
  apply returns_getM in Hget as [-> ->].
  apply returns_bindM_Ok in H as (u & st3 & Hput & H).
  apply returns_putM in Hput. subst st3.
  apply returns_bindM_Ok in H as (s & st4 & Hget & H).
  apply returns_getM in Hget as [-> ->].
  apply returns_bindM_Ok in H as ([etables0 oids'] & st5 & Hlabels & H).
  apply returns_bindM_Ok in H as (v_tables0 & st6 & Hmake & H).
  apply returns_liftM in Hmake. injection Hmake as Hmake ->. symmetry in Hmake.
  apply returns_retM in H as [E ->]. injection E as -> ->.
  simpl in Hlabels, Hmake.
  set (names := StringSet.elements label_name_set) in *.
  assert (Hnd : NoDup names).
  { apply NoDupA_eq_NoDup. apply StringSet.elements_spec2w. }
  assert (Hcard : StringSet.cardinal label_name_set = length names).
  { apply StringSet.cardinal_spec. }
  rewrite Hcard in Hlabels.
  pose proof Hlabels as Hread.
  eapply (returns_load_ev_labels_read names) with (sources := []) in Hread;
    [ | exact Hnd
      | intros name v; simpl; apply number_labels_position; exact Hnd
      | apply collected_nothing ].
  eapply (returns_load_ev_labels names) with (sources := []) in Hlabels
    as (Hv & Hn & Hlen & Hc);
    [ | exact Hnd
      | intros name v; simpl; apply number_labels_position; exact Hnd
      | apply collected_nothing ].
  simpl in Hv, Hn, Hc, Hread. rewrite length_seq in Hlen.
  destruct (make_vertex_tables_spec names oids' 0 v_tables0 Hmake) as [Hvlen Hvt].
  exists label_name_set. split; [exact Hscan|]. cbv zeta. fold names.
  split; [|split; [|split; [|split; [|split; [|split; [|split]]]]]].
  - intros name. unfold names. rewrite StringSet_elements_In.
    rewrite (scan_efiles_spec efiles _ _ Hscan name). split.
    + intros [Hin|Hex]; [|exact Hex].
      apply StringSet.empty_spec in Hin. contradiction.
    + auto.
  - apply StringSet.elements_spec2.
  - intros name v. rewrite Hv. split.
    + apply number_labels_position. exact Hnd.
    + intros Hp. now rewrite (number_labels_find names 0 _ v name Hnd Hp).
  - rewrite Hn. exact Hcard.
  - exact Hvlen.
  - exact Hlen.
  - intros e efile He.
    assert (Hlt : e < length efiles) by (apply nth_error_Some; congruence).
    destruct (Forall2_at _ _ _ Hread e e (seq_lookup _ _ Hlt))
      as (sub_tables & Hsub & efile' & He' & Hall).
    rewrite He in He'. injection He' as <-.
    exists sub_tables. split; [exact Hsub|]. split.
    + symmetry. eapply Forall2_length. exact Hall.
    + intros j sub_efile Hj. exact (Forall2_at _ _ _ Hall j sub_efile Hj).
  - intros v name Hp.
    destruct (Hvt v name Hp) as (set & v_table & Hs & Hvt' & Hi).
    destruct Hc as [_ Hc]. destruct (Hc v name Hp) as (set' & Hs' & Hnd' & Hin).
    simpl in Hs. rewrite Hs in Hs'. injection Hs' as <-.
    exists set, v_table. split; [exact Hvt'|]. split; [exact Hi|]. split; [exact Hnd'|].
    intros oid. rewrite Hin. split.
    + intros (source & Hsrc & He). exists source. split; [|exact He].
      now apply visited_sources_loaded_from.
    + intros (source & Hsrc & He). exists source. split; [|exact He].
      now apply visited_sources_loaded_from.
Qed.

End InferredVertexTables.

(** A worker alone in its group returns what the run of the group says. *)
Lemma run_alone_returns {R : Type} (p : Prog R) (r : R) :
  run_workers [p] = Some [r] -> returns p r.
Proof.
  unfold run_workers.
  induction p as [a|l k IH|l k IH|l k IH|b k IH]; simpl; intros H.
  - injection H as <-. constructor.
  - econstructor. apply IH. exact H.
  - econstructor. apply IH. exact H.
  - econstructor. apply IH. exact H.
  - econstructor. apply IH. exact H.
Qed.

Lemma loadEVTablesFromEFiles_induced_vertex_tables_witness :
  let load :=
    loadEVTablesFromEFiles "id_column" "src_column" "dst_column"
      "src_label_id" "dst_label_id" descriptor_meta same_edges_everywhere "map::at" in
  let synchronized :=
    synchronized_from "src_column" "dst_column" "src_label_id" "dst_label_id"
      descriptor_meta same_edges_everywhere in
  let efiles := knows_people_and_cities in
  exists v_tables etables st',
    returns (load efiles 0 1 (new_loader 0 (length efiles)))
            (Ok (v_tables, etables), st') /\
    map (fun t => map column_oids (columns t)) v_tables
    = [[[20; 30]]; [[10; 20; 30]]]%Z /\
    exists label_name_set,
      scan_efiles descriptor_meta efiles StringSet.empty = Ok label_name_set /\
      let names := StringSet.elements label_name_set in
      (forall name,
         In name names <->
         exists efile sub,
           In efile efiles /\ In sub (split_semicolon efile) /\
           declares_vertex_label descriptor_meta name sub) /\
      Sorted (fun a b => String.compare a b = Lt) names /\
      (forall name v,
         StringMap.find name (vertex_label_to_index_ st') = Some v <->
         nth_error names v = Some name) /\
      vertex_label_num_ st' = length names /\
      length v_tables = length names /\
      length etables = length efiles /\
      (forall e efile,
         nth_error efiles e = Some efile ->
         exists sub_tables,
           nth_error etables e = Some sub_tables /\
           length sub_tables = length (split_semicolon efile) /\
           forall j sub_efile,
             nth_error (split_semicolon efile) j = Some sub_efile ->
             exists e_table,
               nth_error sub_tables j = Some e_table /\
               synchronized 0 1 names (length (split_semicolon efile))
                 sub_efile e_table) /\
      forall v name, nth_error names v = Some name ->
        exists oids v_table,
          nth_error v_tables v = Some v_table /\
          is_vertex_table "id_column" v name oids v_table /\
          NoDup oids /\
          forall oid,
            In oid oids <->
            exists source,
              loaded_from efiles etables source /\
              endpoint_of descriptor_meta name oid source.
Proof.
  intros load synchronized efiles.
  destruct (run_workers [load efiles 0 1 (new_loader 0 (length efiles))])
    as [[|[[[v_tables etables]|e|] st'] [|? ?]]|] eqn:E;
    try (vm_compute in E; discriminate E).
  assert (Hoids : map (fun t => map column_oids (columns t)) v_tables
                  = [[[20; 30]]; [[10; 20; 30]]]%Z).
  { vm_compute in E. injection E as <- _ _. reflexivity. }
  apply run_alone_returns in E.
  exists v_tables, etables, st'. split; [exact E|]. split; [exact Hoids|].
  exact (loadEVTablesFromEFiles_induced_vertex_tables
           "id_column" "src_column" "dst_column" "src_label_id" "dst_label_id"
           descriptor_meta same_edges_everywhere "map::at"
           efiles 0 1 v_tables etables st' E).
Defined.

(** On these files the labels are numbered city 0, person 1, and the two
    vertex tables hold the identifiers 20, 30 and 10, 20, 30. *)
Example loadEVTablesFromEFiles_people_and_cities :
  option_map
    (map (fun r : result (list Table * list (list Table)) * LoaderState =>
            (match fst r with
             | Ok (v_tables, _) => map (fun t => map column_oids (columns t)) v_tables
             | _ => []
             end,
             StringMap.elements (vertex_label_to_index_ (snd r)))))
    (run_workers
       [loadEVTablesFromEFiles "id_column" "src_column" "dst_column"
          "src_label_id" "dst_label_id" descriptor_meta same_edges_everywhere "map::at"
          knows_people_and_cities 0 1 (new_loader 0 1)])
  = Some [([[[20; 30]]; [[10; 20; 30]]]%Z, [("city", 0); ("person", 1)])].
Proof. vm_compute. reflexivity. Qed.

(** ** Workers in lockstep *)

Lemma aligned_impl {A B : Type} (Rel Rel' : A -> B -> Prop) (p : Prog A) (q : Prog B) :
  (forall a b, Rel a b -> Rel' a b) -> aligned Rel p q -> aligned Rel' p q.
Proof.
  intros Himp H. induction H; constructor; auto.
Qed.

Lemma aligned_bindP {A B A' B' : Type} (Rel : A -> B -> Prop) (Rel' : A' -> B' -> Prop)
      (p : Prog A) (q : Prog B) (f : A -> Prog A') (g : B -> Prog B') :
  aligned Rel p q ->
  (forall a b, Rel a b -> aligned Rel' (f a) (g b)) ->
  aligned Rel' (bindP p f) (bindP q g).
Proof.
  intros H Hf. induction H; simpl; try (constructor; auto).
  now apply Hf.
Qed.

(** The peers of a root that waits in an all-gather of errors wait there
    too. *)
Lemma aligned_at_all_gather_error {R : Type} (Rel : R -> R -> Prop) l k
      (peers : list (Prog R)) :
  Forall (aligned Rel (AllGatherError l k)) peers ->
  exists ls ks,
    at_all_gather_error peers = Some (ls, ks) /\
    forall x, In l x -> incl ls x ->
              Forall (aligned Rel (k x)) (map (fun k' => k' x) ks).
Proof.
  induction 1 as [|p peers Hp _ (ls & ks & Hat & Hk)].
  - exists [], []. split; [reflexivity|]. intros; constructor.
  - inversion Hp as [| |l0 l' k0 k' Hk'| |]; subst.
    exists (l' :: ls), (k' :: ks). simpl. rewrite Hat. split; [reflexivity|].
    intros x Hl Hincl. constructor.
    + apply Hk'; [exact Hl|]. apply Hincl. now left.
    + apply Hk; [exact Hl|]. intros y Hy. apply Hincl. now right.
Qed.

Lemma aligned_at_all_gather_schema {R : Type} (Rel : R -> R -> Prop) l k
      (peers : list (Prog R)) :
  Forall (aligned Rel (AllGatherSchema l k)) peers ->
  exists ls ks,
    at_all_gather_schema peers = Some (ls, ks) /\
    forall x, In l x -> incl ls x ->
              Forall (aligned Rel (k x)) (map (fun k' => k' x) ks).
Proof.
  induction 1 as [|p peers Hp _ (ls & ks & Hat & Hk)].
  - exists [], []. split; [reflexivity|]. intros; constructor.
  - inversion Hp as [|l0 l' k0 k' Hk'| | |]; subst.
    exists (l' :: ls), (k' :: ks). simpl. rewrite Hat. split; [reflexivity|].
    intros x Hl Hincl. constructor.
    + apply Hk'; [exact Hl|]. apply Hincl. now left.
    + apply Hk; [exact Hl|]. intros y Hy. apply Hincl. now right.
Qed.

Lemma aligned_at_gather {R : Type} (Rel : R -> R -> Prop) l k (peers : list (Prog R)) :
  Forall (aligned Rel (Gather l k)) peers ->
  exists ls ks,
    at_gather peers = Some (ls, ks) /\
    forall x y, Forall (aligned Rel (k x)) (map (fun k' => k' y) ks).
Proof.
  induction 1 as [|p peers Hp _ (ls & ks & Hat & Hk)].
  - exists [], []. split; [reflexivity|]. intros; constructor.
  - inversion Hp as [| | |l0 l' k0 k' Hk'|]; subst.
    exists (l' :: ls), (k' :: ks). simpl. rewrite Hat. split; [reflexivity|].
    intros x y. constructor; auto.
Qed.

Lemma aligned_at_bcast {R : Type} (Rel : R -> R -> Prop) b k (peers : list (Prog R)) :
  Forall (aligned Rel (Bcast b k)) peers ->
  exists ks,
    at_bcast peers = Some ks /\
    forall x, Forall (aligned Rel (k x)) (map (fun k' => k' x) ks).
Proof.
  induction 1 as [|p peers Hp _ (ks & Hat & Hk)].
  - exists []. split; [reflexivity|]. intros; constructor.
  - inversion Hp as [| | | |b0 b' k0 k' Hk']; subst.
    exists (k' :: ks). simpl. rewrite Hat. split; [reflexivity|].
    intros x. constructor; auto.
Qed.

Lemma aligned_all_returned {R : Type} (Rel : R -> R -> Prop) (r : R)
      (peers : list (Prog R)) :
  Forall (aligned Rel (Ret r)) peers ->
  exists rs, all_returned peers = Some rs /\ Forall (Rel r) rs.
Proof.
  induction 1 as [|p peers Hp _ (rs & Hrs & HF)].
  - exists []. split; [reflexivity|constructor].
  - inversion Hp; subst. exists (b :: rs). simpl. rewrite Hrs. split; [reflexivity|].
    constructor; assumption.
Qed.

(** A group whose workers are all aligned with the root runs to the end:
    nobody is left waiting, and what the peers return is related to what
    the root returns. *)
Lemma aligned_group_runs {R : Type} (Rel : R -> R -> Prop) (root : Prog R) :
  forall peers,
    Forall (aligned Rel root) peers ->
    exists r rs,
      run_group root peers = Some (r :: rs) /\ returns root r /\ Forall (Rel r) rs.
Proof.
  induction root as [a|l k IH|l k IH|l k IH|b k IH]; intros peers HF; simpl.
  - destruct (aligned_all_returned Rel a peers HF) as (rs & Hrs & HR).
    exists a, rs. rewrite Hrs. repeat split; [constructor|exact HR].
  - destruct (aligned_at_all_gather_schema Rel l k peers HF) as (ls & ks & Hat & Hk).
    rewrite Hat.
    destruct (IH (l :: ls) (map (fun k' => k' (l :: ls)) ks)) as (r & rs & Hrun & Hret & HR).
    { apply Hk; [now left|]. intros y Hy. now right. }
    exists r, rs. split; [exact Hrun|]. split; [econstructor; exact Hret|exact HR].
  - destruct (aligned_at_all_gather_error Rel l k peers HF) as (ls & ks & Hat & Hk).
    rewrite Hat.
    destruct (IH (l :: ls) (map (fun k' => k' (l :: ls)) ks)) as (r & rs & Hrun & Hret & HR).
    { apply Hk; [now left|]. intros y Hy. now right. }
    exists r, rs. split; [exact Hrun|]. split; [econstructor; exact Hret|exact HR].
  - destruct (aligned_at_gather Rel l k peers HF) as (ls & ks & Hat & Hk).
    rewrite Hat.
    destruct (IH (Some (l :: ls)) (map (fun k' => k' None) ks)) as (r & rs & Hrun & Hret & HR).
    { apply Hk. }
    exists r, rs. split; [exact Hrun|]. split; [econstructor; exact Hret|exact HR].
  - destruct (aligned_at_bcast Rel b k peers HF) as (ks & Hat & Hk).
    rewrite Hat.
    destruct (IH b (map (fun k' => k' b) ks)) as (r & rs & Hrun & Hret & HR).
    { apply Hk. }
    exists r, rs. split; [exact Hrun|]. split; [econstructor; exact Hret|exact HR].
Qed.

Lemma same_outcome_compatible {A B : Type} (RV : A -> B -> Prop) x y :
  same_outcome RV x y -> compatible RV x y.
Proof.
  unfold same_outcome, compatible. intros [Hs H]. split; [exact Hs|].
  destruct (fst x), (fst y); auto.
Qed.

Lemma aligned_bindM {A B A' B' : Type} (RV : A -> B -> Prop) (RV' : A' -> B' -> Prop)
      (m : M A) (m' : M B) (f : A -> M A') (g : B -> M B') (st : LoaderState) :
  aligned (same_outcome RV) (m st) (m' st) ->
  (forall a b st1, RV a b -> aligned (same_outcome RV') (f a st1) (g b st1)) ->
  aligned (same_outcome RV') (bindM m f st) (bindM m' g st).
Proof.
  intros Hm Hf. unfold bindM. eapply aligned_bindP; [exact Hm|].
  intros [r st1] [r' st2] [Hs Hr]. simpl in Hs, Hr. subst st2.
  destruct r, r'; try contradiction; try (constructor; split; simpl; auto).
  now apply Hf.
Qed.

Lemma first_error_In (errors : list (option GSError)) (e : GSError) :
  In (Some e) errors -> exists e0, first_error errors = Some e0.
Proof.
  induction errors as [|[e1|] rest IH]; simpl; intros H.
  - contradiction.
  - eauto.
  - destruct H as [H|H]; [discriminate|auto].
Qed.

(** After [sync_gs_error] two workers whose procedures were compatible
    have the same outcome: an error anywhere is an error everywhere. *)
Lemma aligned_sync_gs_error {A B : Type} (RV : A -> B -> Prop)
      (m : M A) (m' : M B) (st : LoaderState) :
  aligned (compatible RV) (m st) (m' st) ->
  aligned (same_outcome RV) (sync_gs_error m st) (sync_gs_error m' st).
Proof.
  intros Hm. unfold sync_gs_error. eapply aligned_bindP; [exact Hm|].
  intros [r st1] [r' st2] [Hs Hr]. simpl in Hs, Hr. subst st2.
  constructor. intros errors Hl Hl'. constructor. split; [reflexivity|]. simpl.
  destruct r as [a|e|], r' as [b|e'|]; simpl in *; try contradiction; auto.
  - destruct (first_error errors); auto.
  - destruct (first_error_In errors e' Hl') as [e0 ->]. exact I.
  - destruct (first_error_In errors e Hl) as [e0 ->]. exact I.
Qed.

Lemma mapM_defined {A B : Type} (f : A -> result B) (xs : list A) :
  (forall x, In x xs -> f x <> Undefined) -> mapM f xs <> Undefined.
Proof.
  induction xs as [|x xs IH]; simpl; intros H; [discriminate|].
  destruct (f x) eqn:E; simpl; try discriminate.
  - destruct (mapM f xs) eqn:Em; simpl; try discriminate.
    exfalso. apply IH; [|reflexivity]. intros y Hy. apply H. now right.
  - exfalso. apply (H x); [now left|exact E].
Qed.

(** Casting a well-formed table succeeds or raises an error. *)
Lemma CastTableToSchema_defined (table : Table) (schema : Schema) :
  well_formed table -> CastTableToSchema table schema <> Undefined.
Proof.
  intros Hwf. unfold CastTableToSchema.
  destruct (Schema_Equals (Arrow.schema table) schema); [discriminate|].
  destruct (Nat.eqb_spec (num_columns table) (num_fields schema)) as [Hn|Hn]; simpl;
    [|discriminate].
  destruct (mapM (cast_column table schema) (seq 0 (num_columns table))) eqn:E;
    simpl; try discriminate.
  exfalso. revert E. apply mapM_defined. intros i Hi. apply in_seq in Hi.
  destruct (fields_lookup table schema i Hn) as (tf & sf & Htf & Hsf); [lia|].
  destruct (cast_column_spec table schema i tf sf Hwf Htf Hsf) as (col & _ & ->).
  destruct (unsupported_mismatch tf sf && negb (Nat.eqb (num_chunks col) 0));
    discriminate.
Qed.

Lemma SyncSchema_undefined (table : option Table) (schemas : list (option Schema)) :
  read_well_formed table ->
  SyncSchema table schemas = Undefined -> TypeLoosen schemas = Undefined.
Proof.
  unfold SyncSchema. intros Hwf.
  destruct (TypeLoosen schemas) as [T| |]; simpl; try discriminate; [|reflexivity].
  destruct table as [t|]; [|discriminate].
  intros H. now apply CastTableToSchema_defined in H.
Qed.

Lemma aligned_retM {A B : Type} (a : A) (b : B) (st : LoaderState) :
  aligned (same_outcome (@any_values A B)) (retM a st) (retM b st).
Proof. repeat constructor. Qed.

Lemma aligned_getM (st : LoaderState) :
  aligned (same_outcome (@eq LoaderState)) (getM st) (getM st).
Proof. repeat constructor. Qed.

Lemma aligned_putM (s st : LoaderState) :
  aligned (same_outcome (@eq unit)) (putM s st) (putM s st).
Proof. repeat constructor. Qed.

Lemma aligned_RETURN_GS_ERROR {A B : Type} (RV : A -> B -> Prop) code msg
      (st : LoaderState) :
  aligned (same_outcome RV) (RETURN_GS_ERROR code msg st) (RETURN_GS_ERROR code msg st).
Proof. repeat constructor. Qed.

Lemma aligned_vertex_label_at (what name : string) (st : LoaderState) :
  aligned (same_outcome (@eq label_id_t))
    (vertex_label_at what name st) (vertex_label_at what name st).
Proof.
  unfold vertex_label_at.
  destruct (StringMap.find name (vertex_label_to_index_ st)); repeat constructor.
Qed.

Section WorkersInLockstep.

Variables ID_COLUMN SRC_COLUMN DST_COLUMN SRC_LABEL_ID DST_LABEL_ID : string.
Variable GetMeta : string -> adaptor_meta_t.
Variable ReadTable : string -> nat -> nat -> result (option Table).
Variable out_of_range_what : string.

(** The adaptor reads a table, reads nothing or fails; a table it reads is
    well formed. *)
Hypothesis ReadTable_defined :
  forall path index total_parts, ReadTable path index total_parts <> Undefined.
Hypothesis ReadTable_well_formed :
  forall path index total_parts table,
    ReadTable path index total_parts = Ok (Some table) -> well_formed table.

Local Abbreviation src_of := (src_label_of GetMeta).
Local Abbreviation dst_of := (dst_label_of GetMeta).
Local Abbreviation read := (read_procedure ReadTable).
Local Abbreviation vertex_table := (load_vertex_table ID_COLUMN GetMeta ReadTable).
Local Abbreviation edge_table_of :=
  (load_edge_table SRC_COLUMN DST_COLUMN SRC_LABEL_ID DST_LABEL_ID GetMeta ReadTable
     out_of_range_what).
Local Abbreviation loadV := (loadVertexTables ID_COLUMN GetMeta ReadTable).
Local Abbreviation loadE :=
  (loadEdgeTables SRC_COLUMN DST_COLUMN SRC_LABEL_ID DST_LABEL_ID GetMeta ReadTable
     out_of_range_what).
Local Abbreviation loadEV :=
  (loadEVTablesFromEFiles ID_COLUMN SRC_COLUMN DST_COLUMN SRC_LABEL_ID DST_LABEL_ID
     GetMeta ReadTable out_of_range_what).
Local Abbreviation init :=
  (initBasicLoader ID_COLUMN SRC_COLUMN DST_COLUMN SRC_LABEL_ID DST_LABEL_ID
     GetMeta ReadTable out_of_range_what).

Lemma aligned_read (file : string) (index index' total_parts : nat) (st : LoaderState) :
  aligned (same_outcome both_well_formed)
    (sync_gs_error (read file index total_parts) st)
    (sync_gs_error (read file index' total_parts) st).
Proof.
  apply aligned_sync_gs_error. unfold read_procedure, liftM. constructor.
  split; [reflexivity|]. simpl.
  pose proof (ReadTable_defined (adaptor_path file) index total_parts) as H1.
  pose proof (ReadTable_defined (adaptor_path file) index' total_parts) as H2.
  pose proof (ReadTable_well_formed (adaptor_path file) index total_parts) as W1.
  pose proof (ReadTable_well_formed (adaptor_path file) index' total_parts) as W2.
  destruct (ReadTable (adaptor_path file) index total_parts) as [[t|]| |],
           (ReadTable (adaptor_path file) index' total_parts) as [[t'|]| |];
    try congruence; auto; split; simpl; auto.
Qed.

Lemma aligned_SyncSchema (table table' : option Table) (st : LoaderState) :
  both_well_formed table table' ->
  aligned (same_outcome (@any_values Table Table))
    (sync_gs_error (SyncSchema_procedure table) st)
    (sync_gs_error (SyncSchema_procedure table') st).
Proof.
  intros [Hw Hw']. apply aligned_sync_gs_error. unfold SyncSchema_procedure.
  constructor. intros schemas _ _. constructor. split; [reflexivity|]. simpl.
  pose proof (SyncSchema_undefined table schemas Hw) as H1.
  pose proof (SyncSchema_undefined table' schemas Hw') as H2.
  destruct (SyncSchema table schemas) eqn:E1, (SyncSchema table' schemas) eqn:E2;
    try exact I.
  - specialize (H2 eq_refl). unfold SyncSchema in E1. rewrite H2 in E1. discriminate.
  - specialize (H1 eq_refl). unfold SyncSchema in E2. rewrite H1 in E2. discriminate.
Qed.

(** The part of a loop body after the two synchronised steps runs no
    collective operation, and whether it fails depends on the descriptor
    and on the state alone. *)
Lemma aligned_load_vertex_table (index index' total_parts : nat)
      (label_id : label_id_t) (file : string) (st : LoaderState) :
  aligned (same_outcome (@any_values Table Table))
    (vertex_table index total_parts label_id file st)
    (vertex_table index' total_parts label_id file st).
Proof.
  unfold load_vertex_table.
  eapply aligned_bindM; [apply aligned_read|]. intros t t' st1 Hw.
  eapply aligned_bindM; [apply aligned_SyncSchema; exact Hw|]. intros n n' st2 _.
  destruct (meta_find LABEL_TAG (GetMeta (adaptor_path file))) as [label|].
  - repeat constructor.
  - repeat constructor.
Qed.

Lemma aligned_load_edge_table (index index' total_parts : nat)
      (label_id : label_id_t) (sub_label_num : nat) (sub : string) (st : LoaderState) :
  aligned (same_outcome (@any_values Table Table))
    (edge_table_of index total_parts label_id sub_label_num sub st)
    (edge_table_of index' total_parts label_id sub_label_num sub st).
Proof.
  unfold load_edge_table.
  eapply aligned_bindM; [apply aligned_read|]. intros t t' st1 Hw.
  eapply aligned_bindM; [apply aligned_SyncSchema; exact Hw|]. intros n n' st2 _.
  destruct (meta_find LABEL_TAG (GetMeta (adaptor_path sub))) as [label|];
    [|repeat constructor].
  destruct (meta_find SRC_LABEL_TAG (GetMeta (adaptor_path sub))) as [src|];
    [|repeat constructor].
  eapply aligned_bindM; [apply aligned_vertex_label_at|]. intros src_id ? st3 <-.
  destruct (meta_find DST_LABEL_TAG (GetMeta (adaptor_path sub))) as [dst|];
    [|repeat constructor].
  eapply aligned_bindM; [apply aligned_vertex_label_at|]. intros dst_id ? st4 <-.
  eapply aligned_bindM; [apply aligned_getM|]. intros s ? st5 <-.
  eapply aligned_bindM; [apply aligned_putM|]. intros u ? st6 _.
  apply aligned_retM.
Qed.

Lemma aligned_for_each {A B B' : Type} (body : A -> M B) (body' : A -> M B')
      (xs : list A) :
  (forall x st, aligned (same_outcome (@any_values B B')) (body x st) (body' x st)) ->
  forall st,
    aligned (same_outcome (@any_values (list B) (list B')))
      (for_each body xs st) (for_each body' xs st).
Proof.
  intros Hbody. induction xs as [|x xs IH]; intros st; simpl.
  - repeat constructor.
  - eapply aligned_bindM; [apply Hbody|]. intros y y' st1 _.
    eapply aligned_bindM; [apply IH|]. intros ys ys' st2 _.
    repeat constructor.
Qed.

Lemma aligned_loadVertexTables_from (index index' total_parts : nat) (files : list string) :
  forall label_id st,
    aligned (same_outcome (@any_values (list Table) (list Table)))
      (loadVertexTables_from ID_COLUMN GetMeta ReadTable index total_parts label_id files st)
      (loadVertexTables_from ID_COLUMN GetMeta ReadTable index' total_parts label_id files st).
Proof.
  induction files as [|file files IH]; intros label_id st; simpl.
  - repeat constructor.
  - eapply aligned_bindM; [apply aligned_load_vertex_table|]. intros y y' st1 _.
    eapply aligned_bindM; [apply IH|]. intros ys ys' st2 _.
    repeat constructor.
Qed.

Lemma aligned_loadEdgeTables_from (index index' total_parts : nat) (files : list string) :
  forall label_id st,
    aligned (same_outcome (@any_values (list (list Table)) (list (list Table))))
      (loadEdgeTables_from SRC_COLUMN DST_COLUMN SRC_LABEL_ID DST_LABEL_ID GetMeta
         ReadTable out_of_range_what index total_parts label_id files st)
      (loadEdgeTables_from SRC_COLUMN DST_COLUMN SRC_LABEL_ID DST_LABEL_ID GetMeta
         ReadTable out_of_range_what index' total_parts label_id files st).
Proof.
  induction files as [|file files IH]; intros label_id st; simpl.
  - repeat constructor.
  - eapply aligned_bindM.
    + apply aligned_for_each. intros sub st1. apply aligned_load_edge_table.
    + intros y y' st1 _.
      eapply aligned_bindM; [apply IH|]. intros ys ys' st2 _.
      repeat constructor.
Qed.

(** With vertex files, two workers of a group go through [initBasicLoader]
    in lockstep. *)
Lemma aligned_initBasicLoader (efiles : list string) (vfile : string)
      (vfiles : list string) (index index' total_parts : nat) (st : LoaderState) :
  aligned (same_outcome (@any_values _ _))
    (init efiles (vfile :: vfiles) [] [] index total_parts st)
    (init efiles (vfile :: vfiles) [] [] index' total_parts st).
Proof.
  unfold initBasicLoader.
  eapply aligned_bindM.
  - apply aligned_sync_gs_error.
    eapply aligned_impl; [apply same_outcome_compatible|].
    apply aligned_loadVertexTables_from.
  - intros v v' st1 _. eapply aligned_bindM.
    + apply aligned_sync_gs_error.
      eapply aligned_impl; [apply same_outcome_compatible|].
      apply aligned_loadEdgeTables_from.
    + intros e e' st2 _. repeat constructor.
Qed.

(** *** An edge source without a source or destination label *)











End WorkersInLockstep.

Lemma same_edges_everywhere_well_formed (path : string) (index total_parts : nat)
      (table : Table) :
  same_edges_everywhere path index total_parts = Ok (Some table) -> well_formed table.
Proof.
  unfold same_edges_everywhere. intros H. injection H as <-.
  unfold well_formed, edge_table. simpl. repeat constructor.
Qed.




(** The group of three workers on that file, with a vertex file: everybody
    gets the I/O error of the missing source label. *)
Example initBasicLoader_without_src_label :
  option_map (map (fun r : result (list Table * list (list Table)) * LoaderState =>
                     status (fst r)))
    (run_workers
       (map (fun index =>
               initBasicLoader "id_column" "src_column" "dst_column"
                 "src_label_id" "dst_label_id"
                 descriptor_meta same_edges_everywhere "map::at"
                 knows_without_src_label ["v#label=person"] [] [] index 3
                 (new_loader 1 1))
            [0; 1; 2]))
  = Some (repeat (Raise (gs_error kIOError
                           "Metadata of input edge files should contain src label name"))
                 3).
Proof. vm_compute. reflexivity. Qed.



(** When the root cannot persist the group it returns before the
    broadcast, and its peers are left waiting there. *)
Example constructFragmentGroup_persist_fails :
  run_workers
    (fragment_group_workers (fun _ => 900%Z) (fun _ => false) 0%Z 2 (fun i => i) 1 1
       [(11, 101); (12, 102)]%Z)
  = None
  /\ run_workers
       (fragment_group_workers (fun _ => 900%Z) (fun _ => true) 0%Z 2 (fun i => i) 1 1
          [(11, 101); (12, 102)]%Z)
     = Some [Ok 900%Z; Ok 900%Z].
Proof. split; reflexivity. Qed.

(* ===================================================================== *)
(** * Further properties of the loader *)
(* ===================================================================== *)

(** ** The reconciled type, column by column *)

Lemma loosen_type_reconciled (first : Field) (others : list Field) :
  loosen_type first others = reconciled_type (field_type first) (map field_type others).
Proof.
  unfold loosen_type, reconciled_type. rewrite !widen_to_spec.
  destruct (field_type first) as [| | | | | | |[]]; simpl;
    repeat (rewrite ?widen_to_spec; simpl;
            destruct (existsb _ (map field_type others)); simpl); reflexivity.
Qed.

Lemma gather_fields_wide (schemas : list (option Schema)) (i : nat) (fs : list Field) :
  gather_fields schemas i = Ok fs -> wide_enough (S i) schemas.
Proof.
  revert fs; induction schemas as [|[s|] rest IH]; simpl; intros fs H.
  - constructor.
  - destruct (field s i) as [f|] eqn:Hf; [|discriminate].
    destruct (gather_fields rest i) as [fs'| |] eqn:Hg; simpl in H; try discriminate.
    constructor; [|eapply IH; reflexivity].
    apply Nat.le_succ_l. unfold num_fields. apply nth_error_Some.
    unfold field in Hf. congruence.
  - constructor; [exact I|eapply IH; exact H].
Qed.

Lemma gather_fields_from (schemas : list (option Schema)) (i : nat) (fs : list Field) :
  gather_fields schemas i = Ok fs ->
  Forall (fun f => exists s, In (Some s) schemas /\ field s i = Some f) fs.
Proof.
  revert fs; induction schemas as [|[s|] rest IH]; simpl; intros fs H.
  - inversion H. constructor.
  - destruct (field s i) as [f|] eqn:Hf; [|discriminate].
    destruct (gather_fields rest i) as [fs'| |] eqn:Hg; simpl in H; try discriminate.
    inversion H; subst fs. constructor.
    + exists s. auto.
    + eapply Forall_impl; [|apply IH; reflexivity].
      intros f' (s' & Hin & Hf'). exists s'. auto.
  - eapply Forall_impl; [|apply IH; exact H].
    intros f' (s' & Hin & Hf'). exists s'. auto.
Qed.

Lemma TypeLoosen_Ok_wide (schemas : list (option Schema)) (T : Schema) :
  TypeLoosen schemas = Ok T ->
  0 < first_num_fields schemas /\
  wide_enough (first_num_fields schemas) schemas.
Proof.
  unfold TypeLoosen. destruct (Nat.eqb_spec (first_num_fields schemas) 0) as [|Hn];
    [discriminate|].
  destruct (mapM (gather_fields schemas) _) as [cols| |] eqn:Hc; simpl; try discriminate.
  intros _. split; [lia|].
  destruct (first_num_fields schemas) as [|n]; [lia|].
  destruct (mapM_nth_error _ _ _ Hc n n) as (fs & _ & Hfs).
  { apply seq_lookup. lia. }
  eapply gather_fields_wide; eassumption.
Qed.

Lemma TypeLoosen_Ok_columns (schemas : list (option Schema)) (T : Schema) :
  TypeLoosen schemas = Ok T ->
  exists s0,
    first_schema schemas = Some s0 /\
    num_fields T = num_fields s0 /\
    metadata T = None /\
    forall i first, field s0 i = Some first ->
      exists others,
        gather_fields schemas i = Ok (first :: others) /\
        field T i = Some (WithType first (loosen_type first others)).
Proof.
  intros H. destruct (TypeLoosen_Ok_wide _ _ H) as [Hn Hw].
  destruct (TypeLoosen_columns schemas Hn Hw) as (T' & s0 & HT & rest).
  rewrite H in HT. inversion HT; subst T'. exists s0. exact rest.
Qed.

(** X1.  Whenever [TypeLoosen] returns a schema, it has the columns of
    the first schema that is not null, each with the name and nullability
    of its first field, and the type of a column is decided by the type of
    that first field and by which types the other schemas contribute: a
    timestamp(seconds) or int64 column becomes int64, float64 when some
    schema contributes float64, and utf8 only when float64 and utf8 are
    both contributed; a float64 column becomes utf8 when utf8 is
    contributed; a column of any other first type keeps its first field
    unchanged, whatever the other schemas hold. *)
Theorem TypeLoosen_decision_table (schemas : list (option Schema)) (T : Schema) :
  TypeLoosen schemas = Ok T ->
  exists s0,
    first_schema schemas = Some s0 /\
    num_fields T = num_fields s0 /\
    forall i first, field s0 i = Some first ->
      exists others f,
        gather_fields schemas i = Ok (first :: others) /\
        field T i = Some f /\
        field_name f = field_name first /\
        field_nullable f = field_nullable first /\
        field_type f = reconciled_type (field_type first) (map field_type others) /\
        (Equals (field_type first) (timestamp SECOND) = false ->
         Equals (field_type first) int64 = false ->
         Equals (field_type first) float64 = false ->
         f = first).
Proof.
  intros H. destruct (TypeLoosen_Ok_columns _ _ H) as (s0 & Hs0 & Hnum & _ & Hcol).
  exists s0. split; [assumption|split; [assumption|]].
  intros i first Hf. destruct (Hcol i first Hf) as (others & Hg & HT).
  exists others, (WithType first (loosen_type first others)).
  repeat split; try assumption.
  - simpl. apply loosen_type_reconciled.
  - intros H1 H2 H3. unfold loosen_type. rewrite H1, H2, H3.
    apply WithType_same.
Qed.

Lemma TypeLoosen_decision_table_witness :
  let schemas := [Some edge_schema; None; Some weight_schema] in
  exists T,
    TypeLoosen schemas = Ok T /\
    exists s0,
      first_schema schemas = Some s0 /\
      num_fields T = num_fields s0 /\
      forall i first, field s0 i = Some first ->
        exists others f,
          gather_fields schemas i = Ok (first :: others) /\
          field T i = Some f /\
          field_name f = field_name first /\
          field_nullable f = field_nullable first /\
          field_type f = reconciled_type (field_type first) (map field_type others) /\
          (Equals (field_type first) (timestamp SECOND) = false ->
           Equals (field_type first) int64 = false ->
           Equals (field_type first) float64 = false ->
           f = first).
Proof.
  intros schemas.
  destruct (TypeLoosen schemas) as [T| |] eqn:E; try (vm_compute in E; discriminate E).
  exists T. split; [reflexivity|].
  exact (TypeLoosen_decision_table schemas T E).
Defined.

(** ** Tables after synchronisation *)

Lemma Field_Equals_eq (f g : Field) : Field_Equals f g = true -> f = g.
Proof.
  unfold Field_Equals. intros H.
  apply andb_true_iff in H as [H Hn]. apply andb_true_iff in H as [Hs Ht].
  apply String.eqb_eq in Hs. apply Equals_eq in Ht. apply Bool.eqb_prop in Hn.
  destruct f, g; simpl in *; congruence.
Qed.

Lemma Fields_Equals_eq (fs gs : list Field) : Fields_Equals fs gs = true -> fs = gs.
Proof.
  revert gs; induction fs as [|f fs IH]; intros [|g gs] H; simpl in H;
    try discriminate; [reflexivity|].
  apply andb_true_iff in H as [H1 H2].
  f_equal; [now apply Field_Equals_eq|now apply IH].
Qed.

Lemma CastTableToSchema_fields (table : Table) (schema : Schema) (table' : Table) :
  CastTableToSchema table schema = Ok table' ->
  fields (Arrow.schema table') = fields schema.
Proof.
  unfold CastTableToSchema.
  destruct (Schema_Equals (Arrow.schema table) schema) eqn:E.
  - intros H; inversion H; subst. now apply Fields_Equals_eq.
  - destruct (negb _); [discriminate|].
    destruct (mapM _ _); simpl; try discriminate.
    intros H; inversion H; reflexivity.
Qed.

Lemma SyncSchema_fields (table : option Table) (schemas : list (option Schema))
      (t : Table) :
  SyncSchema table schemas = Ok t ->
  exists T, TypeLoosen schemas = Ok T /\ fields (schema t) = fields T.
Proof.
  unfold SyncSchema. destruct (TypeLoosen schemas) as [T| |]; simpl; try discriminate.
  intros H. exists T. split; [reflexivity|].
  destruct table as [table|].
  - eapply CastTableToSchema_fields; eassumption.
  - unfold EmptyTableBuilder_Build in H. inversion H; reflexivity.
Qed.

(** X2.  Every worker that gets a table from [SyncSchema] gets one with
    the fields of the reconciled schema, so any two workers of the group
    that succeed hold tables of equal schemas. *)
Theorem SyncSchema_group_agrees (tables : list (option Table)) :
  forall w t,
    nth_error (SyncSchema_group tables) w = Some (Ok t) ->
    exists T,
      TypeLoosen (map local_schema tables) = Ok T /\
      fields (schema t) = fields T /\
      Schema_Equals (schema t) T = true /\
      forall w' t',
        nth_error (SyncSchema_group tables) w' = Some (Ok t') ->
        fields (schema t') = fields (schema t) /\
        Schema_Equals (schema t') (schema t) = true.
Proof.
  intros w t Hw. unfold SyncSchema_group, GlobalAllGatherv in *.
  rewrite nth_error_map in Hw.
  destruct (nth_error tables w) as [table|]; [|discriminate]. simpl in Hw.
  inversion Hw as [Hs]; clear Hw.
  destruct (SyncSchema_fields _ _ _ Hs) as (T & HT & HF).
  exists T. split; [assumption|split; [assumption|split]].
  - unfold Schema_Equals. rewrite HF. apply Fields_Equals_refl.
  - intros w' t' Hw'. rewrite nth_error_map in Hw'.
    destruct (nth_error tables w') as [table'|]; [|discriminate]. simpl in Hw'.
    inversion Hw' as [Hs']; clear Hw'.
    destruct (SyncSchema_fields _ _ _ Hs') as (T' & HT' & HF').
    rewrite HT in HT'. inversion HT'; subst T'.
    unfold Schema_Equals. rewrite HF, HF'. split; [reflexivity|apply Fields_Equals_refl].
Qed.

Lemma SyncSchema_group_agrees_witness :
  let tables := [Some (edge_table [(10, 20)]%Z); None; Some weight_table] in
  exists t,
    nth_error (SyncSchema_group tables) 1 = Some (Ok t) /\
    exists T,
      TypeLoosen (map local_schema tables) = Ok T /\
      fields (schema t) = fields T /\
      Schema_Equals (schema t) T = true /\
      forall w' t',
        nth_error (SyncSchema_group tables) w' = Some (Ok t') ->
        fields (schema t') = fields (schema t) /\
        Schema_Equals (schema t') (schema t) = true.
Proof.
  intros tables.
  destruct (nth_error (SyncSchema_group tables) 1) as [[t| |]|] eqn:E;
    try (vm_compute in E; discriminate E).
  exists t. split; [reflexivity|].
  exact (SyncSchema_group_agrees tables 1 t E).
Defined.

Lemma Forall2_pointwise {A B : Type} (P : A -> B -> Prop) (l : list A) (l' : list B) :
  length l = length l' ->
  (forall i x y, nth_error l i = Some x -> nth_error l' i = Some y -> P x y) ->
  Forall2 P l l'.
Proof.
  revert l'; induction l as [|x l IH]; intros [|y l'] Hlen H; simpl in Hlen;
    try discriminate; constructor.
  - apply (H 0); reflexivity.
  - apply IH; [lia|]. intros i a b Ha Hb. apply (H (S i)); assumption.
Qed.

Lemma Forall2_lookup {A B : Type} (P : A -> B -> Prop) (l : list A) (l' : list B) :
  Forall2 P l l' ->
  forall i x y, nth_error l i = Some x -> nth_error l' i = Some y -> P x y.
Proof.
  induction 1 as [|a b l l' Hab _ IH]; intros [|i] x y Hx Hy; simpl in *;
    try discriminate.
  - inversion Hx; inversion Hy; subst; assumption.
  - eapply IH; eassumption.
Qed.

Lemma Forall2_same_length {A B : Type} (P : A -> B -> Prop) (l : list A) (l' : list B) :
  Forall2 P l l' -> length l = length l'.
Proof. induction 1; simpl; congruence. Qed.

Lemma converted_chunk_length (a : Array) :
  Array_length (converted_chunk a) = Array_length a.
Proof. destruct a; simpl; try reflexivity. apply length_map. Qed.

Lemma converted_column_lengths (tf sf : Field) (col : ChunkedArray) :
  map Array_length (chunks (converted_column tf sf col)) = map Array_length (chunks col).
Proof.
  unfold converted_column. destruct (Equals _ _); [reflexivity|]. simpl.
  rewrite map_map. apply map_ext. intros a. apply converted_chunk_length.
Qed.

Lemma ChunkedArray_length_sum (c : ChunkedArray) :
  ChunkedArray_length c = list_sum (map Array_length (chunks c)).
Proof.
  unfold ChunkedArray_length. induction (chunks c) as [|a l IH]; simpl; congruence.
Qed.

(** What [CastTableToSchema] returns when the schemas differ. *)
Lemma CastTableToSchema_columns (table : Table) (schema : Schema) (table' : Table) :
  well_formed table ->
  Schema_Equals (Arrow.schema table) schema = false ->
  CastTableToSchema table schema = Ok table' ->
  Arrow.schema table' = schema /\
  num_columns table = num_fields schema /\
  length (columns table') = length (columns table) /\
  forall i tf sf col,
    Table_field table i = Some tf -> field schema i = Some sf ->
    column table i = Some col ->
    column table' i = Some (converted_column tf sf col) /\
    (unsupported_mismatch tf sf = true -> num_chunks col = 0).
Proof.
  intros Hwf HE H. unfold CastTableToSchema in H. rewrite HE in H.
  destruct (Nat.eqb_spec (num_columns table) (num_fields schema)) as [Hn|];
    simpl in H; [|discriminate].
  destruct (mapM _ _) as [cols| |] eqn:Hc; simpl in H; try discriminate.
  inversion H; subst table'; clear H. simpl.
  pose proof (Forall2_same_length _ _ _ Hwf) as Hlen.
  split; [reflexivity|split; [assumption|split]].
  - rewrite (mapM_length _ _ _ Hc), length_seq. unfold num_columns, num_fields.
    assumption.
  - intros i tf sf col Htf Hsf Hcol.
    assert (Hi : i < num_columns table).
    { unfold num_columns, num_fields. apply nth_error_Some.
      unfold Table_field, field in Htf. congruence. }
    destruct (mapM_nth_error _ _ _ Hc i i (seq_lookup _ _ Hi)) as (col' & Hcol' & Hcast).
    destruct (cast_column_spec table schema i tf sf Hwf Htf Hsf) as (col0 & Hcol0 & Hspec).
    rewrite Hcol in Hcol0. inversion Hcol0; subst col0. rewrite Hspec in Hcast.
    destruct (unsupported_mismatch tf sf) eqn:Hu; simpl in Hcast.
    + destruct (Nat.eqb_spec (num_chunks col) 0) as [Hz|]; simpl in Hcast;
        [|discriminate].
      inversion Hcast; subst col'. unfold column. simpl. split; [assumption|auto].
    + inversion Hcast; subst col'. unfold column. simpl.
      split; [assumption|discriminate].
Qed.

Lemma converted_column_conforms (tf sf : Field) (col : ChunkedArray) :
  column_conforms tf col ->
  (unsupported_mismatch tf sf = true -> num_chunks col = 0) ->
  column_conforms sf (converted_column tf sf col).
Proof.
  intros [Hty Hch] Hz. unfold converted_column.
  destruct (Equals (field_type tf) (field_type sf)) eqn:E.
  - apply Equals_eq in E. split; [congruence|].
    eapply Forall_impl; [|exact Hch]. simpl. congruence.
  - split; [reflexivity|]. simpl.
    unfold unsupported_mismatch in Hz. rewrite E in Hz. simpl in Hz.
    destruct (supported_cast (field_type tf) (field_type sf)) eqn:Hs.
    + apply Forall_map. eapply Forall_impl; [|exact Hch]. simpl.
      intros a Ha. now destruct (cast_chunk_supported _ _ a Ha Hs) as (_ & ? & _).
    + specialize (Hz eq_refl). unfold num_chunks in Hz.
      destruct (chunks col); [constructor|discriminate].
Qed.

(** X3.  When [CastTableToSchema] succeeds on a well-formed table, the
    result is well formed, has the fields of the target schema, as many
    columns and rows as the input and, column by column, chunks of the same
    lengths; casting the result to the same schema again returns it
    unchanged. *)
Theorem CastTableToSchema_keeps_rows (table : Table) (schema : Schema) (table' : Table) :
  well_formed table ->
  CastTableToSchema table schema = Ok table' ->
  well_formed table' /\
  fields (Arrow.schema table') = fields schema /\
  length (columns table') = length (columns table) /\
  num_rows table' = num_rows table /\
  (forall i col,
     column table i = Some col ->
     exists col',
       column table' i = Some col' /\
       map Array_length (chunks col') = map Array_length (chunks col)) /\
  CastTableToSchema table' schema = Ok table'.
Proof.
  intros Hwf H.
  destruct (Schema_Equals (Arrow.schema table) schema) eqn:HE.
  - assert (table' = table).
    { unfold CastTableToSchema in H. rewrite HE in H. now inversion H. }
    subst table'. repeat split; try assumption; try reflexivity.
    + now apply Fields_Equals_eq.
    + intros i col Hcol. eauto.
  - destruct (CastTableToSchema_columns _ _ _ Hwf HE H) as (Hs & Hn & Hlen & Hcols).
    pose proof (Forall2_same_length _ _ _ Hwf) as Hl.
    assert (Hlook : forall i col, column table i = Some col ->
              exists tf sf, Table_field table i = Some tf /\ field schema i = Some sf /\
                            column_conforms tf col).
    { intros i col Hcol.
      assert (Hi : i < num_columns table).
      { unfold num_columns, num_fields. rewrite Hl. apply nth_error_Some.
        unfold column in Hcol. congruence. }
      destruct (fields_lookup table schema i Hn Hi) as (tf & sf & Htf & Hsf).
      exists tf, sf. split; [assumption|split; [assumption|]].
      exact (Forall2_lookup _ _ _ Hwf i tf col Htf Hcol). }
    split; [|split; [|split; [|split; [|split]]]].
    + unfold well_formed. rewrite Hs. apply Forall2_pointwise.
      * rewrite Hlen, <- Hl. symmetry. exact Hn.
      * intros i sf col' Hsf Hcol'.
        assert (Hi : i < length (columns table)).
        { rewrite <- Hlen. apply nth_error_Some. congruence. }
        destruct (nth_error (columns table) i) as [col|] eqn:Hcol;
          [|apply nth_error_None in Hcol; lia].
        destruct (Hlook i col Hcol) as (tf & sf' & Htf & Hsf' & Hconf).
        unfold field in Hsf'. rewrite Hsf in Hsf'. inversion Hsf'; subst sf'.
        destruct (Hcols i tf sf col Htf Hsf Hcol) as [Hc Hz].
        unfold column in Hc. rewrite Hcol' in Hc. inversion Hc; subst col'.
        now apply converted_column_conforms.
    + now rewrite Hs.
    + exact Hlen.
    + unfold num_rows.
      destruct (columns table) as [|c cs] eqn:Hc0.
      * destruct (columns table'); [reflexivity|discriminate].
      * destruct (Hlook 0 c) as (tf & sf & Htf & Hsf & _).
        { unfold column. now rewrite Hc0. }
        destruct (Hcols 0 tf sf c Htf Hsf) as [Hc _].
        { unfold column. now rewrite Hc0. }
        unfold column in Hc. destruct (columns table') as [|c' cs']; [discriminate|].
        simpl in Hc. inversion Hc; subst c'.
        rewrite !ChunkedArray_length_sum. now rewrite converted_column_lengths.
    + intros i col Hcol. destruct (Hlook i col Hcol) as (tf & sf & Htf & Hsf & _).
      destruct (Hcols i tf sf col Htf Hsf Hcol) as [Hc _].
      eexists; split; [exact Hc|]. apply converted_column_lengths.
    + unfold CastTableToSchema. unfold Schema_Equals. rewrite Hs.
      now rewrite Fields_Equals_refl.
Qed.

Lemma sparse_edge_table_well_formed : well_formed sparse_edge_table.
Proof.
  repeat constructor.
Qed.

Lemma three_columns_well_formed : well_formed three_columns.
Proof.
  repeat constructor.
Qed.

Lemma CastTableToSchema_keeps_rows_witness :
  let table := sparse_edge_table in
  let schema := weight_schema in
  well_formed table /\
  exists table',
    CastTableToSchema table schema = Ok table' /\
    well_formed table' /\
    fields (Arrow.schema table') = fields schema /\
    length (columns table') = length (columns table) /\
    num_rows table' = num_rows table /\
    (forall i col,
       column table i = Some col ->
       exists col',
         column table' i = Some col' /\
         map Array_length (chunks col') = map Array_length (chunks col)) /\
    CastTableToSchema table' schema = Ok table'.
Proof.
  intros table schema.
  split; [exact sparse_edge_table_well_formed|].
  destruct (CastTableToSchema table schema) as [table'| |] eqn:E;
    try (vm_compute in E; discriminate E).
  exists table'. split; [reflexivity|].
  exact (CastTableToSchema_keeps_rows table schema table' sparse_edge_table_well_formed E).
Defined.

(** ** Null slots and column counts *)

Lemma null_count_converted_chunk (from_type to_type : DataType) (a : Array) :
  Array_type a = from_type ->
  supported_cast from_type to_type = true ->
  Array_null_count (converted_chunk a) =
    if Equals from_type int64 && Equals to_type float64 then 0 else Array_null_count a.
Proof.
  intros Ha Hs. unfold supported_cast in Hs.
  destruct a; simpl in Ha; subst from_type; simpl in *; try discriminate.
  - destruct (Equals to_type float64); [|discriminate]. simpl.
    unfold invalid_slots. induction slots as [|s slots IH]; simpl; [reflexivity|assumption].
  - destruct u; simpl in *; try discriminate. reflexivity.
Qed.

Lemma null_count_converted_column (tf sf : Field) (col : ChunkedArray) :
  column_conforms tf col ->
  (unsupported_mismatch tf sf = true -> num_chunks col = 0) ->
  ChunkedArray_null_count (converted_column tf sf col) =
    if Equals (field_type tf) int64 && Equals (field_type sf) float64 then 0
    else ChunkedArray_null_count col.
Proof.
  intros [Hty Hch] Hz. unfold converted_column.
  destruct (Equals (field_type tf) (field_type sf)) eqn:E.
  - apply Equals_eq in E. rewrite <- E.
    destruct (field_type tf) as [| | | | | | |[]]; reflexivity.
  - unfold unsupported_mismatch in Hz. rewrite E in Hz. simpl in Hz.
    unfold ChunkedArray_null_count. simpl.
    destruct (supported_cast (field_type tf) (field_type sf)) eqn:Hs.
    + induction Hch as [|a l Ha _ IH]; simpl.
      * now destruct (_ && _).
      * rewrite (null_count_converted_chunk _ _ a Ha Hs), IH.
        now destruct (_ && _).
    + specialize (Hz eq_refl). unfold num_chunks in Hz.
      destruct (chunks col); [|discriminate]. simpl. now destruct (_ && _).
Qed.

(** X4.  [CastIntToDouble] appends every value as a valid one: a column
    that [CastTableToSchema] casts from int64 to float64 has no null slot
    left, however many the input had, while every other column of the
    result has as many null slots as before. *)
Theorem CastTableToSchema_null_slots (table : Table) (schema : Schema) (table' : Table) :
  well_formed table ->
  CastTableToSchema table schema = Ok table' ->
  forall i tf sf col col',
    Table_field table i = Some tf -> field schema i = Some sf ->
    column table i = Some col -> column table' i = Some col' ->
    ChunkedArray_null_count col' =
      if Equals (field_type tf) int64 && Equals (field_type sf) float64 then 0
      else ChunkedArray_null_count col.
Proof.
  intros Hwf H i tf sf col col' Htf Hsf Hcol Hcol'.
  destruct (Schema_Equals (Arrow.schema table) schema) eqn:HE.
  - assert (table' = table).
    { unfold CastTableToSchema in H. rewrite HE in H. now inversion H. }
    subst table'. rewrite Hcol in Hcol'. inversion Hcol'; subst col'.
    apply Fields_Equals_eq in HE. unfold Table_field, field in Htf. rewrite HE in Htf.
    unfold field in Hsf. rewrite Hsf in Htf. inversion Htf; subst sf.
    destruct (field_type tf) as [| | | | | | |[]]; reflexivity.
  - destruct (CastTableToSchema_columns _ _ _ Hwf HE H) as (_ & _ & _ & Hcols).
    destruct (Hcols i tf sf col Htf Hsf Hcol) as [Hc Hz].
    rewrite Hcol' in Hc. inversion Hc; subst col'.
    apply null_count_converted_column; [|assumption].
    exact (Forall2_lookup _ _ _ Hwf i tf col Htf Hcol).
Qed.

Lemma CastTableToSchema_null_slots_witness :
  let table := sparse_edge_table in
  let schema := weight_schema in
  well_formed table /\
  exists table' tf sf col col',
    CastTableToSchema table schema = Ok table' /\
    Table_field table 1 = Some tf /\ field schema 1 = Some sf /\
    column table 1 = Some col /\ column table' 1 = Some col' /\
    ChunkedArray_null_count col = 1 /\
    ChunkedArray_null_count col' =
      if Equals (field_type tf) int64 && Equals (field_type sf) float64 then 0
      else ChunkedArray_null_count col.
Proof.
  intros table schema.
  split; [exact sparse_edge_table_well_formed|].
  destruct (CastTableToSchema table schema) as [table'| |] eqn:E;
    try (vm_compute in E; discriminate E).
  destruct (column table' 1) as [col'|] eqn:Ecol;
    [|vm_compute in E; injection E as <-; vm_compute in Ecol; discriminate Ecol].
  exists table', (mkField "dst" int64 true), (mkField "dst" float64 true),
    (mkChunkedArray [Int64Array [(false, 0%Z); (true, 30%Z)]] int64), col'.
  split; [reflexivity|]. split; [reflexivity|]. split; [reflexivity|].
  split; [reflexivity|]. split; [exact Ecol|]. split; [reflexivity|].
  exact (CastTableToSchema_null_slots table schema table' sparse_edge_table_well_formed E
           1 _ _ _ col' eq_refl eq_refl eq_refl Ecol).
Defined.

Lemma mapM_not_raised {A B : Type} (f : A -> result B) (xs : list A) (e : GSError) :
  (forall x e', f x <> Raise e') -> mapM f xs <> Raise e.
Proof.
  intros Hf. induction xs as [|x xs IH]; simpl; [discriminate|].
  destruct (f x) eqn:Hx; simpl; [|now apply Hf in Hx|discriminate].
  destruct (mapM f xs); simpl; [discriminate|assumption|discriminate].
Qed.

Lemma gather_fields_not_raised (schemas : list (option Schema)) (i : nat) (e : GSError) :
  gather_fields schemas i <> Raise e.
Proof.
  induction schemas as [|[s|] rest IH]; simpl; [discriminate| |assumption].
  destruct (field s i); [|discriminate].
  destruct (gather_fields rest i); simpl; [discriminate|assumption|discriminate].
Qed.

Lemma first_schema_In (schemas : list (option Schema)) (s0 : Schema) :
  first_schema schemas = Some s0 -> In (Some s0) schemas.
Proof.
  induction schemas as [|[s|] rest IH]; simpl; intros H; [discriminate| |auto].
  inversion H; auto.
Qed.

Lemma TypeLoosen_narrower (schemas : list (option Schema)) (s0 s : Schema) :
  first_schema schemas = Some s0 ->
  In (Some s) schemas ->
  num_fields s < num_fields s0 ->
  TypeLoosen schemas = Undefined.
Proof.
  intros Hs0 Hin Hlt.
  pose proof (first_schema_num_fields schemas) as Hn. rewrite Hs0 in Hn.
  destruct (TypeLoosen schemas) as [T|e|] eqn:HT; [| |reflexivity].
  - destruct (TypeLoosen_Ok_wide _ _ HT) as [_ Hw]. unfold wide_enough in Hw.
    rewrite Forall_forall in Hw. specialize (Hw _ Hin). simpl in Hw. lia.
  - exfalso. unfold TypeLoosen in HT.
    destruct (Nat.eqb_spec (first_num_fields schemas) 0); [lia|].
    destruct (mapM (gather_fields schemas) _) as [cols|e'|] eqn:Hc; simpl in HT;
      try discriminate.
    + destruct (mapM loosen_field cols) as [out|e'|] eqn:Ho; simpl in HT;
        try discriminate.
      revert Ho. apply mapM_not_raised. intros [|? ?] e''; discriminate.
    + revert Hc. apply mapM_not_raised. intros x e''. apply gather_fields_not_raised.
Qed.

(** X5.  When the schemas reconcile but a worker's table has another
    number of columns than the reconciled schema, [SyncSchema] fails on that
    worker with the check table->num_columns() == schema->num_fields(); when
    some worker's table has fewer columns than the first schema,
    [TypeLoosen] reads past the fields of its schema and no worker gets a
    defined result. *)
Theorem SyncSchema_column_count_mismatch (tables : list (option Table)) :
  (forall T w table,
     TypeLoosen (map local_schema tables) = Ok T ->
     nth_error tables w = Some (Some table) ->
     num_columns table <> num_fields T ->
     nth_error (SyncSchema_group tables) w
     = Some (Raise (check_failed "table->num_columns() == schema->num_fields()")))
  /\ (forall s0 table,
        first_schema (map local_schema tables) = Some s0 ->
        In (Some table) tables ->
        num_columns table < num_fields s0 ->
        SyncSchema_group tables = map (fun _ => Undefined) tables).
Proof.
  split.
  - intros T w table HT Hw Hne. unfold SyncSchema_group, GlobalAllGatherv.
    rewrite nth_error_map, Hw. simpl. unfold SyncSchema. rewrite HT. simpl.
    unfold CastTableToSchema.
    destruct (Schema_Equals (schema table) T) eqn:E.
    + apply Fields_Equals_eq in E. unfold num_columns, num_fields in Hne. congruence.
    + destruct (Nat.eqb_spec (num_columns table) (num_fields T)); [contradiction|].
      reflexivity.
  - intros s0 table Hs0 Hin Hlt. unfold SyncSchema_group, GlobalAllGatherv.
    apply map_ext. intros t. unfold SyncSchema.
    rewrite (TypeLoosen_narrower _ s0 (schema table) Hs0); [reflexivity| |exact Hlt].
    apply in_map_iff. exists (Some table). auto.
Qed.

Lemma SyncSchema_column_count_mismatch_witness :
  let wider_last := [Some id_table; Some (edge_table [(10, 20)]%Z)] in
  let wider_first := [Some (edge_table [(10, 20)]%Z); Some id_table] in
  nth_error (SyncSchema_group wider_last) 1
  = Some (Raise (check_failed "table->num_columns() == schema->num_fields()"))
  /\ SyncSchema_group wider_first = [Undefined; Undefined].
Proof.
  intros wider_last wider_first. split.
  - destruct (TypeLoosen (map local_schema wider_last)) as [T| |] eqn:E;
      try (vm_compute in E; discriminate E).
    refine (proj1 (SyncSchema_column_count_mismatch wider_last) T 1
              (edge_table [(10, 20)]%Z) E eq_refl _).
    vm_compute in E. injection E as <-. vm_compute. discriminate.
  - refine (proj2 (SyncSchema_column_count_mismatch wider_first) edge_schema id_table
              eq_refl _ _).
    + right. left. reflexivity.
    + vm_compute. lia.
Defined.

Lemma gather_fields_same (F : list Field) (schemas : list (option Schema)) (i : nat)
      (fs : list Field) (f : Field) :
  (forall s, In (Some s) schemas -> fields s = F) ->
  nth_error F i = Some f ->
  gather_fields schemas i = Ok fs ->
  Forall (eq f) fs.
Proof.
  intros HF Hf Hg. eapply Forall_impl; [|eapply gather_fields_from; exact Hg].
  intros f' (s & Hin & Hs). unfold field in Hs. rewrite (HF s Hin) in Hs. congruence.
Qed.

Lemma reconciled_type_same (t : DataType) (others : list DataType) :
  Equals t (timestamp SECOND) = false ->
  Forall (eq t) others ->
  reconciled_type t others = t.
Proof.
  intros Ht Ho.
  assert (H : forall w, Equals t w = false -> existsb (fun x => Equals x w) others = false).
  { intros w Hw. induction Ho as [|x l <- _ IH]; simpl; [reflexivity|].
    now rewrite Hw. }
  unfold reconciled_type.
  destruct t as [| | | | | | |[]]; try reflexivity; try discriminate.
  - now rewrite (H float64 eq_refl).
  - now rewrite (H utf8 eq_refl).
Qed.

Lemma list_ext_lookup {A : Type} (l l' : list A) :
  (forall i, nth_error l i = nth_error l' i) -> l = l'.
Proof.
  revert l'; induction l as [|x l IH]; intros [|y l'] H.
  - reflexivity.
  - specialize (H 0); discriminate.
  - specialize (H 0); discriminate.
  - pose proof (H 0) as H0. simpl in H0. inversion H0; subst. f_equal.
    apply IH. intros i. exact (H (S i)).
Qed.

Lemma TypeLoosen_same_fields (F : list Field) (schemas : list (option Schema))
      (s0 : Schema) :
  F <> [] ->
  existsb (fun f => Equals (field_type f) (timestamp SECOND)) F = false ->
  first_schema schemas = Some s0 ->
  (forall s, In (Some s) schemas -> fields s = F) ->
  TypeLoosen schemas = Ok (make_schema F).
Proof.
  intros Hne Hts Hs0 HF.
  pose proof (first_schema_num_fields schemas) as Hn. rewrite Hs0 in Hn.
  pose proof (HF s0 (first_schema_In _ _ Hs0)) as HF0.
  destruct (TypeLoosen_columns schemas) as (T & s0' & HT & Hs0' & Hnum & Hmeta & Hcol).
  - rewrite Hn. unfold num_fields. rewrite HF0. destruct F; [congruence|simpl; lia].
  - unfold wide_enough. apply Forall_forall. intros [s|] Hin; [|exact I].
    rewrite Hn. unfold num_fields. rewrite (HF s Hin), HF0. lia.
  - rewrite Hs0 in Hs0'. inversion Hs0'; subst s0'. rewrite HT. f_equal.
    destruct T as [fs meta]. simpl in *. subst meta. unfold make_schema. f_equal.
    apply list_ext_lookup. intros i.
    destruct (nth_error F i) as [f|] eqn:Hf.
    + destruct (Hcol i f) as (others & Hg & Hfi).
      { unfold field. now rewrite HF0. }
      unfold field in Hfi. simpl in Hfi. rewrite Hfi. f_equal.
      rewrite loosen_type_reconciled.
      pose proof (gather_fields_same F schemas i _ f HF Hf Hg) as Hall.
      apply Forall_inv_tail in Hall. rename Hall into Hothers.
      rewrite reconciled_type_same.
      * apply WithType_same.
      * clear -Hts Hf. revert i Hf. induction F as [|g F IH]; intros [|i] Hf; simpl in *;
          try discriminate.
        -- inversion Hf; subst. now apply orb_false_iff in Hts as [? _].
        -- apply orb_false_iff in Hts as [_ Hts]. eapply IH; eassumption.
      * clear -Hothers. induction Hothers as [|x l <- _ IH]; simpl; constructor; auto.
    + apply nth_error_None. apply nth_error_None in Hf.
      unfold num_fields in Hnum. simpl in Hnum. rewrite Hnum, HF0. exact Hf.
Qed.

(** X6.  Synchronising twice changes nothing: when every worker of a
    group got a table from [SyncSchema], running [SyncSchema] on those
    tables gives every worker its table back. *)
Theorem SyncSchema_group_idempotent (tables : list (option Table)) (ts : list Table) :
  SyncSchema_group tables = map Ok ts ->
  SyncSchema_group (map Some ts) = map Ok ts.
Proof.
  intros H. destruct ts as [|t0 ts']; [reflexivity|].
  assert (Hagree : exists T, TypeLoosen (map local_schema tables) = Ok T /\
                     forall t, In t (t0 :: ts') -> fields (schema t) = fields T).
  { assert (Hsync : forall t, In t (t0 :: ts') ->
              exists table, SyncSchema table (map local_schema tables) = Ok t).
    { intros t Hin. apply In_nth_error in Hin as [w Hw].
      assert (Hw' : nth_error (SyncSchema_group tables) w = Some (Ok t))
        by (rewrite H, nth_error_map, Hw; reflexivity).
      unfold SyncSchema_group, GlobalAllGatherv in Hw'. rewrite nth_error_map in Hw'.
      destruct (nth_error tables w) as [table|]; [|discriminate].
      exists table. simpl in Hw'. now inversion Hw'. }
    destruct (Hsync t0 (or_introl eq_refl)) as (table0 & H0).
    destruct (SyncSchema_fields _ _ _ H0) as (T & HT & _).
    exists T. split; [assumption|]. intros t Hin.
    destruct (Hsync t Hin) as (table & Ht).
    destruct (SyncSchema_fields _ _ _ Ht) as (T' & HT' & HF).
    congruence. }
  destruct Hagree as (T & HT & HF).
  destruct (TypeLoosen_output _ _ HT) as (Hne & _ & Hts).
  unfold SyncSchema_group, GlobalAllGatherv. rewrite map_map.
  assert (HT' : TypeLoosen (map local_schema (map Some (t0 :: ts')))
                = Ok (make_schema (fields T))).
  { apply TypeLoosen_same_fields with (s0 := schema t0); try assumption.
    - reflexivity.
    - intros s Hin. apply in_map_iff in Hin as (o & Ho & Hin).
      apply in_map_iff in Hin as (t & <- & Hin). simpl in Ho. inversion Ho; subst s.
      now apply HF. }
  apply map_ext_in. intros t Hin. unfold SyncSchema. rewrite HT'. simpl.
  unfold CastTableToSchema, Schema_Equals. simpl. rewrite (HF t Hin).
  now rewrite Fields_Equals_refl.
Qed.

Lemma SyncSchema_group_idempotent_witness :
  let tables := [Some (edge_table [(10, 20)]%Z); None; Some weight_table] in
  exists ts,
    SyncSchema_group tables = map Ok ts /\
    SyncSchema_group (map Some ts) = map Ok ts.
Proof.
  intros tables.
  destruct (SyncSchema_group tables) as [|[t1| |] [|[t2| |] [|[t3| |] [|? ?]]]] eqn:E;
    try (vm_compute in E; discriminate E).
  exists [t1; t2; t3]. split; [reflexivity|].
  exact (SyncSchema_group_idempotent tables [t1; t2; t3] E).
Defined.

(** ** Integers as doubles *)

Lemma digits2_pos_iter_xO (p k : positive) :
  digits2_pos (Pos.iter xO p k) = (digits2_pos p + k)%positive.
Proof.
  induction k as [|k IH] using Pos.peano_ind.
  - simpl. now rewrite Pos.add_1_r.
  - rewrite Pos.iter_succ. simpl. rewrite IH. now rewrite Pos.add_succ_r.
Qed.

Lemma Zpos_iter_xO (p k : positive) :
  Z.pos (Pos.iter xO p k) = (Z.pos p * 2 ^ Z.pos k)%Z.
Proof.
  induction k as [|k IH] using Pos.peano_ind.
  - simpl. lia.
  - rewrite Pos.iter_succ. rewrite Pos2Z.inj_xO, IH, Pos2Z.inj_succ.
    rewrite Z.pow_succ_r by lia. lia.
Qed.

Lemma digits2_pos_bounds (p : positive) :
  (2 ^ (Z.pos (digits2_pos p) - 1) <= Z.pos p < 2 ^ Z.pos (digits2_pos p))%Z.
Proof.
  induction p as [p IH|p IH|]; simpl digits2_pos.
  - rewrite Pos2Z.inj_succ.
    replace (Z.succ (Z.pos (digits2_pos p)) - 1)%Z
      with (Z.succ (Z.pos (digits2_pos p) - 1)) by lia.
    rewrite !Z.pow_succ_r by lia. lia.
  - rewrite Pos2Z.inj_succ.
    replace (Z.succ (Z.pos (digits2_pos p)) - 1)%Z
      with (Z.succ (Z.pos (digits2_pos p) - 1)) by lia.
    rewrite !Z.pow_succ_r by lia. lia.
  - simpl. lia.
Qed.

Lemma binary_round_aux_canonical (s : bool) (m : positive) (e : Z) :
  Z.pos (digits2_pos m) = 53%Z ->
  (-1074 <= e <= 971)%Z ->
  binary_round_aux 53 1024 s (Z.pos m) e loc_Exact = S754_finite s m e.
Proof.
  intros Hd He. unfold binary_round_aux.
  assert (Hshr : shr_fexp 53 1024 (Z.pos m) e loc_Exact
                 = ({| shr_m := Z.pos m; shr_r := false; shr_s := false |}, e)).
  { unfold shr_fexp, Zdigits2, fexp, emin. rewrite Hd.
    replace (Z.max (53 + e - 53) (3 - 1024 - 53) - e)%Z with 0%Z by lia.
    reflexivity. }
  rewrite Hshr. cbn [shr_m loc_of_shr_record round_nearest_even].
  rewrite Hshr. cbn [shr_m].
  destruct (Z.leb_spec e (1024 - 53)); [reflexivity|lia].
Qed.

Lemma binary_round_small (s : bool) (p : positive) :
  (Z.pos p < 2 ^ 53)%Z ->
  exists m e,
    binary_round 53 1024 s p 0 = S754_finite s m e /\
    (-52 <= e <= 0)%Z /\ Z.pos m = (Z.pos p * 2 ^ (- e))%Z.
Proof.
  intros Hlt. pose proof (digits2_pos_bounds p) as [Hlo _].
  assert (Hd : (Z.pos (digits2_pos p) <= 53)%Z).
  { destruct (Z.le_gt_cases (Z.pos (digits2_pos p)) 53) as [|Hgt]; [assumption|].
    assert (2 ^ 53 <= 2 ^ (Z.pos (digits2_pos p) - 1))%Z
      by (apply Z.pow_le_mono_r; lia).
    lia. }
  unfold binary_round, shl_align, fexp, emin.
  destruct (Z.eq_dec (Z.pos (digits2_pos p)) 53) as [E|Hne].
  - rewrite E. simpl Z.sub. simpl Z.max. cbv iota beta.
    exists p, 0%Z. split; [apply binary_round_aux_canonical; [exact E|lia]|].
    split; [lia|]. rewrite Z.pow_0_r. lia.
  - remember (Z.to_pos (53 - Z.pos (digits2_pos p))) as k eqn:Hk.
    assert (Hkz : Z.pos k = (53 - Z.pos (digits2_pos p))%Z).
    { subst k. rewrite Z2Pos.id; lia. }
    replace (Z.max (Z.pos (digits2_pos p) + 0 - 53) (3 - 1024 - 53) - 0)%Z
      with (Z.neg k) by lia.
    replace (Z.max (Z.pos (digits2_pos p) + 0 - 53) (3 - 1024 - 53))%Z
      with (Z.neg k) by lia.
    exists (Pos.iter xO p k), (Z.neg k). split; [|split].
    + apply binary_round_aux_canonical; [|lia].
      rewrite digits2_pos_iter_xO. lia.
    + lia.
    + rewrite Zpos_iter_xO. reflexivity.
Qed.

Lemma double_to_integer_scaled (s : bool) (m : positive) (e : Z) (v : Z) :
  (e <= 0)%Z -> Z.pos m = (v * 2 ^ (- e))%Z ->
  double_to_integer (S754_finite s m e) = Some (if s then Z.opp v else v).
Proof.
  intros He Hm. unfold double_to_integer.
  assert (Hpow : (0 < 2 ^ (- e))%Z) by (apply Z.pow_pos_nonneg; lia).
  destruct (Z.leb_spec 0 e) as [H0|H0].
  - assert (e = 0%Z) by lia. subst e. simpl in Hm. rewrite Hm.
    destruct s; f_equal; lia.
  - rewrite Hm, Z.mod_mul by lia. simpl. rewrite Z.div_mul by lia. reflexivity.
Qed.

Lemma int64_to_double_exact (z : Z) :
  (Z.abs z <= 2 ^ 53)%Z -> double_to_integer (int64_to_double z) = Some z.
Proof.
  intros Hz. unfold int64_to_double, binary_normalize.
  destruct z as [|p|p]; [reflexivity| |].
  - destruct (Z.eq_dec (Z.pos p) (2 ^ 53)) as [E|Hne].
    + inversion E; subst p. vm_compute. reflexivity.
    + destruct (binary_round_small false p) as (m & e & -> & He & Hm); [simpl in Hz; lia|].
      rewrite (double_to_integer_scaled false m e (Z.pos p)); [reflexivity|lia|assumption].
  - destruct (Z.eq_dec (Z.pos p) (2 ^ 53)) as [E|Hne].
    + inversion E; subst p. vm_compute. reflexivity.
    + destruct (binary_round_small true p) as (m & e & -> & He & Hm); [simpl in Hz; lia|].
      rewrite (double_to_integer_scaled true m e (Z.pos p)); [reflexivity|lia|assumption].
Qed.

(** X7.  [CastIntToDouble] is exact on integers of absolute value up to
    2^53: every output double denotes the integer it was made from, so
    slots with different integers get different doubles.  Beyond that it
    is not: 2^53 + 1 is converted to the double of 2^53. *)
Theorem CastIntToDouble_exact_below_2_53 :
  (forall slots : list (bool * Z),
     Forall (fun s => (Z.abs (snd s) <= 2 ^ 53)%Z) slots ->
     exists out,
       CastIntToDouble (Int64Array slots) float64 = Ok (DoubleArray out) /\
       map (fun s => double_to_integer (snd s)) out = map (fun s => Some (snd s)) slots /\
       (forall i j a b,
          nth_error slots i = Some a -> nth_error slots j = Some b ->
          option_map snd (nth_error out i) = option_map snd (nth_error out j) ->
          snd a = snd b))
  /\ CastIntToDouble (Int64Array [(true, 2 ^ 53 + 1)%Z]) float64
     = CastIntToDouble (Int64Array [(true, 2 ^ 53)%Z]) float64.
Proof.
  split; [|vm_compute; reflexivity].
  intros slots Hall. eexists. split; [reflexivity|].
  assert (Hmap : map (fun s : bool * spec_float => double_to_integer (snd s))
                   (map (fun s : bool * Z => (true, int64_to_double (snd s))) slots)
                 = map (fun s => Some (snd s)) slots).
  { rewrite map_map. apply map_ext_in. intros s Hs. simpl.
    apply int64_to_double_exact. rewrite Forall_forall in Hall. exact (Hall s Hs). }
  split; [exact Hmap|].
  intros i j a b Ha Hb Heq. rewrite !nth_error_map, Ha, Hb in Heq. simpl in Heq.
  inversion Heq as [Hd].
  rewrite Forall_forall in Hall.
  pose proof (int64_to_double_exact (snd a) (Hall a (nth_error_In _ _ Ha))) as H1.
  pose proof (int64_to_double_exact (snd b) (Hall b (nth_error_In _ _ Hb))) as H2.
  rewrite Hd in H1. congruence.
Qed.

Lemma CastIntToDouble_exact_below_2_53_witness :
  let slots := [(true, 2 ^ 53); (false, -3); (true, 0)]%Z in
  Forall (fun s => (Z.abs (snd s) <= 2 ^ 53)%Z) slots /\
  exists out,
    CastIntToDouble (Int64Array slots) float64 = Ok (DoubleArray out) /\
    map (fun s => double_to_integer (snd s)) out = map (fun s => Some (snd s)) slots.
Proof.
  intros slots.
  assert (H : Forall (fun s => (Z.abs (snd s) <= 2 ^ 53)%Z) slots).
  { repeat constructor; apply Z.leb_le; vm_compute; reflexivity. }
  split; [exact H|].
  destruct (proj1 CastIntToDouble_exact_below_2_53 slots H) as (out & Hout & Hmap & _).
  exists out. split; assumption.
Defined.

(** ** Label lists and label maps *)

Lemma StringMap_elements_In {V : Type} (m : StringMap.t V) (k : string) (v : V) :
  In (k, v) (StringMap.elements m) <-> StringMap.find k m = Some v.
Proof.
  rewrite <- StringMapFacts.find_mapsto_iff, StringMapFacts.elements_mapsto_iff.
  rewrite InA_alt. split.
  - intros H. exists (k, v). split; [|assumption]. split; reflexivity.
  - intros ([k' v'] & [Hk Hv] & Hin). simpl in Hk, Hv. subst. exact Hin.
Qed.

Lemma StringMap_elements_keys {V : Type} (m : StringMap.t V) :
  NoDup (map fst (StringMap.elements m)).
Proof.
  pose proof (StringMap.elements_3w m) as H.
  induction H as [|[k v] l Hnin _ IH]; simpl; constructor; [|assumption].
  intros Hin. apply Hnin. apply in_map_iff in Hin as ([k' v'] & Hk & Hin).
  simpl in Hk. subst k'. apply InA_alt. exists (k, v'). split; [reflexivity|assumption].
Qed.

Lemma assign_labels_Ok (failed_msg multiple_msg : string) (label_num : label_id_t)
      (pairs : list (string * label_id_t)) :
  forall label_list label_bitset labels,
    length label_list = label_num ->
    length label_bitset = label_num ->
    assign_labels failed_msg multiple_msg label_num pairs label_list label_bitset
    = Ok labels ->
    length labels = label_num /\
    NoDup (map snd pairs) /\
    (forall name i, In (name, i) pairs ->
       i < label_num /\ nth_error label_bitset i = Some false /\
       nth_error labels i = Some name) /\
    (forall i, ~ In i (map snd pairs) -> nth_error labels i = nth_error label_list i).
Proof.
  induction pairs as [|[label index] rest IH]; intros l b labels Hl Hb H; simpl in H.
  - inversion H; subst labels. split; [assumption|]. split; [constructor|].
    split; [intros ? ? []|reflexivity].
  - destruct (Nat.ltb_spec label_num index) as [|Hle]; [discriminate|].
    destruct (nth_error b index) as [[|]|] eqn:Hbit; try discriminate.
    assert (Hlt : index < label_num).
    { rewrite <- Hb. apply nth_error_Some. congruence. }
    apply IH in H as (Hlen & Hnd & Hin & Hout);
      [|now rewrite vector_set_length..].
    assert (Hfresh : ~ In index (map snd rest)).
    { intros Hi. apply in_map_iff in Hi as ([name i] & Hi & Hin'). simpl in Hi. subst i.
      destruct (Hin _ _ Hin') as (_ & Hset & _).
      rewrite vector_set_lookup in Hset by lia. rewrite Nat.eqb_refl in Hset.
      discriminate. }
    split; [assumption|]. split; [simpl; constructor; assumption|]. split.
    + intros name i [E|Hin'].
      * inversion E; subst. split; [assumption|]. split; [assumption|].
        rewrite (Hout _ Hfresh), vector_set_lookup by lia. now rewrite Nat.eqb_refl.
      * destruct (Hin _ _ Hin') as (Hi & Hset & Hlab).
        split; [assumption|]. split; [|assumption].
        rewrite vector_set_lookup in Hset by lia.
        destruct (Nat.eqb i index); [discriminate|assumption].
    + intros i Hni. simpl in Hni.
      rewrite Hout by tauto. rewrite vector_set_lookup by lia.
      destruct (Nat.eqb_spec i index); [subst; tauto|reflexivity].
Qed.

Lemma assign_labels_total (failed_msg multiple_msg : string) (label_num : label_id_t)
      (pairs : list (string * label_id_t)) :
  forall label_list label_bitset,
    length label_list = label_num ->
    length label_bitset = label_num ->
    NoDup (map snd pairs) ->
    (forall name i, In (name, i) pairs ->
       i < label_num /\ nth_error label_bitset i = Some false) ->
    exists labels,
      assign_labels failed_msg multiple_msg label_num pairs label_list label_bitset
      = Ok labels.
Proof.
  induction pairs as [|[label index] rest IH]; intros l b Hl Hb Hnd Hin; simpl.
  - eauto.
  - destruct (Hin label index (or_introl eq_refl)) as [Hlt Hbit].
    destruct (Nat.ltb_spec label_num index) as [|_]; [lia|]. rewrite Hbit.
    inversion Hnd as [|? ? Hfresh Hnd']; subst.
    apply IH; [now rewrite vector_set_length..|assumption|].
    intros name i Hin'. destruct (Hin name i (or_intror Hin')) as [Hi Hset].
    split; [assumption|]. rewrite vector_set_lookup by lia.
    destruct (Nat.eqb_spec i index) as [->|]; [|assumption].
    exfalso. apply Hfresh. apply in_map_iff. exists (name, index). auto.
Qed.

Lemma NoDup_values {V : Type} (pairs : list (string * V)) :
  NoDup (map fst pairs) ->
  (forall name name' v, In (name, v) pairs -> In (name', v) pairs -> name = name') ->
  NoDup (map snd pairs).
Proof.
  induction pairs as [|[k v] rest IH]; simpl; intros Hk Hinj; constructor.
  - intros Hin. apply in_map_iff in Hin as ([k' v'] & Hv & Hin). simpl in Hv. subst v'.
    assert (k = k') by (apply (Hinj k k' v); auto). subst k'.
    inversion Hk as [|? ? Hfresh _]; subst. apply Hfresh.
    apply in_map_iff. exists (k, v). auto.
  - inversion Hk; subst. apply IH; [assumption|]. intros; eapply Hinj; eauto.
Qed.

Lemma NoDup_values_inj {V : Type} (pairs : list (string * V)) :
  NoDup (map snd pairs) ->
  forall name name' v, In (name, v) pairs -> In (name', v) pairs -> name = name'.
Proof.
  induction pairs as [|[k v] rest IH]; simpl; intros Hnd name name' w H1 H2; [tauto|].
  inversion Hnd as [|? ? Hfresh Hnd']; subst.
  assert (Hno : forall n, In (n, v) rest -> False).
  { intros n Hn. apply Hfresh. apply in_map_iff. exists (n, v). auto. }
  destruct H1 as [E1|H1], H2 as [E2|H2].
  - congruence.
  - inversion E1; subst. exfalso; eauto.
  - inversion E2; subst. exfalso; eauto.
  - eapply IH; eassumption.
Qed.

Lemma repeat_lookup {A : Type} (x : A) (n i : nat) :
  i < n -> nth_error (repeat x n) i = Some x.
Proof.
  revert i; induction n as [|n IH]; intros [|i] H; simpl; try lia; [reflexivity|].
  apply IH. lia.
Qed.

Lemma label_list_of_Ok (failed_msg multiple_msg : string)
      (label_num : label_id_t) (m : StringMap.t label_id_t) (labels : list string) :
  label_list_of failed_msg multiple_msg label_num m = Ok labels ->
  length labels = label_num /\
  (forall name i, StringMap.find name m = Some i ->
     i < label_num /\ nth_error labels i = Some name) /\
  (forall name name' i,
     StringMap.find name m = Some i -> StringMap.find name' m = Some i ->
     name = name') /\
  (forall i, i < label_num -> (forall name, StringMap.find name m <> Some i) ->
     nth_error labels i = Some EmptyString).
Proof.
  unfold label_list_of. intros H.
  apply assign_labels_Ok in H as (Hlen & Hnd & Hin & Hout);
    [|apply repeat_length..].
  split; [assumption|]. split; [|split].
  - intros name i Hf. apply StringMap_elements_In in Hf.
    destruct (Hin _ _ Hf) as (? & _ & ?). auto.
  - intros name name' i H1 H2. apply StringMap_elements_In in H1, H2.
    eapply NoDup_values_inj; eassumption.
  - intros i Hi Hnone. rewrite Hout.
    + now apply repeat_lookup.
    + intros Hin'. apply in_map_iff in Hin' as ([name i'] & E & Hin'). simpl in E.
      subst i'. apply StringMap_elements_In in Hin'. now apply Hnone in Hin'.
Qed.

Lemma label_list_of_total (failed_msg multiple_msg : string)
      (label_num : label_id_t) (m : StringMap.t label_id_t) :
  (forall name i, StringMap.find name m = Some i -> i < label_num) ->
  (forall name name' i,
     StringMap.find name m = Some i -> StringMap.find name' m = Some i ->
     name = name') ->
  exists labels, label_list_of failed_msg multiple_msg label_num m = Ok labels.
Proof.
  unfold label_list_of.
  intros Hrange Hinj. apply assign_labels_total; try apply repeat_length.
  - apply NoDup_values; [apply StringMap_elements_keys|].
    intros name name' v H1 H2. apply StringMap_elements_In in H1, H2. eauto.
  - intros name i Hin. apply StringMap_elements_In in Hin.
    pose proof (Hrange _ _ Hin). split; [assumption|]. now apply repeat_lookup.
Qed.

(** X8.  The label list [shuffleAndBuild] makes of a label map is the
    inverse of the map.  When it is made, it has [label_num] entries, every
    mapped label has an index below [label_num] and sits there, no two
    labels share an index, and an index no label is mapped to holds the
    empty string; and it is made whenever every index is below [label_num]
    and no two labels share one. *)
Theorem label_list_of_inverts_map (failed_msg multiple_msg : string)
        (label_num : label_id_t) (m : StringMap.t label_id_t) :
  (forall labels,
     label_list_of failed_msg multiple_msg label_num m = Ok labels ->
     length labels = label_num /\
     (forall name i, StringMap.find name m = Some i ->
        i < label_num /\ nth_error labels i = Some name) /\
     (forall name name' i,
        StringMap.find name m = Some i -> StringMap.find name' m = Some i ->
        name = name') /\
     (forall i, i < label_num -> (forall name, StringMap.find name m <> Some i) ->
        nth_error labels i = Some EmptyString))
  /\ ((forall name i, StringMap.find name m = Some i -> i < label_num) ->
      (forall name name' i,
         StringMap.find name m = Some i -> StringMap.find name' m = Some i ->
         name = name') ->
      exists labels, label_list_of failed_msg multiple_msg label_num m = Ok labels).
Proof.
  split.
  - apply label_list_of_Ok.
  - apply label_list_of_total.
Qed.

Lemma label_list_of_inverts_map_witness :
  let m := StringMap.add "city" 1 (StringMap.add "person" 0 (StringMap.empty label_id_t)) in
  exists labels,
    label_list_of "failed" "multiple" 2 m = Ok labels /\
    length labels = 2 /\
    (forall name i, StringMap.find name m = Some i ->
       i < 2 /\ nth_error labels i = Some name) /\
    (forall name name' i,
       StringMap.find name m = Some i -> StringMap.find name' m = Some i ->
       name = name') /\
    (forall i, i < 2 -> (forall name, StringMap.find name m <> Some i) ->
       nth_error labels i = Some EmptyString).
Proof.
  intros m.
  destruct (label_list_of "failed" "multiple" 2 m) as [labels| |] eqn:E;
    try (vm_compute in E; discriminate E).
  exists labels. split; [reflexivity|].
  exact (proj1 (label_list_of_inverts_map "failed" "multiple" 2 m) labels E).
Defined.

(** ** Vertex tables loaded from files *)

(** A map that sends the labels of a list, and nothing else, to their
    positions is inverted into that list. *)
Lemma label_list_of_positions (failed_msg multiple_msg : string)
      (m : StringMap.t label_id_t) (labels : list string) :
  (forall name i, StringMap.find name m = Some i <-> nth_error labels i = Some name) ->
  label_list_of failed_msg multiple_msg (length labels) m = Ok labels.
Proof.
  intros Hm.
  destruct (label_list_of_total failed_msg multiple_msg (length labels) m) as [l Hl].
  - intros name i Hf. apply Hm in Hf. apply nth_error_Some. congruence.
  - intros name name' i H1 H2. apply Hm in H1, H2. congruence.
  - rewrite Hl. f_equal.
    destruct (label_list_of_Ok _ _ _ _ _ Hl) as (Hlen & Hin & _ & _).
    apply list_ext_lookup. intros i.
    destruct (nth_error labels i) as [name|] eqn:Hi.
    + apply Hm in Hi. now destruct (Hin _ _ Hi).
    + apply nth_error_None. apply nth_error_None in Hi. lia.
Qed.

Section VertexTables.

Variables ID_COLUMN : string.
Variable GetMeta : string -> adaptor_meta_t.
Variable ReadTable : string -> nat -> nat -> result (option Table).

Local Abbreviation vertex_table := (load_vertex_table ID_COLUMN GetMeta ReadTable).
Local Abbreviation loadV_from := (loadVertexTables_from ID_COLUMN GetMeta ReadTable).
Local Abbreviation loadV := (loadVertexTables ID_COLUMN GetMeta ReadTable).
Local Abbreviation declared := (label_of GetMeta).

Lemma returns_load_vertex_table (index total_parts : nat) (label_id : label_id_t)
      (file : string) (st st' : LoaderState) (t : Table) :
  returns (vertex_table index total_parts label_id file st) (Ok t, st') ->
  exists label table schemas normalized,
    declared file = Some label /\
    ReadTable (adaptor_path file) index total_parts = Ok table /\
    SyncSchema table schemas = Ok normalized /\
    t = ReplaceSchemaMetadata normalized
          ([("type", "VERTEX"); (ID_COLUMN, to_string id_column)]
           ++ GetMeta (adaptor_path file) ++ [("label", label)]) /\
    st' = set_vertex_label_to_index st
            (StringMap.add label label_id (vertex_label_to_index_ st)).
Proof.
  unfold load_vertex_table, label_of. intros H.
  apply returns_bindM_Ok in H as (table & st1 & Hread & H).
  apply returns_sync_Ok in Hread. apply returns_liftM in Hread.
  injection Hread as Hread ->.
  apply returns_bindM_Ok in H as (normalized & st2 & Hsync & H).
  apply returns_sync_Ok in Hsync.
  apply returns_SyncSchema_procedure in Hsync as [-> [schemas Hsync]].
  destruct (meta_find LABEL_TAG (GetMeta (adaptor_path file))) as [label|];
    [|now apply returns_RETURN_GS_ERROR in H].
  apply returns_bindM_Ok in H as (s & st3 & Hget & H).
  apply returns_getM in Hget as [-> ->].
  apply returns_bindM_Ok in H as (u & st4 & Hput & H).
  apply returns_putM in Hput. subst st4.
  apply returns_retM in H as [-> ->].
  exists label, table, schemas, normalized. rewrite <- app_assoc. auto.
Qed.

Lemma returns_loadVertexTables_from (index total_parts : nat) (files : list string) :
  forall label_id st tables st',
    returns (loadV_from index total_parts label_id files st) (Ok tables, st') ->
    exists labels,
      map declared files = map Some labels /\
      length tables = length files /\
      edge_label_to_index_ st' = edge_label_to_index_ st /\
      edge_vertex_label_ st' = edge_vertex_label_ st /\
      vertex_label_num_ st' = vertex_label_num_ st /\
      edge_label_num_ st' = edge_label_num_ st /\
      (forall i file t,
         nth_error files i = Some file -> nth_error tables i = Some t ->
         exists label,
           nth_error labels i = Some label /\
           fields (schema t) <> [] /\
           metadata (schema t)
           = Some ([("type", "VERTEX"); (ID_COLUMN, to_string id_column)]
                   ++ GetMeta (adaptor_path file) ++ [("label", label)])) /\
      (forall name, ~ In name labels ->
         StringMap.find name (vertex_label_to_index_ st')
         = StringMap.find name (vertex_label_to_index_ st)) /\
      (forall name i, last_position labels name i ->
         StringMap.find name (vertex_label_to_index_ st') = Some (label_id + i)).
Proof.
  induction files as [|file files IH]; intros label_id st tables st' H; simpl in H.
  - apply returns_retM in H as [-> ->]. exists []. repeat split; auto.
    + intros [|i] ? ? Hf; discriminate.
    + intros name [|i] [Hi _]; discriminate.
  - apply returns_bindM_Ok in H as (t & st1 & Hbody & H).
    apply returns_load_vertex_table in Hbody
      as (label & table & schemas & normalized & Hlabel & Hread & Hsync & -> & ->).
    apply returns_bindM_Ok in H as (tables' & st2 & Hrest & H).
    apply returns_retM in H as [-> ->].
    apply IH in Hrest
      as (labels & Hlabels & Hlen & He & Hev & Hvn & Hen & Htab & Hother & Hlast).
    simpl in He, Hev, Hvn, Hen, Hother.
    exists (label :: labels). simpl.
    split; [now rewrite Hlabel, Hlabels|]. split; [now rewrite Hlen|].
    split; [assumption|]. split; [assumption|]. split; [assumption|].
    split; [assumption|]. split; [|split].
    + intros [|i] f t Hf Ht; simpl in Hf, Ht.
      * inversion Hf; inversion Ht; subst. exists label. split; [reflexivity|].
        split; [|reflexivity]. simpl.
        destruct (SyncSchema_fields _ _ _ Hsync) as (T & HT & ->).
        now destruct (TypeLoosen_output _ _ HT).
      * eapply Htab; eassumption.
    + intros name Hni. rewrite Hother by tauto. simpl.
      apply StringMapFacts.add_neq_o. tauto.
    + intros name [|i] [Hi Hno]; simpl in Hi.
      * inversion Hi; subst name. rewrite Hother.
        -- simpl. rewrite StringMapFacts.add_eq_o by reflexivity. f_equal. lia.
        -- intros Hin. apply In_nth_error in Hin as [j Hj].
           apply (Hno (S j)); [lia|exact Hj].
      * rewrite (Hlast name i).
        -- f_equal. lia.
        -- split; [assumption|]. intros j Hj. apply (Hno (S j)). lia.
Qed.

Lemma last_position_NoDup (labels : list string) (name : string) (i : nat) :
  NoDup labels -> nth_error labels i = Some name -> last_position labels name i.
Proof.
  intros Hnd Hi. split; [assumption|]. intros j Hj Hn.
  assert (i = j); [|lia].
  eapply NoDup_nth_error; try eassumption.
  - apply nth_error_Some. congruence.
  - congruence.
Qed.

(** X9.  When [loadVertexTables] succeeds every file declared a label
    and there is one table per file, in the order of the files; a table has
    at least one column and, as metadata, the type and id-column entries,
    the adaptor's metadata of its file and the label.  The label map is
    changed at the declared labels only, and a label is mapped to the
    position of the last file that declares it.  With distinct labels, an
    empty map before and as many vertex labels as files, the vertex label
    list is the list of the declared labels. *)
Theorem loadVertexTables_labels (files : list string) (index total_parts : nat)
        (st : LoaderState) (tables : list Table) (st' : LoaderState) :
  returns (loadV files index total_parts st) (Ok tables, st') ->
  exists labels,
    map declared files = map Some labels /\
    length tables = length files /\
    (forall i file t,
       nth_error files i = Some file -> nth_error tables i = Some t ->
       exists label,
         nth_error labels i = Some label /\
         fields (schema t) <> [] /\
         metadata (schema t)
         = Some ([("type", "VERTEX"); (ID_COLUMN, to_string id_column)]
                 ++ GetMeta (adaptor_path file) ++ [("label", label)])) /\
    (forall name, ~ In name labels ->
       StringMap.find name (vertex_label_to_index_ st')
       = StringMap.find name (vertex_label_to_index_ st)) /\
    (forall name i, last_position labels name i ->
       StringMap.find name (vertex_label_to_index_ st') = Some i) /\
    (NoDup labels ->
     StringMap.Empty (vertex_label_to_index_ st) ->
     vertex_label_num_ st = length files ->
     vertex_label_list st' = Ok labels).
Proof.
  intros H. apply returns_loadVertexTables_from in H
    as (labels & Hlabels & Hlen & _ & _ & Hvn & _ & Htab & Hother & Hlast).
  exists labels. split; [assumption|]. split; [assumption|]. split; [assumption|].
  split; [assumption|]. split; [exact Hlast|].
  intros Hnd Hempty Hnum. unfold vertex_label_list. rewrite Hvn, Hnum.
  replace (length files) with (length labels).
  2:{ rewrite <- (length_map Some labels), <- Hlabels. apply length_map. }
  apply label_list_of_positions. intros name i. split.
  - intros Hf. destruct (in_dec string_dec name labels) as [Hin|Hni].
    + apply In_nth_error in Hin as [j Hj].
      rewrite (Hlast name j (last_position_NoDup _ _ _ Hnd Hj)) in Hf.
      injection Hf as <-. exact Hj.
    + rewrite (Hother name Hni) in Hf.
      apply StringMapFacts.find_mapsto_iff in Hf. now apply Hempty in Hf.
  - intros Hi. apply (Hlast name i). now apply last_position_NoDup.
Qed.

End VertexTables.

Lemma loadVertexTables_labels_witness :
  let ID_COLUMN := "id_column" in
  let GetMeta := descriptor_meta in
  let declared := label_of descriptor_meta in
  let loadV := loadVertexTables "id_column" descriptor_meta same_edges_everywhere in
  let files := people_and_cities in
  let st := new_loader 2 0 in
  exists tables st',
    returns (loadV files 0 1 st) (Ok tables, st') /\
    exists labels,
      map declared files = map Some labels /\
      length tables = length files /\
      (forall i file t,
         nth_error files i = Some file -> nth_error tables i = Some t ->
         exists label,
           nth_error labels i = Some label /\
           fields (schema t) <> [] /\
           metadata (schema t)
           = Some ([("type", "VERTEX"); (ID_COLUMN, to_string id_column)]
                   ++ GetMeta (adaptor_path file) ++ [("label", label)])) /\
      (forall name, ~ In name labels ->
         StringMap.find name (vertex_label_to_index_ st')
         = StringMap.find name (vertex_label_to_index_ st)) /\
      (forall name i, last_position labels name i ->
         StringMap.find name (vertex_label_to_index_ st') = Some i) /\
      (NoDup labels ->
       StringMap.Empty (vertex_label_to_index_ st) ->
       vertex_label_num_ st = length files ->
       vertex_label_list st' = Ok labels).
Proof.
  intros ID_COLUMN GetMeta declared loadV files st.
  destruct (run_workers [loadV files 0 1 st])
    as [[|[[tables|e|] st'] [|? ?]]|] eqn:E;
    try (vm_compute in E; discriminate E).
  apply run_alone_returns in E.
  exists tables, st'. split; [exact E|].
  exact (loadVertexTables_labels "id_column" descriptor_meta same_edges_everywhere
           files 0 1 st tables st' E).
Defined.

(** ** Edge tables loaded from files *)

Lemma relation_in_insert (st : LoaderState) (m : StringMap.t label_id_t)
      (label src dst : string) :
  relation_in
    (set_edge_label_to_index
       (set_edge_vertex_label st
          (insert_relation (edge_vertex_label_ st) label src dst)) m)
    label src dst.
Proof.
  unfold relation_in, insert_relation. simpl.
  eexists. split; [apply StringMapFacts.add_eq_o; reflexivity|].
  apply StringPairSet.add_spec. left. reflexivity.
Qed.

Lemma relation_in_kept (st : LoaderState) (m : StringMap.t label_id_t)
      (label src dst l s d : string) :
  relation_in st l s d ->
  relation_in
    (set_edge_label_to_index
       (set_edge_vertex_label st
          (insert_relation (edge_vertex_label_ st) label src dst)) m)
    l s d.
Proof.
  unfold relation_in, insert_relation. simpl. intros (pairs & Hf & Hin).
  destruct (string_dec label l) as [->|Hne].
  - rewrite Hf. eexists. split; [apply StringMapFacts.add_eq_o; reflexivity|].
    apply StringPairSet.add_spec. now right.
  - exists pairs. split; [|assumption].
    rewrite StringMapFacts.add_neq_o by assumption. assumption.
Qed.

Section EdgeTables.

Variables SRC_COLUMN DST_COLUMN SRC_LABEL_ID DST_LABEL_ID : string.
Variable GetMeta : string -> adaptor_meta_t.
Variable ReadTable : string -> nat -> nat -> result (option Table).
Variable out_of_range_what : string.

Local Abbreviation src_of := (src_label_of GetMeta).
Local Abbreviation dst_of := (dst_label_of GetMeta).
Local Abbreviation declared := (label_of GetMeta).
Local Abbreviation declares := (declares_edge_label GetMeta).
Local Abbreviation edge_table_of :=
  (load_edge_table SRC_COLUMN DST_COLUMN SRC_LABEL_ID DST_LABEL_ID GetMeta ReadTable
     out_of_range_what).
Local Abbreviation loadE_from :=
  (loadEdgeTables_from SRC_COLUMN DST_COLUMN SRC_LABEL_ID DST_LABEL_ID GetMeta ReadTable
     out_of_range_what).
Local Abbreviation loadE :=
  (loadEdgeTables SRC_COLUMN DST_COLUMN SRC_LABEL_ID DST_LABEL_ID GetMeta ReadTable
     out_of_range_what).
Local Abbreviation edge_table_from :=
  (loaded_edge_table SRC_COLUMN DST_COLUMN SRC_LABEL_ID DST_LABEL_ID GetMeta).

Lemma returns_load_edge_table (index total_parts : nat) (label_id : label_id_t)
      (sub_label_num : nat) (sub : string) (st st' : LoaderState) (t : Table) :
  returns (edge_table_of index total_parts label_id sub_label_num sub st) (Ok t, st') ->
  edge_table_from st sub_label_num sub t /\
  exists label src dst,
    declared sub = Some label /\ src_of sub = Some src /\ dst_of sub = Some dst /\
    st' = set_edge_label_to_index
            (set_edge_vertex_label st
               (insert_relation (edge_vertex_label_ st) label src dst))
            (StringMap.add label label_id (edge_label_to_index_ st)).
Proof.
  unfold load_edge_table, loaded_edge_table, label_of, src_label_of, dst_label_of.
  intros H.
  apply returns_bindM_Ok in H as (table & st1 & Hread & H).
  apply returns_sync_Ok in Hread. apply returns_liftM in Hread.
  injection Hread as Hread ->.
  apply returns_bindM_Ok in H as (normalized & st2 & Hsync & H).
  apply returns_sync_Ok in Hsync.
  apply returns_SyncSchema_procedure in Hsync as [-> [schemas Hsync]].
  destruct (meta_find LABEL_TAG (GetMeta (adaptor_path sub))) as [label|];
    [|now apply returns_RETURN_GS_ERROR in H].
  destruct (meta_find SRC_LABEL_TAG (GetMeta (adaptor_path sub))) as [src|];
    [|now apply returns_RETURN_GS_ERROR in H].
  apply returns_bindM_Ok in H as (src_id & st3 & Hsrc & H).
  apply returns_vertex_label_at in Hsrc as [-> Hsrc].
  destruct (meta_find DST_LABEL_TAG (GetMeta (adaptor_path sub))) as [dst|];
    [|now apply returns_RETURN_GS_ERROR in H].
  apply returns_bindM_Ok in H as (dst_id & st4 & Hdst & H).
  apply returns_vertex_label_at in Hdst as [-> Hdst].
  apply returns_bindM_Ok in H as (s & st5 & Hget & H).
  apply returns_getM in Hget as [-> ->].
  apply returns_bindM_Ok in H as (u & st6 & Hput & H).
  apply returns_putM in Hput. subst st6.
  apply returns_retM in H as [-> ->].
  split.
  - exists label, src, dst, src_id, dst_id. repeat split; try assumption; try reflexivity.
    simpl. destruct (SyncSchema_fields _ _ _ Hsync) as (T & HT & ->).
    now destruct (TypeLoosen_output _ _ HT).
  - exists label, src, dst. auto.
Qed.

Lemma declared_dec (subs : list string) (label : string) :
  (exists sub, In sub subs /\ declared sub = Some label)
  \/ (forall sub, In sub subs -> declared sub <> Some label).
Proof.
  induction subs as [|sub subs [(s & Hin & Hs)|Hno]].
  - right. intros ? [].
  - left. exists s. simpl. auto.
  - destruct (declared sub) as [l|] eqn:E.
    + destruct (string_dec l label) as [->|Hne].
      * left. exists sub. simpl. auto.
      * right. intros s [<-|Hin]; [congruence|now apply Hno].
    + right. intros s [<-|Hin]; [congruence|now apply Hno].
Qed.

Lemma returns_edge_sub_files (index total_parts : nat) (label_id : label_id_t)
      (sub_label_num : nat) (subs : list string) :
  forall st tables st',
    returns (for_each (edge_table_of index total_parts label_id sub_label_num) subs st)
            (Ok tables, st') ->
    vertex_label_to_index_ st' = vertex_label_to_index_ st /\
    vertex_label_num_ st' = vertex_label_num_ st /\
    edge_label_num_ st' = edge_label_num_ st /\
    length tables = length subs /\
    (forall j sub t,
       nth_error subs j = Some sub -> nth_error tables j = Some t ->
       edge_table_from st sub_label_num sub t) /\
    (forall label,
       (exists sub, In sub subs /\ declared sub = Some label) ->
       StringMap.find label (edge_label_to_index_ st') = Some label_id) /\
    (forall label,
       (forall sub, In sub subs -> declared sub <> Some label) ->
       StringMap.find label (edge_label_to_index_ st')
       = StringMap.find label (edge_label_to_index_ st)) /\
    (forall l s d, relation_in st l s d -> relation_in st' l s d) /\
    (forall sub, In sub subs ->
       exists label src dst,
         declared sub = Some label /\ src_of sub = Some src /\ dst_of sub = Some dst /\
         relation_in st' label src dst) /\
    (forall label,
       (forall sub, In sub subs -> declared sub <> Some label) ->
       StringMap.find label (edge_vertex_label_ st')
       = StringMap.find label (edge_vertex_label_ st)).
Proof.
  induction subs as [|sub subs IH]; intros st tables st' H; simpl in H.
  - apply returns_retM in H as [-> ->]. repeat split; auto.
    + intros [|j] ? ? Hs; discriminate.
    + intros label (sub & [] & _).
    + intros sub [].
  - apply returns_bindM_Ok in H as (t & st1 & Hbody & H).
    apply returns_load_edge_table in Hbody
      as (Htable & label & src & dst & Hlabel & Hsrc & Hdst & ->).
    apply returns_bindM_Ok in H as (tables' & st2 & Hrest & H).
    apply returns_retM in H as [-> ->].
    apply IH in Hrest
      as (Hv & Hvn & Hen & Hlen & Htab & Hset & Hkeep & Hmono & Hrel & Hrk).
    simpl in Hv, Hvn, Hen, Hkeep, Hrk.
    split; [assumption|]. split; [assumption|]. split; [assumption|].
    split; [simpl; congruence|]. split; [|split; [|split; [|split; [|split]]]].
    + intros [|j] s t' Hs Ht; simpl in Hs, Ht.
      * inversion Hs; inversion Ht; subst. exact Htable.
      * destruct (Htab j s t' Hs Ht)
          as (l & s1 & d1 & i1 & i2 & ? & ? & ? & ? & ? & ? & ?).
        exists l, s1, d1, i1, i2. simpl in *. auto 10.
    + intros l (s & [<-|Hin] & Hl).
      * destruct (declared_dec subs l) as [Hex|Hno].
        -- now apply Hset.
        -- rewrite Hkeep by assumption.
           rewrite Hlabel in Hl. inversion Hl; subst l.
           now apply StringMapFacts.add_eq_o.
      * apply Hset. eauto.
    + intros l Hno. rewrite Hkeep.
      * apply StringMapFacts.add_neq_o. intros ->. apply (Hno sub); simpl; auto.
      * intros s Hin. apply Hno. simpl; auto.
    + intros l s d Hin. apply Hmono. now apply relation_in_kept.
    + intros s [<-|Hin].
      * exists label, src, dst. repeat split; try assumption.
        apply Hmono. apply relation_in_insert.
      * now apply Hrel.
    + intros l Hno. rewrite Hrk.
      * unfold insert_relation. apply StringMapFacts.add_neq_o. intros ->.
        apply (Hno sub); simpl; auto.
      * intros s Hin. apply Hno. simpl; auto.
Qed.

Lemma declares_dec (files : list string) (label : string) (e : nat) :
  declares files label e \/ ~ declares files label e.
Proof.
  unfold declares_edge_label.
  destruct (nth_error files e) as [efile|] eqn:He.
  - destruct (declared_dec (split_semicolon efile) label) as [(sub & Hin & Hs)|Hno].
    + left. exists efile, sub. auto.
    + right. intros (f & sub & Hf & Hin & Hs). inversion Hf; subst f.
      now apply (Hno sub).
  - right. intros (f & sub & Hf & _). discriminate.
Qed.

Lemma returns_loadEdgeTables_from (index total_parts : nat) (files : list string) :
  forall label_id st tables st',
    returns (loadE_from index total_parts label_id files st) (Ok tables, st') ->
    vertex_label_to_index_ st' = vertex_label_to_index_ st /\
    vertex_label_num_ st' = vertex_label_num_ st /\
    edge_label_num_ st' = edge_label_num_ st /\
    length tables = length files /\
    (forall e efile,
       nth_error files e = Some efile ->
       exists sub_tables,
         nth_error tables e = Some sub_tables /\
         length sub_tables = length (split_semicolon efile) /\
         forall j sub t,
           nth_error (split_semicolon efile) j = Some sub ->
           nth_error sub_tables j = Some t ->
           edge_table_from st (length (split_semicolon efile)) sub t) /\
    (forall label e,
       declares files label e ->
       (forall e', e < e' -> ~ declares files label e') ->
       StringMap.find label (edge_label_to_index_ st') = Some (label_id + e)) /\
    (forall label,
       (forall e, ~ declares files label e) ->
       StringMap.find label (edge_label_to_index_ st')
       = StringMap.find label (edge_label_to_index_ st)) /\
    (forall l s d, relation_in st l s d -> relation_in st' l s d) /\
    (forall efile sub,
       In efile files -> In sub (split_semicolon efile) ->
       exists label src dst,
         declared sub = Some label /\ src_of sub = Some src /\ dst_of sub = Some dst /\
         relation_in st' label src dst) /\
    (forall label,
       (forall e, ~ declares files label e) ->
       StringMap.find label (edge_vertex_label_ st')
       = StringMap.find label (edge_vertex_label_ st)).
Proof.
  induction files as [|file files IH]; intros label_id st tables st' H; simpl in H.
  - apply returns_retM in H as [-> ->]. repeat split; auto.
    + intros [|e] ? He; discriminate.
    + intros label [|e] (f & sub & Hf & _); discriminate.
    + intros efile sub [].
  - apply returns_bindM_Ok in H as (sub_tables & st1 & Hsubs & H).
    apply returns_edge_sub_files in Hsubs
      as (Hv1 & Hvn1 & Hen1 & Hlen1 & Htab1 & Hset1 & Hkeep1 & Hmono1 & Hrel1 & Hrk1).
    apply returns_bindM_Ok in H as (tables' & st2 & Hrest & H).
    apply returns_retM in H as [-> ->].
    apply IH in Hrest
      as (Hv & Hvn & Hen & Hlen & Htab & Hlast & Hkeep & Hmono & Hrel & Hrk).
    split; [congruence|]. split; [congruence|]. split; [congruence|].
    split; [simpl; congruence|]. split; [|split; [|split; [|split; [|split]]]].
    + intros [|e] efile He; simpl in He.
      * inversion He; subst efile. exists sub_tables. simpl. auto.
      * destruct (Htab e efile He) as (subs & Hs & Hl & Hall).
        exists subs. simpl. split; [assumption|]. split; [assumption|].
        intros j sub t Hj Ht.
        destruct (Hall j sub t Hj Ht)
          as (l & s1 & d1 & i1 & i2 & ? & ? & ? & ? & ? & ? & ?).
        exists l, s1, d1, i1, i2. rewrite <- Hv1. auto 10.
    + intros label [|e] Hdecl Hlater.
      * rewrite Hkeep.
        -- rewrite Nat.add_0_r. apply Hset1.
           destruct Hdecl as (f & sub & Hf & Hin & Hs). simpl in Hf.
           inversion Hf; subst f. eauto.
        -- intros e' Hd. apply (Hlater (S e')); [lia|].
           destruct Hd as (f & sub & Hf & Hin & Hs). exists f, sub. auto.
      * rewrite (Hlast label e).
        -- f_equal. lia.
        -- destruct Hdecl as (f & sub & Hf & Hin & Hs). exists f, sub. auto.
        -- intros e' He' Hd. apply (Hlater (S e')); [lia|].
           destruct Hd as (f & sub & Hf & Hin & Hs). exists f, sub. auto.
    + intros label Hno. rewrite Hkeep.
      * apply Hkeep1. intros sub Hin Hs. apply (Hno 0). exists file, sub. auto.
      * intros e Hd. apply (Hno (S e)).
        destruct Hd as (f & sub & Hf & Hin & Hs). exists f, sub. auto.
    + intros l s d Hin. apply Hmono. now apply Hmono1.
    + intros efile sub [<-|Hin] Hsub.
      * destruct (Hrel1 sub Hsub) as (l & s & d & ? & ? & ? & Hr).
        exists l, s, d. auto.
      * now apply (Hrel efile).
    + intros label Hno. rewrite Hrk.
      * apply Hrk1. intros sub Hin Hs. apply (Hno 0). exists file, sub. auto.
      * intros e Hd. apply (Hno (S e)).
        destruct Hd as (f & sub & Hf & Hin & Hs). exists f, sub. auto.
Qed.

(** X10.  [loadEdgeTables] never succeeds when a sub-source of an edge
    file names a source or destination label that the vertex label map
    does not hold. *)
Theorem loadEdgeTables_needs_vertex_labels (files : list string)
      (index total_parts : nat) (st st' : LoaderState) (r : result (list (list Table))) :
  (exists efile sub name,
     In efile files /\ In sub (split_semicolon efile) /\
     (src_of sub = Some name \/ dst_of sub = Some name) /\
     StringMap.find name (vertex_label_to_index_ st) = None) ->
  returns (loadE files index total_parts st) (r, st') -> is_ok r = false.
Proof.
  intros (efile & sub & name & Hin & Hsub & Hname & Hnone) H.
  destruct r as [tables| |]; try reflexivity. exfalso.
  apply returns_loadEdgeTables_from in H as (_ & _ & _ & Hlen & Htab & _).
  apply In_nth_error in Hin as [e He]. apply In_nth_error in Hsub as [j Hj].
  destruct (Htab e efile He) as (subs & Hs & Hl & Hall).
  destruct (nth_error subs j) as [t|] eqn:Ht.
  - destruct (Hall j sub t Hj Ht) as (l & s1 & d1 & i1 & i2 & _ & Hs1 & Hd1 & Hf1 & Hf2 & _).
    destruct Hname as [E|E]; congruence.
  - apply nth_error_None in Ht. assert (j < length (split_semicolon efile)).
    { apply nth_error_Some. congruence. }
    lia.
Qed.

(** X11.  When [loadEdgeTables] succeeds the vertex label map is as
    before, there is one list of tables per file and in it one table per
    sub-source, in order; a table has the edge metadata (type, columns,
    number of sub-sources of its file, label, and the indices of its source
    and destination labels in the vertex label map).  The endpoint labels of
    every sub-source are recorded as a relation of its edge label, and the
    relations recorded before are kept. *)
Theorem loadEdgeTables_tables (files : list string) (index total_parts : nat)
        (st : LoaderState) (tables : list (list Table)) (st' : LoaderState) :
  returns (loadE files index total_parts st) (Ok tables, st') ->
  vertex_label_to_index_ st' = vertex_label_to_index_ st /\
  length tables = length files /\
  (forall e efile,
     nth_error files e = Some efile ->
     exists sub_tables,
       nth_error tables e = Some sub_tables /\
       length sub_tables = length (split_semicolon efile) /\
       forall j sub t,
         nth_error (split_semicolon efile) j = Some sub ->
         nth_error sub_tables j = Some t ->
         edge_table_from st (length (split_semicolon efile)) sub t) /\
  (forall efile sub,
     In efile files -> In sub (split_semicolon efile) ->
     exists label src dst,
       declared sub = Some label /\ src_of sub = Some src /\ dst_of sub = Some dst /\
       relation_in st' label src dst) /\
  (forall l s d, relation_in st l s d -> relation_in st' l s d).
Proof.
  intros H. apply returns_loadEdgeTables_from in H
    as (Hv & _ & _ & Hlen & Htab & _ & _ & Hmono & Hrel & _).
  auto.
Qed.

(** X12.  After a successful [loadEdgeTables] an edge label is mapped to
    the index of the last file that declares it, and a label that no file
    declares keeps the entry it had. *)
Theorem loadEdgeTables_last_file_wins (files : list string) (index total_parts : nat)
        (st : LoaderState) (tables : list (list Table)) (st' : LoaderState) :
  returns (loadE files index total_parts st) (Ok tables, st') ->
  (forall label e,
     declares files label e ->
     (forall e', e < e' -> ~ declares files label e') ->
     StringMap.find label (edge_label_to_index_ st') = Some e) /\
  (forall label,
     (forall e, ~ declares files label e) ->
     StringMap.find label (edge_label_to_index_ st')
     = StringMap.find label (edge_label_to_index_ st)).
Proof.
  intros H. apply returns_loadEdgeTables_from in H
    as (_ & _ & _ & _ & _ & Hlast & Hkeep & _).
  split; [|assumption]. intros label e Hd Hl. exact (Hlast label e Hd Hl).
Qed.

End EdgeTables.

Lemma loadEdgeTables_needs_vertex_labels_witness :
  let src_of := src_label_of descriptor_meta in
  let dst_of := dst_label_of descriptor_meta in
  let loadE :=
    loadEdgeTables "src_column" "dst_column" "src_label_id" "dst_label_id"
      descriptor_meta same_edges_everywhere "map::at" in
  let files := knows_people_and_cities in
  let st := person_loader in
  (exists efile sub name,
     In efile files /\ In sub (split_semicolon efile) /\
     (src_of sub = Some name \/ dst_of sub = Some name) /\
     StringMap.find name (vertex_label_to_index_ st) = None) /\
  forall r st', returns (loadE files 0 1 st) (r, st') -> is_ok r = false.
Proof.
  intros src_of dst_of loadE files st.
  assert (H : exists efile sub name,
             In efile files /\ In sub (split_semicolon efile) /\
             (src_of sub = Some name \/ dst_of sub = Some name) /\
             StringMap.find name (vertex_label_to_index_ st) = None).
  { exists "a#label=knows&src_label=person&dst_label=person;b#label=knows&src_label=person&dst_label=city",
      "b#label=knows&src_label=person&dst_label=city", "city".
    split; [left; reflexivity|]. split; [right; left; reflexivity|].
    split; [right; reflexivity|reflexivity]. }
  split; [exact H|].
  intros r st'.
  exact (loadEdgeTables_needs_vertex_labels
           "src_column" "dst_column" "src_label_id" "dst_label_id"
           descriptor_meta same_edges_everywhere "map::at" files 0 1 st st' r H).
Defined.

Lemma loadEdgeTables_tables_witness :
  let src_of := src_label_of descriptor_meta in
  let dst_of := dst_label_of descriptor_meta in
  let declared := label_of descriptor_meta in
  let loadE :=
    loadEdgeTables "src_column" "dst_column" "src_label_id" "dst_label_id"
      descriptor_meta same_edges_everywhere "map::at" in
  let edge_table_from :=
    loaded_edge_table "src_column" "dst_column" "src_label_id" "dst_label_id"
      descriptor_meta in
  let files := knows_people_and_cities in
  let st := people_and_cities_loader in
  exists tables st',
    returns (loadE files 0 1 st) (Ok tables, st') /\
    vertex_label_to_index_ st' = vertex_label_to_index_ st /\
    length tables = length files /\
    (forall e efile,
       nth_error files e = Some efile ->
       exists sub_tables,
         nth_error tables e = Some sub_tables /\
         length sub_tables = length (split_semicolon efile) /\
         forall j sub t,
           nth_error (split_semicolon efile) j = Some sub ->
           nth_error sub_tables j = Some t ->
           edge_table_from st (length (split_semicolon efile)) sub t) /\
    (forall efile sub,
       In efile files -> In sub (split_semicolon efile) ->
       exists label src dst,
         declared sub = Some label /\ src_of sub = Some src /\ dst_of sub = Some dst /\
         relation_in st' label src dst) /\
    (forall l s d, relation_in st l s d -> relation_in st' l s d).
Proof.
  intros src_of dst_of declared loadE edge_table_from files st.
  destruct (run_workers [loadE files 0 1 st])
    as [[|[[tables|e|] st'] [|? ?]]|] eqn:E;
    try (vm_compute in E; discriminate E).
  apply run_alone_returns in E.
  exists tables, st'. split; [exact E|].
  exact (loadEdgeTables_tables "src_column" "dst_column" "src_label_id" "dst_label_id"
           descriptor_meta same_edges_everywhere "map::at" files 0 1 st tables st' E).
Defined.

Lemma loadEdgeTables_last_file_wins_witness :
  let declares := declares_edge_label descriptor_meta in
  let loadE :=
    loadEdgeTables "src_column" "dst_column" "src_label_id" "dst_label_id"
      descriptor_meta same_edges_everywhere "map::at" in
  let files := knows_twice in
  let st := person_loader in
  exists tables st',
    returns (loadE files 0 1 st) (Ok tables, st') /\
    (forall label e,
       declares files label e ->
       (forall e', e < e' -> ~ declares files label e') ->
       StringMap.find label (edge_label_to_index_ st') = Some e) /\
    (forall label,
       (forall e, ~ declares files label e) ->
       StringMap.find label (edge_label_to_index_ st')
       = StringMap.find label (edge_label_to_index_ st)).
Proof.
  intros declares loadE files st.
  destruct (run_workers [loadE files 0 1 st])
    as [[|[[tables|e|] st'] [|? ?]]|] eqn:E;
    try (vm_compute in E; discriminate E).
  apply run_alone_returns in E.
  exists tables, st'. split; [exact E|].
  exact (loadEdgeTables_last_file_wins
           "src_column" "dst_column" "src_label_id" "dst_label_id"
           descriptor_meta same_edges_everywhere "map::at" files 0 1 st tables st' E).
Defined.

(** ** Edge labels when the vertex tables are inferred *)

Lemma split_on_not_nil (c : ascii) (s : string) : split_on c s <> [].
Proof.
  induction s as [|a s IH]; simpl; [discriminate|].
  destruct (Ascii.eqb a c); [discriminate|].
  destruct (split_on c s); discriminate.
Qed.

Section InferredEdgeLabels.

Variables ID_COLUMN SRC_COLUMN DST_COLUMN SRC_LABEL_ID DST_LABEL_ID : string.
Variable GetMeta : string -> adaptor_meta_t.
Variable ReadTable : string -> nat -> nat -> result (option Table).
Variable out_of_range_what : string.

Local Abbreviation declared := (label_of GetMeta).
Local Abbreviation declares := (declares_edge_label GetMeta).
Local Abbreviation ev_table :=
  (load_ev_table SRC_COLUMN DST_COLUMN SRC_LABEL_ID DST_LABEL_ID GetMeta ReadTable
     out_of_range_what).
Local Abbreviation ev_sub_files :=
  (load_ev_sub_files SRC_COLUMN DST_COLUMN SRC_LABEL_ID DST_LABEL_ID GetMeta ReadTable
     out_of_range_what).
Local Abbreviation ev_labels :=
  (load_ev_labels SRC_COLUMN DST_COLUMN SRC_LABEL_ID DST_LABEL_ID GetMeta ReadTable
     out_of_range_what).
Local Abbreviation loadEV :=
  (loadEVTablesFromEFiles ID_COLUMN SRC_COLUMN DST_COLUMN SRC_LABEL_ID DST_LABEL_ID
     GetMeta ReadTable out_of_range_what).

Lemma returns_load_ev_table_label (index total_parts : nat) (e_label_id : label_id_t)
      (sub_label_num : nat) (oids oids' : list OidSet) (sub_efile : string)
      (st st' : LoaderState) (e_table : Table) :
  returns (ev_table index total_parts e_label_id sub_label_num oids sub_efile st)
          (Ok (e_table, oids'), st') ->
  edge_label_num_ st' = edge_label_num_ st /\
  exists label,
    declared sub_efile = Some label /\
    edge_labels_extend st st' (fun l k => l = label /\ k = e_label_id).
Proof.
  unfold load_ev_table, label_of. intros H.
  apply returns_bindM_Ok in H as (table & st1 & Hread & H).
  apply returns_sync_Ok in Hread. apply returns_liftM in Hread.
  injection Hread as _ ->.
  apply returns_bindM_Ok in H as (normalized & st2 & Hsync & H).
  apply returns_sync_Ok in Hsync.
  apply returns_SyncSchema_procedure in Hsync as [-> _].
  destruct (meta_find LABEL_TAG (GetMeta (adaptor_path sub_efile))) as [label|];
    [|now apply returns_RETURN_GS_ERROR in H].
  destruct (meta_find SRC_LABEL_TAG (GetMeta (adaptor_path sub_efile))) as [src|];
    [|now apply returns_RETURN_GS_ERROR in H].
  apply returns_bindM_Ok in H as (src_id & st3 & Hsrc & H).
  apply returns_vertex_label_at in Hsrc as [-> Hsrc].
  destruct (meta_find DST_LABEL_TAG (GetMeta (adaptor_path sub_efile))) as [dst|];
    [|now apply returns_RETURN_GS_ERROR in H].
  apply returns_bindM_Ok in H as (dst_id & st4 & Hdst & H).
  apply returns_vertex_label_at in Hdst as [-> Hdst].
  apply returns_bindM_Ok in H as (s & st5 & Hget & H).
  apply returns_getM in Hget as [-> ->].
  apply returns_bindM_Ok in H as (u & st6 & Hput & H).
  apply returns_putM in Hput. subst st6.
  apply returns_bindM_Ok in H as (u' & st7 & Hedge & H).
  apply returns_bindM_Ok in H as (oids1 & st8 & Hin1 & H).
  apply returns_liftM in Hin1. injection Hin1 as _ ->.
  apply returns_bindM_Ok in H as (oids2 & st9 & Hin2 & H).
  apply returns_liftM in Hin2. injection Hin2 as _ ->.
  apply returns_retM in H as [_ ->].
  simpl in Hedge.
  destruct (StringMap.find label (edge_label_to_index_ st)) as [known|] eqn:Hknown.
  - destruct (Nat.eqb_spec known e_label_id) as [->|]; simpl in Hedge;
      [|now apply returns_RETURN_GS_ERROR in Hedge].
    apply returns_retM in Hedge as [_ ->]. simpl.
    split; [reflexivity|]. exists label. split; [reflexivity|].
    split; [|split]; simpl; auto. intros l k [-> ->]. assumption.
  - apply returns_putM in Hedge. subst st7. simpl.
    split; [reflexivity|]. exists label. split; [reflexivity|].
    split; [|split]; simpl.
    + intros l k Hl. rewrite StringMapFacts.add_neq_o; [assumption|congruence].
    + intros l k [-> ->]. now apply StringMapFacts.add_eq_o.
    + intros l k Hl. destruct (string_dec label l) as [<-|Hne].
      * rewrite StringMapFacts.add_eq_o in Hl by reflexivity. inversion Hl. auto.
      * rewrite StringMapFacts.add_neq_o in Hl by assumption. auto.
Qed.

Lemma edge_labels_extend_trans (st st1 st2 : LoaderState)
      (P Q R : string -> label_id_t -> Prop) :
  (forall l k, R l k <-> P l k \/ Q l k) ->
  edge_labels_extend st st1 P -> edge_labels_extend st1 st2 Q ->
  edge_labels_extend st st2 R.
Proof.
  intros HR (Hk1 & Hv1 & Hn1) (Hk2 & Hv2 & Hn2). split; [|split].
  - auto.
  - intros l k Hl. apply HR in Hl as [Hl|Hl]; auto.
  - intros l k Hl. apply Hn2 in Hl as [Hl|Hl].
    + apply Hn1 in Hl as [Hl|Hl]; [auto|]. right. apply HR. auto.
    + right. apply HR. auto.
Qed.

Lemma returns_load_ev_sub_files_labels (index total_parts : nat)
      (e_label_id : label_id_t) (sub_label_num : nat) (subs : list string) :
  forall oids st tables oids' st',
    returns (ev_sub_files index total_parts e_label_id sub_label_num subs oids st)
            (Ok (tables, oids'), st') ->
    edge_label_num_ st' = edge_label_num_ st /\
    edge_labels_extend st st'
      (fun l k => k = e_label_id /\ exists sub, In sub subs /\ declared sub = Some l).
Proof.
  induction subs as [|sub subs IH]; intros oids st tables oids' st' H; simpl in H.
  - apply returns_retM in H as [_ ->]. split; [reflexivity|].
    split; [|split]; auto. intros l k (_ & s & [] & _).
  - apply returns_bindM_Ok in H as ([e_table oids1] & st1 & Hbody & H).
    apply returns_load_ev_table_label in Hbody as (Hn1 & label & Hlabel & Hext1).
    apply returns_bindM_Ok in H as ([tables' oids2] & st2 & Hrest & H).
    apply returns_retM in H as [_ ->].
    apply IH in Hrest as (Hn2 & Hext2).
    split; [congruence|].
    eapply edge_labels_extend_trans; [|exact Hext1|exact Hext2].
    intros l k. simpl. split.
    + intros (-> & s & [<-|Hin] & Hs).
      * left. split; congruence.
      * right. eauto.
    + intros [[-> ->]|(-> & s & Hin & Hs)]; eauto.
Qed.

Lemma returns_load_ev_labels_labels (index total_parts : nat) (efiles : list string)
      (e_label_ids : list label_id_t) :
  forall oids st etables oids' st',
    returns (ev_labels index total_parts efiles e_label_ids oids st)
            (Ok (etables, oids'), st') ->
    edge_label_num_ st' = edge_label_num_ st /\
    edge_labels_extend st st'
      (fun l k => In k e_label_ids /\ declares efiles l k).
Proof.
  induction e_label_ids as [|e ids IH]; intros oids st etables oids' st' H; simpl in H.
  - apply returns_retM in H as [_ ->]. split; [reflexivity|].
    split; [|split]; auto. intros l k ([] & _).
  - destruct (nth_error efiles e) as [efile|] eqn:Ee.
    2:{ apply returns_liftM in H. discriminate. }
    apply returns_bindM_Ok in H as ([tables oids1] & st1 & Hsubs & H).
    apply returns_bindM_Ok in H as ([etables' oids2] & st2 & Hrest & H).
    apply returns_retM in H as [_ ->].
    apply returns_load_ev_sub_files_labels in Hsubs as (Hn1 & Hext1).
    apply IH in Hrest as (Hn2 & Hext2).
    split; [congruence|].
    eapply edge_labels_extend_trans; [|exact Hext1|exact Hext2].
    intros l k. simpl. unfold declares_edge_label. split.
    + intros ([<-|Hin] & f & sub & Hf & Hsub & Hl).
      * left. split; [reflexivity|]. rewrite Ee in Hf. inversion Hf; subst f. eauto.
      * right. split; [assumption|]. eauto.
    + intros [(-> & sub & Hsub & Hl)|(Hin & Hd)]; [|auto].
      split; [auto|]. eauto.
Qed.

Lemma returns_loadEV_labels (efiles : list string) (index total_parts : nat)
      (st st' : LoaderState) (r : list Table * list (list Table)) :
  edge_label_num_ st = length efiles ->
  returns (loadEV efiles index total_parts st) (Ok r, st') ->
  edge_label_num_ st' = length efiles /\
  edge_labels_extend st st' (declares efiles).
Proof.
  unfold loadEVTablesFromEFiles. intros Hnum H.
  apply returns_bindM_Ok in H as (names & st1 & Hscan & H).
  apply returns_liftM in Hscan. injection Hscan as _ ->.
  apply returns_bindM_Ok in H as (s & st2 & Hget & H).
  apply returns_getM in Hget as [-> ->].
  apply returns_bindM_Ok in H as (u & st3 & Hput & H).
  apply returns_putM in Hput. subst st3.
  apply returns_bindM_Ok in H as (s' & st4 & Hget & H).
  apply returns_getM in Hget as [-> ->].
  apply returns_bindM_Ok in H as ([etables oids] & st5 & Hlabels & H).
  apply returns_bindM_Ok in H as (vtables & st6 & Hmk & H).
  apply returns_liftM in Hmk. injection Hmk as _ ->.
  apply returns_retM in H as [_ ->].
  apply returns_load_ev_labels_labels in Hlabels as (Hn & Hext). simpl in Hn, Hext.
  split; [congruence|].
  destruct Hext as (Hk & Hv & Hnew). split; [|split]; simpl in *.
  - exact Hk.
  - intros l k Hd. apply Hv. split; [|assumption].
    apply in_seq. destruct Hd as (f & sub & Hf & _).
    assert (k < length efiles) by (apply nth_error_Some; congruence). lia.
  - intros l k Hl. apply Hnew in Hl as [Hl|[_ Hl]]; auto.
Qed.

(** X13.  With as many edge labels as edge files, a successful
    [loadEVTablesFromEFiles] maps every edge label a file declares to the
    index of that file and adds no other entry to the map; from an empty map
    the edge label list is the list of the files' labels.  It never succeeds
    when two different files declare the same edge label. *)
Theorem loadEVTablesFromEFiles_edge_labels (efiles : list string)
        (index total_parts : nat) (st : LoaderState) :
  edge_label_num_ st = length efiles ->
  (forall r st',
     returns (loadEV efiles index total_parts st) (Ok r, st') ->
     (forall label e, declares efiles label e ->
        StringMap.find label (edge_label_to_index_ st') = Some e) /\
     (forall label e,
        StringMap.find label (edge_label_to_index_ st') = Some e ->
        StringMap.find label (edge_label_to_index_ st) = Some e \/
        declares efiles label e) /\
     (forall labels,
        StringMap.Empty (edge_label_to_index_ st) ->
        length labels = length efiles ->
        (forall e efile sub,
           nth_error efiles e = Some efile -> In sub (split_semicolon efile) ->
           declared sub = nth_error labels e) ->
        edge_label_list st' = Ok labels))
  /\ ((exists label e e', e <> e' /\ declares efiles label e /\ declares efiles label e') ->
      forall r st',
        returns (loadEV efiles index total_parts st) (r, st') -> is_ok r = false).
Proof.
  intros Hnum. split.
  - intros r st' H. apply returns_loadEV_labels in H as (Hn & Hk & Hv & Hnew);
      [|assumption].
    split; [exact Hv|]. split; [exact Hnew|].
    intros labels Hempty Hlen Hsame. unfold edge_label_list. rewrite Hn, <- Hlen.
    apply label_list_of_positions. intros name i. split.
    + intros Hf. apply Hnew in Hf as [Hf|(f & sub & Hf & Hsub & Hl)].
      * apply StringMapFacts.find_mapsto_iff in Hf. now apply Hempty in Hf.
      * rewrite <- (Hsame i f sub Hf Hsub). exact Hl.
    + intros Hi. apply Hv.
      assert (Hlt : i < length efiles).
      { rewrite <- Hlen. apply nth_error_Some. congruence. }
      destruct (nth_error efiles i) as [f|] eqn:Hf;
        [|apply nth_error_None in Hf; lia].
      destruct (split_semicolon f) as [|sub subs] eqn:Hs.
      { now apply split_on_not_nil in Hs. }
      exists f, sub. split; [assumption|]. split; [rewrite Hs; simpl; auto|].
      rewrite (Hsame i f sub Hf); [assumption|]. rewrite Hs. simpl. auto.
  - intros (label & e & e' & Hne & Hd & Hd') r st' H.
    destruct r as [r| |]; try reflexivity. exfalso.
    apply returns_loadEV_labels in H as (_ & _ & Hv & _); [|assumption].
    pose proof (Hv _ _ Hd) as H1. pose proof (Hv _ _ Hd') as H2. congruence.
Qed.

End InferredEdgeLabels.

Lemma loadEVTablesFromEFiles_edge_labels_witness :
  let declared := label_of descriptor_meta in
  let declares := declares_edge_label descriptor_meta in
  let loadEV :=
    loadEVTablesFromEFiles "id_column" "src_column" "dst_column"
      "src_label_id" "dst_label_id" descriptor_meta same_edges_everywhere "map::at" in
  let efiles := knows_people_and_cities in
  let st := new_loader 0 1 in
  edge_label_num_ st = length efiles /\
  (exists r st', returns (loadEV efiles 0 1 st) (Ok r, st')) /\
  (forall r st',
     returns (loadEV efiles 0 1 st) (Ok r, st') ->
     (forall label e, declares efiles label e ->
        StringMap.find label (edge_label_to_index_ st') = Some e) /\
     (forall label e,
        StringMap.find label (edge_label_to_index_ st') = Some e ->
        StringMap.find label (edge_label_to_index_ st) = Some e \/
        declares efiles label e) /\
     (forall labels,
        StringMap.Empty (edge_label_to_index_ st) ->
        length labels = length efiles ->
        (forall e efile sub,
           nth_error efiles e = Some efile -> In sub (split_semicolon efile) ->
           declared sub = nth_error labels e) ->
        edge_label_list st' = Ok labels)).
Proof.
  intros declared declares loadEV efiles st.
  split; [reflexivity|]. split.
  - destruct (run_workers [loadEV efiles 0 1 st])
      as [[|[[r|e|] st'] [|? ?]]|] eqn:E;
      try (vm_compute in E; discriminate E).
    apply run_alone_returns in E. exists r, st'. exact E.
  - exact (proj1 (loadEVTablesFromEFiles_edge_labels
                    "id_column" "src_column" "dst_column" "src_label_id" "dst_label_id"
                    descriptor_meta same_edges_everywhere "map::at" efiles 0 1 st
                    eq_refl)).
Defined.

(** ** Edge label lists after loading *)

Lemma last_position_exists (labels : list string) (name : string) :
  In name labels -> exists i, last_position labels name i.
Proof.
  induction labels as [|l labels IH]; intros Hin; [contradiction|].
  destruct (in_dec string_dec name labels) as [Hin'|Hni].
  - destruct (IH Hin') as (i & Hi & Hlast). exists (S i). split; [exact Hi|].
    intros [|j] Hj; [lia|]. simpl. apply Hlast. lia.
  - destruct Hin as [->|]; [|contradiction]. exists 0. split; [reflexivity|].
    intros [|j] Hj; [lia|]. simpl. intros Hn. apply Hni. eapply nth_error_In; eauto.
Qed.

Lemma entries_from_undefined (entry : label_id_t -> string -> result Entry)
      (labels : list string) :
  (forall i name e, entry i name <> Raise e) ->
  forall label i name,
    nth_error labels i = Some name ->
    entry (label + i) name = Undefined ->
    entries_from entry label labels = Undefined.
Proof.
  intros Hentry. induction labels as [|name0 labels IH]; intros label [|i] name Hi Hu;
    simpl in Hi; try discriminate; simpl.
  - inversion Hi; subst name0. rewrite Nat.add_0_r in Hu. now rewrite Hu.
  - destruct (entry label name0) as [e0|e0|] eqn:He; simpl;
      [|now apply Hentry in He|reflexivity].
    rewrite (IH (S label) i name Hi); [reflexivity|].
    rewrite <- Hu. f_equal. lia.
Qed.

Section EdgeLabelLists.

Variables ID_COLUMN SRC_COLUMN DST_COLUMN SRC_LABEL_ID DST_LABEL_ID : string.
Variable GetMeta : string -> adaptor_meta_t.
Variable ReadTable : string -> nat -> nat -> result (option Table).
Variable out_of_range_what : string.

Local Abbreviation src_of := (src_label_of GetMeta).
Local Abbreviation dst_of := (dst_label_of GetMeta).
Local Abbreviation declared := (label_of GetMeta).
Local Abbreviation declares := (declares_edge_label GetMeta).
Local Abbreviation loadE :=
  (loadEdgeTables SRC_COLUMN DST_COLUMN SRC_LABEL_ID DST_LABEL_ID GetMeta ReadTable
     out_of_range_what).
Local Abbreviation loadV := (loadVertexTables ID_COLUMN GetMeta ReadTable).
Local Abbreviation init :=
  (initBasicLoader ID_COLUMN SRC_COLUMN DST_COLUMN SRC_LABEL_ID DST_LABEL_ID
     GetMeta ReadTable out_of_range_what).
Local Abbreviation edge_table_from :=
  (loaded_edge_table SRC_COLUMN DST_COLUMN SRC_LABEL_ID DST_LABEL_ID GetMeta).

Lemma declares_labels (files : list string) (labels : list string) :
  length labels = length files ->
  (forall e efile sub,
     nth_error files e = Some efile -> In sub (split_semicolon efile) ->
     declared sub = nth_error labels e) ->
  forall l e, declares files l e <-> nth_error labels e = Some l.
Proof.
  intros Hlen Hsame l e. unfold declares_edge_label. split.
  - intros (f & sub & Hf & Hsub & Hl). now rewrite <- (Hsame e f sub Hf Hsub).
  - intros Hi.
    assert (Hlt : e < length files).
    { rewrite <- Hlen. apply nth_error_Some. congruence. }
    destruct (nth_error files e) as [f|] eqn:Hf; [|apply nth_error_None in Hf; lia].
    destruct (split_semicolon f) as [|sub subs] eqn:Hs.
    { now apply split_on_not_nil in Hs. }
    exists f, sub. split; [reflexivity|]. split; [rewrite Hs; simpl; auto|].
    rewrite (Hsame e f sub Hf); [assumption|]. rewrite Hs. simpl. auto.
Qed.

Lemma loadEdgeTables_positions (files : list string) (index total_parts : nat)
      (st : LoaderState) (tables : list (list Table)) (st' : LoaderState)
      (labels : list string) :
  returns (loadE files index total_parts st) (Ok tables, st') ->
  StringMap.Empty (edge_label_to_index_ st) ->
  length labels = length files ->
  (forall e efile sub,
     nth_error files e = Some efile -> In sub (split_semicolon efile) ->
     declared sub = nth_error labels e) ->
  edge_label_num_ st' = edge_label_num_ st /\
  forall l k,
    StringMap.find l (edge_label_to_index_ st') = Some k <-> last_position labels l k.
Proof.
  intros H Hempty Hlen Hsame.
  pose proof (declares_labels files labels Hlen Hsame) as Hd.
  apply returns_loadEdgeTables_from in H as (_ & _ & Hn & _ & _ & Hlast & Hkeep & _).
  split; [assumption|].
  assert (Hfwd : forall l k, last_position labels l k ->
            StringMap.find l (edge_label_to_index_ st') = Some k).
  { intros l k [Hk Hno]. rewrite (Hlast l k); [reflexivity|now apply Hd|].
    intros e' He' Hde. apply Hd in Hde. now apply (Hno e'). }
  intros l k. split; [|apply Hfwd].
  intros Hf. destruct (in_dec string_dec l labels) as [Hin|Hni].
  - destruct (last_position_exists _ _ Hin) as (k' & Hk').
    rewrite (Hfwd _ _ Hk') in Hf. inversion Hf; subst k'. assumption.
  - rewrite Hkeep in Hf.
    + apply StringMapFacts.find_mapsto_iff in Hf. now apply Hempty in Hf.
    + intros e Hde. apply Hd in Hde. apply Hni. eapply nth_error_In; eauto.
Qed.

(** X14.  After a successful [loadEdgeTables] from an empty edge label
    map, with one label per file and as many edge labels as files: when the
    labels are distinct the edge label list is the list of the files'
    labels; when a later file declares the label of an earlier one, the
    list holds the empty string at the earlier position and, unless
    relations are recorded under the empty name, the edge entries of the
    schema are undefined. *)
Theorem loadEdgeTables_label_list (files : list string) (index total_parts : nat)
        (st : LoaderState) (tables : list (list Table)) (st' : LoaderState)
        (labels : list string) :
  returns (loadE files index total_parts st) (Ok tables, st') ->
  StringMap.Empty (edge_label_to_index_ st) ->
  edge_label_num_ st = length files ->
  length labels = length files ->
  (forall e efile sub,
     nth_error files e = Some efile -> In sub (split_semicolon efile) ->
     declared sub = nth_error labels e) ->
  (NoDup labels -> edge_label_list st' = Ok labels)
  /\ (forall e e' l,
        e < e' -> nth_error labels e = Some l -> nth_error labels e' = Some l ->
        exists label_list,
          edge_label_list st' = Ok label_list /\
          nth_error label_list e = Some EmptyString /\
          (StringMap.find EmptyString (edge_vertex_label_ st) = None ->
           ~ In EmptyString labels ->
           forall local_e_tables,
             edge_schema_entries st' local_e_tables = Undefined)).
Proof.
  intros H Hempty Hnum Hlen Hsame.
  destruct (loadEdgeTables_positions _ _ _ _ _ _ labels H Hempty Hlen Hsame)
    as [Hn Hpos].
  assert (Hrk : ~ In EmptyString labels ->
                StringMap.find EmptyString (edge_vertex_label_ st')
                = StringMap.find EmptyString (edge_vertex_label_ st)).
  { intros Hni.
    apply returns_loadEdgeTables_from in H as (_ & _ & _ & _ & _ & _ & _ & _ & _ & Hrk).
    apply Hrk. intros e Hd. apply (declares_labels files labels Hlen Hsame) in Hd.
    apply Hni. eapply nth_error_In; eauto. }
  unfold edge_schema_entries, edge_label_list. rewrite Hn, Hnum, <- Hlen. split.
  - intros Hnd. apply label_list_of_positions. intros l k. rewrite Hpos. split.
    + now intros [? _].
    + now apply last_position_NoDup.
  - intros e e' l Hlt He He'.
    destruct (label_list_of_total "Failed to map edge label to index"
                "Multiple edge labels are mapped to one index."
                (length labels) (edge_label_to_index_ st')) as [label_list Hl].
    + intros name i Hf. apply Hpos in Hf as [Hf _]. apply nth_error_Some. congruence.
    + intros name name' i H1 H2. apply Hpos in H1 as [H1 _], H2 as [H2 _]. congruence.
    + exists label_list. split; [assumption|].
      destruct (label_list_of_Ok _ _ _ _ _ Hl) as (_ & _ & _ & Hnone).
      assert (Hhole : nth_error label_list e = Some EmptyString).
      { apply Hnone.
        - apply nth_error_Some. congruence.
        - intros name Hf. apply Hpos in Hf as [Hf Hno].
          apply (Hno e' Hlt). congruence. }
      split; [exact Hhole|].
      intros Hnorel Hni local_e_tables. rewrite Hl. simpl.
      apply entries_from_undefined with (i := e) (name := EmptyString).
      * intros i name err. unfold edge_entry.
        destruct (StringMap.find name (edge_vertex_label_ st')); [|discriminate].
        destruct (nth_error local_e_tables i); discriminate.
      * exact Hhole.
      * unfold edge_entry. now rewrite (Hrk Hni), Hnorel.
Qed.

(** X15.  With vertex files, the edge tables [initBasicLoader] returns
    carry as source and destination label ids the positions, among the
    vertex files, of the last files that declare these labels; there is one
    vertex table per vertex file and one list of edge tables per edge
    file. *)
Theorem initBasicLoader_endpoint_labels (efiles : list string) (vfile : string)
        (vfiles : list string) (index total_parts : nat) (st : LoaderState)
        (v_tables : list Table) (e_tables : list (list Table)) (st' : LoaderState) :
  StringMap.Empty (vertex_label_to_index_ st) ->
  returns (init efiles (vfile :: vfiles) [] [] index total_parts st)
          (Ok (v_tables, e_tables), st') ->
  exists labels,
    map declared (vfile :: vfiles) = map Some labels /\
    length v_tables = length (vfile :: vfiles) /\
    length e_tables = length efiles /\
    forall e efile j sub sub_tables t,
      nth_error efiles e = Some efile ->
      nth_error (split_semicolon efile) j = Some sub ->
      nth_error e_tables e = Some sub_tables ->
      nth_error sub_tables j = Some t ->
      exists label src dst src_id dst_id,
        declared sub = Some label /\
        src_of sub = Some src /\
        dst_of sub = Some dst /\
        last_position labels src src_id /\
        last_position labels dst dst_id /\
        metadata (schema t)
        = Some [("type", "EDGE");
                (SRC_COLUMN, to_string src_column);
                (DST_COLUMN, to_string dst_column);
                ("sub_label_num", to_string (length (split_semicolon efile)));
                ("label", label);
                (SRC_LABEL_ID, to_string src_id);
                (DST_LABEL_ID, to_string dst_id)].
Proof.
  intros Hempty H. unfold initBasicLoader in H.
  apply returns_bindM_Ok in H as (tmp_v & st1 & Hv & H).
  apply returns_bindM_Ok in H as (tmp_e & st2 & He & H).
  apply returns_retM in H as [E ->]. injection E as -> ->.
  apply returns_sync_Ok in Hv, He.
  apply returns_loadVertexTables_from in Hv
    as (labels & Hlabels & Hlen & _ & _ & _ & _ & _ & Hother & Hlast).
  apply returns_loadEdgeTables_from in He as (_ & _ & _ & Hlen' & Htab & _).
  assert (Hfind : forall name id,
            StringMap.find name (vertex_label_to_index_ st1) = Some id ->
            last_position labels name id).
  { intros name id Hf. destruct (in_dec string_dec name labels) as [Hin|Hni].
    - destruct (last_position_exists _ _ Hin) as (i & Hi).
      rewrite (Hlast _ _ Hi) in Hf. simpl in Hf. inversion Hf; subst. exact Hi.
    - rewrite (Hother _ Hni) in Hf.
      apply StringMapFacts.find_mapsto_iff in Hf. now apply Hempty in Hf. }
  exists labels. split; [assumption|]. split; [assumption|]. split; [assumption|].
  intros e efile j sub sub_tables t Hefile Hsub Hsubs Ht.
  destruct (Htab e efile Hefile) as (subs' & Hs' & _ & Hall).
  rewrite Hsubs in Hs'. inversion Hs'; subst subs'.
  destruct (Hall j sub t Hsub Ht)
    as (label & src & dst & src_id & dst_id & Hl & Hsrc & Hdst & Hf1 & Hf2 & _ & Hmeta).
  exists label, src, dst, src_id, dst_id. auto 10.
Qed.

End EdgeLabelLists.

Lemma knows_twice_labels (e : nat) (efile sub : string) :
  nth_error knows_twice e = Some efile -> In sub (split_semicolon efile) ->
  label_of descriptor_meta sub = nth_error ["knows"; "knows"] e.
Proof.
  destruct e as [|[|e]]; simpl; intros He Hin.
  - injection He as <-. destruct Hin as [<-|[]]. reflexivity.
  - injection He as <-. destruct Hin as [<-|[]]. reflexivity.
  - destruct e; discriminate He.
Qed.

Lemma loadEdgeTables_label_list_witness :
  let declared := label_of descriptor_meta in
  let loadE :=
    loadEdgeTables "src_column" "dst_column" "src_label_id" "dst_label_id"
      descriptor_meta same_edges_everywhere "map::at" in
  let files := knows_twice in
  let st := person_loader in
  let labels := ["knows"; "knows"] in
  StringMap.Empty (edge_label_to_index_ st) /\
  edge_label_num_ st = length files /\
  length labels = length files /\
  (forall e efile sub,
     nth_error files e = Some efile -> In sub (split_semicolon efile) ->
     declared sub = nth_error labels e) /\
  exists tables st',
    returns (loadE files 0 1 st) (Ok tables, st') /\
    (NoDup labels -> edge_label_list st' = Ok labels) /\
    (forall e e' l,
       e < e' -> nth_error labels e = Some l -> nth_error labels e' = Some l ->
       exists label_list,
         edge_label_list st' = Ok label_list /\
         nth_error label_list e = Some EmptyString /\
         (StringMap.find EmptyString (edge_vertex_label_ st) = None ->
          ~ In EmptyString labels ->
          forall local_e_tables,
            edge_schema_entries st' local_e_tables = Undefined)).
Proof.
  intros declared loadE files st labels.
  assert (Hempty : StringMap.Empty (edge_label_to_index_ st))
    by apply StringMap.empty_1.
  split; [exact Hempty|]. split; [reflexivity|]. split; [reflexivity|].
  split; [exact knows_twice_labels|].
  destruct (run_workers [loadE files 0 1 st])
    as [[|[[tables|e|] st'] [|? ?]]|] eqn:E;
    try (vm_compute in E; discriminate E).
  apply run_alone_returns in E.
  exists tables, st'. split; [exact E|].
  exact (loadEdgeTables_label_list
           "src_column" "dst_column" "src_label_id" "dst_label_id"
           descriptor_meta same_edges_everywhere "map::at" files 0 1 st tables st' labels
           E Hempty eq_refl eq_refl knows_twice_labels).
Defined.

Lemma initBasicLoader_endpoint_labels_witness :
  let SRC_COLUMN := "src_column" in
  let DST_COLUMN := "dst_column" in
  let SRC_LABEL_ID := "src_label_id" in
  let DST_LABEL_ID := "dst_label_id" in
  let src_of := src_label_of descriptor_meta in
  let dst_of := dst_label_of descriptor_meta in
  let declared := label_of descriptor_meta in
  let init :=
    initBasicLoader "id_column" "src_column" "dst_column"
      "src_label_id" "dst_label_id" descriptor_meta same_edges_everywhere "map::at" in
  let efiles := knows_people_and_cities in
  let vfile := "p#label=person" in
  let vfiles := ["c#label=city"] in
  let st := new_loader 2 1 in
  StringMap.Empty (vertex_label_to_index_ st) /\
  exists v_tables e_tables st',
    returns (init efiles (vfile :: vfiles) [] [] 0 1 st) (Ok (v_tables, e_tables), st') /\
    exists labels,
      map declared (vfile :: vfiles) = map Some labels /\
      length v_tables = length (vfile :: vfiles) /\
      length e_tables = length efiles /\
      forall e efile j sub sub_tables t,
        nth_error efiles e = Some efile ->
        nth_error (split_semicolon efile) j = Some sub ->
        nth_error e_tables e = Some sub_tables ->
        nth_error sub_tables j = Some t ->
        exists label src dst src_id dst_id,
          declared sub = Some label /\
          src_of sub = Some src /\
          dst_of sub = Some dst /\
          last_position labels src src_id /\
          last_position labels dst dst_id /\
          metadata (schema t)
          = Some [("type", "EDGE");
                  (SRC_COLUMN, to_string src_column);
                  (DST_COLUMN, to_string dst_column);
                  ("sub_label_num", to_string (length (split_semicolon efile)));
                  ("label", label);
                  (SRC_LABEL_ID, to_string src_id);
                  (DST_LABEL_ID, to_string dst_id)].
Proof.
  intros SRC_COLUMN DST_COLUMN SRC_LABEL_ID DST_LABEL_ID src_of dst_of declared init
         efiles vfile vfiles st.
  assert (Hempty : StringMap.Empty (vertex_label_to_index_ st))
    by apply StringMap.empty_1.
  split; [exact Hempty|].
  destruct (run_workers [init efiles (vfile :: vfiles) [] [] 0 1 st])
    as [[|[[[v_tables e_tables]|e|] st'] [|? ?]]|] eqn:E;
    try (vm_compute in E; discriminate E).
  apply run_alone_returns in E.
  exists v_tables, e_tables, st'. split; [exact E|].
  exact (initBasicLoader_endpoint_labels
           "id_column" "src_column" "dst_column" "src_label_id" "dst_label_id"
           descriptor_meta same_edges_everywhere "map::at"
           efiles vfile vfiles 0 1 st v_tables e_tables st' Hempty E).
Defined.

(** ** The entries of the graph schema *)

Lemma entries_from_Ok (entry : label_id_t -> string -> result Entry)
      (labels : list string) :
  forall label entries,
    entries_from entry label labels = Ok entries ->
    length entries = length labels /\
    forall i name, nth_error labels i = Some name ->
      exists e, nth_error entries i = Some e /\ entry (label + i) name = Ok e.
Proof.
  induction labels as [|name0 labels IH]; intros label entries H; simpl in H.
  - inversion H; subst. split; [reflexivity|]. intros [|i] ? Hi; discriminate.
  - destruct (entry label name0) as [e0| |] eqn:He; simpl in H; try discriminate.
    destruct (entries_from entry (S label) labels) as [es| |] eqn:Hes; simpl in H;
      try discriminate.
    inversion H; subst entries. apply IH in Hes as [Hlen Hnth].
    split; [simpl; congruence|].
    intros [|i] name Hi; simpl in Hi.
    + inversion Hi; subst name. exists e0. rewrite Nat.add_0_r. auto.
    + destruct (Hnth i name Hi) as (e & He1 & He2). exists e. split; [assumption|].
      rewrite <- He2. f_equal. lia.
Qed.

(** X16.  When the schema of [shuffleAndBuild] is built it has one vertex
    entry per vertex label and one edge entry per edge label, in the order
    of the label indices.  The entry of a vertex label has type VERTEX, the
    value of primary_key in the metadata of its table (or the empty string)
    as its only primary key, and every column of the table, the id column
    included, as a property; the entry of an edge label has type EDGE, the
    relations recorded under its label, and the columns of its table from
    the third on as properties.  An entry is labelled with the label mapped
    to its index, or with the empty string when there is none. *)
Theorem shuffleAndBuild_schema_entries (st : LoaderState) (fnum : nat)
        (local_v_tables local_e_tables : list Table) (graph_schema : PropertyGraphSchema) :
  shuffleAndBuild_schema st fnum local_v_tables local_e_tables = Ok graph_schema ->
  schema_fnum graph_schema = fnum /\
  length (vertex_entries graph_schema) = vertex_label_num_ st /\
  length (edge_entries graph_schema) = edge_label_num_ st /\
  (forall v_label, v_label < vertex_label_num_ st ->
     exists entry table kvs,
       nth_error (vertex_entries graph_schema) v_label = Some entry /\
       nth_error local_v_tables v_label = Some table /\
       metadata (schema table) = Some kvs /\
       entry_type entry = "VERTEX" /\
       primary_keys entry = [match meta_find "primary_key" kvs with
                             | Some key => key
                             | None => EmptyString
                             end] /\
       relations entry = [] /\
       properties entry
       = map (fun f => (field_name f, field_type f)) (fields (schema table)) /\
       (forall label,
          StringMap.find label (vertex_label_to_index_ st) = Some v_label ->
          entry_label entry = label) /\
       ((forall label, StringMap.find label (vertex_label_to_index_ st) <> Some v_label) ->
        entry_label entry = EmptyString)) /\
  (forall e_label, e_label < edge_label_num_ st ->
     exists entry table pairs,
       nth_error (edge_entries graph_schema) e_label = Some entry /\
       nth_error local_e_tables e_label = Some table /\
       StringMap.find (entry_label entry) (edge_vertex_label_ st) = Some pairs /\
       entry_type entry = "EDGE" /\
       primary_keys entry = [] /\
       relations entry = StringPairSet.elements pairs /\
       properties entry
       = map (fun f => (field_name f, field_type f)) (skipn 2 (fields (schema table))) /\
       (forall label,
          StringMap.find label (edge_label_to_index_ st) = Some e_label ->
          entry_label entry = label) /\
       ((forall label, StringMap.find label (edge_label_to_index_ st) <> Some e_label) ->
        entry_label entry = EmptyString)).
Proof.
  unfold shuffleAndBuild_schema, vertex_schema_entries, edge_schema_entries.
  intros H.
  destruct (vertex_label_list st) as [vlabels| |] eqn:Hvl; simpl in H; try discriminate.
  destruct (entries_from (vertex_entry local_v_tables) 0 vlabels) as [ves| |] eqn:Hves;
    simpl in H; try discriminate.
  destruct (edge_label_list st) as [elabels| |] eqn:Hel; simpl in H; try discriminate.
  destruct (entries_from (edge_entry st local_e_tables) 0 elabels) as [ees| |] eqn:Hees;
    simpl in H; try discriminate.
  inversion H; subst graph_schema; clear H. simpl.
  apply label_list_of_Ok in Hvl as (Hvlen & Hvin & _ & Hvnone).
  apply label_list_of_Ok in Hel as (Helen & Hein & _ & Henone).
  apply entries_from_Ok in Hves as [Hvl' Hventry].
  apply entries_from_Ok in Hees as [Hel' Heentry].
  split; [reflexivity|]. split; [congruence|]. split; [congruence|]. split.
  - intros v Hv.
    destruct (nth_error vlabels v) as [name|] eqn:Hname;
      [|apply nth_error_None in Hname; lia].
    destruct (Hventry v name Hname) as (entry & Hnth & Hentry). simpl in Hentry.
    unfold vertex_entry in Hentry.
    destruct (nth_error local_v_tables v) as [table|]; [|discriminate].
    destruct (metadata (schema table)) as [kvs|] eqn:Hkvs; [|discriminate].
    inversion Hentry; subst entry; clear Hentry.
    exists {| entry_label := name; entry_type := "VERTEX";
              primary_keys := [match meta_find "primary_key" kvs with
                               | Some key => key | None => EmptyString end];
              relations := []; properties := table_properties 0 table |}, table, kvs.
    simpl. repeat split; try assumption; try reflexivity.
    + intros label Hf. destruct (Hvin label v Hf) as [_ Hl]. congruence.
    + intros Hno. specialize (Hvnone v Hv Hno). congruence.
  - intros e He.
    destruct (nth_error elabels e) as [name|] eqn:Hname;
      [|apply nth_error_None in Hname; lia].
    destruct (Heentry e name Hname) as (entry & Hnth & Hentry). simpl in Hentry.
    unfold edge_entry in Hentry.
    destruct (StringMap.find name (edge_vertex_label_ st)) as [pairs|] eqn:Hpairs;
      [|discriminate].
    destruct (nth_error local_e_tables e) as [table|]; [|discriminate].
    inversion Hentry; subst entry; clear Hentry.
    exists {| entry_label := name; entry_type := "EDGE"; primary_keys := [];
              relations := StringPairSet.elements pairs;
              properties := table_properties 2 table |}, table, pairs.
    simpl. repeat split; try assumption; try reflexivity.
    + intros label Hf. destruct (Hein label e Hf) as [_ Hl]. congruence.
    + intros Hno. specialize (Henone e He Hno). congruence.
Qed.

Lemma shuffleAndBuild_schema_entries_witness :
  let st := knows_loader in
  let fnum := 4 in
  let local_v_tables := [ReplaceSchemaMetadata id_table [("label", "person")]] in
  let local_e_tables := [edge_table [(10, 20)]%Z] in
  exists graph_schema,
    shuffleAndBuild_schema st fnum local_v_tables local_e_tables = Ok graph_schema /\
    schema_fnum graph_schema = fnum /\
    length (vertex_entries graph_schema) = vertex_label_num_ st /\
    length (edge_entries graph_schema) = edge_label_num_ st /\
    (forall v_label, v_label < vertex_label_num_ st ->
       exists entry table kvs,
         nth_error (vertex_entries graph_schema) v_label = Some entry /\
         nth_error local_v_tables v_label = Some table /\
         metadata (schema table) = Some kvs /\
         entry_type entry = "VERTEX" /\
         primary_keys entry = [match meta_find "primary_key" kvs with
                               | Some key => key
                               | None => EmptyString
                               end] /\
         relations entry = [] /\
         properties entry
         = map (fun f => (field_name f, field_type f)) (fields (schema table)) /\
         (forall label,
            StringMap.find label (vertex_label_to_index_ st) = Some v_label ->
            entry_label entry = label) /\
         ((forall label, StringMap.find label (vertex_label_to_index_ st) <> Some v_label) ->
          entry_label entry = EmptyString)) /\
    (forall e_label, e_label < edge_label_num_ st ->
       exists entry table pairs,
         nth_error (edge_entries graph_schema) e_label = Some entry /\
         nth_error local_e_tables e_label = Some table /\
         StringMap.find (entry_label entry) (edge_vertex_label_ st) = Some pairs /\
         entry_type entry = "EDGE" /\
         primary_keys entry = [] /\
         relations entry = StringPairSet.elements pairs /\
         properties entry
         = map (fun f => (field_name f, field_type f)) (skipn 2 (fields (schema table))) /\
         (forall label,
            StringMap.find label (edge_label_to_index_ st) = Some e_label ->
            entry_label entry = label) /\
         ((forall label, StringMap.find label (edge_label_to_index_ st) <> Some e_label) ->
          entry_label entry = EmptyString)).
Proof.
  intros st fnum local_v_tables local_e_tables.
  destruct (shuffleAndBuild_schema st fnum local_v_tables local_e_tables)
    as [graph_schema| |] eqn:E; try (vm_compute in E; discriminate E).
  exists graph_schema. split; [reflexivity|].
  exact (shuffleAndBuild_schema_entries st fnum local_v_tables local_e_tables
           graph_schema E).
Defined.

(** ** Groups of workers *)

Lemma at_all_gather_error_map {X R : Type} (local : X -> option GSError)
      (k : X -> list (option GSError) -> Prog R) (xs : list X) :
  at_all_gather_error (map (fun x => AllGatherError (local x) (k x)) xs)
  = Some (map local xs, map k xs).
Proof.
  induction xs as [|x xs IH]; simpl; [reflexivity|]. now rewrite IH.
Qed.

Lemma first_error_none (errors : list (option GSError)) :
  (forall o, In o errors -> o = None) -> first_error errors = None.
Proof.
  induction errors as [|[e|] rest IH]; simpl; intros H; [reflexivity| |].
  - specialize (H (Some e) (or_introl eq_refl)). discriminate.
  - apply IH. auto.
Qed.

Section PersistFailure.

Variable Seal : ArrowFragmentGroup -> ObjectID.
Variable Persist : ObjectID -> bool.
Variable uninitialized : ObjectID.

(** X17.  When the root cannot persist the fragment group it leaves
    [constructFragmentGroup] with the error of [VY_OK_OR_RAISE] before the
    broadcast: a root without peers returns that error, and with peers the
    group never finishes, since the peers wait for the broadcast. *)
Theorem constructFragmentGroup_persist_failure
        (fnum : nat) (frag_to_worker : nat -> nat)
        (v_label_num e_label_num : label_id_t)
        (root : Z * ObjectID) (peers : list (Z * ObjectID)) (group : ArrowFragmentGroup) :
  gathered_group (mkCommSpec 0 (length (root :: peers)) fnum frag_to_worker)
    v_label_num e_label_num (map snd (root :: peers)) (map fst (root :: peers))
  = Ok group ->
  Persist (Seal group) = false ->
  run_workers (fragment_group_workers Seal Persist uninitialized fnum frag_to_worker
                 v_label_num e_label_num (root :: peers))
  = match peers with
    | [] => Some [Raise (status_failed "client.Persist(group_object_id)")]
    | _ :: _ => None
    end.
Proof.
  intros Hg Hp. unfold fragment_group_workers, run_workers.
  destruct root as [inst0 frag0].
  change (combine (seq 0 (length ((inst0, frag0) :: peers))) ((inst0, frag0) :: peers))
    with ((0, (inst0, frag0)) :: combine (seq 1 (length peers)) peers).
  rewrite map_cons, peers_of_group'.
  unfold constructFragmentGroup, peer_program. simpl.
  rewrite at_gather_map, map_map. simpl.
  rewrite at_gather_map, map_map.
  unfold gathered_group in Hg. simpl in Hg. unfold ObjectID in *.
  rewrite Hg, Hp. simpl.
  destruct peers as [|p peers]; reflexivity.
Qed.

End PersistFailure.

Lemma constructFragmentGroup_persist_failure_witness :
  let Seal := fun group : ArrowFragmentGroup => (900 + Z.of_nat (total_frag_num group))%Z in
  let Persist := fun _ : ObjectID => false in
  let frag_to_worker := fun i : nat => i mod 3 in
  let root := (11, 101)%Z in
  let peers := [(12, 102); (13, 103)]%Z in
  exists group,
    gathered_group (mkCommSpec 0 (length (root :: peers)) 3 frag_to_worker)
      1 1 (map snd (root :: peers)) (map fst (root :: peers))
    = Ok group /\
    Persist (Seal group) = false /\
    run_workers (fragment_group_workers Seal Persist 0%Z 3 frag_to_worker 1 1
                   (root :: peers))
    = None.
Proof.
  intros Seal Persist frag_to_worker root peers.
  destruct (gathered_group (mkCommSpec 0 (length (root :: peers)) 3 frag_to_worker)
              1 1 (map snd (root :: peers)) (map fst (root :: peers)))
    as [group| |] eqn:E; try (vm_compute in E; discriminate E).
  exists group. split; [reflexivity|]. split; [reflexivity|].
  exact (constructFragmentGroup_persist_failure Seal Persist 0%Z 3 frag_to_worker 1 1
           root peers group E eq_refl).
Defined.

(** A group that runs to the end returns one result per worker. *)
Lemma run_group_length {R : Type} (p : Prog R) (ps : list (Prog R)) (out : list R) :
  run_group p ps = Some out -> length out = S (length ps).
Proof.
  revert ps out. induction p as [x|l k IH|l k IH|l k IH|b k IH]; intros ps out H;
    simpl in H.
  - destruct (all_returned ps) as [xs|] eqn:E; [|discriminate].
    inversion H; subst out. simpl. f_equal.
    clear -E. revert xs E. induction ps as [|[y| | | |] ps IH]; simpl; intros xs E;
      try discriminate.
    + now inversion E.
    + destruct (all_returned ps); [|discriminate]. inversion E; subst. simpl.
      f_equal. now apply IH.
  - destruct (at_all_gather_schema ps) as [[ls ks]|] eqn:E; [|discriminate].
    apply IH in H. rewrite length_map in H. rewrite H. f_equal.
    clear -E. revert ls ks E.
    induction ps as [|[y| | | |] ps IH]; simpl; intros ls ks E; try discriminate.
    + now inversion E.
    + destruct (at_all_gather_schema ps) as [[ls' ks']|]; [|discriminate].
      inversion E; subst. simpl. f_equal. eapply IH; reflexivity.
  - destruct (at_all_gather_error ps) as [[ls ks]|] eqn:E; [|discriminate].
    apply IH in H. rewrite length_map in H. rewrite H. f_equal.
    clear -E. revert ls ks E.
    induction ps as [|[y| | | |] ps IH]; simpl; intros ls ks E; try discriminate.
    + now inversion E.
    + destruct (at_all_gather_error ps) as [[ls' ks']|]; [|discriminate].
      inversion E; subst. simpl. f_equal. eapply IH; reflexivity.
  - destruct (at_gather ps) as [[ls ks]|] eqn:E; [|discriminate].
    apply IH in H. rewrite length_map in H. rewrite H. f_equal.
    clear -E. revert ls ks E.
    induction ps as [|[y| | | |] ps IH]; simpl; intros ls ks E; try discriminate.
    + now inversion E.
    + destruct (at_gather ps) as [[ls' ks']|]; [|discriminate].
      inversion E; subst. simpl. f_equal. eapply IH; reflexivity.
  - destruct (at_bcast ps) as [ks|] eqn:E; [|discriminate].
    apply IH in H. rewrite length_map in H. rewrite H. f_equal.
    clear -E. revert ks E.
    induction ps as [|[y| | | |] ps IH]; simpl; intros ks E; try discriminate.
    + now inversion E.
    + destruct (at_bcast ps) as [ks'|]; [|discriminate].
      inversion E; subst. simpl. f_equal. eapply IH; reflexivity.
Qed.

Section LockstepLoading.

Variables ID_COLUMN SRC_COLUMN DST_COLUMN SRC_LABEL_ID DST_LABEL_ID : string.
Variable GetMeta : string -> adaptor_meta_t.
Variable ReadTable : string -> nat -> nat -> result (option Table).
Variable out_of_range_what : string.

Hypothesis ReadTable_defined :
  forall path index total_parts, ReadTable path index total_parts <> Undefined.
Hypothesis ReadTable_well_formed :
  forall path index total_parts table,
    ReadTable path index total_parts = Ok (Some table) -> well_formed table.

Local Abbreviation init :=
  (initBasicLoader ID_COLUMN SRC_COLUMN DST_COLUMN SRC_LABEL_ID DST_LABEL_ID
     GetMeta ReadTable out_of_range_what).

(** X18.  As long as reading a file has a defined result and gives
    well-formed tables, the workers of a group that load from vertex and
    edge files run [initBasicLoader] to its end together, whatever the
    files hold: nobody is left waiting at a collective step, all workers end
    in the loader state of the root, and either all succeed or all fail. *)
Theorem initBasicLoader_in_lockstep (efiles : list string) (vfile : string)
        (vfiles : list string) (root : nat) (peers : list nat) (total_parts : nat)
        (st : LoaderState) :
  exists r rs,
    run_group (init efiles (vfile :: vfiles) [] [] root total_parts st)
      (map (fun index => init efiles (vfile :: vfiles) [] [] index total_parts st) peers)
    = Some (r :: rs) /\
    returns (init efiles (vfile :: vfiles) [] [] root total_parts st) r /\
    length rs = length peers /\
    Forall (fun x => snd x = snd r /\ is_ok (fst x) = is_ok (fst r)) rs.
Proof.
  destruct (aligned_group_runs
              (same_outcome (@any_values (list Table * list (list Table))
                                         (list Table * list (list Table))))
              (init efiles (vfile :: vfiles) [] [] root total_parts st)
              (map (fun index => init efiles (vfile :: vfiles) [] [] index total_parts st)
                   peers))
    as (r & rs & Hrun & Hret & Hall).
  { apply Forall_forall. intros p Hp. apply in_map_iff in Hp as (index & <- & _).
    now apply aligned_initBasicLoader. }
  exists r, rs. split; [assumption|]. split; [assumption|]. split.
  - apply run_group_length in Hrun. simpl in Hrun. rewrite length_map in Hrun. lia.
  - eapply Forall_impl; [|exact Hall]. intros [x sx] [Hs Ho]. destruct r as [y sy].
    simpl in *. split; [congruence|].
    destruct y, x; simpl in *; try reflexivity; contradiction.
Qed.

End LockstepLoading.

Lemma initBasicLoader_in_lockstep_witness :
  let init :=
    initBasicLoader "id_column" "src_column" "dst_column"
      "src_label_id" "dst_label_id" descriptor_meta same_edges_everywhere "map::at" in
  let efiles := knows_people_and_cities in
  let vfile := "p#label=person" in
  let vfiles := ["c#label=city"] in
  let st := new_loader 2 1 in
  (forall path index total_parts,
     same_edges_everywhere path index total_parts <> Undefined) /\
  (forall path index total_parts table,
     same_edges_everywhere path index total_parts = Ok (Some table) ->
     well_formed table) /\
  exists r rs,
    run_group (init efiles (vfile :: vfiles) [] [] 0 3 st)
      (map (fun index => init efiles (vfile :: vfiles) [] [] index 3 st) [1; 2])
    = Some (r :: rs) /\
    returns (init efiles (vfile :: vfiles) [] [] 0 3 st) r /\
    length rs = length [1; 2] /\
    Forall (fun x => snd x = snd r /\ is_ok (fst x) = is_ok (fst r)) rs.
Proof.
  intros init efiles vfile vfiles st.
  assert (Hd : forall path index total_parts,
             same_edges_everywhere path index total_parts <> Undefined)
    by (intros; discriminate).
  split; [exact Hd|]. split; [exact same_edges_everywhere_well_formed|].
  exact (initBasicLoader_in_lockstep
           "id_column" "src_column" "dst_column" "src_label_id" "dst_label_id"
           descriptor_meta same_edges_everywhere "map::at"
           Hd same_edges_everywhere_well_formed efiles vfile vfiles 0 [1; 2] 3 st).
Defined.

Section TablesWithoutEdges.

Variables ID_COLUMN SRC_COLUMN DST_COLUMN SRC_LABEL_ID DST_LABEL_ID : string.
Variable GetMeta : string -> adaptor_meta_t.
Variable ReadTable : string -> nat -> nat -> result (option Table).
Variable out_of_range_what : string.

Local Abbreviation init :=
  (initBasicLoader ID_COLUMN SRC_COLUMN DST_COLUMN SRC_LABEL_ID DST_LABEL_ID
     GetMeta ReadTable out_of_range_what).

(** X19.  Vertex tables handed to the loader without edge tables are not
    used: with no files either, [initBasicLoader] goes through
    [loadEVTablesFromEFiles], which sets the number of vertex labels to 0;
    every worker returns no table at all when no edge label is expected,
    and indexes the empty list of edge files, which is undefined, when one
    is. *)
Theorem initBasicLoader_drops_lone_tables
        (partial_v_tables : nat -> list Table) (vertex_label_num : label_id_t)
        (edge_label_num : label_id_t) (workers : list nat) (total_parts : nat) :
  run_workers
    (map (fun index =>
            init [] [] (partial_v_tables index) [] index total_parts
              (new_loader vertex_label_num edge_label_num))
         workers)
  = Some (map (fun _ =>
                 (match edge_label_num with
                  | 0 => Ok ([], [])
                  | S _ => Undefined
                  end, new_loader 0 edge_label_num))
              workers).
Proof.
  assert (Hstep : forall index,
            init [] [] (partial_v_tables index) [] index total_parts
              (new_loader vertex_label_num edge_label_num)
            = AllGatherError None (fun errors =>
                Ret (match edge_label_num with
                     | 0 => match first_error errors with
                            | Some e => Raise e
                            | None => Ok ([], [])
                            end
                     | S _ => Undefined
                     end, new_loader 0 edge_label_num))).
  { intros index. unfold initBasicLoader.
    destruct (partial_v_tables index); destruct edge_label_num; reflexivity. }
  unfold run_workers. destruct workers as [|root peers]; [reflexivity|].
  simpl map. rewrite Hstep. simpl.
  rewrite (map_ext _ _ Hstep), at_all_gather_error_map, map_map.
  rewrite all_returned_map.
  assert (Hfe : first_error (map (fun _ : nat => @None GSError) peers) = None).
  { apply first_error_none. intros o Hin.
    apply in_map_iff in Hin as (? & <- & _). reflexivity. }
  destruct edge_label_num; simpl; rewrite ?Hfe; reflexivity.
Qed.

End TablesWithoutEdges.

(** ** Vertex tables gathered from streams *)

Lemma filter_firstn_length {A : Type} (f : A -> bool) (l : list A) (p : nat) :
  length (filter f (firstn p l)) <= p.
Proof.
  revert p; induction l as [|x l IH]; intros [|p]; simpl; try lia.
  specialize (IH p). destruct (f x); simpl; lia.
Qed.

Lemma filter_firstn_skipped {A : Type} (f : A -> bool) (l : list A) (p k : nat) (x : A) :
  k < p -> nth_error l k = Some x -> f x = false ->
  length (filter f (firstn p l)) < p.
Proof.
  revert p k; induction l as [|y l IH]; intros [|p] [|k] Hk Hx Hf; simpl in *;
    try discriminate; try lia.
  - inversion Hx; subst y. rewrite Hf. pose proof (filter_firstn_length f l p). lia.
  - specialize (IH p k). destruct (f y); simpl; [|pose proof (filter_firstn_length f l p)];
      try lia. assert (k < p) by lia. specialize (IH H Hx Hf). lia.
Qed.

Section GatheredTables.

Variables ID_COLUMN SRC_COLUMN DST_COLUMN SRC_LABEL_ID DST_LABEL_ID : string.
Variables ParallelStream DataframeStream : Type.
Variable GetObject : ObjectID -> option ParallelStream.
Variable GetStreamSize : ParallelStream -> nat.
Variable GetStream : ParallelStream -> nat -> option DataframeStream.
Variable ReadStream : DataframeStream -> Status * option Table.
Variable VYObjectIDToString : ObjectID -> string.

Local Abbreviation read :=
  (readTableFromVineyard ParallelStream DataframeStream GetObject GetStreamSize GetStream
     ReadStream VYObjectIDToString).
Local Abbreviation can_read :=
  (readable ParallelStream DataframeStream GetObject GetStreamSize GetStream ReadStream
     VYObjectIDToString).
Local Abbreviation gatherV_from :=
  (gatherVTables_from ID_COLUMN ParallelStream DataframeStream GetObject GetStreamSize
     GetStream ReadStream VYObjectIDToString).
Local Abbreviation gatherV :=
  (gatherVTables ID_COLUMN ParallelStream DataframeStream GetObject GetStreamSize
     GetStream ReadStream VYObjectIDToString).
Local Abbreviation label_of_stream :=
  (vertex_stream_label ID_COLUMN ParallelStream DataframeStream GetObject GetStreamSize
     GetStream ReadStream VYObjectIDToString).
Local Abbreviation vertex_meta := (vertex_stream_metadata ID_COLUMN).

Lemma gatherVTables_from_Ok (index total_parts : nat) (vstreams : list ObjectID) :
  forall label_id st tables st',
    gatherV_from index total_parts label_id vstreams st = Ok (tables, st') ->
    length tables = length (filter (can_read index total_parts) vstreams) /\
    edge_label_to_index_ st' = edge_label_to_index_ st /\
    edge_vertex_label_ st' = edge_vertex_label_ st /\
    vertex_label_num_ st' = vertex_label_num_ st /\
    edge_label_num_ st' = edge_label_num_ st /\
    (forall l,
       (forall v, In v vstreams -> label_of_stream index total_parts v <> Some l) ->
       StringMap.find l (vertex_label_to_index_ st')
       = StringMap.find l (vertex_label_to_index_ st)) /\
    forall p vstream,
      nth_error vstreams p = Some vstream ->
      can_read index total_parts vstream = true ->
      exists table label,
        read index total_parts vstream = (Status_OK, Some table) /\
        label_of_stream index total_parts vstream = Some label /\
        nth_error tables (length (filter (can_read index total_parts) (firstn p vstreams)))
        = Some (ReplaceSchemaMetadata table (vertex_meta table)) /\
        ((forall p' v', p < p' -> nth_error vstreams p' = Some v' ->
                        label_of_stream index total_parts v' <> Some label) ->
         StringMap.find label (vertex_label_to_index_ st') = Some (label_id + p)).
Proof.
  induction vstreams as [|v rest IH]; intros label_id st tables st' H; simpl in H.
  - inversion H; subst. repeat split; auto. intros [|p] ? Hp; discriminate.
  - unfold readable, vertex_stream_label in *. simpl.
    destruct (read index total_parts v) as [status table] eqn:Hread.
    destruct status; simpl.
    + destruct table as [table|]; [|discriminate].
      fold (vertex_meta table) in H.
      destruct (meta_find LABEL_TAG (vertex_meta table)) as [label|] eqn:Hlabel;
        [|discriminate].
      destruct (gatherV_from index total_parts (S label_id) rest _) as [[tables' st1]| |]
        eqn:Hrest; simpl in H; try discriminate.
      inversion H; subst tables st1. clear H.
      apply IH in Hrest as (Hlen & He & Hev & Hvn & Hen & Hkeep & Hpos).
      simpl in He, Hev, Hvn, Hen, Hkeep.
      split; [simpl; congruence|]. split; [assumption|]. split; [assumption|].
      split; [assumption|]. split; [assumption|]. split.
      * intros l Hno. rewrite Hkeep.
        -- simpl. apply StringMapFacts.add_neq_o. intros ->.
           apply (Hno v); [now left|]. now rewrite Hread.
        -- intros v' Hin. apply Hno. now right.
      * intros [|p] vstream Hp Hok; simpl in Hp.
        -- inversion Hp; subst vstream. rewrite Hread. exists table, label.
           split; [reflexivity|]. split; [assumption|]. split; [reflexivity|].
           intros Hlast. rewrite Hkeep.
           ++ simpl. rewrite StringMapFacts.add_eq_o by reflexivity. f_equal. lia.
           ++ intros v' Hin. apply In_nth_error in Hin as [p' Hp'].
              apply (Hlast (S p') v'); [lia|exact Hp'].
        -- destruct (Hpos p vstream Hp Hok) as (t & l & Hr & Hl & Hnth & Hfind).
           exists t, l. split; [assumption|]. split; [assumption|]. split.
           ++ simpl. rewrite Hread. simpl. exact Hnth.
           ++ intros Hlast. rewrite Hfind; [f_equal; lia|].
              intros p' v' Hlt Hv'. apply (Hlast (S p') v'); [lia|exact Hv'].
    + apply IH in H as (Hlen & He & Hev & Hvn & Hen & Hkeep & Hpos).
      split; [assumption|]. split; [assumption|]. split; [assumption|].
      split; [assumption|]. split; [assumption|]. split.
      * intros l Hno. apply Hkeep. intros v' Hin. apply Hno. now right.
      * intros [|p] vstream Hp Hok; simpl in Hp.
        -- inversion Hp; subst vstream. rewrite Hread in Hok. discriminate.
        -- destruct (Hpos p vstream Hp Hok) as (t & l & Hr & Hl & Hnth & Hfind).
           exists t, l. split; [assumption|]. split; [assumption|]. split.
           ++ simpl. rewrite Hread. simpl. exact Hnth.
           ++ intros Hlast. rewrite Hfind; [f_equal; lia|].
              intros p' v' Hlt Hv'. apply (Hlast (S p') v'); [lia|exact Hv'].
    + apply IH in H as (Hlen & He & Hev & Hvn & Hen & Hkeep & Hpos).
      split; [assumption|]. split; [assumption|]. split; [assumption|].
      split; [assumption|]. split; [assumption|]. split.
      * intros l Hno. apply Hkeep. intros v' Hin. apply Hno. now right.
      * intros [|p] vstream Hp Hok; simpl in Hp.
        -- inversion Hp; subst vstream. rewrite Hread in Hok. discriminate.
        -- destruct (Hpos p vstream Hp Hok) as (t & l & Hr & Hl & Hnth & Hfind).
           exists t, l. split; [assumption|]. split; [assumption|]. split.
           ++ simpl. rewrite Hread. simpl. exact Hnth.
           ++ intros Hlast. rewrite Hfind; [f_equal; lia|].
              intros p' v' Hlt Hv'. apply (Hlast (S p') v'); [lia|exact Hv'].
Qed.

(** X20.  [gatherVTables] returns the tables of the streams it could
    read, in order, with the metadata of the stream's table followed by the
    type and id-column entries.  A stream that cannot be read is skipped, so
    the table of a readable stream sits at the number of readable streams
    before it, while its label is mapped to the position of the stream
    itself when no later stream has that label: after an unreadable stream
    the two differ. *)
Theorem gatherVTables_skips_unreadable (index total_parts : nat)
        (vstreams : list ObjectID) (st : LoaderState)
        (tables : list Table) (st' : LoaderState) :
  gatherV index total_parts vstreams st = Ok (tables, st') ->
  length tables = length (filter (can_read index total_parts) vstreams) /\
  length tables <= length vstreams /\
  forall p vstream,
    nth_error vstreams p = Some vstream ->
    can_read index total_parts vstream = true ->
    exists table label position,
      read index total_parts vstream = (Status_OK, Some table) /\
      label_of_stream index total_parts vstream = Some label /\
      position = length (filter (can_read index total_parts) (firstn p vstreams)) /\
      position <= p /\
      nth_error tables position = Some (ReplaceSchemaMetadata table (vertex_meta table)) /\
      ((forall p' v', p < p' -> nth_error vstreams p' = Some v' ->
                      label_of_stream index total_parts v' <> Some label) ->
       StringMap.find label (vertex_label_to_index_ st') = Some p) /\
      (forall k v, k < p -> nth_error vstreams k = Some v ->
                   can_read index total_parts v = false -> position < p).
Proof.
  intros H. apply gatherVTables_from_Ok in H as (Hlen & _ & _ & _ & _ & _ & Hpos).
  split; [assumption|]. split; [rewrite Hlen; apply filter_length_le|].
  intros p vstream Hp Hok.
  destruct (Hpos p vstream Hp Hok) as (table & label & Hr & Hl & Hnth & Hfind).
  exists table, label, (length (filter (can_read index total_parts) (firstn p vstreams))).
  split; [assumption|]. split; [assumption|]. split; [reflexivity|].
  split; [apply filter_firstn_length|]. split; [assumption|]. split; [exact Hfind|].
  intros k v Hk Hv Hbad. eapply filter_firstn_skipped; eassumption.
Qed.

End GatheredTables.

Lemma gatherVTables_skips_unreadable_witness :
  let read :=
    readTableFromVineyard _ _ example_store example_stream_size example_stream
      example_reader example_object_name in
  let can_read :=
    readable _ _ example_store example_stream_size example_stream
      example_reader example_object_name in
  let gatherV :=
    gatherVTables "id_column" _ _ example_store example_stream_size example_stream
      example_reader example_object_name in
  let label_of_stream :=
    vertex_stream_label "id_column" _ _ example_store example_stream_size example_stream
      example_reader example_object_name in
  let vertex_meta := vertex_stream_metadata "id_column" in
  let vstreams := [1; 2; 3]%Z in
  let st := new_loader 3 0 in
  exists tables st',
    gatherV 0 1 vstreams st = Ok (tables, st') /\
    length tables = length (filter (can_read 0 1) vstreams) /\
    length tables <= length vstreams /\
    forall p vstream,
      nth_error vstreams p = Some vstream ->
      can_read 0 1 vstream = true ->
      exists table label position,
        read 0 1 vstream = (Status_OK, Some table) /\
        label_of_stream 0 1 vstream = Some label /\
        position = length (filter (can_read 0 1) (firstn p vstreams)) /\
        position <= p /\
        nth_error tables position = Some (ReplaceSchemaMetadata table (vertex_meta table)) /\
        ((forall p' v', p < p' -> nth_error vstreams p' = Some v' ->
                        label_of_stream 0 1 v' <> Some label) ->
         StringMap.find label (vertex_label_to_index_ st') = Some p) /\
        (forall k v, k < p -> nth_error vstreams k = Some v ->
                     can_read 0 1 v = false -> position < p).
Proof.
  intros read can_read gatherV label_of_stream vertex_meta vstreams st.
  destruct (gatherV 0 1 vstreams st) as [[tables st']| |] eqn:E;
    try (vm_compute in E; discriminate E).
  exists tables, st'. split; [reflexivity|].
  exact (gatherVTables_skips_unreadable "id_column" _ _ example_store example_stream_size
           example_stream example_reader example_object_name 0 1 vstreams st tables st' E).
Defined.

(** ** Edge tables gathered from streams *)

Section GatheredEdgeTables.

Variables SRC_COLUMN DST_COLUMN SRC_LABEL_ID DST_LABEL_ID : string.
Variables ParallelStream DataframeStream : Type.
Variable GetObject : ObjectID -> option ParallelStream.
Variable GetStreamSize : ParallelStream -> nat.
Variable GetStream : ParallelStream -> nat -> option DataframeStream.
Variable ReadStream : DataframeStream -> Status * option Table.
Variable VYObjectIDToString : ObjectID -> string.

Local Abbreviation read :=
  (readTableFromVineyard ParallelStream DataframeStream GetObject GetStreamSize GetStream
     ReadStream VYObjectIDToString).
Local Abbreviation can_read :=
  (readable ParallelStream DataframeStream GetObject GetStreamSize GetStream ReadStream
     VYObjectIDToString).
Local Abbreviation any_readable :=
  (some_readable ParallelStream DataframeStream GetObject GetStreamSize GetStream
     ReadStream VYObjectIDToString).
Local Abbreviation gather_subs :=
  (gather_sub_tables SRC_COLUMN DST_COLUMN SRC_LABEL_ID DST_LABEL_ID ParallelStream
     DataframeStream GetObject GetStreamSize GetStream ReadStream VYObjectIDToString).
Local Abbreviation gatherE_from :=
  (gatherETables_from SRC_COLUMN DST_COLUMN SRC_LABEL_ID DST_LABEL_ID ParallelStream
     DataframeStream GetObject GetStreamSize GetStream ReadStream VYObjectIDToString).
Local Abbreviation gatherE :=
  (gatherETables SRC_COLUMN DST_COLUMN SRC_LABEL_ID DST_LABEL_ID ParallelStream
     DataframeStream GetObject GetStreamSize GetStream ReadStream VYObjectIDToString).
Local Abbreviation edge_table_from :=
  (gathered_edge_table SRC_COLUMN DST_COLUMN SRC_LABEL_ID DST_LABEL_ID ParallelStream
     DataframeStream GetObject GetStreamSize GetStream ReadStream VYObjectIDToString).
Local Abbreviation label_of_stream :=
  (edge_stream_label SRC_COLUMN DST_COLUMN ParallelStream DataframeStream GetObject
     GetStreamSize GetStream ReadStream VYObjectIDToString).

Lemma gather_sub_tables_Ok (index total_parts : nat) (label_id : label_id_t)
      (sub_label_num : nat) (esubstreams : list ObjectID) :
  forall st subtables st',
    gather_subs index total_parts label_id sub_label_num esubstreams st
    = Ok (subtables, st') ->
    length subtables = length (filter (can_read index total_parts) esubstreams) /\
    vertex_label_to_index_ st' = vertex_label_to_index_ st /\
    vertex_label_num_ st' = vertex_label_num_ st /\
    edge_label_num_ st' = edge_label_num_ st /\
    (forall j estream,
       nth_error esubstreams j = Some estream ->
       can_read index total_parts estream = true ->
       exists t,
         nth_error subtables
           (length (filter (can_read index total_parts) (firstn j esubstreams)))
         = Some t /\
         edge_table_from st index total_parts sub_label_num estream t) /\
    (forall l,
       StringMap.find l (edge_label_to_index_ st) = Some label_id ->
       StringMap.find l (edge_label_to_index_ st') = Some label_id) /\
    (forall l,
       (exists estream,
          In estream esubstreams /\
          label_of_stream sub_label_num index total_parts estream = Some l) ->
       StringMap.find l (edge_label_to_index_ st') = Some label_id) /\
    (forall l,
       (forall estream,
          In estream esubstreams ->
          label_of_stream sub_label_num index total_parts estream <> Some l) ->
       StringMap.find l (edge_label_to_index_ st')
       = StringMap.find l (edge_label_to_index_ st)).
Proof.
  induction esubstreams as [|v rest IH]; intros st subtables st' H; simpl in H.
  - inversion H; subst. repeat split; auto.
    + intros [|j] ? Hj; discriminate.
    + intros l (v & [] & _).
  - destruct (read index total_parts v) as [status table] eqn:Hread.
    assert (Hskip :
      Status_ok status = false ->
      gather_subs index total_parts label_id sub_label_num rest st = Ok (subtables, st') ->
      length subtables = length (filter (can_read index total_parts) (v :: rest)) /\
      vertex_label_to_index_ st' = vertex_label_to_index_ st /\
      vertex_label_num_ st' = vertex_label_num_ st /\
      edge_label_num_ st' = edge_label_num_ st /\
      (forall j estream,
         nth_error (v :: rest) j = Some estream ->
         can_read index total_parts estream = true ->
         exists t,
           nth_error subtables
             (length (filter (can_read index total_parts) (firstn j (v :: rest))))
           = Some t /\
           edge_table_from st index total_parts sub_label_num estream t) /\
      (forall l,
         StringMap.find l (edge_label_to_index_ st) = Some label_id ->
         StringMap.find l (edge_label_to_index_ st') = Some label_id) /\
      (forall l,
         (exists estream,
            In estream (v :: rest) /\
            label_of_stream sub_label_num index total_parts estream = Some l) ->
         StringMap.find l (edge_label_to_index_ st') = Some label_id) /\
      (forall l,
         (forall estream,
            In estream (v :: rest) ->
            label_of_stream sub_label_num index total_parts estream <> Some l) ->
         StringMap.find l (edge_label_to_index_ st')
         = StringMap.find l (edge_label_to_index_ st))).
    { intros Hbad Hrest.
      assert (Hv0 : can_read index total_parts v = false).
      { unfold readable. now rewrite Hread. }
      assert (Hl0 : label_of_stream sub_label_num index total_parts v = None).
      { unfold edge_stream_label. rewrite Hread. destruct status; try reflexivity.
        discriminate. }
      apply IH in Hrest as (Hlen & Hv & Hvn & Hen & Hpos & Hstable & Hset & Hkeep).
      simpl filter. rewrite Hv0.
      split; [assumption|]. split; [assumption|]. split; [assumption|].
      split; [assumption|]. split; [|split; [assumption|split]].
      - intros [|j] estream Hj Hok; simpl in Hj.
        + inversion Hj; subst estream. congruence.
        + simpl. rewrite Hv0. exact (Hpos j estream Hj Hok).
      - intros l (estream & [<-|Hin] & Hl); [congruence|]. apply Hset. eauto.
      - intros l Hno. apply Hkeep. intros estream Hin. apply Hno. now right. }
    destruct status; [|now apply Hskip|now apply Hskip]. clear Hskip.
    destruct table as [table|]; [|discriminate].
    fold (edge_stream_metadata SRC_COLUMN DST_COLUMN sub_label_num table) in H.
    remember (edge_stream_metadata SRC_COLUMN DST_COLUMN sub_label_num table) as meta
      eqn:Hmeta.
    destruct (meta_find LABEL_TAG meta) as [label|] eqn:Hlabel; [|discriminate].
    destruct (meta_find SRC_LABEL_TAG meta) as [src|] eqn:Hsrc; [|discriminate].
    destruct (meta_find DST_LABEL_TAG meta) as [dst|] eqn:Hdst; [|discriminate].
    destruct (StringMap.find src (vertex_label_to_index_ st)) as [src_id|] eqn:Hfs;
      [|discriminate].
    destruct (StringMap.find dst (vertex_label_to_index_ st)) as [dst_id|] eqn:Hfd;
      [|discriminate].
    destruct (gather_subs index total_parts label_id sub_label_num rest _)
      as [[subtables' st1]| |] eqn:Hrest; simpl in H; try discriminate.
    inversion H; subst subtables st1. clear H.
    assert (Hv0 : can_read index total_parts v = true).
    { unfold readable. now rewrite Hread. }
    assert (Hl0 : label_of_stream sub_label_num index total_parts v = Some label).
    { unfold edge_stream_label. rewrite Hread, <- Hmeta. assumption. }
    apply IH in Hrest as (Hlen & Hv & Hvn & Hen & Hpos & Hstable & Hset & Hkeep).
    simpl in Hv, Hvn, Hen, Hkeep, Hstable.
    simpl filter. rewrite Hv0.
    split; [simpl; congruence|]. split; [assumption|]. split; [assumption|].
    split; [assumption|]. split; [|split; [|split]].
    + intros [|j] estream Hj Hok; simpl in Hj.
      * inversion Hj; subst estream. simpl. eexists. split; [reflexivity|].
        exists table, label, src, dst, src_id, dst_id. subst meta. auto 10.
      * simpl. rewrite Hv0. simpl.
        destruct (Hpos j estream Hj Hok)
          as (t & Ht & t0 & l & s & d & si & di & H1 & H2 & H3 & H4 & H5 & H6 & H7).
        exists t. split; [assumption|].
        exists t0, l, s, d, si, di. simpl in H5, H6. auto 10.
    + intros l Hl. apply Hstable.
      destruct (string_dec label l) as [->|Hne].
      * now apply StringMapFacts.add_eq_o.
      * rewrite StringMapFacts.add_neq_o by assumption. assumption.
    + intros l (estream & [<-|Hin] & Hl).
      * rewrite Hl0 in Hl. inversion Hl; subst l.
        apply Hstable. now apply StringMapFacts.add_eq_o.
      * apply Hset. eauto.
    + intros l Hno. rewrite Hkeep.
      * apply StringMapFacts.add_neq_o. intros ->. now apply (Hno v); [left|].
      * intros estream Hin. apply Hno. now right.
Qed.

Lemma filter_nil_length {A : Type} (f : A -> bool) (l : list A) :
  length (filter f l) = 0 <-> existsb f l = false.
Proof.
  induction l as [|x l IH]; simpl; [tauto|].
  destruct (f x); simpl; [split; [lia|discriminate]|exact IH].
Qed.

Lemma gatherETables_from_Ok (index total_parts : nat) (estreams : list (list ObjectID)) :
  forall label_id st tables st',
    gatherE_from index total_parts label_id estreams st = Ok (tables, st') ->
    length tables = length (filter (any_readable index total_parts) estreams) /\
    Forall (fun subtables => subtables <> []) tables /\
    vertex_label_to_index_ st' = vertex_label_to_index_ st /\
    vertex_label_num_ st' = vertex_label_num_ st /\
    edge_label_num_ st' = edge_label_num_ st /\
    (forall l,
       (forall esubstreams estream,
          In esubstreams estreams -> In estream esubstreams ->
          label_of_stream (length esubstreams) index total_parts estream <> Some l) ->
       StringMap.find l (edge_label_to_index_ st')
       = StringMap.find l (edge_label_to_index_ st)) /\
    forall g esubstreams,
      nth_error estreams g = Some esubstreams ->
      any_readable index total_parts esubstreams = true ->
      exists subtables,
        nth_error tables
          (length (filter (any_readable index total_parts) (firstn g estreams)))
        = Some subtables /\
        length subtables = length (filter (can_read index total_parts) esubstreams) /\
        (forall j estream,
           nth_error esubstreams j = Some estream ->
           can_read index total_parts estream = true ->
           exists t,
             nth_error subtables
               (length (filter (can_read index total_parts) (firstn j esubstreams)))
             = Some t /\
             edge_table_from st index total_parts (length esubstreams) estream t) /\
        (forall l,
           (exists estream,
              In estream esubstreams /\
              label_of_stream (length esubstreams) index total_parts estream = Some l) ->
           (forall g' group' estream',
              g < g' -> nth_error estreams g' = Some group' -> In estream' group' ->
              label_of_stream (length group') index total_parts estream' <> Some l) ->
           StringMap.find l (edge_label_to_index_ st') = Some (label_id + g)).
Proof.
  induction estreams as [|group rest IH]; intros label_id st tables st' H; simpl in H.
  - inversion H; subst. repeat split; auto. intros [|g] ? Hg; discriminate.
  - destruct (gather_subs index total_parts label_id (length group) group st)
      as [[subtables st1]| |] eqn:Hsubs; simpl in H; try discriminate.
    destruct (gatherE_from index total_parts (S label_id) rest st1)
      as [[tables' st2]| |] eqn:Hrest; simpl in H; try discriminate.
    inversion H; subst tables st2. clear H.
    apply gather_sub_tables_Ok in Hsubs
      as (Hlen1 & Hv1 & Hvn1 & Hen1 & Hpos1 & _ & Hset1 & Hkeep1).
    apply IH in Hrest as (Hlen & Hne & Hv & Hvn & Hen & Hkeep & Hpos).
    assert (Hany : any_readable index total_parts group
                   = match subtables with [] => false | _ :: _ => true end).
    { unfold some_readable.
      destruct (existsb (can_read index total_parts) group) eqn:E.
      - destruct subtables; [|reflexivity].
        simpl in Hlen1. symmetry in Hlen1. apply filter_nil_length in Hlen1. congruence.
      - apply filter_nil_length in E. rewrite E in Hlen1.
        destruct subtables; [reflexivity|discriminate]. }
    simpl filter. rewrite Hany.
    split; [destruct subtables; simpl; congruence|].
    split; [destruct subtables; [assumption|constructor; [discriminate|assumption]]|].
    split; [congruence|]. split; [congruence|]. split; [congruence|]. split.
    + intros l Hno. rewrite Hkeep.
      * apply Hkeep1. intros estream Hin. apply (Hno group); [now left|assumption].
      * intros subs estream Hin Hin'. apply (Hno subs); [now right|assumption].
    + intros [|g] subs Hg Hok; simpl in Hg.
      * inversion Hg; subst subs. rewrite Hany in Hok.
        destruct subtables as [|t0 ts]; [discriminate|].
        exists (t0 :: ts). simpl. split; [reflexivity|]. split; [assumption|].
        split; [assumption|].
        intros l Hex Hlater. rewrite Hkeep.
        -- rewrite Nat.add_0_r. now apply Hset1.
        -- intros subs' estream' Hin Hin'. apply In_nth_error in Hin as [g' Hg'].
           apply (Hlater (S g') subs' estream'); [lia|exact Hg'|exact Hin'].
      * destruct (Hpos g subs Hg Hok) as (ts & Hnth & Hl & Htab & Hfind).
        exists ts. split.
        { simpl. rewrite Hany. destruct subtables; simpl; exact Hnth. }
        split; [assumption|]. split.
        { intros j estream Hj Hr. destruct (Htab j estream Hj Hr)
            as (t & Ht & t0 & l & s & d & si & di & H1 & H2 & H3 & H4 & H5 & H6 & H7).
          exists t. split; [assumption|]. exists t0, l, s, d, si, di.
          rewrite <- Hv1. auto 10. }
        intros l Hex Hlater. rewrite Hfind; [f_equal; lia|assumption|].
        intros g' group' estream' Hlt Hg' Hin'.
        apply (Hlater (S g') group' estream'); [lia|exact Hg'|exact Hin'].
Qed.

(** X21.  [gatherETables] leaves the vertex label map alone and returns
    one non-empty list of tables for every edge label with a readable
    stream, in order; an edge label none of whose streams can be read
    leaves no entry, so the list of a later label sits at the number of
    readable labels before it, while its label is mapped to the position of
    its streams.  In a list, the readable streams have their tables in
    order, with the number of streams of the label, readable or not, as
    sub_label_num. *)
Theorem gatherETables_drops_unreadable (index total_parts : nat)
        (estreams : list (list ObjectID)) (st : LoaderState)
        (tables : list (list Table)) (st' : LoaderState) :
  gatherE index total_parts estreams st = Ok (tables, st') ->
  length tables = length (filter (any_readable index total_parts) estreams) /\
  Forall (fun subtables => subtables <> []) tables /\
  vertex_label_to_index_ st' = vertex_label_to_index_ st /\
  forall g esubstreams,
    nth_error estreams g = Some esubstreams ->
    any_readable index total_parts esubstreams = true ->
    exists subtables position,
      position = length (filter (any_readable index total_parts) (firstn g estreams)) /\
      position <= g /\
      nth_error tables position = Some subtables /\
      length subtables = length (filter (can_read index total_parts) esubstreams) /\
      (forall j estream,
         nth_error esubstreams j = Some estream ->
         can_read index total_parts estream = true ->
         exists t,
           nth_error subtables
             (length (filter (can_read index total_parts) (firstn j esubstreams)))
           = Some t /\
           edge_table_from st index total_parts (length esubstreams) estream t) /\
      (forall l,
         (exists estream,
            In estream esubstreams /\
            label_of_stream (length esubstreams) index total_parts estream = Some l) ->
         (forall g' group' estream',
            g < g' -> nth_error estreams g' = Some group' -> In estream' group' ->
            label_of_stream (length group') index total_parts estream' <> Some l) ->
         StringMap.find l (edge_label_to_index_ st') = Some g) /\
      (forall k group,
         k < g -> nth_error estreams k = Some group ->
         any_readable index total_parts group = false -> position < g).
Proof.
  intros H. apply gatherETables_from_Ok in H as (Hlen & Hne & Hv & _ & _ & _ & Hpos).
  split; [assumption|]. split; [assumption|]. split; [assumption|].
  intros g subs Hg Hok. destruct (Hpos g subs Hg Hok) as (ts & Hnth & Hl & Htab & Hfind).
  exists ts, (length (filter (any_readable index total_parts) (firstn g estreams))).
  split; [reflexivity|]. split; [apply filter_firstn_length|].
  split; [assumption|]. split; [assumption|]. split; [assumption|].
  split; [exact Hfind|].
  intros k group Hk Hgroup Hbad. eapply filter_firstn_skipped; eassumption.
Qed.

End GatheredEdgeTables.

Lemma gatherETables_drops_unreadable_witness :
  let can_read :=
    readable _ _ example_store example_stream_size example_stream
      example_reader example_object_name in
  let any_readable :=
    some_readable _ _ example_store example_stream_size example_stream
      example_reader example_object_name in
  let gatherE :=
    gatherETables "src_column" "dst_column" "src_label_id" "dst_label_id" _ _
      example_store example_stream_size example_stream example_reader
      example_object_name in
  let edge_table_from :=
    gathered_edge_table "src_column" "dst_column" "src_label_id" "dst_label_id" _ _
      example_store example_stream_size example_stream example_reader
      example_object_name in
  let label_of_stream :=
    edge_stream_label "src_column" "dst_column" _ _
      example_store example_stream_size example_stream example_reader
      example_object_name in
  let estreams := [[2]; [4; 2]]%Z in
  let st := people_and_cities_loader in
  exists tables st',
    gatherE 0 1 estreams st = Ok (tables, st') /\
    length tables = length (filter (any_readable 0 1) estreams) /\
    Forall (fun subtables => subtables <> []) tables /\
    vertex_label_to_index_ st' = vertex_label_to_index_ st /\
    forall g esubstreams,
      nth_error estreams g = Some esubstreams ->
      any_readable 0 1 esubstreams = true ->
      exists subtables position,
        position = length (filter (any_readable 0 1) (firstn g estreams)) /\
        position <= g /\
        nth_error tables position = Some subtables /\
        length subtables = length (filter (can_read 0 1) esubstreams) /\
        (forall j estream,
           nth_error esubstreams j = Some estream ->
           can_read 0 1 estream = true ->
           exists t,
             nth_error subtables
               (length (filter (can_read 0 1) (firstn j esubstreams)))
             = Some t /\
             edge_table_from st 0 1 (length esubstreams) estream t) /\
        (forall l,
           (exists estream,
              In estream esubstreams /\
              label_of_stream (length esubstreams) 0 1 estream = Some l) ->
           (forall g' group' estream',
              g < g' -> nth_error estreams g' = Some group' -> In estream' group' ->
              label_of_stream (length group') 0 1 estream' <> Some l) ->
           StringMap.find l (edge_label_to_index_ st') = Some g) /\
        (forall k group,
           k < g -> nth_error estreams k = Some group ->
           any_readable 0 1 group = false -> position < g).
Proof.
  intros can_read any_readable gatherE edge_table_from label_of_stream estreams st.
  destruct (gatherE 0 1 estreams st) as [[tables st']| |] eqn:E;
    try (vm_compute in E; discriminate E).
  exists tables, st'. split; [reflexivity|].
  exact (gatherETables_drops_unreadable
           "src_column" "dst_column" "src_label_id" "dst_label_id" _ _
           example_store example_stream_size example_stream example_reader
           example_object_name 0 1 estreams st tables st' E).
Defined.

(** ** Moving a column *)

Lemma nth_error_DeleteVectorElement {A : Type} (values : list A) (index i : nat) :
  nth_error (DeleteVectorElement values index) i
  = if Nat.ltb i index then nth_error values i else nth_error values (S i).
Proof.
  unfold DeleteVectorElement.
  destruct (Nat.ltb_spec i index) as [Hlt|Hge].
  - destruct (Nat.lt_ge_cases i (length values)) as [Hi|Hi].
    + rewrite nth_error_app1 by (rewrite length_firstn; lia).
      now rewrite nth_error_firstn, (proj2 (Nat.ltb_lt _ _) Hlt).
    + rewrite (proj2 (nth_error_None values i)) by lia.
      apply nth_error_None. rewrite length_app, length_firstn, length_skipn. lia.
  - destruct (Nat.le_gt_cases (length values) index) as [Hi|Hi].
    + rewrite (proj2 (nth_error_None values (S i))) by lia.
      apply nth_error_None. rewrite length_app, length_firstn, length_skipn. lia.
    + rewrite nth_error_app2 by (rewrite length_firstn; lia).
      rewrite length_firstn, nth_error_skipn. f_equal. lia.
Qed.

Lemma nth_error_AddVectorElement {A : Type} (values : list A) (index i : nat) (x : A) :
  index <= length values ->
  nth_error (AddVectorElement values index x) i
  = if Nat.ltb i index then nth_error values i
    else if Nat.eqb i index then Some x
    else nth_error values (i - 1).
Proof.
  intros Hle. unfold AddVectorElement.
  destruct (Nat.ltb_spec i index) as [Hlt|Hge].
  - rewrite nth_error_app1 by (rewrite length_firstn; lia).
    now rewrite nth_error_firstn, (proj2 (Nat.ltb_lt _ _) Hlt).
  - rewrite nth_error_app2 by (rewrite length_firstn; lia).
    rewrite length_firstn, Nat.min_l by assumption.
    destruct (Nat.eqb_spec i index) as [->|Hne].
    + now rewrite Nat.sub_diag.
    + destruct (i - index) as [|d] eqn:Hd; [lia|]. simpl.
      rewrite nth_error_skipn. f_equal. lia.
Qed.

Lemma length_DeleteVectorElement {A : Type} (values : list A) (index : nat) :
  index < length values ->
  length (DeleteVectorElement values index) = length values - 1.
Proof.
  intros H. unfold DeleteVectorElement.
  rewrite length_app, length_firstn, length_skipn. lia.
Qed.

Lemma length_AddVectorElement {A : Type} (values : list A) (index : nat) (x : A) :
  index <= length values ->
  length (AddVectorElement values index x) = S (length values).
Proof.
  intros H. unfold AddVectorElement.
  rewrite length_app, length_firstn. simpl. rewrite length_skipn. lia.
Qed.

Lemma nth_error_moved {A : Type} (values : list A) (lhs rhs i : nat) (x : A) :
  lhs < rhs -> rhs < length values ->
  nth_error values rhs = Some x ->
  nth_error (AddVectorElement (DeleteVectorElement values rhs) lhs x) i
  = nth_error values (moved_from lhs rhs i).
Proof.
  intros Hlt Hr Hx. unfold moved_from.
  rewrite nth_error_AddVectorElement
    by (rewrite length_DeleteVectorElement; lia).
  rewrite !nth_error_DeleteVectorElement.
  destruct (Nat.ltb_spec i lhs) as [H1|H1].
  - destruct (Nat.eqb_spec i lhs); [lia|].
    destruct (Nat.ltb_spec lhs i); [lia|]. cbn [andb].
    destruct (Nat.ltb_spec i rhs); [reflexivity|lia].
  - destruct (Nat.eqb_spec i lhs) as [->|Hne]; [now rewrite Hx|].
    destruct (Nat.ltb_spec lhs i); [|lia]. cbn [andb].
    destruct (Nat.leb_spec i rhs) as [H2|H2].
    + destruct (Nat.ltb_spec (i - 1) rhs); [reflexivity|lia].
    + destruct (Nat.ltb_spec (i - 1) rhs); [lia|].
      replace (S (i - 1)) with i by lia. reflexivity.
Qed.

(** X22.  For lhs < rhs within the columns of a well-formed table whose
    columns all have the rows of the table, [swapColumn] returns OK and a
    table in which column rhs stands at lhs and the columns from lhs to
    rhs - 1 stand one place further; metadata, number of columns, number of
    rows and well-formedness are kept.  The two columns are swapped only
    when they are adjacent: otherwise position rhs holds the column that
    was at rhs - 1. *)
Theorem swapColumn_moves_column (in_ : Table) (lhs rhs : nat) (out : option Table) :
  well_formed in_ ->
  uniform_rows in_ ->
  lhs < rhs ->
  rhs < num_columns in_ ->
  exists moved,
    swapColumn in_ (Z.of_nat lhs) (Z.of_nat rhs) out = Ok (StatusOK, Some moved) /\
    (forall i,
       Table_field moved i = Table_field in_ (moved_from lhs rhs i) /\
       column moved i = column in_ (moved_from lhs rhs i)) /\
    metadata (schema moved) = metadata (schema in_) /\
    num_columns moved = num_columns in_ /\
    num_rows moved = num_rows in_ /\
    well_formed moved /\
    (rhs = S lhs ->
     column moved lhs = column in_ rhs /\ column moved rhs = column in_ lhs) /\
    (S lhs < rhs -> column moved rhs = column in_ (rhs - 1)).
Proof.
  intros Hwf Huni Hlt Hr.
  pose proof (Forall2_same_length _ _ _ Hwf) as Hlen.
  unfold num_columns, num_fields in Hr.
  destruct (nth_error (fields (schema in_)) rhs) as [f|] eqn:Hf;
    [|apply nth_error_None in Hf; lia].
  destruct (nth_error (columns in_) rhs) as [c|] eqn:Hc;
    [|apply nth_error_None in Hc; lia].
  pose proof (Forall2_lookup _ _ _ Hwf rhs f c Hf Hc) as [Hty _].
  assert (Hrows : ChunkedArray_length c = num_rows in_).
  { unfold uniform_rows in Huni. rewrite Forall_forall in Huni.
    apply Huni. eapply nth_error_In; eassumption. }
  set (moved := {| schema := {| fields := AddVectorElement
                                          (DeleteVectorElement (fields (schema in_)) rhs)
                                          lhs f;
                                metadata := metadata (schema in_) |};
                   columns := AddVectorElement
                                (DeleteVectorElement (columns in_) rhs) lhs c |}).
  assert (Hswap : swapColumn in_ (Z.of_nat lhs) (Z.of_nat rhs) out
                  = Ok (StatusOK, Some moved)).
  { unfold swapColumn, at_index, Table_RemoveColumn, Table_AddColumn.
    destruct (Z.eqb_spec (Z.of_nat lhs) (Z.of_nat rhs)); [lia|].
    destruct (Z.ltb_spec (Z.of_nat rhs) (Z.of_nat lhs)); [lia|].
    destruct (Z.ltb_spec (Z.of_nat rhs) 0); [lia|]. rewrite Nat2Z.id, Hf, Hc.
    unfold num_fields. simpl.
    destruct (Z.leb_spec (Z.of_nat (length (fields (schema in_)))) (Z.of_nat rhs));
      [lia|]. simpl.
    rewrite Hrows, Nat.eqb_refl. simpl.
    rewrite Hty, Equals_refl. simpl.
    destruct (Z.ltb_spec (Z.of_nat lhs) 0); [lia|]. simpl.
    rewrite length_DeleteVectorElement by lia.
    destruct (Z.ltb_spec (Z.of_nat (length (fields (schema in_)) - 1)) (Z.of_nat lhs));
      [lia|].
    rewrite Nat2Z.id. reflexivity. }
  assert (Hpos : forall i,
            Table_field moved i = Table_field in_ (moved_from lhs rhs i) /\
            column moved i = column in_ (moved_from lhs rhs i)).
  { intros i. unfold Table_field, field, column. simpl. split.
    - apply nth_error_moved; [assumption|lia|assumption].
    - apply nth_error_moved; [assumption|lia|assumption]. }
  assert (Hnum : num_columns moved = num_columns in_).
  { unfold num_columns, num_fields. simpl.
    rewrite length_AddVectorElement, length_DeleteVectorElement; try lia.
    rewrite length_DeleteVectorElement; lia. }
  assert (Hin : forall i, i < num_columns in_ -> moved_from lhs rhs i < num_columns in_).
  { intros i Hi. unfold moved_from, num_columns, num_fields in *.
    destruct (Nat.eqb i lhs); [lia|]. destruct (_ && _); lia. }
  exists moved. split; [exact Hswap|]. split; [exact Hpos|]. split; [reflexivity|].
  split; [exact Hnum|]. split; [|split; [|split]].
  - assert (H0 : exists c0, column moved 0 = Some c0 /\ ChunkedArray_length c0 = num_rows in_).
    { destruct (Hpos 0) as [_ H0]. rewrite H0.
      assert (Hi : moved_from lhs rhs 0 < length (columns in_)).
      { rewrite <- Hlen. apply (Hin 0). unfold num_columns, num_fields. lia. }
      unfold column.
      destruct (nth_error (columns in_) (moved_from lhs rhs 0)) as [c0|] eqn:E;
        [|apply nth_error_None in E; lia].
      exists c0. split; [reflexivity|].
      unfold uniform_rows in Huni. rewrite Forall_forall in Huni.
      apply Huni. eapply nth_error_In; eassumption. }
    destruct H0 as (c0 & H0 & Hc0). unfold num_rows at 1. unfold column in H0.
    destruct (columns moved); [discriminate|]. simpl in H0. inversion H0; subst.
    assumption.
  - unfold well_formed. apply Forall2_pointwise.
    + unfold num_columns, num_fields in Hnum. rewrite Hnum. simpl.
      rewrite length_AddVectorElement, length_DeleteVectorElement; try lia.
      rewrite length_DeleteVectorElement; lia.
    + intros i fi ci Hfi Hci. destruct (Hpos i) as [H1 H2].
      unfold Table_field, field in H1. unfold column in H2.
      rewrite Hfi in H1. rewrite Hci in H2.
      exact (Forall2_lookup _ _ _ Hwf _ fi ci (eq_sym H1) (eq_sym H2)).
  - intros ->. destruct (Hpos lhs) as [_ H1]. destruct (Hpos (S lhs)) as [_ H2].
    rewrite H1, H2. unfold moved_from. rewrite Nat.eqb_refl.
    destruct (Nat.eqb_spec (S lhs) lhs); [lia|].
    destruct (Nat.ltb_spec lhs (S lhs)); [|lia].
    destruct (Nat.leb_spec (S lhs) (S lhs)); [|lia]. simpl.
    rewrite Nat.sub_0_r. auto.
  - intros Hfar. destruct (Hpos rhs) as [_ H1]. rewrite H1. unfold moved_from.
    destruct (Nat.eqb_spec rhs lhs); [lia|].
    destruct (Nat.ltb_spec lhs rhs); [|lia].
    destruct (Nat.leb_spec rhs rhs); [|lia]. reflexivity.
Qed.

Lemma swapColumn_moves_column_witness :
  let in_ := three_columns in
  well_formed in_ /\ uniform_rows in_ /\ 0 < 2 /\ 2 < num_columns in_ /\
  exists moved,
    swapColumn in_ 0 2 None = Ok (StatusOK, Some moved) /\
    (forall i,
       Table_field moved i = Table_field in_ (moved_from 0 2 i) /\
       column moved i = column in_ (moved_from 0 2 i)) /\
    metadata (schema moved) = metadata (schema in_) /\
    num_columns moved = num_columns in_ /\
    num_rows moved = num_rows in_ /\
    well_formed moved /\
    (2 = 1 ->
     column moved 0 = column in_ 2 /\ column moved 2 = column in_ 0) /\
    (1 < 2 -> column moved 2 = column in_ (2 - 1)).
Proof.
  intros in_.
  assert (Hu : uniform_rows in_) by (repeat constructor).
  assert (H02 : 0 < 2) by lia.
  assert (H2 : 2 < num_columns in_) by (vm_compute; lia).
  split; [exact three_columns_well_formed|]. split; [exact Hu|].
  split; [exact H02|]. split; [exact H2|].
  exact (swapColumn_moves_column in_ 0 2 None three_columns_well_formed Hu H02 H2).
Defined.

(** X23.  With equal indices [swapColumn] returns OK and leaves the
    caller's output table as it was, since it assigns to its parameter;
    with lhs > rhs it returns the Invalid status and leaves the output as
    it was; with lhs < rhs and lhs negative or rhs past the last column it
    has no defined result. *)
Theorem swapColumn_refusals (in_ : Table) (lhs_index rhs_index : Z) (out : option Table) :
  (lhs_index = rhs_index ->
   swapColumn in_ lhs_index rhs_index out = Ok (StatusOK, out))
  /\ ((rhs_index < lhs_index)%Z ->
      swapColumn in_ lhs_index rhs_index out
      = Ok (StatusInvalid "lhs index must smaller than rhs index.", out))
  /\ ((lhs_index < rhs_index)%Z ->
      (lhs_index < 0 \/ Z.of_nat (num_columns in_) <= rhs_index)%Z ->
      swapColumn in_ lhs_index rhs_index out = Undefined).
Proof.
  unfold swapColumn. split; [|split].
  - intros ->. now rewrite Z.eqb_refl.
  - intros H. destruct (Z.eqb_spec lhs_index rhs_index); [lia|].
    destruct (Z.ltb_spec rhs_index lhs_index); [reflexivity|lia].
  - intros Hlt Hout.
    destruct (Z.eqb_spec lhs_index rhs_index); [lia|].
    destruct (Z.ltb_spec rhs_index lhs_index); [lia|].
    destruct (at_index (fields (schema in_)) rhs_index) as [f|] eqn:Hf; [|reflexivity].
    destruct (at_index (columns in_) rhs_index) as [c|]; [|reflexivity].
    unfold at_index in Hf. destruct (Z.ltb_spec rhs_index 0); [discriminate|].
    assert (Hr : Z.to_nat rhs_index < length (fields (schema in_))).
    { apply nth_error_Some. congruence. }
    unfold num_columns, num_fields in Hout.
    destruct Hout as [Hneg|Hbig]; [|lia].
    unfold Table_RemoveColumn.
    destruct (_ || _)%bool; [reflexivity|].
    unfold Table_AddColumn.
    destruct (negb (Nat.eqb _ _)); [reflexivity|].
    destruct (negb (Equals _ _)); [reflexivity|].
    destruct (Z.ltb_spec lhs_index 0); [reflexivity|lia].
Qed.

Lemma swapColumn_refusals_witness :
  swapColumn three_columns 1 1 None = Ok (StatusOK, None)
  /\ swapColumn three_columns 2 0 None
     = Ok (StatusInvalid "lhs index must smaller than rhs index.", None)
  /\ swapColumn three_columns 0 3 None = Undefined
  /\ swapColumn three_columns (-1) 1 None = Undefined.
Proof.
  split; [|split; [|split]].
  - apply (proj1 (swapColumn_refusals three_columns 1 1 None)). reflexivity.
  - apply (proj1 (proj2 (swapColumn_refusals three_columns 2 0 None))). reflexivity.
  - apply (proj2 (proj2 (swapColumn_refusals three_columns 0 3 None))).
    + reflexivity.
    + right. vm_compute. discriminate.
  - apply (proj2 (proj2 (swapColumn_refusals three_columns (-1) 1 None))).
    + reflexivity.
    + left. reflexivity.
Defined.
